(** * AOloopControl: the real-time control cycle

    A shallow embedding of the per-iteration code of
    [src/AOloopControl/AOloopControl.c] (AdaptiveOpticsControl 1.6.19):

    - [Read_cam_frame]: dark subtraction and flux normalisation;
    - [AOloopControl_run] and [set_DM_modes]: the actuation branch of the
      main loop;
    - [AOloopControl_ComputeOpenLoopModes]: the modal integrator, the
      limit auto-tuner, the clip pass, the DM-history ring and the
      open-loop estimator;
    - [AOloopControl_AutoTuneGains]: the gain sweep.

    Numbers.  The C types [float], [double] and [long double] are modelled
    by one type [float]: an exact rational, or [NaN].  Rounding, overflow,
    infinities and signed zeros are outside the model; a division by zero
    yields [NaN].  A comparison with [NaN] is false, as in C.

    Memory.  A shared-memory image ([data.image[ID].array.F]) is a list,
    read and written by index; an access outside the list is a fault and
    makes the enclosing function return [None].  Images created by
    [create_image_ID] are zero-filled.

    Scheduling.  Semaphores, write flags, update counters, timing
    telemetry and printing carry no data of the control law and are left
    out: one call of an iteration function stands for one pass of the
    loop body on a fresh measurement.  Of a printed line the reads of
    images are kept where their index does not depend on the size of the
    image (the test trace of [AOloopControl_AutoTuneGains]). *)

From Stdlib Require Import ZArith QArith Qcanon Qcabs Lia Lqa.
From stdpp Require Import base option list numbers.

Set Default Proof Using "Type".

(** ** Floating-point values *)

Inductive float : Type :=
  | NaN
  | Fin (q : Qc).

Declare Scope float_scope.
Delimit Scope float_scope with F.
Bind Scope float_scope with float.

Module F.

(** A literal of the source, e.g. [fl 0.01]. *)
Definition fl (q : Q) : float := Fin (Q2Qc q).

(** An integer converted to floating point. *)
Definition of_Z (n : Z) : float := Fin (Q2Qc (inject_Z n)).

Definition zero : float := of_Z 0.
Definition one : float := of_Z 1.

Definition lift2 (op : Qc → Qc → Qc) (x y : float) : float :=
  match x, y with
  | Fin a, Fin b => Fin (op a b)
  | _, _ => NaN
  end.

Definition add : float → float → float := lift2 Qcplus.
Definition sub : float → float → float := lift2 Qcminus.
Definition mul : float → float → float := lift2 Qcmult.

Definition div (x y : float) : float :=
  match x, y with
  | Fin a, Fin b => if decide (b = 0%Qc) then NaN else Fin (a / b)%Qc
  | _, _ => NaN
  end.

Definition opp (x : float) : float :=
  match x with
  | Fin a => Fin (- a)%Qc
  | NaN => NaN
  end.

(** [fabs] *)
Definition abs (x : float) : float :=
  match x with
  | Fin a => Fin (Qcabs a)
  | NaN => NaN
  end.

(** [isnan] *)
Definition isnan (x : float) : bool :=
  match x with
  | NaN => true
  | Fin _ => false
  end.

(** [x < y]; false when either side is [NaN]. *)
Definition ltb (x y : float) : bool :=
  match x, y with
  | Fin a, Fin b => bool_decide (a < b)%Qc
  | _, _ => false
  end.

(** [x > y] *)
Definition gtb (x y : float) : bool := ltb y x.

(** [x == y] *)
Definition eqb (x y : float) : bool :=
  match x, y with
  | Fin a, Fin b => bool_decide (a = b)
  | _, _ => false
  end.

(** The order on values that are not [NaN]. *)
Definition le (x y : float) : Prop :=
  match x, y with
  | Fin a, Fin b => (a ≤ b)%Qc
  | _, _ => False
  end.

Definition finite (x : float) : Prop := isnan x = false.

(** The value as a fraction in lowest terms; [None] for [NaN]. *)
Definition repr (x : float) : option Q :=
  match x with
  | Fin a => Some (this a)
  | NaN => None
  end.

(** [(long) x]: truncation toward zero.  The conversion of [NaN], or of
    a value outside the range of [long], is undefined in C. *)
Definition to_long (x : float) : option Z :=
  match x with
  | Fin a =>
      let n := (Qnum (this a) ÷ Z.pos (Qden (this a)))%Z in
      if decide (- 2 ^ 63 ≤ n < 2 ^ 63)%Z then Some n else None
  | NaN => None
  end.

End F.

Notation "x + y" := (F.add x y) : float_scope.
Notation "x - y" := (F.sub x y) : float_scope.
Notation "x * y" := (F.mul x y) : float_scope.
Notation "x / y" := (F.div x y) : float_scope.
Notation "- x" := (F.opp x) : float_scope.
Notation "x <? y" := (F.ltb x y) : float_scope.
Notation "x >? y" := (F.gtb x y) : float_scope.

(** ** Arrays *)

(** [a[i]] for a C index [i] of type [long]. *)
Definition rd {A} (a : list A) (i : Z) : option A :=
  if decide (0 ≤ i)%Z then a !! Z.to_nat i else None.

(** [a[i] = v] *)
Definition wr {A} (a : list A) (i : Z) (v : A) : option (list A) :=
  if decide (0 ≤ i < Z.of_nat (length a))%Z
  then Some (<[Z.to_nat i := v]> a)
  else None.

(** [for (m = 0; m < n; m++) out[m] = f m;] on an array [out] of [n]
    elements. *)
Definition tabulate {A} (n : nat) (f : nat → option A) : option (list A) :=
  mapM f (seq 0 n).

(** An image of [n] elements, all zero. *)
Definition zeros (n : nat) : list float := replicate n F.zero.

(** [for (m = 0; m < n; m++) body;] on a state [S]. *)
Fixpoint for_loop {S} (ms : list nat) (body : nat → S → option S) (s : S)
    : option S :=
  match ms with
  | [] => Some s
  | m :: ms' => s' ← body m s; for_loop ms' body s'
  end.

Definition for_n {S} (n : nat) (body : nat → S → option S) (s : S)
    : option S :=
  for_loop (seq 0 n) body s.

(** An image that [read_sharedmem_image] may fail to find ([ID == -1]). *)
Definition img (a : option (list float)) (m : nat) : option float :=
  l ← a; l !! m.

(** ** [AOloopControl_ComputeOpenLoopModes] *)

Module OLM.

(** Circular buffer size. *)
Definition modevalDM_bsize : Z := 20.

(** The fields of [AOconf[loop]] the function reads. *)
Record AOconf_t := mkAOconf {
  gain : float;
  mult : float;
  ARPFon : Z;
  ARPFgain : float;
  AUTOTUNE_LIMITS_ON : Z;
  AUTOTUNE_LIMITS_delta : float;
  AUTOTUNE_LIMITS_perc : float;
  AUTOTUNE_LIMITS_mcoeff : float;
  DMmodesNBblock : nat;
  AveStats_NBpt : Z;
  hardwlatency_frame : float;
  wfsmextrlatency_frame : float;
  maxlimit : float                     (* not read by this function *)
}.

(** Images written by other processes and read on every iteration. *)
Record inputs := mkInputs {
  modeval : list float;                (* aol_modeval: WFS measurement *)
  gainb : list float;                  (* aol_gainb *)
  multfb : list float;                 (* aol_multfb *)
  GAIN_modes : list float;             (* aol_DMmode_GAIN *)
  MULTF_modes : option (list float);   (* aol_DMmode_MULTF *)
  modevalPF : option (list float)      (* aol_modevalPF *)
}.

(** Locals of the function and the images it writes. *)
Record state := mkState {
  (* set before the loop *)
  NBmodes : nat;
  modeblock : list nat;                (* also aol_mode_blknb *)
  blockNBmodes : list nat;
  framelatency0 : Z;
  alpha : float;
  FILTERMODE : Z;
  IDmodevalPF : bool;                  (* true: attached, false: -1 *)
  (* DM correction, circular buffer *)
  modevalDM_C : list float;            (* aol_modeval_dm_C *)
  modevalDMindex : Z;
  modevalDMindexl : Z;
  (* limits *)
  LIMIT_modes : option (list float);   (* aol_DMmode_LIMIT *)
  limitb : list float;                 (* aol_limitb *)
  atlimbcoeff : list float;            (* aol_autotune_lim_bcoeff *)
  (* outputs *)
  modevalDMnow : list float;           (* aol_modeval_dm_now *)
  modevalDMnowfilt : list float;       (* aol_modeval_dm_now_filt *)
  modevalDM : list float;              (* aol_modeval_dm *)
  modeval_ol : list float;             (* aol_modeval_ol *)
  (* telemetry *)
  blockavelimFrac : list float;
  allavelimFrac : float;
  blockstatcnt : Z;
  blockave_limFrac : list float;       (* AOconf[loop].blockave_limFrac *)
  ALLave_limFrac : float               (* AOconf[loop].ALLave_limFrac *)
}.

Definition framelatency1 (s : state) : Z := (framelatency0 s + 1)%Z.

(** *** Before the loop *)

(** Read the DM mode files to identify blocks: [imgs] holds the number of
    modes of [aol<loop>_DMmodes00], [..01], ... as found in shared
    memory; a missing file ends the process. *)
Fixpoint load_blocks (imgs : list nat) (NB : nat) (blk : nat)
    (modeblock : list nat) (blockNBmodes : list nat)
    : option (list nat * list nat) :=
  if decide (length modeblock < NB) then
    match imgs with
    | [] => None
    | n :: imgs' =>
        if decide (blk < 100 ∧ length modeblock + n ≤ NB) then
          load_blocks imgs' NB (S blk)
            (modeblock ++ replicate n blk) (blockNBmodes ++ [n])
        else None
    end
  else Some (modeblock, blockNBmodes).

Definition init (c : AOconf_t) (NB : nat) (imgs : list nat)
    (LIMIT : option (list float)) (MULTF : option (list float))
    (PF : option (list float)) (limitb0 : list float)
    : option state :=
  '(mb, bnb) ← load_blocks imgs NB 0 [] [];
  let framelatency :=
    (hardwlatency_frame c + wfsmextrlatency_frame c)%F in
  fl0 ← F.to_long framelatency;
  if decide (DMmodesNBblock c ≤ 100) then
    Some {|
      NBmodes := NB;
      modeblock := mb;
      blockNBmodes := bnb;
      framelatency0 := fl0;
      alpha := (framelatency - F.of_Z fl0)%F;
      FILTERMODE :=
        if LIMIT is None then 0 else if MULTF is None then 0 else 1;
      IDmodevalPF := bool_decide (is_Some PF);
      modevalDM_C := zeros (Z.to_nat modevalDM_bsize * NB);
      modevalDMindex := 0;
      modevalDMindexl := 0;
      LIMIT_modes := LIMIT;
      limitb := limitb0;
      atlimbcoeff := zeros (DMmodesNBblock c);
      modevalDMnow := zeros NB;
      modevalDMnowfilt := zeros NB;
      modevalDM := zeros NB;
      modeval_ol := zeros NB;
      blockavelimFrac := zeros (DMmodesNBblock c);
      allavelimFrac := F.zero;
      blockstatcnt := 0;
      blockave_limFrac := zeros (DMmodesNBblock c);
      ALLave_limFrac := F.zero
    |}
  else None.

(** *** One pass of the [while (1)] body *)

Section iteration.
Context (c : AOconf_t) (i : inputs) (s : state).

(** Write gain, mult, limit into arrays. *)
Definition modegain_at (m : nat) : option float :=
  blk ← modeblock s !! m;
  gb ← gainb i !! blk;
  g ← GAIN_modes i !! m;
  Some (gain c * gb * g)%F.

Definition modemult_at (m : nat) : option float :=
  blk ← modeblock s !! m;
  mb ← multfb i !! blk;
  mf ← img (MULTF_modes i) m;
  Some (mult c * mb * mf)%F.

Definition modelimit_at (m : nat) : option float :=
  blk ← modeblock s !! m;
  lb ← limitb s !! blk;
  l ← img (LIMIT_modes s) m;
  Some (lb * l)%F.

(** Update current DM modes state:
    current state = modemult x (last state - modegain * WFSmodeval). *)
Definition update_DMnow (modegain modemult : list float)
    : option (list float) :=
  tabulate (NBmodes s) (λ m,
    mm ← modemult !! m;
    last ← rd (modevalDM_C s)
              (modevalDMindexl s * Z.of_nat (NBmodes s) + Z.of_nat m);
    mg ← modegain !! m;
    v ← modeval i !! m;
    Some (mm * (last - mg * v))%F).

(** Mix prediction with current DM state.  Returns the mixed state and
    whether the prediction image is attached afterwards. *)
Definition mix_prediction (DMnow : list float)
    : option (list float * bool) :=
  if decide (ARPFon c = 1%Z) then
    if IDmodevalPF s then
      pf ← modevalPF i;
      mixed ← tabulate (NBmodes s) (λ m,
        p ← pf !! m;
        d ← DMnow !! m;
        Some (- ARPFgain c * p + (F.one - ARPFgain c) * d)%F);
      Some (mixed, true)
    else Some (DMnow, bool_decide (is_Some (modevalPF i)))
  else Some (DMnow, IDmodevalPF s).

(** Automatically adjust modal limits: the new limit of a mode whose
    limit is [l], value [v] and effective limit [lim]. *)
Definition tuned_limit (l v lim : float) : float :=
  if (F.abs (AUTOTUNE_LIMITS_mcoeff c * v) >? lim)%F
  then (l * (F.one + AUTOTUNE_LIMITS_delta c))%F
  else (l * (F.one - AUTOTUNE_LIMITS_delta c * F.fl 0.01
                         * AUTOTUNE_LIMITS_perc c))%F.

(** The loop over modes, on the pair ([aol_DMmode_LIMIT],
    [limitblockarray]). *)
Definition autotune_mode (modelimit DMnowfilt : list float) (m : nat)
    (st : list float * list float) : option (list float * list float) :=
  let '(LIMIT, limitblockarray) := st in
  block ← modeblock s !! m;
  v ← DMnowfilt !! m;
  lim ← modelimit !! m;
  l ← LIMIT !! m;
  let l' := tuned_limit l v lim in
  acc ← limitblockarray !! block;
  Some (<[m := l']> LIMIT, <[block := (acc + l')%F]> limitblockarray).

(** The block coefficient, clamped. *)
Definition block_coeff (ave : float) : float :=
  let coeff :=
    (F.one + (ave - F.one) * AUTOTUNE_LIMITS_delta c * F.fl 0.1)%F in
  let coeff :=
    if (coeff <? F.one - AUTOTUNE_LIMITS_delta c)%F
    then (F.one - AUTOTUNE_LIMITS_delta c)%F else coeff in
  if (coeff >? F.one + AUTOTUNE_LIMITS_delta c)%F
  then (F.one + AUTOTUNE_LIMITS_delta c)%F else coeff.

(** The loop over blocks, on the pair ([aol_autotune_lim_bcoeff],
    [aol_limitb]). *)
Definition autotune_block (limitblockarray : list float) (block : nat)
    (st : list float * list float) : option (list float * list float) :=
  let '(atlimb, limb) := st in
  acc ← limitblockarray !! block;
  n ← blockNBmodes s !! block;
  let ave := (acc / F.of_Z (Z.of_nat n))%F in
  atlimb' ← wr atlimb (Z.of_nat block) ave;
  lb ← limb !! block;
  Some (atlimb', <[block := (lb * block_coeff ave)%F]> limb).

(** Returns the new [aol_DMmode_LIMIT], [aol_limitb] and
    [aol_autotune_lim_bcoeff]. *)
Definition autotune_limits (modelimit DMnowfilt : list float)
    : option (option (list float) * list float * list float) :=
  if decide (AUTOTUNE_LIMITS_ON c = 1%Z) then
    LIMIT ← LIMIT_modes s;
    '(LIMIT', limitblockarray) ←
      for_n (NBmodes s) (autotune_mode modelimit DMnowfilt)
            (LIMIT, zeros (DMmodesNBblock c));
    '(atlimb', limb') ←
      for_n (DMmodesNBblock c) (autotune_block limitblockarray)
            (atlimbcoeff s, limitb s);
    Some (Some LIMIT', limb', atlimb')
  else Some (LIMIT_modes s, limitb s, atlimbcoeff s).

(** Filtering: the loop over modes, on the pair
    ([aol_modeval_dm_now_filt], [blockavelimFrac]). *)
Definition clip_mode (modelimit : list float) (m : nat)
    (st : list float * list float) : option (list float * list float) :=
  let '(filt, limFrac) := st in
  block ← modeblock s !! m;
  lim ← modelimit !! m;
  v ← filt !! m;
  '(filt, limFrac) ←
    (if (v >? lim)%F then
       n ← limFrac !! block;
       Some (<[m := lim]> filt, <[block := (n + F.one)%F]> limFrac)
     else Some (filt, limFrac));
  v ← filt !! m;
  if (v <? - lim)%F then
    n ← limFrac !! block;
    Some (<[m := (- lim)%F]> filt, <[block := (n + F.one)%F]> limFrac)
  else Some (filt, limFrac).

Definition clip_pass (modelimit DMnowfilt : list float)
    : option (list float * list float) :=
  if decide (FILTERMODE s = 1%Z) then
    for_n (NBmodes s) (clip_mode modelimit)
          (DMnowfilt, blockavelimFrac s)
  else Some (DMnowfilt, blockavelimFrac s).

(** Update current location of DM correction circular buffer. *)
Definition commit (DMnowfilt : list float) : option (list float) :=
  for_n (NBmodes s) (λ m ring,
    v ← DMnowfilt !! m;
    wr ring (modevalDMindex s * Z.of_nat (NBmodes s) + Z.of_nat m) v)
    (modevalDM_C s).

(** Compute DM state at time of WFS measurement: linear interpolation
    between nearest two values. *)
Definition wrap_index (idx : Z) : Z :=
  if decide (idx < 0)%Z then (idx + modevalDM_bsize)%Z else idx.

Definition modevalDMindex0 : Z :=
  wrap_index (modevalDMindex s - framelatency0 s).

Definition modevalDMindex1 : Z :=
  wrap_index (modevalDMindex s - framelatency1 s).

Definition interpolate (ring : list float) : option (list float) :=
  tabulate (NBmodes s) (λ m,
    a ← rd ring (modevalDMindex0 * Z.of_nat (NBmodes s) + Z.of_nat m);
    b ← rd ring (modevalDMindex1 * Z.of_nat (NBmodes s) + Z.of_nat m);
    Some ((F.one - alpha s) * a + alpha s * b)%F).

(** Open loop state = most recent WFS reading - time-lagged DM. *)
Definition open_loop (DM : list float) : option (list float) :=
  tabulate (NBmodes s) (λ m,
    v ← modeval i !! m;
    d ← DM !! m;
    Some (v - d)%F).

Definition next_index : Z :=
  if decide (modevalDMindex s + 1 = modevalDM_bsize)%Z then 0%Z
  else (modevalDMindex s + 1)%Z.

(** Telemetry: the clip fraction, published every [AveStats_NBpt]
    passes.  The loop over blocks, on the triple
    ([AOconf.blockave_limFrac], [allavelimFrac], [blockavelimFrac]). *)
Definition publish_block (cnt : Z) (block : nat)
    (st : list float * float * list float)
    : option (list float * float * list float) :=
  let '(pub, allave, limFrac) := st in
  n ← limFrac !! block;
  pub' ← wr pub (Z.of_nat block) (n / F.of_Z cnt)%F;
  Some (pub', (allave + n)%F, <[block := F.zero]> limFrac).

(** Returns [blockavelimFrac], [allavelimFrac], [blockstatcnt],
    [AOconf.blockave_limFrac] and [AOconf.ALLave_limFrac]. *)
Definition telemetry (limFrac : list float)
    : option (list float * float * Z * list float * float) :=
  let cnt := (blockstatcnt s + 1)%Z in
  if decide (cnt = AveStats_NBpt c) then
    '(pub, allave, limFrac') ←
      for_n (DMmodesNBblock c) (publish_block cnt)
            (blockave_limFrac s, allavelimFrac s, limFrac);
    Some (limFrac', F.zero, 0%Z, pub, (allave / F.of_Z cnt)%F)
  else
    Some (limFrac, allavelimFrac s, cnt,
          blockave_limFrac s, ALLave_limFrac s).

Definition iteration : option state :=
  modegain ← tabulate (NBmodes s) modegain_at;
  modemult ← tabulate (NBmodes s) modemult_at;
  modelimit ← tabulate (NBmodes s) modelimit_at;
  DMnow0 ← update_DMnow modegain modemult;
  '(DMnow, PF) ← mix_prediction DMnow0;
  '(LIMIT', limb', atlimb') ← autotune_limits modelimit DMnow;
  '(DMnowfilt, limFrac) ← clip_pass modelimit DMnow;
  ring ← commit DMnowfilt;
  DM ← interpolate ring;
  out ← open_loop DM;
  '(limFrac', allave', cnt', pub, puball) ← telemetry limFrac;
  Some {|
    NBmodes := NBmodes s;
    modeblock := modeblock s;
    blockNBmodes := blockNBmodes s;
    framelatency0 := framelatency0 s;
    alpha := alpha s;
    FILTERMODE := FILTERMODE s;
    IDmodevalPF := PF;
    modevalDM_C := ring;
    modevalDMindex := next_index;
    modevalDMindexl := modevalDMindex s;
    LIMIT_modes := LIMIT';
    limitb := limb';
    atlimbcoeff := atlimb';
    modevalDMnow := DMnow;
    modevalDMnowfilt := DMnowfilt;
    modevalDM := DM;
    modeval_ol := out;
    blockavelimFrac := limFrac';
    allavelimFrac := allave';
    blockstatcnt := cnt';
    blockave_limFrac := pub;
    ALLave_limFrac := puball
  |}.

End iteration.

(** *** What the loops over modes leave, mode by mode and block by block *)

(** A value after the two tests of the filtering loop. *)
Definition clip (v lim : float) : float :=
  let v := if (v >? lim)%F then lim else v in
  if (v <? - lim)%F then (- lim)%F else v.

(** How many times the filtering loop counts a mode. *)
Definition clip_events (v lim : float) : nat :=
  (if (v >? lim)%F then 1 else 0)
  + (if ((if (v >? lim)%F then lim else v) <? - lim)%F then 1 else 0).

(** A counter after [n] additions of [1.0]. *)
Definition bump (n : nat) (x : float) : float :=
  (x + F.of_Z (Z.of_nat n))%F.

(** The counts of the modes [m < k] of block [b]. *)
Definition clip_count (s : state) (modelimit DMnow : list float)
    (b k : nat) : nat :=
  sum_list_with (λ m,
    match modeblock s !! m, modelimit !! m, DMnow !! m with
    | Some b', Some lim, Some v =>
        if decide (b' = b) then clip_events v lim else 0
    | _, _, _ => 0
    end) (seq 0 k).

(** The sum of [LIMIT[m]] over the modes [m < k] of block [b], in the
    order of the loop. *)
Definition block_sum (s : state) (LIMIT : list float) (b k : nat) : float :=
  foldl (λ acc m,
    match modeblock s !! m, LIMIT !! m with
    | Some b', Some l => if decide (b' = b) then (acc + l)%F else acc
    | _, _ => acc
    end) F.zero (seq 0 k).

(** *** Runs *)

(** Another process sets the modal or block limits
    ([AOloopControl_setlimitrange], [AOloopControl_setlimitblock]). *)
Definition set_limits (s : state) (LIMIT : option (list float))
    (limb : list float) : state :=
  {| NBmodes := NBmodes s; modeblock := modeblock s;
     blockNBmodes := blockNBmodes s; framelatency0 := framelatency0 s;
     alpha := alpha s; FILTERMODE := FILTERMODE s;
     IDmodevalPF := IDmodevalPF s; modevalDM_C := modevalDM_C s;
     modevalDMindex := modevalDMindex s;
     modevalDMindexl := modevalDMindexl s;
     LIMIT_modes := LIMIT; limitb := limb;
     atlimbcoeff := atlimbcoeff s; modevalDMnow := modevalDMnow s;
     modevalDMnowfilt := modevalDMnowfilt s; modevalDM := modevalDM s;
     modeval_ol := modeval_ol s; blockavelimFrac := blockavelimFrac s;
     allavelimFrac := allavelimFrac s; blockstatcnt := blockstatcnt s;
     blockave_limFrac := blockave_limFrac s;
     ALLave_limFrac := ALLave_limFrac s |}.

(** The states of a run started with configuration [c0]: each pass sees
    the configuration and the input images of its own time. *)
Inductive reachable (c0 : AOconf_t) : state → Prop :=
  | reach_init NB imgs LIMIT MULTF PF limitb0 s :
      init c0 NB imgs LIMIT MULTF PF limitb0 = Some s →
      reachable c0 s
  | reach_iteration c i s s' :
      reachable c0 s →
      iteration c i s = Some s' →
      reachable c0 s'
  | reach_set_limits s LIMIT limb :
      reachable c0 s →
      reachable c0 (set_limits s LIMIT limb).

(** Total lag, in frames. *)
Definition framelatency (c0 : AOconf_t) : float :=
  (hardwlatency_frame c0 + wfsmextrlatency_frame c0)%F.

(** What a pass relies on in the locals. *)
Record wf (c0 : AOconf_t) (s : state) : Prop := mkWf {
  wf_ring :
    length (modevalDM_C s) = (Z.to_nat modevalDM_bsize * NBmodes s)%nat;
  wf_index : (0 ≤ modevalDMindex s < modevalDM_bsize)%Z;
  wf_indexl : (0 ≤ modevalDMindexl s < modevalDM_bsize)%Z;
  wf_modeblock : length (modeblock s) = NBmodes s;
  wf_latency0 : F.to_long (framelatency c0) = Some (framelatency0 s);
  wf_alpha : alpha s = (framelatency c0 - F.of_Z (framelatency0 s))%F;
  wf_last :
    ∀ m, m < NBmodes s →
      rd (modevalDM_C s)
         (modevalDMindexl s * Z.of_nat (NBmodes s) + Z.of_nat m)
      = modevalDMnowfilt s !! m
}.

(** The images a pass reads are large enough for the modes and the
    blocks. *)
Record inputs_ok (c : AOconf_t) (i : inputs) (s : state) : Prop :=
  mkInputsOk {
  ok_modeval : NBmodes s ≤ length (modeval i);
  ok_GAIN : NBmodes s ≤ length (GAIN_modes i);
  ok_MULTF : ∃ mf, MULTF_modes i = Some mf ∧ NBmodes s ≤ length mf;
  ok_LIMIT : ∃ l, LIMIT_modes s = Some l ∧ NBmodes s ≤ length l;
  ok_blocks :
    Forall (λ b, b < length (gainb i) ∧ b < length (multfb i)
                 ∧ b < length (limitb s) ∧ b < length (blockavelimFrac s))
           (modeblock s);
  ok_PF :
    ARPFon c = 1%Z → IDmodevalPF s = true →
    ∃ pf, modevalPF i = Some pf ∧ NBmodes s ≤ length pf;
  ok_autotune :
    AUTOTUNE_LIMITS_ON c = 1%Z →
    Forall (λ b, b < DMmodesNBblock c) (modeblock s)
    ∧ DMmodesNBblock c ≤ length (blockNBmodes s)
    ∧ DMmodesNBblock c ≤ length (atlimbcoeff s)
    ∧ DMmodesNBblock c ≤ length (limitb s);
  ok_telemetry :
    (blockstatcnt s + 1 = AveStats_NBpt c)%Z →
    DMmodesNBblock c ≤ length (blockavelimFrac s)
    ∧ DMmodesNBblock c ≤ length (blockave_limFrac s)
}.

End OLM.

(** ** [Read_cam_frame] *)

Module RCF.

(** [data.image[aoconfID_wfsim].array], by [md[0].atype]. *)
Inductive wfs_array : Type :=
  | DATATYPE_FLOAT (F : list float)
  | DATATYPE_UINT16 (UI16 : list Z)
  | DATATYPE_other.

Record wfsim_t := mkWfsim {
  array : wfs_array;
  naxis : Z;
  cnt1 : Z;
  size2 : Z
}.

(** Configuration, globals and input images. *)
Record env := mkEnv {
  sizeWFS : nat;                           (* AOconf[loop].sizeWFS *)
  WFSnormfloor : float;                    (* AOconf[loop].WFSnormfloor *)
  AOLCOMPUTE_TOTAL_ASYNC : Z;
  COMPUTE_GPU_SCALING : Z;
  wfsim : wfsim_t;                         (* aol_wfsim *)
  wfsdark : list float;                    (* aol_wfsdark *)
  wfsmask : option (list float)            (* aol_wfsmask *)
}.

Record state := mkState {
  imWFS0 : list float;
  imWFS1 : list float;
  WFStotalflux : float;                    (* AOconf[loop].WFStotalflux *)
  IMTOTAL : float;
  AOLCOMPUTE_TOTAL_INIT : Z;
  normfloorcoeff : float;
  GPU_alpha : float;
  GPU_beta : float
}.

(** [memcpy(dst, src + off, n)] *)
Definition memcpy {A} (src : list A) (off : Z) (n : nat) : option (list A) :=
  if decide (0 ≤ off ∧ off + Z.of_nat n ≤ Z.of_nat (length src))%Z
  then Some (take n (drop (Z.to_nat off) src))
  else None.

Section Read_cam_frame.
Context (e : env) (RM normalize : Z) (s : state).

(** The current slice of a ring buffer. *)
Definition slice : Z :=
  if decide (naxis (wfsim e) = 3%Z) then
    if decide (cnt1 (wfsim e) = (-1)%Z) then size2 (wfsim e)
    else cnt1 (wfsim e)
  else 0%Z.

(** Copy the frame to [arrayftmp] or [arrayutmp]; an unsupported data
    type ends the process. *)
Definition load_frame : option (list float) :=
  match array (wfsim e) with
  | DATATYPE_FLOAT a =>
      memcpy a (slice * Z.of_nat (sizeWFS e)) (sizeWFS e)
  | DATATYPE_UINT16 a =>
      arrayutmp ← memcpy a (slice * Z.of_nat (sizeWFS e)) (sizeWFS e);
      Some (map F.of_Z arrayutmp)
  | DATATYPE_other => None
  end.

(** Dark subtract.  The single-thread loop and the worker threads,
    each on its own range of pixels, store the same values. *)
Definition dark_subtract (frame : list float) : option (list float) :=
  tabulate (sizeWFS e) (λ ii,
    a ← frame !! ii;
    d ← wfsdark e !! ii;
    Some (a - d)%F).

(** Total of the image, in the main thread. *)
Definition compute_total (im0 : list float) : option float :=
  match wfsmask e with
  | Some mask =>
      for_n (length im0) (λ ii tot,
        x ← im0 !! ii; w ← mask !! ii; Some (tot + x * w)%F) F.zero
  | None =>
      for_n (length im0) (λ ii tot,
        x ← im0 !! ii; Some (tot + x)%F) F.zero
  end.

Definition Read_cam_frame : option state :=
  frame ← load_frame;
  im0 ← dark_subtract frame;
  '(flux, imtotal, totinit) ←
    (if decide (normalize = 1%Z) then
       if decide (AOLCOMPUTE_TOTAL_ASYNC e = 0%Z
                  ∨ AOLCOMPUTE_TOTAL_INIT s = 0%Z ∨ RM = 1%Z)
       then tot ← compute_total im0; Some (tot, tot, 1%Z)
       else (* total from last loop *)
         Some (IMTOTAL s, IMTOTAL s, AOLCOMPUTE_TOTAL_INIT s)
     else Some (WFStotalflux s, IMTOTAL s, AOLCOMPUTE_TOTAL_INIT s));
  let nelem := sizeWFS e in
  let denom := (flux + WFSnormfloor e * F.of_Z (Z.of_nat (sizeWFS e)))%F in
  let totalinv :=
    if decide (normalize = 1%Z) then (F.one / denom)%F else F.one in
  let nfc :=
    if decide (normalize = 1%Z) then (flux / denom)%F else F.one in
  im1 ←
    (if decide ((COMPUTE_GPU_SCALING e = 0%Z ∧ RM = 0%Z) ∨ RM = 1%Z)
     then tabulate nelem (λ ii, x ← im0 !! ii; Some (x * totalinv)%F)
     else Some (imWFS1 s));
  Some {|
    imWFS0 := im0;
    imWFS1 := im1;
    WFStotalflux := flux;
    IMTOTAL := imtotal;
    AOLCOMPUTE_TOTAL_INIT := totinit;
    normfloorcoeff := nfc;
    GPU_alpha := totalinv;
    GPU_beta := (- nfc)%F
  |}.

End Read_cam_frame.

(** A state before the first frame. *)
Definition start (n : nat) : state :=
  {| imWFS0 := zeros n; imWFS1 := zeros n; WFStotalflux := F.zero;
     IMTOTAL := F.zero; AOLCOMPUTE_TOTAL_INIT := 0;
     normfloorcoeff := F.one; GPU_alpha := F.zero; GPU_beta := F.zero |}.

End RCF.

(** ** [AOloopControl_run]: modal integration in [AOcompute], [set_DM_modes]
    and the actuation branch of the loop body *)

Module RUN.

(** What the loop body does to the DM, in order. *)
Inductive event : Type :=
  | EV_modes_to_DM     (* the mode-basis multiply of [set_DM_modes] *)
  | EV_dmC_written.    (* [aol_dmC] written and its counter incremented *)

(** The fields of [AOconf[loop]] and the calibration images the loop
    body reads. *)
Record env := mkEnv {
  CMMODE : Z;
  DMprimaryWrite_ON : Z;
  gain : float;
  mult : float;
  maxlimit : float;
  sizeDM : nat;
  NBDMmodes : nat;
  GPU1 : Z;
  HAVE_CUDA : bool;
  cntmax : Z;
  GAIN_modes : list float;
  LIMIT_modes : list float;
  MULTF_modes : list float;
  DMmodes : list float                 (* NBDMmodes x sizeDM *)
}.

Record state := mkState {
  meas_modes : list float;             (* aol_meas_modes *)
  meas_act : list float;               (* aol_meas_act *)
  cmd_modes : list float;              (* aol_DMmode_cmd *)
  RMS_modes : list float;
  AVE_modes : list float;
  RMSmodes : float;
  RMSmodesCumul : float;
  RMSmodesCumulcnt : Z;
  dmC : list float;                    (* aol_dmC *)
  dmC_cnt0 : Z;
  DMupdatecnt : Z;
  cnt : Z;
  on : Z;
  trace : list event
}.

Section body.
Context (e : env).

(** The end of [AOcompute], after the control-matrix multiply has
    stored the measured coefficients: multiplying by gains.  The new
    command of a mode. *)
Definition integrated (cm g lim mf x : float) : float :=
  let cm := (cm - gain e * g * x)%F in
  let cm :=
    if (cm <? - maxlimit e * lim)%F then (- maxlimit e * lim)%F else cm in
  let cm :=
    if (cm >? maxlimit e * lim)%F then (maxlimit e * lim)%F else cm in
  (cm * (mult e * mf))%F.

Definition integrate_mode (meas : list float) (k : nat)
    (st : list float * list float * list float)
    : option (list float * list float * list float) :=
  let '(rms, ave, cmd) := st in
  x ← meas !! k;
  r ← rms !! k;
  a ← ave !! k;
  cm ← cmd !! k;
  g ← GAIN_modes e !! k;
  lim ← LIMIT_modes e !! k;
  mf ← MULTF_modes e !! k;
  Some (<[k := (F.fl 0.99 * r + F.fl 0.01 * x * x)%F]> rms,
        <[k := (F.fl 0.99 * a + F.fl 0.01 * x)%F]> ave,
        <[k := integrated cm g lim mf x]> cmd).

Definition AOcompute_gains (s : state) : option state :=
  if decide (CMMODE e = 0%Z) then
    rmsm ← for_n (NBDMmodes e) (λ k acc,
              x ← meas_modes s !! k; Some (acc + x * x)%F) F.zero;
    '(rms, ave, cmd) ←
      for_n (NBDMmodes e) (integrate_mode (meas_modes s))
            (RMS_modes s, AVE_modes s, cmd_modes s);
    Some {|
      meas_modes := meas_modes s; meas_act := meas_act s;
      cmd_modes := cmd; RMS_modes := rms; AVE_modes := ave;
      RMSmodes := rmsm;
      RMSmodesCumul := (RMSmodesCumul s + rmsm)%F;
      RMSmodesCumulcnt := (RMSmodesCumulcnt s + 1)%Z;
      dmC := dmC s; dmC_cnt0 := dmC_cnt0 s;
      DMupdatecnt := DMupdatecnt s; cnt := cnt s; on := on s;
      trace := trace s
    |}
  else Some s.

(** [arrayf[i] += cmd_modes[k] * DMmodes[k*sizeDM+i]] *)
Definition modes_to_DM (cmd : list float) : option (list float) :=
  tabulate (sizeDM e) (λ i,
    for_n (NBDMmodes e) (λ k acc,
      cm ← cmd !! k;
      d ← DMmodes e !! (k * sizeDM e + i);
      Some (acc + cm * d)%F) F.zero).

(** With [GPU1 != 0] the multiply is done by the GPU service into
    [aol_dmC]; without CUDA nothing is computed. *)
Definition set_DM_modes (s : state) : option state :=
  '(dm, cnt0, tr) ←
    (if bool_decide (GPU1 e = 0%Z) || HAVE_CUDA e then
       arrayf ← modes_to_DM (cmd_modes s);
       if decide (sizeDM e ≤ length (dmC s)) then
         Some (arrayf ++ drop (sizeDM e) (dmC s), (dmC_cnt0 s + 1)%Z,
               trace s ++ [EV_modes_to_DM; EV_dmC_written])
       else None
     else Some (dmC s, dmC_cnt0 s, trace s));
  Some {|
    meas_modes := meas_modes s; meas_act := meas_act s;
    cmd_modes := cmd_modes s; RMS_modes := RMS_modes s;
    AVE_modes := AVE_modes s; RMSmodes := RMSmodes s;
    RMSmodesCumul := RMSmodesCumul s;
    RMSmodesCumulcnt := RMSmodesCumulcnt s;
    dmC := dm; dmC_cnt0 := cnt0;
    DMupdatecnt := (DMupdatecnt s + 1)%Z; cnt := cnt s; on := on s;
    trace := tr
  |}.

(** 1 step, WFS -> DM act: replace NaN measurements by 0. *)
Definition sanitized (x : float) : float :=
  if F.isnan x then F.zero else x.

Definition sanitize (meas : list float) : option (list float) :=
  for_n (sizeDM e) (λ ii act,
    x ← act !! ii;
    Some (if F.isnan x then <[ii := F.zero]> act else act)) meas.

(** 1 step, WFS -> DM act: integrate and enforce limits. *)
Definition direct_value (d x : float) : float :=
  let d := (d - gain e * x)%F in
  let d := (d * mult e)%F in
  let d := if (d >? maxlimit e)%F then maxlimit e else d in
  if (d <? - maxlimit e)%F then (- maxlimit e)%F else d.

Definition direct_update (act : list float) (dm : list float)
    : option (list float) :=
  for_n (sizeDM e) (λ ii dm,
    x ← act !! ii;
    d ← dm !! ii;
    Some (<[ii := direct_value d x]> dm)) dm.

(** The branch of the loop body that follows [AOcompute]. *)
Definition actuate (s : state) : option state :=
  if decide (CMMODE e = 0%Z) then
    (* 2-step: WFS -> mode coeffs -> DM act *)
    if decide (DMprimaryWrite_ON e = 1%Z) then
      if (F.abs (gain e) >? F.fl 1.0e-6)%F then set_DM_modes s
      else Some s
    else Some s
  else
    (* 1 step: WFS -> DM act *)
    if decide (DMprimaryWrite_ON e = 1%Z) then
      act ← sanitize (meas_act s);
      dm ← direct_update act (dmC s);
      Some {|
        meas_modes := meas_modes s; meas_act := act;
        cmd_modes := cmd_modes s; RMS_modes := RMS_modes s;
        AVE_modes := AVE_modes s; RMSmodes := RMSmodes s;
        RMSmodesCumul := RMSmodesCumul s;
        RMSmodesCumulcnt := RMSmodesCumulcnt s;
        dmC := dm; dmC_cnt0 := (dmC_cnt0 s + 1)%Z;
        DMupdatecnt := (DMupdatecnt s + 1)%Z; cnt := cnt s; on := on s;
        trace := trace s ++ [EV_dmC_written]
      |}
    else Some s.

(** One pass of [while (AOconf[loop].on == 1)]; [meas] is what the
    control-matrix multiply of [AOcompute] stores: mode coefficients
    in 2-step mode, actuator values otherwise. *)
Definition loop_body (meas : list float) (s : state) : option state :=
  let s1 := {|
    meas_modes := if decide (CMMODE e = 0%Z) then meas else meas_modes s;
    meas_act := if decide (CMMODE e = 0%Z) then meas_act s else meas;
    cmd_modes := cmd_modes s; RMS_modes := RMS_modes s;
    AVE_modes := AVE_modes s; RMSmodes := RMSmodes s;
    RMSmodesCumul := RMSmodesCumul s;
    RMSmodesCumulcnt := RMSmodesCumulcnt s;
    dmC := dmC s; dmC_cnt0 := dmC_cnt0 s;
    DMupdatecnt := DMupdatecnt s; cnt := cnt s; on := on s;
    trace := trace s
  |} in
  s2 ← AOcompute_gains s1;
  s3 ← actuate s2;
  Some {|
    meas_modes := meas_modes s3; meas_act := meas_act s3;
    cmd_modes := cmd_modes s3; RMS_modes := RMS_modes s3;
    AVE_modes := AVE_modes s3; RMSmodes := RMSmodes s3;
    RMSmodesCumul := RMSmodesCumul s3;
    RMSmodesCumulcnt := RMSmodesCumulcnt s3;
    dmC := dmC s3; dmC_cnt0 := dmC_cnt0 s3;
    DMupdatecnt := DMupdatecnt s3;
    cnt := (cnt s3 + 1)%Z;
    on := if decide (cnt s3 + 1 = cntmax e)%Z then 0%Z else on s3;
    trace := trace s3
  |}.

End body.

(** The images are large enough for the modes of the loop. *)
Record sizes_ok (e : env) (meas : list float) (s : state) : Prop :=
  mkSizesOk {
  ok_meas : NBDMmodes e ≤ length meas;
  ok_cmd : NBDMmodes e ≤ length (cmd_modes s);
  ok_RMS : NBDMmodes e ≤ length (RMS_modes s);
  ok_AVE : NBDMmodes e ≤ length (AVE_modes s);
  ok_GAIN : NBDMmodes e ≤ length (GAIN_modes e);
  ok_LIMIT : NBDMmodes e ≤ length (LIMIT_modes e);
  ok_MULTF : NBDMmodes e ≤ length (MULTF_modes e)
}.

End RUN.

(** ** [AOloopControl_AutoTuneGains] *)

Module ATG.

Definition mingain : float := F.fl 0.01.
Definition gainfactstep : float := F.fl 1.05.

(** [AOconf[loop].AUTOTUNEGAIN_evolTimescale = 0.05] *)
Definition AUTOTUNEGAIN_evolTimescale : float := F.fl 0.05.

Record AOconf_t := mkAOconf {
  loopfrequ : float;
  hardwlatency_frame : float;
  wfsmextrlatency_frame : float
}.

(** [while (gain < 1.0) { gain *= gainfactstep; NBgain++; }] *)
Fixpoint count_gains (fuel : nat) (gain : float) (NBgain : nat)
    : option nat :=
  match fuel with
  | O => None
  | S fuel' =>
      if (gain <? F.one)%F
      then count_gains fuel' (gain * gainfactstep)%F (S NBgain)
      else Some NBgain
  end.

(** The rows [(gainval_array[kk], gainval1_array[kk], gainval2_array[kk])]
    for [kk] from the current one up to [NBgain]. *)
Fixpoint gain_rows (n : nat) (gain latency gain0 : float)
    : list (float * float * float) :=
  match n with
  | O => []
  | S n' =>
      (gain,
       ((latency + F.one / gain) * (latency + F.one / (gain + gain0)))%F,
       (gain / (F.one - gain))%F)
      :: gain_rows n' (gain * gainfactstep)%F latency gain0
  end.

(** The value of [gain] after [k] passes of either loop:
    [mingain * gainfactstep^k]. *)
Definition sweep (k : nat) : float :=
  Nat.iter k (λ gain, (gain * gainfactstep)%F) mingain.

(** Per-mode locals of the measurement loop. *)
Record mstat := mkMstat {
  mvalOL1 : float; mvalOL2 : float; mvalOL3 : float; mvalOL4 : float;
  ave0 : float; sig0 : float;
  sig1 : float; sig2 : float; sig3 : float; sig4 : float
}.

(** Before the loop; [array_mvalOL3] and [array_mvalOL4] come from
    [malloc] and are not set: [g3] and [g4] are what they hold. *)
Definition mstat0 (g3 g4 : float) : mstat :=
  {| mvalOL1 := F.zero; mvalOL2 := F.zero; mvalOL3 := g3; mvalOL4 := g4;
     ave0 := F.zero; sig0 := F.zero;
     sig1 := F.zero; sig2 := F.zero; sig3 := F.zero; sig4 := F.zero |}.

Definition cntstart : Z := 10.

(** One open-loop sample [x] of a mode, at pass [cnt]. *)
Definition sample (cnt : Z) (x : float) (t : mstat) : mstat :=
  let diff1 := (x - mvalOL1 t)%F in
  let diff2 := (x - mvalOL2 t)%F in
  let diff3 := (x - mvalOL3 t)%F in
  let diff4 := (x - mvalOL4 t)%F in
  let acc := bool_decide (cnt > cntstart)%Z in
  {| mvalOL4 := mvalOL3 t; mvalOL3 := mvalOL2 t; mvalOL2 := mvalOL1 t;
     mvalOL1 := x;
     ave0 := if acc then (ave0 t + x)%F else ave0 t;
     sig0 := if acc then (sig0 t + x * x)%F else sig0 t;
     sig1 := if acc then (sig1 t + diff1 * diff1)%F else sig1 t;
     sig2 := if acc then (sig2 t + diff2 * diff2)%F else sig2 t;
     sig3 := if acc then (sig3 t + diff3 * diff3)%F else sig3 t;
     sig4 := if acc then (sig4 t + diff4 * diff4)%F else sig4 t |}.

(** [while (cnt < 5000)] on the samples of one mode. *)
Fixpoint measure (cnt : Z) (xs : list float) (t : mstat) : mstat :=
  match xs with
  | [] => t
  | x :: xs' => measure (cnt + 1) xs' (sample cnt x t)
  end.

(** [array_asq[m]] and [array_sig[m]] from the sums, [n = cnt - cntstart]. *)
Definition asq_of (n : Z) (t : mstat) : float :=
  let array_sig1 := (sig1 t / F.of_Z n)%F in
  let array_sig4 := (sig4 t / F.of_Z n)%F in
  let asq := ((array_sig4 - array_sig1) / F.fl 15.0)%F in
  if (asq <? F.zero)%F then F.zero else asq.

Definition sig_of (n : Z) (t : mstat) : float :=
  let array_sig1 := (sig1 t / F.of_Z n)%F in
  let array_sig2 := (sig2 t / F.of_Z n)%F in
  ((F.fl 4.0 * array_sig1 - array_sig2) / F.fl 6.0)%F.

(** [errarray[kk] = array_asq[m] * gainval1_array[kk]
                    + array_sig[m] * gainval2_array[kk]] *)
Definition errarray (asq sig : float) (rows : list (float * float * float))
    : list float :=
  map (λ r, (asq * r.1.2 + sig * r.2)%F) rows.

(** [for (kk = 0; kk < NBgain; kk++) if (errarray[kk] < errmin) ...] *)
Definition min_step (err : list float) (kk : nat) (st : float * nat)
    : option (float * nat) :=
  e ← err !! kk;
  if (e <? st.1)%F then Some (e, kk) else Some st.

Definition find_kkmin (err : list float) : option nat :=
  errmin ← err !! 0;
  st ← for_n (length err) (min_step err) (errmin, 0);
  Some st.2.

(** The value stored in the output image for one mode. *)
Definition optimal_gain (rows : list (float * float * float))
    (asq sig : float) : option float :=
  kkmin ← find_kkmin (errarray asq sig rows);
  r ← rows !! kkmin;
  Some r.1.1.

(** [int TESTMODE = 1; int TEST_m = 30;] *)
Definition TEST_m : nat := 30.

(** The line that each pass of the measurement loop writes to
    [test_autotunegain.dat]: element [TEST_m] of [aol_modeval],
    [aol_modeval_ol], [aol_modeval_dm], [aol_modeval_dm_now] and
    [aol_modeval_dm_now_filt], the modal images of the loop, of [NBmodes]
    elements each; [fr] is [aol_modeval_ol].  The values go to the file
    only: what is kept is whether the reads are within the images. *)
Definition test_trace (NBmodes : nat) (fr : list float) : option unit :=
  if decide (TEST_m < NBmodes) then fr !! TEST_m ≫= λ _, Some ()
  else None.

(** The function.  [NBmodes] is the size of [aol_modeval_ol]; [frames]
    holds the content of that image at each of the 5000 passes of the
    measurement loop; [garbage !! m] is the initial content of
    [array_mvalOL3[m]] and [array_mvalOL4[m]].  The result is the output
    image. *)
Definition AOloopControl_AutoTuneGains (c : AOconf_t) (NBmodes : nat)
    (frames : list (list float)) (garbage : list (float * float))
    : option (list float) :=
  let gain0 :=
    (F.one / (loopfrequ c * AUTOTUNEGAIN_evolTimescale))%F in
  let latency := (hardwlatency_frame c + wfsmextrlatency_frame c)%F in
  NBgain ← count_gains 1000 mingain 0;
  let rows := gain_rows NBgain mingain latency gain0 in
  if decide (length frames = 5000) then
    mapM (test_trace NBmodes) frames ≫= λ _,
    tabulate NBmodes (λ m,
      xs ← mapM (λ fr : list float, fr !! m) frames;
      g ← garbage !! m;
      let t := measure 0 xs (mstat0 g.1 g.2) in
      let n := (5000 - cntstart)%Z in
      optimal_gain rows (asq_of n t) (sig_of n t))
  else None.

End ATG.

(** ** Sample data *)

Module Ex.

Definition ones (n : nat) : list float := replicate n F.one.

(** A loop of three modes in two blocks, lag 1.75 frames. *)
Definition conf : OLM.AOconf_t :=
  {| OLM.gain := F.fl 0.2; OLM.mult := F.fl 0.99;
     OLM.ARPFon := 0; OLM.ARPFgain := F.zero;
     OLM.AUTOTUNE_LIMITS_ON := 1;
     OLM.AUTOTUNE_LIMITS_delta := F.fl 0.001;
     OLM.AUTOTUNE_LIMITS_perc := F.fl 1;
     OLM.AUTOTUNE_LIMITS_mcoeff := F.fl 1;
     OLM.DMmodesNBblock := 2; OLM.AveStats_NBpt := 2;
     OLM.hardwlatency_frame := F.fl 1.5;
     OLM.wfsmextrlatency_frame := F.fl 0.25;
     OLM.maxlimit := F.fl 2 |}.

Definition inputs (x0 x1 x2 : float) : OLM.inputs :=
  {| OLM.modeval := [x0; x1; x2];
     OLM.gainb := [F.fl 0.5; F.fl 1];
     OLM.multfb := ones 2;
     OLM.GAIN_modes := [F.fl 2; F.fl 1; F.fl 1];
     OLM.MULTF_modes := Some (ones 3);
     OLM.modevalPF := None |}.

(** The state before the first pass, with block limits [lb0] and [lb1]. *)
Definition start (c : OLM.AOconf_t) (lb0 lb1 : float) : option OLM.state :=
  OLM.init c 3 [1; 2] (Some (ones 3)) (Some (ones 3)) None [lb0; lb1].

(** The same loop with a lag of 20.5 frames. *)
Definition conf_lag20 : OLM.AOconf_t :=
  {| OLM.gain := F.fl 0.2; OLM.mult := F.fl 0.99;
     OLM.ARPFon := 0; OLM.ARPFgain := F.zero;
     OLM.AUTOTUNE_LIMITS_ON := 1;
     OLM.AUTOTUNE_LIMITS_delta := F.fl 0.001;
     OLM.AUTOTUNE_LIMITS_perc := F.fl 1;
     OLM.AUTOTUNE_LIMITS_mcoeff := F.fl 1;
     OLM.DMmodesNBblock := 2; OLM.AveStats_NBpt := 2;
     OLM.hardwlatency_frame := F.fl 20.25;
     OLM.wfsmextrlatency_frame := F.fl 0.25;
     OLM.maxlimit := F.fl 2 |}.

(** A loop of two modes on three actuators. *)
Definition run_env (cmmode primary_write : Z) : RUN.env :=
  {| RUN.CMMODE := cmmode; RUN.DMprimaryWrite_ON := primary_write;
     RUN.gain := F.fl 0.2; RUN.mult := F.fl 0.99;
     RUN.maxlimit := F.fl 0.3;
     RUN.sizeDM := 3; RUN.NBDMmodes := 2; RUN.GPU1 := 0;
     RUN.HAVE_CUDA := false; RUN.cntmax := 0;
     RUN.GAIN_modes := ones 2; RUN.LIMIT_modes := ones 2;
     RUN.MULTF_modes := ones 2;
     RUN.DMmodes := [F.fl 1; F.fl 0; F.fl 1; F.fl 0; F.fl 1; F.fl 1] |}.

(** A sensor of four pixels, read in one slice, without mask. *)
Definition cam (raw dark : list Z) (floor : float) : RCF.env :=
  {| RCF.sizeWFS := 4; RCF.WFSnormfloor := floor;
     RCF.AOLCOMPUTE_TOTAL_ASYNC := 0; RCF.COMPUTE_GPU_SCALING := 0;
     RCF.wfsim :=
       {| RCF.array := RCF.DATATYPE_FLOAT (map F.of_Z raw);
          RCF.naxis := 2; RCF.cnt1 := 0; RCF.size2 := 1 |};
     RCF.wfsdark := map F.of_Z dark;
     RCF.wfsmask := None |}.

Definition run_start : RUN.state :=
  {| RUN.meas_modes := zeros 2; RUN.meas_act := zeros 3;
     RUN.cmd_modes := zeros 2; RUN.RMS_modes := zeros 2;
     RUN.AVE_modes := zeros 2; RUN.RMSmodes := F.zero;
     RUN.RMSmodesCumul := F.zero; RUN.RMSmodesCumulcnt := 0;
     RUN.dmC := zeros 3; RUN.dmC_cnt0 := 0; RUN.DMupdatecnt := 0;
     RUN.cnt := 0; RUN.on := 1; RUN.trace := [] |}.

(** A loop at 2 kHz with a lag of 1.75 frames, and the open-loop values
    of its 31 modes over the 5000 passes of a gain measurement. *)
Definition tune_conf : ATG.AOconf_t :=
  {| ATG.loopfrequ := F.fl 2000;
     ATG.hardwlatency_frame := F.fl 1.5;
     ATG.wfsmextrlatency_frame := F.fl 0.25 |}.

Definition tune_frames : list (list float) :=
  map (λ k, replicate 31 (F.of_Z (Z.of_nat (k mod 7)))) (seq 0 5000).

(** What [malloc] returned for [array_mvalOL3] and [array_mvalOL4]. *)
Definition tune_garbage : list (float * float) :=
  replicate 31 (F.zero, F.zero).

End Ex.

(** ** The loop control interface *)

(** [for (k = lo; k < hi; k++) body;] on a state [S], with [long]
    bounds. *)
Definition for_range {S} (lo hi : Z) (body : Z → S → option S) (s : S)
    : option S :=
  for_n (Z.to_nat (hi - lo)) (λ j, body (lo + Z.of_nat j)%Z) s.

(** How a call that may loop for ever ends within a number of passes of
    its loop. *)
Inductive outcome (S : Type) : Type :=
  | Returned (s : S)
  | Faulted
  | Running (s : S).
Arguments Returned {S} s.
Arguments Faulted {S}.
Arguments Running {S} s.

Module CTL.

(** The body shared by [AOloopControl_setgainrange],
    [AOloopControl_setlimitrange] and [AOloopControl_setmultfrange], on
    the image [a] each of them writes. *)
Definition set_range (NBDMmodes : Z) (m0 m1 : Z) (val : float)
    (a : list float) : option (list float) :=
  let kmax := (m1 + 1)%Z in
  let kmax :=
    if decide (kmax > NBDMmodes)%Z then (NBDMmodes - 1)%Z else kmax in
  for_range m0 kmax (λ k a, wr a k val) a.

(** The body shared by [AOloopControl_setgainblock],
    [AOloopControl_setlimitblock] and [AOloopControl_setmultfblock]. *)
Definition set_block (DMmodesNBblock : Z) (mb : Z) (val : float)
    (a : list float) : option (list float) :=
  if decide (mb < DMmodesNBblock)%Z then wr a mb val else Some a.

(** What [AOloopControl_loopreset] reads and writes. *)
Record shm := mkShm {
  on : Z;                              (* AOconf[LOOPNUMBER].on *)
  cmd_modes : list float;              (* DMmode_cmd *)
  gainb : list float;                  (* aol_gainb *)
  limitb : list float;                 (* aol_limitb *)
  multfb : list float                  (* aol_multfb *)
}.

Section loopreset.
Context (NBDMmodes DMmodesNBblock : Z).

(** The body of [for (mb = 0; mb < DMmodesNBblock; mb)]. *)
Definition reset_block (mb : Z) (s : shm) : option shm :=
  g ← set_block DMmodesNBblock mb (F.fl 0.0) (gainb s);
  l ← set_block DMmodesNBblock mb (F.fl 0.01) (limitb s);
  m ← set_block DMmodesNBblock mb (F.fl 0.95) (multfb s);
  Some {| on := on s; cmd_modes := cmd_modes s;
          gainb := g; limitb := l; multfb := m |}.

(** The loop over blocks; its third expression is [mb], which leaves
    the counter as it is. *)
Fixpoint reset_blocks (passes : nat) (mb : Z) (s : shm) : outcome shm :=
  match passes with
  | O => Running s
  | S passes' =>
      if decide (mb < DMmodesNBblock)%Z then
        match reset_block mb s with
        | Some s' => reset_blocks passes' mb s'
        | None => Faulted
        end
      else Returned s
  end.

Definition AOloopControl_loopreset (passes : nat) (s : shm)
    : outcome shm :=
  match for_range 0 NBDMmodes (λ k cmd, wr cmd k (F.fl 0.0)) (cmd_modes s)
  with
  | Some cmd =>
      reset_blocks passes 0
        {| on := 0; cmd_modes := cmd; gainb := gainb s;
           limitb := limitb s; multfb := multfb s |}
  | None => Faulted
  end.

End loopreset.

(** *** Start, stop and step of the main loop *)

Definition with_cntmax (e : RUN.env) (v : Z) : RUN.env :=
  {| RUN.CMMODE := RUN.CMMODE e;
     RUN.DMprimaryWrite_ON := RUN.DMprimaryWrite_ON e;
     RUN.gain := RUN.gain e; RUN.mult := RUN.mult e;
     RUN.maxlimit := RUN.maxlimit e; RUN.sizeDM := RUN.sizeDM e;
     RUN.NBDMmodes := RUN.NBDMmodes e; RUN.GPU1 := RUN.GPU1 e;
     RUN.HAVE_CUDA := RUN.HAVE_CUDA e; RUN.cntmax := v;
     RUN.GAIN_modes := RUN.GAIN_modes e;
     RUN.LIMIT_modes := RUN.LIMIT_modes e;
     RUN.MULTF_modes := RUN.MULTF_modes e; RUN.DMmodes := RUN.DMmodes e |}.

Definition AOloopControl_loopon (e : RUN.env) (s : RUN.state)
    : RUN.env * RUN.state :=
  (with_cntmax e (RUN.cnt s - 1),
   {| RUN.meas_modes := RUN.meas_modes s; RUN.meas_act := RUN.meas_act s;
      RUN.cmd_modes := RUN.cmd_modes s; RUN.RMS_modes := RUN.RMS_modes s;
      RUN.AVE_modes := RUN.AVE_modes s; RUN.RMSmodes := RUN.RMSmodes s;
      RUN.RMSmodesCumul := RUN.RMSmodesCumul s;
      RUN.RMSmodesCumulcnt := RUN.RMSmodesCumulcnt s;
      RUN.dmC := RUN.dmC s; RUN.dmC_cnt0 := RUN.dmC_cnt0 s;
      RUN.DMupdatecnt := RUN.DMupdatecnt s; RUN.cnt := RUN.cnt s;
      RUN.on := 1; RUN.trace := RUN.trace s |}).

(** [AOloopControl_loopstep], up to its wait for the loop to stop. *)
Definition AOloopControl_loopstep (NBstep : Z) (e : RUN.env)
    (s : RUN.state) : RUN.env * RUN.state :=
  (with_cntmax e (RUN.cnt s + NBstep),
   {| RUN.meas_modes := RUN.meas_modes s; RUN.meas_act := RUN.meas_act s;
      RUN.cmd_modes := RUN.cmd_modes s; RUN.RMS_modes := RUN.RMS_modes s;
      RUN.AVE_modes := RUN.AVE_modes s; RUN.RMSmodes := RUN.RMSmodes s;
      RUN.RMSmodesCumul := F.fl 0.0;
      RUN.RMSmodesCumulcnt := 0;
      RUN.dmC := RUN.dmC s; RUN.dmC_cnt0 := RUN.dmC_cnt0 s;
      RUN.DMupdatecnt := RUN.DMupdatecnt s; RUN.cnt := RUN.cnt s;
      RUN.on := 1; RUN.trace := RUN.trace s |}).

(** [while (AOconf[loop].on == 1)] of [AOloopControl_run], on the
    measurements of the frames that arrive, in order. *)
Fixpoint while_on (e : RUN.env) (frames : list (list float))
    (s : RUN.state) : option RUN.state :=
  match frames with
  | [] => Some s
  | meas :: frames' =>
      if decide (RUN.on s = 1%Z) then
        s' ← RUN.loop_body e meas s; while_on e frames' s'
      else Some s
  end.

End CTL.

(** ** [set_DM_modesRM] and [AOloopControl_InjectMode] *)

Module DMW.

(** The DM channel of the response-matrix acquisition. *)
Record state := mkState {
  cmd_modesRM : list float;            (* aol_DMmode_cmdRM *)
  dmRM : list float;                   (* aol_dmRM *)
  dmRM_cnt0 : Z;
  DMupdatecnt : Z
}.

Section body.
Context (e : RUN.env).

(** [for (k ...) for (i ...) arrayf[i] += cmd_modesRM[k] *
    DMmodes[k*sizeDM+i]], from [arrayf] all zero. *)
Definition add_mode (cmd : list float) (k : nat) (arrayf : list float)
    : option (list float) :=
  for_n (RUN.sizeDM e) (λ i arrayf,
    a ← arrayf !! i;
    cm ← cmd !! k;
    d ← RUN.DMmodes e !! (k * RUN.sizeDM e + i);
    Some (<[i := (a + cm * d)%F]> arrayf)) arrayf.

Definition modesRM_to_DM (cmd : list float) : option (list float) :=
  for_n (RUN.NBDMmodes e) (add_mode cmd) (zeros (RUN.sizeDM e)).




End body.

End DMW.

(** ** [compute_function_dark_subtract] *)

Module THR.

Section threads.
Context (e : RCF.env).
Context (COMPUTE_DARK_SUBTRACT_NBTHREADS : Z).
Context (frame : list float).          (* arrayftmp, or arrayutmp as float *)

Definition iistart (threadindex nelem : Z) : Z :=
  (threadindex * nelem) ÷ COMPUTE_DARK_SUBTRACT_NBTHREADS.

Definition iiend (threadindex nelem : Z) : Z :=
  ((threadindex + 1) * nelem) ÷ COMPUTE_DARK_SUBTRACT_NBTHREADS.

(** One wake-up of the thread [threadindex], on [aol_imWFS0]. *)
Definition compute_function_dark_subtract (threadindex : Z)
    (imWFS0 : list float) : option (list float) :=
  let nelem := Z.of_nat (length imWFS0) in
  for_range (iistart threadindex nelem) (iiend threadindex nelem)
    (λ ii im0,
       a ← rd frame ii;
       d ← rd (RCF.wfsdark e) ii;
       wr im0 ii (a - d)%F)
    imWFS0.

(** The main thread posts each thread and waits for its result before
    it posts the next one. *)
Definition dark_subtract_threads (imWFS0 : list float)
    : option (list float) :=
  for_range 0 COMPUTE_DARK_SUBTRACT_NBTHREADS
    compute_function_dark_subtract imWFS0.

End threads.

End THR.

(** ** Runs of [AOloopControl_ComputeOpenLoopModes] *)

Module OLR.

(** Successive passes of the [while (1)] body, each one on the
    configuration and the input images of its own time. *)
Fixpoint passes (cis : list (OLM.AOconf_t * OLM.inputs)) (s : OLM.state)
    : option OLM.state :=
  match cis with
  | [] => Some s
  | ci :: cis' => s' ← OLM.iteration ci.1 ci.2 s; passes cis' s'
  end.

End OLR.

(** ** [AOloopControl_mkHadamardModes] and
       [AOloopControl_Hadamard_decodeRM] *)

Module HAD.

(** [while (Hsize < cnt) { Hsize *= 2; n2max++; }] *)
Fixpoint grow (fuel : nat) (Hsize n2max cnt : Z) : option (Z * Z) :=
  match fuel with
  | O => None
  | S fuel' =>
      if decide (Hsize < cnt)%Z
      then grow fuel' (Hsize * 2)%Z (n2max + 1)%Z cnt
      else Some (Hsize, n2max)
  end.

(** The body of the loops over [ii] and [jj]: three entries of [Hmat]
    from the entry [(jj, ii)]. *)
Definition sylvester_cell (Hsize n2 ii jj : Z) (Hmat : list Z)
    : option (list Z) :=
  v ← rd Hmat (jj * Hsize + ii)%Z;
  Hmat ← wr Hmat (jj * Hsize + (ii + n2))%Z v;
  v ← rd Hmat (jj * Hsize + ii)%Z;
  Hmat ← wr Hmat ((jj + n2) * Hsize + (ii + n2))%Z (- v)%Z;
  v ← rd Hmat (jj * Hsize + ii)%Z;
  wr Hmat ((jj + n2) * Hsize + ii)%Z v.

Definition sylvester_step (Hsize n2 : Z) (Hmat : list Z)
    : option (list Z) :=
  for_range 0 n2 (λ ii Hmat,
    for_range 0 n2 (λ jj Hmat, sylvester_cell Hsize n2 ii jj Hmat) Hmat)
    Hmat.

(** [Hmat[0] = 1; n2 = 1; for (n = 1; n < n2max; n++) { ...; n2 *= 2; }]
    on the content [Hmat] that [malloc] returned. *)
Definition sylvester (Hsize n2max : Z) (Hmat : list Z)
    : option (Z * list Z) :=
  Hmat ← wr Hmat 0 1%Z;
  for_range 1 n2max (λ n st,
    Hmat' ← sylvester_step Hsize st.1 st.2;
    Some ((st.1 * 2)%Z, Hmat')) (1%Z, Hmat).

(** The number of pixels of the mask above 0.5. *)
Definition count_active (mask : list float) (xysize : nat) : option Z :=
  for_n xysize (λ ii cnt,
    x ← mask !! ii;
    Some (if (x >? F.fl 0.5)%F then (cnt + 1)%Z else cnt)) 0%Z.

(** [indexarray] and the image [Hpixindex]. *)
Definition index_pixels (mask : list float) (xysize : nat) (Hsize : Z)
    : option (Z * list Z * list float) :=
  for_n xysize (λ ii st,
    let '(index, indexarray, Hpixindex) := st in
    x ← mask !! ii;
    if (x >? F.fl 0.5)%F && bool_decide (index < Hsize)%Z then
      indexarray' ← wr indexarray index (Z.of_nat ii);
      Hpixindex' ← wr Hpixindex (Z.of_nat ii)
                      (F.fl 1.0 * F.of_Z index)%F;
      Some ((index + 1)%Z, indexarray', Hpixindex')
    else Some st)
    (0%Z, replicate (Z.to_nat Hsize) (-1)%Z,
     replicate xysize (F.fl (-10.0))).

(** The output cube: mode [k], pixel [indexarray[index]]. *)
Definition write_modes (xysize Hsize : Z) (indexarray Hmat : list Z)
    (out : list float) : option (list float) :=
  for_range 0 Hsize (λ k out,
    for_range 0 Hsize (λ index out,
      ii ← rd indexarray index;
      v ← rd Hmat (k * Hsize + index)%Z;
      wr out (k * xysize + ii)%Z (F.of_Z v)) out) out.

Record modes := mkModes {
  Hsize : Z;
  Hpixindex : list float;              (* image Hpixindex *)
  Htest : list float;                  (* image Htest, saved as Hmat.fits *)
  out : list float                     (* the modes, xysize x Hsize *)
}.

(** [mask] is the DM mask, of [xysize] pixels; [garbage] is what the
    block returned by [malloc] for [Hmat] holds. *)
Definition AOloopControl_mkHadamardModes (mask : list float) (xysize : nat)
    (garbage : list Z) : option modes :=
  cnt ← count_active mask xysize;
  '(Hsize, n2max) ← grow 64 1 0 cnt;
  let n2max := (n2max + 1)%Z in
  '(index, indexarray, Hpixindex) ← index_pixels mask xysize Hsize;
  if decide (length garbage = Z.to_nat (Hsize * Hsize)) then
    '(n2, Hmat) ← sylvester Hsize n2max garbage;
    out ← write_modes (Z.of_nat xysize) Hsize indexarray Hmat
             (zeros (xysize * Z.to_nat Hsize));
    Some {| Hsize := Hsize; Hpixindex := Hpixindex;
            Htest := map F.of_Z Hmat; out := out |}
  else None.

(** *** What the loops compute *)

(** Whether pixel [ii] of the mask is above 0.5. *)
Definition active (mask : list float) (ii : nat) : bool :=
  match mask !! ii with
  | Some x => (x >? F.fl 0.5)%F
  | None => false
  end.

(** The number of active pixels before pixel [n]. *)
Fixpoint nactive (mask : list float) (n : nat) : Z :=
  match n with
  | O => 0
  | S n' => (nactive mask n' + (if active mask n' then 1 else 0))%Z
  end.

(** The entry [(j, i)] of the Sylvester matrix of order [2^p]. *)
Fixpoint entry (p : nat) (j i : Z) : Z :=
  match p with
  | O => 1
  | S p' =>
      let n2 := (2 ^ Z.of_nat p')%Z in
      ((if decide (n2 ≤ i ∧ n2 ≤ j)%Z then -1 else 1)
       * entry p' (j mod n2) (i mod n2))%Z
  end.

(** [f 0 + ... + f (n-1)] *)
Fixpoint zsum (n : nat) (f : nat → Z) : Z :=
  match n with
  | O => 0
  | S n' => (zsum n' f + f n')%Z
  end.

(** The entries already final while the step of order [n2] is at the
    source entry [(b, a)]: the first quadrant, and the images of the
    source entries before [(b, a)]. *)
Definition settled (n2 a b j i : Z) : Prop :=
  (i < n2 ∧ j < n2)%Z ∨
  ((if decide (i < n2)%Z then i else i - n2) < a)%Z ∨
  ((if decide (i < n2)%Z then i else i - n2) = a ∧
   (if decide (j < n2)%Z then j else j - n2) < b)%Z.

Definition step_inv (Hsize : Z) (p : nat) (a b : Z) (H : list Z) : Prop :=
  length H = Z.to_nat (Hsize * Hsize) ∧
  ∀ j i, (0 ≤ i < 2 * 2 ^ Z.of_nat p)%Z → (0 ≤ j < 2 * 2 ^ Z.of_nat p)%Z →
    settled (2 ^ Z.of_nat p) a b j i →
    rd H (j * Hsize + i) = Some (entry (S p) j i).

End HAD.

(** ** [AOloopControl_DMedgeDetect] *)

Module EDG.

(** The 20 pixels around [(jj, ii)] that the function tests, as
    [(djj, dii)], in the order of the source. *)
Definition neighbours : list (Z * Z) :=
  [(0, 1); (0, -1); (1, 0); (-1, 0);
   (1, 1); (1, -1); (-1, 1); (-1, -1);
   (0, 2); (0, -2); (2, 0); (-2, 0);
   (1, 2); (1, -2); (-1, 2); (-1, -2);
   (2, -1); (-2, -1); (2, 1); (-2, 1)]%Z.

(** [if (mask[(jj+djj)*xsize+ii+dii] < 0.5) val1 += 1.0;] for each
    pixel of [ds]. *)
Fixpoint scan (mask : list float) (xsize ii jj : Z) (ds : list (Z * Z))
    (val1 : float) : option float :=
  match ds with
  | [] => Some val1
  | (djj, dii) :: ds' =>
      x ← rd mask ((jj + djj) * xsize + ii + dii)%Z;
      scan mask xsize ii jj ds'
        (if (x <? F.fl 0.5)%F then (val1 + F.fl 1.0)%F else val1)
  end.

(** The value stored for the pixel [(jj, ii)]. *)
Definition edge_value (mask : list float) (xsize ii jj : Z)
    : option float :=
  c ← rd mask (jj * xsize + ii)%Z;
  val1 ← (if (c >? F.fl 0.5)%F
          then scan mask xsize ii jj neighbours (F.fl 0.0)
          else Some (F.fl 0.0));
  Some (if (val1 >? F.fl 4.9)%F then F.fl 1.0 else F.fl 0.0).

(** The image [IDout], created with zeros, after the two loops. *)
Definition AOloopControl_DMedgeDetect (xsize ysize : Z) (mask : list float)
    : option (list float) :=
  for_range 1 (xsize - 1) (λ ii out,
    for_range 1 (ysize - 1) (λ jj out,
      val1 ← edge_value mask xsize ii jj;
      wr out (jj * xsize + ii)%Z val1) out)
    (zeros (Z.to_nat (xsize * ysize))).

(** *** What the function computes *)

(** Pixel [(jj, ii)] of the mask is above 0.5. *)
Definition inside (mask : list float) (xsize ii jj : Z) : bool :=
  match rd mask (jj * xsize + ii)%Z with
  | Some c => (c >? F.fl 0.5)%F
  | None => false
  end.

(** Pixel [(jj, ii)] is not on the border of the image. *)
Definition interior (xsize ysize ii jj : Z) : bool :=
  bool_decide (1 ≤ ii ≤ xsize - 2 ∧ 1 ≤ jj ≤ ysize - 2)%Z.

(** The number of pixels of [ds] around [(jj, ii)] that are below 0.5. *)
Fixpoint outside_count (mask : list float) (xsize ii jj : Z)
    (ds : list (Z * Z)) : nat :=
  match ds with
  | [] => 0
  | (djj, dii) :: ds' =>
      (match rd mask ((jj + djj) * xsize + ii + dii)%Z with
       | Some x => if (x <? F.fl 0.5)%F then 1 else 0
       | None => 0
       end) + outside_count mask xsize ii jj ds'
  end.


(** An edge pixel: inside the mask, with at least 5 of the 20 pixels
    around it outside. *)
Definition edge (mask : list float) (xsize ysize ii jj : Z) : bool :=
  interior xsize ysize ii jj && inside mask xsize ii jj
  && bool_decide (5 ≤ outside_count mask xsize ii jj neighbours).


(** The output image when the pixels of [done] have been handled. *)
Definition partial (mask : list float) (xsize ysize : Z)
    (done : Z → Z → bool) (out : list float) : Prop :=
  length out = length mask ∧
  ∀ ii jj, (0 ≤ ii < xsize)%Z → (0 ≤ jj < ysize)%Z →
    rd out (jj * xsize + ii)%Z
    = Some (if done ii jj && edge mask xsize ysize ii jj
            then F.fl 1.0 else F.fl 0.0).

End EDG.


(** ** [AOloopControl_CrossProduct] *)

Module XP.

(** How the call ends: [exit(0)], or the image [IDout]. *)
Inductive result :=
  | Exit
  | Done (out : list float).

(** The loop over [ii] for the cubes' slices [z1] and [z2]; [mask] is
    the image [xpmask], when there is one. *)
Definition cross_cell (mask : option (list float))
    (xysize1 xysize2 zsize1 : Z) (cube1 cube2 : list float) (z1 z2 : Z)
    (out : list float) : option (list float) :=
  for_range 0 xysize1 (λ ii out,
    acc ← rd out (z2 * zsize1 + z1)%Z;
    match mask with
    | None =>
        a ← rd cube1 (z1 * xysize1 + ii)%Z;
        b ← rd cube2 (z2 * xysize2 + ii)%Z;
        wr out (z2 * zsize1 + z1)%Z (acc + a * b)%F
    | Some m =>
        w ← rd m ii;
        a ← rd cube1 (z1 * xysize1 + ii)%Z;
        b ← rd cube2 (z2 * xysize2 + ii)%Z;
        wr out (z2 * zsize1 + z1)%Z (acc + w * w * a * b)%F
    end) out.

(** [created] is the content of the image as [create_2Dimage_ID]
    returns it; the function sets it to zero itself. *)
Definition AOloopControl_CrossProduct (mask : option (list float))
    (xysize1 xysize2 zsize1 zsize2 : Z) (cube1 cube2 : list float)
    (created : list float) : option result :=
  if decide (xysize1 ≠ xysize2) then Some Exit
  else
    out ← for_range 0 (zsize1 * zsize2)
             (λ ii out, wr out ii (F.fl 0.0)) created;
    out ← for_range 0 zsize1 (λ z1 out,
             for_range 0 zsize2 (λ z2 out,
               cross_cell mask xysize1 xysize2 zsize1 cube1 cube2 z1 z2 out)
               out) out;
    Some (Done out).

(** *** What the loops compute *)

(** [0.0 + f 0 + ... + f (n-1)], added in this order. *)
Fixpoint sum_to (n : nat) (f : nat → float) : float :=
  match n with
  | O => F.fl 0.0
  | S n' => (sum_to n' f + f n')%F
  end.

(** Pixel [ii] of the slice [z] of a cube. *)
Definition pix (cube : list float) (xysize z : Z) (ii : nat) : float :=
  default NaN (rd cube (z * xysize + Z.of_nat ii)%Z).

(** The term that pixel [ii] adds to the product of the slices [z1]
    and [z2]. *)
Definition term (mask : option (list float)) (xysize : Z)
    (cube1 cube2 : list float) (z1 z2 : Z) (ii : nat) : float :=
  match mask with
  | None => (pix cube1 xysize z1 ii * pix cube2 xysize z2 ii)%F
  | Some m =>
      (default NaN (m !! ii) * default NaN (m !! ii)
       * pix cube1 xysize z1 ii * pix cube2 xysize z2 ii)%F
  end.

End XP.


(** ** [AOloopControl_Hadamard_decodeRM] *)

Module DEC.

(** How the call ends: [exit(0)], or the cube [IDout]. *)
Inductive result :=
  | Exit
  | Done (out : list float).

(** The loops over [kk1] and [ii] for the output frame [kk], decoded
    with the row [kk0] of the matrix. *)
Definition decode_frame (sizewfs NBframes kk kk0 : Z)
    (inC had : list float) (out : list float) : option (list float) :=
  for_range 0 NBframes (λ kk1 out,
    for_range 0 sizewfs (λ ii out,
      acc ← rd out (kk * sizewfs + ii)%Z;
      a ← rd inC (kk1 * sizewfs + ii)%Z;
      h ← rd had (kk0 * NBframes + kk1)%Z;
      wr out (kk * sizewfs + ii)%Z (acc + a * h)%F) out) out.

(** [inC] is the input cube, of [NBframes] frames of [sizewfs] pixels;
    [had] the matrix, of size [hsize0 x hsize1]; [index] the image of
    the pixel indices, of [zsizeout] pixels.  The output cube is created
    with zeros. *)
Definition AOloopControl_Hadamard_decodeRM (sizewfs NBframes : Z)
    (inC : list float) (hsize0 hsize1 : Z) (had : list float)
    (zsizeout : Z) (index : list float) : option result :=
  if decide (hsize0 ≠ NBframes ∨ hsize1 ≠ NBframes) then Some Exit
  else
    out ← for_range 0 zsizeout (λ kk out,
             x ← rd index kk;
             kk0 ← F.to_long (x + F.fl 0.1)%F;
             if decide (kk0 > -1)%Z
             then decode_frame sizewfs NBframes kk kk0 inC had out
             else Some out)
             (zeros (Z.to_nat (zsizeout * sizewfs)));
    out ← for_range 0 zsizeout (λ kk out,
             for_range 0 sizewfs (λ ii out,
               v ← rd out (kk * sizewfs + ii)%Z;
               wr out (kk * sizewfs + ii)%Z (v / F.of_Z NBframes)%F) out)
             out;
    Some (Done out).

(** [acc + f 0 + ... + f (n-1)], added in this order. *)
Fixpoint accum (n : nat) (f : nat → float) (acc : float) : float :=
  match n with
  | O => acc
  | S n' => (accum n' f acc + f n')%F
  end.

End DEC.


(** ** [AOloopControl_set_modeblock_gain] *)

Module CMG.

(** The sizes and the matrices of the blocks: [blocksMc !! kk] is the
    image [aol<loop>_contrMc<kk>], [blocksMcact !! kk] the image
    [aol<loop>_contrMcact<kk>_00]. *)
Record conf := mkConf {
  DMmodesNBblock : Z;
  sizeMc : Z;              (* sizexWFS * sizeyWFS * sizexDM * sizeyDM *)
  sizeMcact : Z;                       (* activeWFScnt * activeDMcnt *)
  blocksMc : list (list float);
  blocksMcact : list (list float)
}.

(** The images the call writes. *)
Record state := mkState {
  gainb : list float;                  (* aol<loop>_gainb *)
  contrMc : list float;                (* aoconfID_contrMc *)
  contrMcact : list float              (* aoconfID_contrMcact[0] *)
}.

(** [double eps = 1e-6] *)
Definition eps : float := F.fl 1e-6.

(** [memcpy(dst, src, sizeof(float) * n)] *)
Definition copy_into (dst src : list float) (n : Z) : option (list float) :=
  if decide (0 ≤ n ≤ Z.of_nat (length src)
             ∧ n ≤ Z.of_nat (length dst))%Z
  then Some (take (Z.to_nat n) src ++ drop (Z.to_nat n) dst)
  else None.

(** [for (ii = 0; ii < n; ii++) acc[ii] += g * M[ii];] *)
Definition add_block (g : float) (M : list float) (n : Z)
    (acc : list float) : option (list float) :=
  for_range 0 n (λ ii acc,
    a ← rd acc ii;
    m ← rd M ii;
    wr acc ii (a + g * m)%F) acc.

(** The loop over the blocks, on the images [contrMc0] and
    [contrMcact0], from zero.  (The sum [NBmodes] of the sizes of the
    blocks, which the function also computes, is not used.) *)
Definition combine (c : conf) (gainb : list float)
    : option (list float * list float) :=
  for_range 0 (DMmodesNBblock c) (λ kk acc,
    g ← rd gainb kk;
    if (g >? eps)%F then
      M ← rd (blocksMc c) kk;
      Mc0 ← add_block g M (sizeMc c) acc.1;
      Ma ← rd (blocksMcact c) kk;
      Mcact0 ← add_block g Ma (sizeMcact c) acc.2;
      Some (Mc0, Mcact0)
    else Some acc)
    (zeros (Z.to_nat (sizeMc c)), zeros (Z.to_nat (sizeMcact c))).

Definition AOloopControl_set_modeblock_gain (c : conf) (blocknb : Z)
    (gain : float) (add : Z) (s : state) : option state :=
  if decide (DMmodesNBblock c < 2)%Z then
    M ← rd (blocksMc c) 0;
    Mc ← copy_into (contrMc s) M (sizeMc c);
    Ma ← rd (blocksMcact c) 0;
    Mcact ← copy_into (contrMcact s) Ma (sizeMcact c);
    Some {| gainb := gainb s; contrMc := Mc; contrMcact := Mcact |}
  else
    gainb' ← (if decide (blocknb < DMmodesNBblock c ∧ blocknb > -1)%Z
              then wr (gainb s) blocknb gain
              else Some (gainb s));
    if decide (add = 1)%Z then
      '(Mc0, Mcact0) ← combine c gainb';
      Mc ← copy_into (contrMc s) Mc0 (sizeMc c);
      Mcact ← copy_into (contrMcact s) Mcact0 (sizeMcact c);
      Some {| gainb := gainb'; contrMc := Mc; contrMcact := Mcact |}
    else
      Some {| gainb := gainb'; contrMc := contrMc s;
              contrMcact := contrMcact s |}.

(** *** What the loop over the blocks computes *)

(** Element [ii] of the sum of the first [n] blocks of [blocks], each
    times its gain, the blocks whose gain is not above [eps] left out. *)
Fixpoint combined (gainb : list float) (blocks : list (list float))
    (ii : nat) (n : nat) : float :=
  match n with
  | O => F.zero
  | S n' =>
      let acc := combined gainb blocks ii n' in
      match gainb !! n', blocks !! n' with
      | Some g, Some M =>
          if (g >? eps)%F then (acc + g * default NaN (M !! ii))%F else acc
      | _, _ => acc
      end
  end.

End CMG.


(** ** [compute_CombinedControlMatrix] *)

Module CCM.

(** The loops over [mode], [act] and [wfselem]. *)
Definition multiply (NBDMmodes sizeDM sizeWFS : Z)
    (matrix_cmp matrix_DMmodes matrix_Mc : list float)
    : option (list float) :=
  for_range 0 NBDMmodes (λ mode Mc,
    for_range 0 sizeDM (λ act Mc,
      for_range 0 sizeWFS (λ wfselem Mc,
        acc ← rd Mc (act * sizeWFS + wfselem)%Z;
        c ← rd matrix_cmp (mode * sizeWFS + wfselem)%Z;
        d ← rd matrix_DMmodes (mode * sizeDM + act)%Z;
        wr Mc (act * sizeWFS + wfselem)%Z (acc + c * d)%F) Mc) Mc)
    matrix_Mc.

(** The function up to its copy of [matrix_Mc] into the image
    [IDcmatc], which it has created with zeros: [cmat] is the modal
    control matrix, [modes] the cube of the DM modes.  The result is
    the content of [IDcmatc].  (The function goes on to write the
    matrices reduced to the active pixels and actuators, in other
    images.) *)
Definition compute_CombinedControlMatrix (sizeWFS sizeDM NBDMmodes : nat)
    (cmat modes : list float) : option (list float) :=
  matrix_Mc ← RCF.memcpy (zeros (sizeWFS * sizeDM)) 0 (sizeWFS * sizeDM);
  matrix_cmp ← RCF.memcpy cmat 0 (sizeWFS * NBDMmodes);
  matrix_DMmodes ← RCF.memcpy modes 0 (NBDMmodes * sizeDM);
  matrix_Mc ← multiply (Z.of_nat NBDMmodes) (Z.of_nat sizeDM)
                 (Z.of_nat sizeWFS) matrix_cmp matrix_DMmodes matrix_Mc;
  RCF.memcpy matrix_Mc 0 (sizeWFS * sizeDM).

(** The modal coefficients that the modal control matrix gives for
    the WFS image that is 1 at pixel [wfselem] and 0 elsewhere: the
    column [wfselem] of the matrix. *)
Definition column (NBDMmodes sizeWFS : nat) (cmat : list float)
    (wfselem : nat) : list float :=
  map (λ mode, default NaN (cmat !! (mode * sizeWFS + wfselem)))
      (seq 0 NBDMmodes).

End CCM.


(** * Properties *)
(** ** Floating-point values *)

Lemma Qc_eq_Qeq (a b : Qc) : a = b → this a == this b.
Proof. by intros ->. Qed.

(** Goals on [Qc] restated on [Q], for [lra] and [field]. *)
Ltac qc_to_q :=
  repeat match goal with
  | H : @eq Qc _ _ |- _ => apply Qc_eq_Qeq in H
  | |- @eq Qc _ _ => apply Qc_is_canon
  end;
  unfold Qcle, Qclt, Qcdiv, Qcinv, Qcminus, Qcplus, Qcopp, Qcmult, Q2Qc in *;
  simpl this in *;
  rewrite ?Qred_correct in *;
  unfold inject_Z in *.

Ltac qc_lra := qc_to_q; lra.

(** Two values with the same fraction in lowest terms are equal. *)
Lemma F_repr_inj x y : F.repr x = F.repr y → x = y.
Proof.
  destruct x as [|a], y as [|b]; simpl; try done.
  intros [= H]. f_equal. apply Qc_is_canon. by rewrite H.
Qed.

Lemma F_repr_option_inj (x y : option float) :
  F.repr <$> x = F.repr <$> y → x = y.
Proof.
  destruct x, y; simpl; try done. intros [= H]. f_equal. by apply F_repr_inj.
Qed.

Lemma F_repr_list_inj (l k : list float) :
  F.repr <$> l = F.repr <$> k → l = k.
Proof.
  revert k. induction l as [|x l IH]; intros [|y k]; simpl; try done.
  intros [= Hx Hl]. f_equal; [by apply F_repr_inj | by apply IH].
Qed.

(** An equation between given values, by computation. *)
Ltac by_float_compute :=
  first [ apply F_repr_inj | apply F_repr_option_inj
        | apply F_repr_list_inj ];
  vm_compute; reflexivity.

(** Case analysis on the comparisons of the source. *)
Ltac f_cases :=
  repeat match goal with
  | x : float |- _ => destruct x
  end;
  unfold F.gtb, F.ltb, F.le, F.finite, F.abs, F.opp, F.add, F.sub, F.mul,
    F.lift2, F.zero, F.one, F.of_Z in *;
  simpl in *;
  repeat case_bool_decide; simpl in *; try done.

Lemma F_ltb_lt (a b : Qc) : (Fin a <? Fin b)%F = true ↔ (a < b)%Qc.
Proof. simpl. by rewrite bool_decide_eq_true. Qed.

Lemma F_ltb_ge (a b : Qc) : (Fin a <? Fin b)%F = false ↔ (b ≤ a)%Qc.
Proof. simpl. rewrite bool_decide_eq_false. by rewrite Qcle_ngt. Qed.

Lemma F_le_refl x : F.finite x → F.le x x.
Proof. by f_cases. Qed.

Lemma F_le_trans x y z : F.le x y → F.le y z → F.le x z.
Proof. f_cases. apply Qcle_trans. Qed.

Lemma F_le_finite x y : F.le x y → F.finite x ∧ F.finite y.
Proof. by f_cases. Qed.

Lemma F_add_of_Z x (a b : Z) :
  (x + F.of_Z a + F.of_Z b)%F = (x + F.of_Z (a + b))%F.
Proof.
  destruct x; simpl; [done|]. f_equal. qc_to_q.
  unfold Qeq; simpl; lia.
Qed.

Lemma F_add_zero x : (x + F.of_Z 0)%F = x.
Proof. destruct x; simpl; [done|]. f_equal. qc_lra. Qed.

Lemma F_clip_bound v lim :
  F.le F.zero lim → F.finite v → F.le (F.abs (OLM.clip v lim)) lim.
Proof.
  destruct v as [|v], lim as [|l]; try done. intros Hl _.
  unfold OLM.clip, F.gtb. simpl in Hl.
  assert (0 ≤ l)%Qc as Hl' by qc_lra. clear Hl.
  destruct (Fin l <? Fin v)%F eqn:H1.
  - apply F_ltb_lt in H1.
    destruct (Fin l <? - Fin l)%F eqn:H2; simpl in H2.
    + apply bool_decide_eq_true in H2. exfalso. qc_lra.
    + simpl. apply Qcabs_Qcle_condition. split; qc_lra.
  - apply F_ltb_ge in H1.
    destruct (Fin v <? - Fin l)%F eqn:H2; simpl in H2.
    + simpl. rewrite Qcabs_opp. apply Qcabs_Qcle_condition. split; qc_lra.
    + apply bool_decide_eq_false in H2. simpl.
      apply Qcabs_Qcle_condition. split; qc_lra.
Qed.

Lemma F_clip_events v lim :
  OLM.clip v lim ≠ v → 1 ≤ OLM.clip_events v lim.
Proof.
  unfold OLM.clip, OLM.clip_events.
  destruct (v >? lim)%F; [lia|].
  destruct (v <? - lim)%F; [lia|done].
Qed.

Lemma F_mul_nan_r x : (x * NaN)%F = NaN.
Proof. by destruct x. Qed.

Lemma F_sub_nan_r x : (x - NaN)%F = NaN.
Proof. by destruct x. Qed.

Lemma F_clip_nan lim : OLM.clip NaN lim = NaN.
Proof. by destruct lim. Qed.

Lemma F_percent d p :
  (d * F.fl 0.01 * p)%F = (d * p / F.of_Z 100)%F.
Proof.
  destruct d as [|d], p as [|p]; try done. simpl.
  f_equal. qc_to_q. field.
Qed.

Lemma F_gain_example :
  (F.fl 0.2 * F.fl 0.5 * F.fl 2.0)%F = F.fl 0.2.
Proof. reflexivity. Qed.
(** ** Arrays and loops *)

Section arrays.
Context {A : Type}.
Implicit Types (a : list A) (i : Z) (m n : nat).

Lemma rd_nat a m : rd a (Z.of_nat m) = a !! m.
Proof. unfold rd. case_decide; [by rewrite Nat2Z.id | lia]. Qed.

Lemma rd_Some a i v :
  rd a i = Some v → (0 ≤ i < Z.of_nat (length a))%Z ∧ a !! Z.to_nat i = Some v.
Proof.
  unfold rd. case_decide; [|done]. intros Hv. split; [|done].
  apply lookup_lt_Some in Hv. lia.
Qed.

Lemma rd_is_Some a i :
  (0 ≤ i < Z.of_nat (length a))%Z → is_Some (rd a i).
Proof.
  intros ?. unfold rd. case_decide; [|lia]. apply lookup_lt_is_Some. lia.
Qed.

Lemma wr_Some a i v a' :
  wr a i v = Some a' →
  (0 ≤ i < Z.of_nat (length a))%Z ∧ a' = <[Z.to_nat i := v]> a.
Proof. unfold wr. case_decide; [|done]. by intros [= <-]. Qed.

Lemma wr_is_Some a i v :
  (0 ≤ i < Z.of_nat (length a))%Z → is_Some (wr a i v).
Proof. intros ?. unfold wr. case_decide; [eauto | lia]. Qed.

Lemma tabulate_length n (f : nat → option A) l :
  tabulate n f = Some l → length l = n.
Proof.
  intros H. apply length_mapM in H. by rewrite length_seq in H.
Qed.

Lemma tabulate_lookup n (f : nat → option A) l m :
  tabulate n f = Some l → m < n → ∃ v, f m = Some v ∧ l !! m = Some v.
Proof.
  intros H Hm. apply mapM_Some_1 in H.
  destruct (Forall2_lookup_l _ _ _ m m H) as (v & Hv & Hf).
  { by apply lookup_seq_lt. }
  eauto.
Qed.

Lemma tabulate_lookup_Some n (f : nat → option A) l m v :
  tabulate n f = Some l → l !! m = Some v → f m = Some v.
Proof.
  intros H Hv. pose proof (tabulate_length _ _ _ H) as Hl.
  assert (m < n) as Hm by (apply lookup_lt_Some in Hv; lia).
  destruct (tabulate_lookup _ _ _ _ H Hm) as (w & ? & ?). congruence.
Qed.

Lemma tabulate_is_Some n (f : nat → option A) :
  (∀ m, m < n → is_Some (f m)) → is_Some (tabulate n f).
Proof.
  intros H. apply mapM_is_Some_2, list.Forall_forall. intros m Hm.
  apply H. apply elem_of_seq in Hm. lia.
Qed.

End arrays.

Section loops.
Context {S : Type}.
Implicit Types (body : nat → S → option S).

Lemma for_loop_app body l1 l2 s :
  for_loop (l1 ++ l2) body s = s' ← for_loop l1 body s; for_loop l2 body s'.
Proof.
  revert s. induction l1 as [|m l1 IH]; intros s; simpl; [done|].
  destruct (body m s); simpl; [apply IH | done].
Qed.

Lemma for_n_S body n s :
  for_n (Datatypes.S n) body s = s' ← for_n n body s; body n s'.
Proof.
  unfold for_n. rewrite seq_S, for_loop_app. simpl.
  destruct (for_loop (seq 0 n) body s); simpl; [|done].
  by destruct (body n s0).
Qed.

(** Partial correctness: an invariant indexed by the loop counter. *)
Lemma for_n_inv (P : nat → S → Prop) body n s s' :
  for_n n body s = Some s' →
  P 0 s →
  (∀ m t t', m < n → P m t → body m t = Some t' → P (Datatypes.S m) t') →
  P n s'.
Proof.
  revert s'. induction n as [|n IH]; intros s' Hrun H0 Hstep.
  - by injection Hrun as <-.
  - rewrite for_n_S in Hrun.
    destruct (for_n n body s) as [t|] eqn:Ht; simpl in Hrun; [|done].
    eapply Hstep; [lia | | done]. apply IH; eauto.
Qed.

(** Total correctness: the body cannot fault under the invariant. *)
Lemma for_n_total (P : nat → S → Prop) body n s :
  P 0 s →
  (∀ m t, m < n → P m t → ∃ t', body m t = Some t' ∧ P (Datatypes.S m) t') →
  ∃ s', for_n n body s = Some s' ∧ P n s'.
Proof.
  intros H0. induction n as [|n IH]; intros Hstep.
  - by exists s.
  - destruct IH as (t & Ht & HP); [by eauto|].
    destruct (Hstep n t) as (t' & Ht' & HP'); [lia|done|].
    exists t'. by rewrite for_n_S, Ht.
Qed.

End loops.

Import OLM.

Ltac bind_inv H :=
  repeat match type of H with
  | (?x ≫= _) = Some _ =>
      let E := fresh "E" in
      destruct x eqn:E; simpl in H; [|discriminate H]
  | (let '(_, _) := ?p in _) = Some _ => destruct p; simpl in H
  | (match ?p with (_, _) => _ end) = Some _ => destruct p; simpl in H
  end.

Lemma iteration_Some c i s s' :
  iteration c i s = Some s' →
  ∃ modegain modemult modelimit DMnow0 limFrac,
    tabulate (NBmodes s) (modegain_at c i s) = Some modegain ∧
    tabulate (NBmodes s) (modemult_at c i s) = Some modemult ∧
    tabulate (NBmodes s) (modelimit_at s) = Some modelimit ∧
    update_DMnow i s modegain modemult = Some DMnow0 ∧
    mix_prediction c i s DMnow0 = Some (modevalDMnow s', IDmodevalPF s') ∧
    autotune_limits c s modelimit (modevalDMnow s')
      = Some (LIMIT_modes s', limitb s', atlimbcoeff s') ∧
    clip_pass s modelimit (modevalDMnow s')
      = Some (modevalDMnowfilt s', limFrac) ∧
    commit s (modevalDMnowfilt s') = Some (modevalDM_C s') ∧
    interpolate s (modevalDM_C s') = Some (modevalDM s') ∧
    open_loop i s (modevalDM s') = Some (modeval_ol s') ∧
    telemetry c s limFrac
      = Some (blockavelimFrac s', allavelimFrac s', blockstatcnt s',
              blockave_limFrac s', ALLave_limFrac s') ∧
    NBmodes s' = NBmodes s ∧ modeblock s' = modeblock s ∧
    blockNBmodes s' = blockNBmodes s ∧
    framelatency0 s' = framelatency0 s ∧ alpha s' = alpha s ∧
    FILTERMODE s' = FILTERMODE s ∧
    modevalDMindex s' = next_index s ∧
    modevalDMindexl s' = modevalDMindex s.
Proof.
  unfold iteration. intros H. bind_inv H.
  injection H as <-. simpl. eexists _, _, _, _, _. repeat split; eauto.
Qed.

(** ** The DM-history ring *)

Lemma bsize_nat : Z.to_nat modevalDM_bsize = 20.
Proof. reflexivity. Qed.

Lemma commit_Some s filt ring :
  commit s filt = Some ring →
  length ring = length (modevalDM_C s) ∧
  ∀ m, m < NBmodes s →
    is_Some (filt !! m) ∧
    rd ring (modevalDMindex s * Z.of_nat (NBmodes s) + Z.of_nat m) = filt !! m.
Proof.
  unfold commit. intros H.
  set (base := (modevalDMindex s * Z.of_nat (NBmodes s))%Z) in *.
  eapply (for_n_inv (λ k r,
    length r = length (modevalDM_C s) ∧
    ∀ m, m < k → is_Some (filt !! m) ∧
                 rd r (base + Z.of_nat m) = filt !! m)) in H.
  - done.
  - split; [done | lia].
  - intros k r r' Hk [Hlen IH] Hbody.
    destruct (filt !! k) as [v|] eqn:Hv; simpl in Hbody; [|done].
    apply wr_Some in Hbody as [Hin ->]. split.
    { by rewrite length_insert. }
    intros m Hm. destruct (decide (m = k)) as [->|Hne].
    + rewrite Hv. split; [by eauto|]. unfold rd. case_decide; [|lia].
      apply list_lookup_insert_eq. lia.
    + destruct (IH m) as [Hs Hr]; [lia|]. split; [done|].
      rewrite <- Hr. unfold rd. case_decide; [|done].
      apply list_lookup_insert_ne. lia.
Qed.

Lemma commit_total c0 s filt :
  wf c0 s → NBmodes s ≤ length filt → is_Some (commit s filt).
Proof.
  intros Hwf Hlen. unfold commit.
  destruct (for_n_total (λ _ r, length r = length (modevalDM_C s))
    (λ m r, v ← filt !! m;
       wr r (modevalDMindex s * Z.of_nat (NBmodes s) + Z.of_nat m) v)
    (NBmodes s) (modevalDM_C s)) as (r & Hr & _); [done| |by eauto].
  intros m r Hm Hr.
  destruct (lookup_lt_is_Some_2 filt m) as [v Hv]; [lia|].
  rewrite Hv. simpl.
  destruct (wr_is_Some r
    (modevalDMindex s * Z.of_nat (NBmodes s) + Z.of_nat m) v) as [r' Hr'].
  { rewrite Hr, (wf_ring _ _ Hwf), bsize_nat.
    pose proof (wf_index _ _ Hwf) as Hi. unfold modevalDM_bsize in Hi. nia. }
  exists r'. split; [done|].
  apply wr_Some in Hr' as [_ ->]. by rewrite length_insert.
Qed.

Lemma next_index_range s :
  (0 ≤ modevalDMindex s < modevalDM_bsize)%Z →
  (0 ≤ next_index s < modevalDM_bsize)%Z.
Proof. unfold next_index, modevalDM_bsize. intros. case_decide; lia. Qed.

(** ** Well-formed states *)

Lemma load_blocks_length imgs NB blk mb bnb mb' bnb' :
  load_blocks imgs NB blk mb bnb = Some (mb', bnb') →
  length mb ≤ NB → length mb' = NB.
Proof.
  revert blk mb bnb. induction imgs as [|n imgs IH]; intros blk mb bnb; simpl.
  - case_decide; [done|]. intros [= <- <-]. lia.
  - case_decide as Hlt.
    + case_decide as Hok; [|done]. intros H _. eapply IH; [exact H|].
      rewrite length_app, length_replicate. lia.
    + intros [= <- <-]. lia.
Qed.

Lemma init_wf c0 NB imgs LIMIT MULTF PF limitb0 s :
  init c0 NB imgs LIMIT MULTF PF limitb0 = Some s → wf c0 s.
Proof.
  unfold init. intros H.
  destruct (load_blocks imgs NB 0 [] []) as [[mb bnb]|] eqn:Hlb;
    simpl in H; [|done].
  destruct (F.to_long _) as [fl0|] eqn:Hfl; simpl in H; [|done].
  case_decide; [|done]. injection H as <-.
  split; simpl; try done.
  - unfold zeros. by rewrite length_replicate.
  - eapply load_blocks_length; [done | simpl; lia].
  - intros m Hm. rewrite Z.mul_0_l, Z.add_0_l, rd_nat.
    unfold zeros. rewrite !lookup_replicate_2; [done | lia | lia].
Qed.

Lemma iteration_wf c0 c i s s' :
  wf c0 s → iteration c i s = Some s' → wf c0 s'.
Proof.
  intros Hwf H.
  apply iteration_Some in H as (mg & mm & ml & d0 & lf & _ & _ & _ & _ & _
    & _ & _ & Hc & _ & _ & _ & HNB & Hmb & _ & Hfl & Hal & _ & Hix & Hil).
  apply commit_Some in Hc as [Hlen Hrd].
  split.
  - rewrite Hlen, HNB. apply Hwf.
  - rewrite Hix. apply next_index_range, Hwf.
  - rewrite Hil. apply Hwf.
  - rewrite Hmb, HNB. apply Hwf.
  - rewrite Hfl. apply Hwf.
  - rewrite Hal, Hfl. apply Hwf.
  - intros m Hm. rewrite Hil, HNB. apply Hrd. lia.
Qed.

Lemma reachable_wf c0 s : reachable c0 s → wf c0 s.
Proof.
  induction 1 as [??????? Hinit|???? _ IH Hit|??? _ IH].
  - by eapply init_wf.
  - by eapply iteration_wf.
  - destruct IH. by split.
Qed.

(** ** A pass does not fault *)

Section total.
Context (c0 c : AOconf_t) (i : inputs) (s : state).
Context (Hwf : wf c0 s) (Hok : inputs_ok c i s).

Lemma modeblock_lookup m :
  m < NBmodes s →
  ∃ b, modeblock s !! m = Some b ∧
       b < length (gainb i) ∧ b < length (multfb i) ∧
       b < length (limitb s) ∧ b < length (blockavelimFrac s).
Proof using Hwf Hok.
  intros Hm. destruct (lookup_lt_is_Some_2 (modeblock s) m) as [b Hb].
  { by rewrite (wf_modeblock _ _ Hwf). }
  exists b. split; [done|].
  by apply (Forall_lookup_1 _ _ _ _ (ok_blocks _ _ _ Hok) Hb).
Qed.

Lemma modegain_total : is_Some (tabulate (NBmodes s) (modegain_at c i s)).
Proof using Hwf Hok.
  apply tabulate_is_Some. intros m Hm. unfold modegain_at.
  destruct (modeblock_lookup m Hm) as (b & -> & Hg & _). simpl.
  destruct (lookup_lt_is_Some_2 (gainb i) b Hg) as [gb ->]. simpl.
  destruct (lookup_lt_is_Some_2 (GAIN_modes i) m) as [g ->]; [|by eauto].
  pose proof (ok_GAIN _ _ _ Hok). lia.
Qed.

Lemma modemult_total : is_Some (tabulate (NBmodes s) (modemult_at c i s)).
Proof using Hwf Hok.
  apply tabulate_is_Some. intros m Hm. unfold modemult_at.
  destruct (modeblock_lookup m Hm) as (b & -> & _ & Hg & _). simpl.
  destruct (lookup_lt_is_Some_2 (multfb i) b Hg) as [gb ->]. simpl.
  destruct (ok_MULTF _ _ _ Hok) as (mf & -> & Hmf). simpl.
  destruct (lookup_lt_is_Some_2 mf m) as [g ->]; [lia | by eauto].
Qed.

Lemma modelimit_total : is_Some (tabulate (NBmodes s) (modelimit_at s)).
Proof using Hwf Hok.
  apply tabulate_is_Some. intros m Hm. unfold modelimit_at.
  destruct (modeblock_lookup m Hm) as (b & -> & _ & _ & Hg & _). simpl.
  destruct (lookup_lt_is_Some_2 (limitb s) b Hg) as [gb ->]. simpl.
  destruct (ok_LIMIT _ _ _ Hok) as (mf & -> & Hmf). simpl.
  destruct (lookup_lt_is_Some_2 mf m) as [g ->]; [lia | by eauto].
Qed.

Lemma ring_slot_rd (ring : list float) slot m :
  length ring = (Z.to_nat modevalDM_bsize * NBmodes s)%nat →
  (0 ≤ slot < modevalDM_bsize)%Z → m < NBmodes s →
  is_Some (rd ring (slot * Z.of_nat (NBmodes s) + Z.of_nat m)).
Proof.
  intros Hlen Hslot Hm. apply rd_is_Some. rewrite Hlen, bsize_nat.
  unfold modevalDM_bsize in Hslot. nia.
Qed.

Lemma update_DMnow_total mg mm :
  length mg = NBmodes s → length mm = NBmodes s →
  is_Some (update_DMnow i s mg mm).
Proof using Hwf Hok.
  intros Hg Hm. apply tabulate_is_Some. intros m Hlt.
  destruct (lookup_lt_is_Some_2 mm m) as [x ->]; [lia|]. simpl.
  destruct (ring_slot_rd (modevalDM_C s) (modevalDMindexl s) m)
    as [l ->]; [apply Hwf | apply Hwf | done |]. simpl.
  destruct (lookup_lt_is_Some_2 mg m) as [y ->]; [lia|]. simpl.
  destruct (lookup_lt_is_Some_2 (modeval i) m) as [z ->]; [|by eauto].
  pose proof (ok_modeval _ _ _ Hok). lia.
Qed.

Lemma mix_prediction_length d0 d pf :
  mix_prediction c i s d0 = Some (d, pf) →
  length d0 = NBmodes s → length d = NBmodes s.
Proof.
  unfold mix_prediction. intros H Hl.
  repeat case_match; simplify_option_eq; try done.
  by eapply tabulate_length.
Qed.

Lemma mix_prediction_total d0 :
  length d0 = NBmodes s → is_Some (mix_prediction c i s d0).
Proof using Hok.
  intros Hl. unfold mix_prediction.
  case_decide as Hon; [|by eauto].
  destruct (IDmodevalPF s) eqn:Hpf; [|by eauto].
  destruct (ok_PF _ _ _ Hok Hon Hpf) as (pf & -> & Hlen). simpl.
  match goal with
  | |- is_Some (?t ≫= _) => assert (is_Some t) as [l ->]; [|by eauto]
  end.
  apply tabulate_is_Some. intros m Hm.
  destruct (lookup_lt_is_Some_2 pf m) as [x ->]; [lia|]. simpl.
  destruct (lookup_lt_is_Some_2 d0 m) as [y ->]; [lia | by eauto].
Qed.

End total.

(** ** The filtering loop *)

Lemma bump_0 x : bump 0 x = x.
Proof. apply F_add_zero. Qed.

Lemma bump_1 x : bump 1 x = (x + F.one)%F.
Proof. done. Qed.

Lemma bump_add a b x : bump b (bump a x) = bump (a + b) x.
Proof. unfold bump. by rewrite F_add_of_Z, Nat2Z.inj_add. Qed.

Lemma clip_mode_Some s ml k f fr f' fr' :
  clip_mode s ml k (f, fr) = Some (f', fr') →
  ∃ b lim v,
    modeblock s !! k = Some b ∧ ml !! k = Some lim ∧ f !! k = Some v ∧
    f' = <[k := clip v lim]> f ∧ length fr' = length fr ∧
    ∀ b', fr' !! b' =
          if decide (b' = b) then bump (clip_events v lim) <$> fr !! b'
          else fr !! b'.
Proof.
  unfold clip_mode. intros H.
  destruct (modeblock s !! k) as [b|] eqn:Hb; simpl in H; [|done].
  destruct (ml !! k) as [lim|] eqn:Hlim; simpl in H; [|done].
  destruct (f !! k) as [v|] eqn:Hv; simpl in H; [|done].
  exists b, lim, v. split_and!; try done.
  all: unfold clip, clip_events.
  all: pose proof (lookup_lt_Some _ _ _ Hv) as Hk.
  all: destruct (v >? lim)%F eqn:H1; simpl in H.
  - destruct (fr !! b) as [n|] eqn:Hn; simpl in H; [|done].
    rewrite (list_lookup_insert_eq f) in H by done. simpl in H.
    destruct (lim <? - lim)%F eqn:H2.
    + rewrite (list_lookup_insert_eq fr) in H
        by (by apply lookup_lt_Some in Hn). simpl in H.
      injection H as <- <-. by rewrite list_insert_insert_eq.
    + by injection H as <- <-.
  - rewrite Hv in H. simpl in H. destruct (v <? - lim)%F eqn:H2.
    + destruct (fr !! b) as [n|] eqn:Hn; simpl in H; [|done].
      by injection H as <- <-.
    + injection H as <- <-. by rewrite list_insert_id.
  - destruct (fr !! b) as [n|] eqn:Hn; simpl in H; [|done].
    rewrite (list_lookup_insert_eq f) in H by done. simpl in H.
    destruct (lim <? - lim)%F eqn:H2.
    + rewrite (list_lookup_insert_eq fr) in H
        by (by apply lookup_lt_Some in Hn). simpl in H.
      injection H as <- <-. by rewrite !length_insert.
    + injection H as <- <-. by rewrite !length_insert.
  - rewrite Hv in H. simpl in H. destruct (v <? - lim)%F eqn:H2.
    + destruct (fr !! b) as [n|] eqn:Hn; simpl in H; [|done].
      injection H as <- <-. by rewrite !length_insert.
    + by injection H as <- <-.
  - destruct (fr !! b) as [n|] eqn:Hn; simpl in H; [|done].
    pose proof (lookup_lt_Some _ _ _ Hn) as Hbl.
    rewrite (list_lookup_insert_eq f) in H by done. simpl in H.
    destruct (lim <? - lim)%F eqn:H2.
    + rewrite (list_lookup_insert_eq fr) in H by done. simpl in H.
      injection H as <- <-. intros b'. case_decide as Hbb.
      * subst b'. rewrite list_lookup_insert_eq
          by (by rewrite length_insert).
        rewrite Hn. apply (f_equal Some).
        change (bump 1 (bump 1 n) = bump (1 + 1) n). apply bump_add.
      * by rewrite !list_lookup_insert_ne.
    + injection H as <- <-. intros b'. case_decide as Hbb.
      * subst b'. rewrite list_lookup_insert_eq by done. by rewrite Hn.
      * by rewrite !list_lookup_insert_ne.
  - rewrite Hv in H. simpl in H. destruct (v <? - lim)%F eqn:H2.
    + destruct (fr !! b) as [n|] eqn:Hn; simpl in H; [|done].
      pose proof (lookup_lt_Some _ _ _ Hn) as Hbl.
      injection H as <- <-. intros b'. case_decide as Hbb.
      * subst b'. rewrite list_lookup_insert_eq by done. by rewrite Hn.
      * by rewrite !list_lookup_insert_ne.
    + injection H as <- <-. intros b'. case_decide as Hbb; [|done].
      subst b'. destruct (fr !! b); simpl; [|done]. by rewrite bump_0.
Qed.

Lemma clip_count_S s ml d b k :
  clip_count s ml d b (S k) =
  clip_count s ml d b k +
  match modeblock s !! k, ml !! k, d !! k with
  | Some b', Some lim, Some v =>
      if decide (b' = b) then clip_events v lim else 0
  | _, _, _ => 0
  end.
Proof.
  unfold clip_count. rewrite seq_S, sum_list_with_app. simpl. lia.
Qed.

Lemma clip_loop_Some s ml d fr0 filt frac :
  for_n (NBmodes s) (clip_mode s ml) (d, fr0) = Some (filt, frac) →
  length filt = length d ∧ length frac = length fr0 ∧
  (∀ m, m < NBmodes s →
     ∃ lim v, ml !! m = Some lim ∧ d !! m = Some v ∧
              filt !! m = Some (clip v lim)) ∧
  (∀ b, frac !! b = bump (clip_count s ml d b (NBmodes s)) <$> fr0 !! b).
Proof.
  intros H.
  eapply (for_n_inv (λ k st,
    length st.1 = length d ∧ length st.2 = length fr0 ∧
    (∀ m, m < k → ∃ lim v, ml !! m = Some lim ∧ d !! m = Some v ∧
                           st.1 !! m = Some (clip v lim)) ∧
    (∀ m, k ≤ m → st.1 !! m = d !! m) ∧
    (∀ b, st.2 !! b = bump (clip_count s ml d b k) <$> fr0 !! b))) in H.
  - simpl in H. destruct H as (? & ? & ? & _ & ?). eauto.
  - simpl. split_and!; try done.
    + intros m Hm. lia.
    + intros b. destruct (fr0 !! b); simpl; [|done].
      by rewrite bump_0.
  - intros k [f fr] [f' fr'] Hk (Hlf & Hlfr & Hlo & Hhi & Hfr) Hbody.
    simpl in *.
    apply clip_mode_Some in Hbody
      as (b & lim & v & Hb & Hlim & Hv & -> & Hlen & Hfr').
    assert (d !! k = Some v) as Hdv by (by rewrite <- Hhi).
    pose proof (lookup_lt_Some _ _ _ Hv) as Hkf.
    split_and!.
    + by rewrite length_insert.
    + congruence.
    + intros m Hm. destruct (decide (m = k)) as [->|Hne].
      * exists lim, v. by rewrite list_lookup_insert_eq.
      * rewrite list_lookup_insert_ne by done. apply Hlo. lia.
    + intros m Hm. rewrite list_lookup_insert_ne by lia. apply Hhi. lia.
    + intros b'. rewrite Hfr', clip_count_S, Hb, Hlim, Hdv.
      case_decide as Hbb.
      * subst b'. rewrite decide_True by done. rewrite Hfr.
        destruct (fr0 !! b); simpl; [|done]. by rewrite bump_add.
      * rewrite decide_False by done. by rewrite Hfr, Nat.add_0_r.
Qed.

Lemma clip_loop_total c0 c i s ml d :
  wf c0 s → inputs_ok c i s →
  length ml = NBmodes s → length d = NBmodes s →
  is_Some (for_n (NBmodes s) (clip_mode s ml) (d, blockavelimFrac s)).
Proof.
  intros Hwf Hok Hml Hd.
  destruct (for_n_total (λ _ st,
    length st.1 = NBmodes s ∧ length st.2 = length (blockavelimFrac s))
    (clip_mode s ml) (NBmodes s) (d, blockavelimFrac s))
    as (st & Hst & _); [done| |by eauto].
  intros k [f fr] Hk [Hf Hfr]. simpl in *.
  destruct (modeblock_lookup c0 c i s Hwf Hok k Hk)
    as (b & Hb & _ & _ & _ & Hbl).
  destruct (lookup_lt_is_Some_2 ml k) as [lim Hlim]; [lia|].
  destruct (lookup_lt_is_Some_2 f k) as [v Hv]; [lia|].
  destruct (lookup_lt_is_Some_2 fr b) as [n Hn]; [lia|].
  unfold clip_mode. rewrite Hb, Hlim, Hv. simpl.
  destruct (v >? lim)%F; simpl.
  - rewrite Hn. simpl. rewrite (list_lookup_insert_eq f) by lia. simpl.
    destruct (lim <? - lim)%F.
    + rewrite (list_lookup_insert_eq fr) by lia. simpl.
      eexists. split; [done|]. simpl. by rewrite !length_insert.
    + eexists. split; [done|]. simpl. by rewrite !length_insert.
  - rewrite Hv. simpl. destruct (v <? - lim)%F.
    + rewrite Hn. simpl.
      eexists. split; [done|]. simpl. by rewrite !length_insert.
    + eexists. by split.
Qed.

(** ** The limit auto-tuner *)

Lemma block_sum_S s L b k :
  block_sum s L b (S k) =
  match modeblock s !! k, L !! k with
  | Some b', Some l =>
      if decide (b' = b) then (block_sum s L b k + l)%F else block_sum s L b k
  | _, _ => block_sum s L b k
  end.
Proof. unfold block_sum. by rewrite seq_S, foldl_app. Qed.

Lemma block_sum_ext s L L' b k :
  (∀ m, m < k → L !! m = L' !! m) →
  block_sum s L b k = block_sum s L' b k.
Proof.
  induction k as [|k IH]; intros Heq; [done|].
  rewrite !block_sum_S, IH by (intros; apply Heq; lia).
  by rewrite (Heq k) by lia.
Qed.

Lemma autotune_mode_Some c s ml d k L lba L' lba' :
  autotune_mode c s ml d k (L, lba) = Some (L', lba') →
  ∃ b v lim l acc,
    modeblock s !! k = Some b ∧ d !! k = Some v ∧ ml !! k = Some lim ∧
    L !! k = Some l ∧ lba !! b = Some acc ∧
    L' = <[k := tuned_limit c l v lim]> L ∧
    lba' = <[b := (acc + tuned_limit c l v lim)%F]> lba.
Proof.
  unfold autotune_mode. intros H.
  destruct (modeblock s !! k) as [b|]; simpl in H; [|done].
  destruct (d !! k) as [v|]; simpl in H; [|done].
  destruct (ml !! k) as [lim|]; simpl in H; [|done].
  destruct (L !! k) as [l|]; simpl in H; [|done].
  destruct (lba !! b) as [acc|] eqn:Hacc; simpl in H; [|done].
  injection H as <- <-. by exists b, v, lim, l, acc.
Qed.

Lemma autotune_modes_Some c s ml d L n L' lba :
  for_n (NBmodes s) (autotune_mode c s ml d) (L, zeros n) = Some (L', lba) →
  length L' = length L ∧ length lba = n ∧
  (∀ m, m < NBmodes s →
     ∃ l v lim, L !! m = Some l ∧ d !! m = Some v ∧ ml !! m = Some lim ∧
                L' !! m = Some (tuned_limit c l v lim)) ∧
  (∀ b, b < n → lba !! b = Some (block_sum s L' b (NBmodes s))).
Proof.
  intros H.
  eapply (for_n_inv (λ k st,
    length st.1 = length L ∧ length st.2 = n ∧
    (∀ m, m < k → ∃ l v lim, L !! m = Some l ∧ d !! m = Some v ∧
       ml !! m = Some lim ∧ st.1 !! m = Some (tuned_limit c l v lim)) ∧
    (∀ m, k ≤ m → st.1 !! m = L !! m) ∧
    (∀ b, b < n → st.2 !! b = Some (block_sum s st.1 b k)))) in H.
  - simpl in H. destruct H as (? & ? & ? & _ & ?). eauto.
  - simpl. split_and!; try done.
    + unfold zeros. by rewrite length_replicate.
    + intros m Hm. lia.
    + intros b Hb. unfold zeros. by rewrite lookup_replicate_2.
  - intros k [L1 lba1] [L2 lba2] Hk (HlL & Hll & Hlo & Hhi & Hsum) Hbody.
    simpl in *.
    apply autotune_mode_Some in Hbody
      as (b & v & lim & l & acc & Hb & Hv & Hlim & Hl & Hacc & -> & ->).
    pose proof (lookup_lt_Some _ _ _ Hl) as HkL.
    pose proof (lookup_lt_Some _ _ _ Hacc) as Hbn.
    split_and!.
    + by rewrite length_insert.
    + by rewrite length_insert.
    + intros m Hm. destruct (decide (m = k)) as [->|Hne].
      * exists l, v, lim. rewrite list_lookup_insert_eq by done.
        by rewrite <- Hhi.
      * rewrite list_lookup_insert_ne by done. apply Hlo. lia.
    + intros m Hm. rewrite list_lookup_insert_ne by lia. apply Hhi. lia.
    + intros b' Hb'. rewrite block_sum_S, Hb.
      rewrite (list_lookup_insert_eq L1) by done.
      rewrite (block_sum_ext s (<[k:=tuned_limit c l v lim]> L1) L1)
        by (intros; apply list_lookup_insert_ne; lia).
      case_decide as Hbb.
      * subst b'. rewrite list_lookup_insert_eq by lia.
        rewrite Hsum in Hacc by lia. by injection Hacc as <-.
      * rewrite list_lookup_insert_ne by done. by apply Hsum.
Qed.

Lemma autotune_block_Some c s lba k atl limb atl' limb' :
  autotune_block c s lba k (atl, limb) = Some (atl', limb') →
  ∃ acc n lb,
    lba !! k = Some acc ∧ blockNBmodes s !! k = Some n ∧
    limb !! k = Some lb ∧ k < length atl ∧
    atl' = <[k := (acc / F.of_Z (Z.of_nat n))%F]> atl ∧
    limb' =
      <[k := (lb * block_coeff c (acc / F.of_Z (Z.of_nat n)))%F]> limb.
Proof.
  unfold autotune_block. intros H.
  destruct (lba !! k) as [acc|]; simpl in H; [|done].
  destruct (blockNBmodes s !! k) as [n|]; simpl in H; [|done].
  destruct (wr atl _ _) as [a|] eqn:Hwr; simpl in H; [|done].
  destruct (limb !! k) as [lb|]; simpl in H; [|done].
  injection H as <- <-. apply wr_Some in Hwr as [Hin ->].
  rewrite Nat2Z.id. exists acc, n, lb. split_and!; try done. lia.
Qed.

Lemma autotune_blocks_Some c s lba nb atl limb atl' limb' :
  for_n nb (autotune_block c s lba) (atl, limb) = Some (atl', limb') →
  length atl' = length atl ∧ length limb' = length limb ∧
  ∀ b, b < nb →
    ∃ acc n lb,
      lba !! b = Some acc ∧ blockNBmodes s !! b = Some n ∧
      limb !! b = Some lb ∧
      atl' !! b = Some (acc / F.of_Z (Z.of_nat n))%F ∧
      limb' !! b
      = Some (lb * block_coeff c (acc / F.of_Z (Z.of_nat n)))%F.
Proof.
  intros H.
  eapply (for_n_inv (λ k st,
    length st.1 = length atl ∧ length st.2 = length limb ∧
    (∀ b, b < k → ∃ acc n lb,
       lba !! b = Some acc ∧ blockNBmodes s !! b = Some n ∧
       limb !! b = Some lb ∧
       st.1 !! b = Some (acc / F.of_Z (Z.of_nat n))%F ∧
       st.2 !! b
       = Some (lb * block_coeff c (acc / F.of_Z (Z.of_nat n)))%F) ∧
    (∀ b, k ≤ b → st.2 !! b = limb !! b))) in H.
  - simpl in H. destruct H as (? & ? & ? & _). eauto.
  - simpl. split_and!; try done. intros; lia.
  - intros k [a1 l1] [a2 l2] Hk (Hla & Hll & Hlo & Hhi) Hbody. simpl in *.
    apply autotune_block_Some in Hbody
      as (acc & n & lb & Hacc & Hn & Hlb & Hka & -> & ->).
    pose proof (lookup_lt_Some _ _ _ Hlb) as Hkl.
    split_and!.
    + by rewrite length_insert.
    + by rewrite length_insert.
    + intros b Hb. destruct (decide (b = k)) as [->|Hne].
      * exists acc, n, lb. rewrite !list_lookup_insert_eq by done.
        rewrite <- Hhi by done. done.
      * rewrite !list_lookup_insert_ne by done. apply Hlo. lia.
    + intros b Hb. rewrite list_lookup_insert_ne by lia. apply Hhi. lia.
Qed.

Lemma autotune_limits_total c0 c i s ml d :
  wf c0 s → inputs_ok c i s →
  length ml = NBmodes s → length d = NBmodes s →
  is_Some (autotune_limits c s ml d).
Proof.
  intros Hwf Hok Hml Hd. unfold autotune_limits.
  case_decide as Hon; [|by eauto].
  destruct (ok_LIMIT _ _ _ Hok) as (L & -> & HL). simpl.
  destruct (ok_autotune _ _ _ Hok Hon) as (Hblk & Hbnb & Hatl & Hlimb).
  destruct (for_n_total (λ _ st,
    length st.1 = length L ∧ length st.2 = DMmodesNBblock c)
    (autotune_mode c s ml d) (NBmodes s) (L, zeros (DMmodesNBblock c)))
    as ([L' lba] & -> & _ & Hlba); simpl.
  { split; [done|]. unfold zeros. by rewrite length_replicate. }
  { intros k [L1 lba1] Hk [HL1 Hl1]. simpl in *.
    destruct (lookup_lt_is_Some_2 (modeblock s) k) as [b Hb].
    { by rewrite (wf_modeblock _ _ Hwf). }
    pose proof (Forall_lookup_1 _ _ _ _ Hblk Hb) as Hbn. simpl in Hbn.
    destruct (lookup_lt_is_Some_2 d k) as [v Hv]; [lia|].
    destruct (lookup_lt_is_Some_2 ml k) as [lim Hlim]; [lia|].
    destruct (lookup_lt_is_Some_2 L1 k) as [l Hl]; [lia|].
    destruct (lookup_lt_is_Some_2 lba1 b) as [acc Hacc]; [lia|].
    unfold autotune_mode. rewrite Hb, Hv, Hlim, Hl. simpl. rewrite Hacc.
    simpl. eexists. split; [done|]. simpl. by rewrite !length_insert. }
  destruct (for_n_total (λ _ st,
    length st.1 = length (atlimbcoeff s) ∧ length st.2 = length (limitb s))
    (autotune_block c s lba) (DMmodesNBblock c) (atlimbcoeff s, limitb s))
    as ([a' l'] & -> & _); simpl; [done| |by eauto].
  intros k [a1 l1] Hk [Ha1 Hl1]. simpl in *.
  destruct (lookup_lt_is_Some_2 lba k) as [acc Hacc]; [lia|].
  destruct (lookup_lt_is_Some_2 (blockNBmodes s) k) as [n Hn]; [lia|].
  destruct (lookup_lt_is_Some_2 l1 k) as [lb Hlb]; [lia|].
  unfold autotune_block. rewrite Hacc, Hn. simpl.
  destruct (wr_is_Some a1 (Z.of_nat k) (acc / F.of_Z (Z.of_nat n))%F)
    as [a2 Ha2]; [lia|].
  rewrite Ha2, Hlb. simpl. eexists. split; [done|]. simpl.
  apply wr_Some in Ha2 as [_ ->]. by rewrite !length_insert.
Qed.

(** ** Clip-fraction telemetry *)

Lemma publish_block_Some cnt k pub allave lf pub' allave' lf' :
  publish_block cnt k (pub, allave, lf) = Some (pub', allave', lf') →
  ∃ n, lf !! k = Some n ∧ k < length pub ∧
       pub' = <[k := (n / F.of_Z cnt)%F]> pub ∧
       lf' = <[k := F.zero]> lf.
Proof.
  unfold publish_block. intros H.
  destruct (lf !! k) as [n|]; simpl in H; [|done].
  destruct (wr pub _ _) as [p|] eqn:Hwr; simpl in H; [|done].
  injection H as <- <- <-. apply wr_Some in Hwr as [Hin ->].
  rewrite Nat2Z.id. exists n. split_and!; try done. lia.
Qed.

Lemma publish_blocks_Some cnt nb pub allave lf pub' allave' lf' :
  for_n nb (publish_block cnt) (pub, allave, lf)
  = Some (pub', allave', lf') →
  (∀ b, b < nb → ∃ n, lf !! b = Some n ∧
     pub' !! b = Some (n / F.of_Z cnt)%F ∧ lf' !! b = Some F.zero) ∧
  (∀ b, nb ≤ b → lf' !! b = lf !! b ∧ pub' !! b = pub !! b).
Proof.
  intros H.
  eapply (for_n_inv (λ k st,
    (∀ b, b < k → ∃ n, lf !! b = Some n ∧
       st.1.1 !! b = Some (n / F.of_Z cnt)%F ∧ st.2 !! b = Some F.zero) ∧
    (∀ b, k ≤ b → st.2 !! b = lf !! b ∧ st.1.1 !! b = pub !! b))) in H.
  - done.
  - simpl. split; [intros; lia | done].
  - intros k [[p1 a1] l1] [[p2 a2] l2] Hk [Hlo Hhi] Hbody. simpl in *.
    apply publish_block_Some in Hbody as (n & Hn & Hkp & -> & ->).
    pose proof (lookup_lt_Some _ _ _ Hn) as Hkl.
    destruct (Hhi k) as [Hk1 Hk2]; [lia|]. rewrite Hk1 in Hn.
    split.
    + intros b Hb. destruct (decide (b = k)) as [->|Hne].
      * exists n. by rewrite !list_lookup_insert_eq.
      * rewrite !list_lookup_insert_ne by done. apply Hlo. lia.
    + intros b Hb. rewrite !list_lookup_insert_ne by lia. apply Hhi. lia.
Qed.

Lemma telemetry_total c i s lf :
  inputs_ok c i s → length lf = length (blockavelimFrac s) →
  is_Some (telemetry c s lf).
Proof.
  intros Hok Hlf. unfold telemetry. case_decide as Hpub; [|by eauto].
  destruct (ok_telemetry _ _ _ Hok Hpub) as [Hlen Hpl].
  destruct (for_n_total (λ _ st,
    length st.1.1 = length (blockave_limFrac s) ∧
    length st.2 = length lf)
    (publish_block (blockstatcnt s + 1)) (DMmodesNBblock c)
    (blockave_limFrac s, allavelimFrac s, lf))
    as ([[p a] l] & -> & _); simpl; [done| |by eauto].
  intros k [[p1 a1] l1] Hk [Hp1 Hl1]. simpl in *.
  destruct (lookup_lt_is_Some_2 l1 k) as [n Hn]; [lia|].
  unfold publish_block. rewrite Hn. simpl.
  destruct (wr_is_Some p1 (Z.of_nat k) (n / F.of_Z (blockstatcnt s + 1))%F)
    as [p2 Hp2]; [lia|].
  rewrite Hp2. simpl. eexists. split; [done|]. simpl.
  apply wr_Some in Hp2 as [_ ->]. by rewrite !length_insert.
Qed.

(** ** History read indices *)

Lemma wrap_index_range idx :
  (- modevalDM_bsize ≤ idx < modevalDM_bsize)%Z →
  (0 ≤ wrap_index idx < modevalDM_bsize)%Z.
Proof. unfold wrap_index, modevalDM_bsize. intros. case_decide; lia. Qed.

Lemma wrap_index_mod idx :
  (0 ≤ wrap_index idx < modevalDM_bsize)%Z →
  wrap_index idx = (idx mod modevalDM_bsize)%Z.
Proof.
  unfold wrap_index, modevalDM_bsize. case_decide; intros Hr.
  - rewrite <- (Z_mod_plus_full idx 1 20), Z.mod_small; lia.
  - rewrite Z.mod_small; lia.
Qed.

Lemma read_indices_range s :
  (0 ≤ modevalDMindex s < modevalDM_bsize)%Z →
  (0 ≤ framelatency0 s ≤ modevalDM_bsize - 1)%Z →
  (0 ≤ modevalDMindex0 s < modevalDM_bsize)%Z ∧
  (0 ≤ modevalDMindex1 s < modevalDM_bsize)%Z.
Proof.
  unfold modevalDMindex0, modevalDMindex1, framelatency1, modevalDM_bsize.
  intros. split; apply wrap_index_range; unfold modevalDM_bsize; lia.
Qed.

(** A slot index is in range as soon as one of its elements can be read. *)
Lemma slot_in_range (ring : list float) NB slot m :
  length ring = (Z.to_nat modevalDM_bsize * NB)%nat → m < NB →
  is_Some (rd ring (slot * Z.of_nat NB + Z.of_nat m)) →
  (0 ≤ slot < modevalDM_bsize)%Z.
Proof.
  intros Hlen Hm [v Hv]. apply rd_Some in Hv as [Hr _].
  rewrite Hlen, bsize_nat in Hr. unfold modevalDM_bsize. nia.
Qed.

Lemma interpolate_total c0 s ring :
  wf c0 s → length ring = length (modevalDM_C s) →
  (0 ≤ framelatency0 s ≤ modevalDM_bsize - 1)%Z →
  is_Some (interpolate s ring).
Proof.
  intros Hwf Hlen Hlat. apply tabulate_is_Some. intros m Hm.
  destruct (read_indices_range s (wf_index _ _ Hwf) Hlat) as [H0 H1].
  rewrite (wf_ring _ _ Hwf) in Hlen.
  destruct (ring_slot_rd s ring (modevalDMindex0 s) m Hlen H0 Hm) as [a ->].
  destruct (ring_slot_rd s ring (modevalDMindex1 s) m Hlen H1 Hm) as [b ->].
  by eauto.
Qed.

Lemma open_loop_total c i s DM :
  inputs_ok c i s → length DM = NBmodes s → is_Some (open_loop i s DM).
Proof.
  intros Hok Hlen. apply tabulate_is_Some. intros m Hm.
  pose proof (ok_modeval _ _ _ Hok).
  destruct (lookup_lt_is_Some_2 (modeval i) m) as [v ->]; [lia|].
  destruct (lookup_lt_is_Some_2 DM m) as [d ->]; [lia|]. by eauto.
Qed.

Lemma clip_pass_length s ml d filt lf :
  clip_pass s ml d = Some (filt, lf) →
  length filt = length d ∧ length lf = length (blockavelimFrac s).
Proof.
  unfold clip_pass. case_decide.
  - intros Hl. apply clip_loop_Some in Hl as (? & ? & _). done.
  - by intros [= <- <-].
Qed.

Lemma clip_pass_total c0 c i s ml d :
  wf c0 s → inputs_ok c i s →
  length ml = NBmodes s → length d = NBmodes s →
  is_Some (clip_pass s ml d).
Proof.
  intros. unfold clip_pass. case_decide; [|by eauto].
  by eapply clip_loop_total.
Qed.

(** From a well-formed state, on images of the right sizes and with a lag
    whose integer part fits the ring, a pass runs to its end. *)
Lemma iteration_total c0 c i s :
  wf c0 s → inputs_ok c i s →
  (0 ≤ framelatency0 s ≤ modevalDM_bsize - 1)%Z →
  is_Some (iteration c i s).
Proof.
  intros Hwf Hok Hlat. unfold iteration.
  destruct (modegain_total c0 c i s Hwf Hok) as [mg Hmg].
  destruct (modemult_total c0 c i s Hwf Hok) as [mm Hmm].
  destruct (modelimit_total c0 c i s Hwf Hok) as [ml Hml].
  rewrite Hmg, Hmm, Hml. simpl.
  pose proof (tabulate_length _ _ _ Hmg) as Hlg.
  pose proof (tabulate_length _ _ _ Hmm) as Hlm.
  pose proof (tabulate_length _ _ _ Hml) as Hll.
  destruct (update_DMnow_total c0 c i s Hwf Hok mg mm Hlg Hlm) as [d0 Hd0].
  rewrite Hd0. simpl.
  pose proof (tabulate_length _ _ _ Hd0) as Hld0.
  destruct (mix_prediction_total c i s Hok d0 Hld0) as [[d pf] Hd].
  rewrite Hd. simpl.
  pose proof (mix_prediction_length _ _ _ _ _ _ Hd Hld0) as Hld.
  destruct (autotune_limits_total c0 c i s ml d Hwf Hok Hll Hld)
    as [[[L' lb'] at'] Hat].
  rewrite Hat. simpl.
  destruct (clip_pass_total c0 c i s ml d Hwf Hok Hll Hld) as [[filt lf] Hcl].
  rewrite Hcl. simpl.
  destruct (clip_pass_length _ _ _ _ _ Hcl) as [Hlf Hllf].
  destruct (commit_total c0 s filt Hwf) as [ring Hring]; [lia|].
  rewrite Hring. simpl.
  destruct (commit_Some _ _ _ Hring) as [Hlr _].
  destruct (interpolate_total c0 s ring Hwf Hlr Hlat) as [DM HDM].
  rewrite HDM. simpl.
  pose proof (tabulate_length _ _ _ HDM) as HlDM.
  destruct (open_loop_total c i s DM Hok HlDM) as [out Hout].
  rewrite Hout. simpl.
  destruct (telemetry_total c i s lf Hok Hllf) as [[[[[a b] c'] d'] e'] Htel].
  rewrite Htel. simpl. by eauto.
Qed.

(** The two tests on the block coefficient. *)
Lemma F_clamp_bounds lo hi raw :
  F.le lo hi → F.finite raw →
  let x := if (raw <? lo)%F then lo else raw in
  let y := if (x >? hi)%F then hi else x in
  F.le lo y ∧ F.le y hi.
Proof.
  destruct lo as [|lo], hi as [|hi], raw as [|r]; try done.
  cbn [F.le]. intros Hle _. unfold F.gtb.
  destruct (Fin r <? Fin lo)%F eqn:H1.
  - apply F_ltb_lt in H1. destruct (Fin hi <? Fin lo)%F eqn:H2.
    + apply F_ltb_lt in H2. by apply Qclt_not_le in H2.
    + cbn [F.le]. split; [apply Qcle_refl | done].
  - apply F_ltb_ge in H1. destruct (Fin hi <? Fin r)%F eqn:H2.
    + cbn [F.le]. split; [done | apply Qcle_refl].
    + apply F_ltb_ge in H2. by cbn [F.le].
Qed.

Lemma F_clamp_inside lo hi raw :
  F.le lo raw → F.le raw hi →
  (let x := if (raw <? lo)%F then lo else raw in
   if (x >? hi)%F then hi else x) = raw.
Proof.
  destruct lo as [|lo], hi as [|hi], raw as [|r]; try done.
  cbn [F.le]. intros Hlo Hhi. unfold F.gtb. cbn zeta.
  apply Qcle_not_lt in Hlo, Hhi.
  replace (Fin r <? Fin lo)%F with false
    by (symmetry; by apply bool_decide_eq_false_2).
  replace (Fin hi <? Fin r)%F with false
    by (symmetry; by apply bool_decide_eq_false_2).
  done.
Qed.

Lemma F_one_minus_le_plus d :
  F.le F.zero d → F.le (F.one - d)%F (F.one + d)%F.
Proof.
  destruct d as [|d]; [done|]. cbn [F.le F.zero F.of_Z]. intros Hd.
  change (Q2Qc (inject_Z 1) - d ≤ Q2Qc (inject_Z 1) + d)%Qc. qc_lra.
Qed.

Lemma F_block_coeff_bounds c ave :
  F.le F.zero (AUTOTUNE_LIMITS_delta c) → F.finite ave →
  F.le (F.one - AUTOTUNE_LIMITS_delta c)%F (block_coeff c ave) ∧
  F.le (block_coeff c ave) (F.one + AUTOTUNE_LIMITS_delta c)%F.
Proof.
  intros Hd Have. apply F_clamp_bounds.
  - by apply F_one_minus_le_plus.
  - destruct (AUTOTUNE_LIMITS_delta c); [done|]. by destruct ave.
Qed.

Lemma F_block_coeff_inside c ave :
  let raw := (F.one + (ave - F.one) * AUTOTUNE_LIMITS_delta c * F.fl 0.1)%F in
  F.le (F.one - AUTOTUNE_LIMITS_delta c)%F raw →
  F.le raw (F.one + AUTOTUNE_LIMITS_delta c)%F →
  block_coeff c ave = raw.
Proof. intros raw. apply F_clamp_inside. Qed.

(** ** The claims on [AOloopControl_ComputeOpenLoopModes] *)

(** C1. The modal integrator: on every pass, for every mode [m], the
    current DM state is
    [modemult[m] * (last[m] - modegain[m] * measured[m])], with the gain
    and the multiplier of the start of the pass, and [last] the vector the
    preceding pass committed to the ring, all zero before the first pass.
    What a pass commits is its filtered vector [aol_modeval_dm_now_filt];
    the published [aol_modeval_dm_now] is the integrator value unless the
    predictive filter is mixed in. *)
Theorem C1_integrator_update c0 :
  (∀ NB imgs LIMIT MULTF PF limitb0 s0,
     init c0 NB imgs LIMIT MULTF PF limitb0 = Some s0 →
     modevalDMnowfilt s0 = zeros NB ∧ NBmodes s0 = NB) ∧
  (∀ c i s s',
     reachable c0 s → iteration c i s = Some s' →
     ∃ DMnow0,
       mix_prediction c i s DMnow0
       = Some (modevalDMnow s', IDmodevalPF s') ∧
       (¬ (ARPFon c = 1%Z ∧ IDmodevalPF s = true) →
        modevalDMnow s' = DMnow0) ∧
       commit s (modevalDMnowfilt s') = Some (modevalDM_C s') ∧
       modevalDMindexl s' = modevalDMindex s ∧
       ∀ m, m < NBmodes s →
         ∃ g mu last x,
           modegain_at c i s m = Some g ∧
           modemult_at c i s m = Some mu ∧
           modeval i !! m = Some x ∧
           modevalDMnowfilt s !! m = Some last ∧
           rd (modevalDM_C s)
              (modevalDMindexl s * Z.of_nat (NBmodes s) + Z.of_nat m)
           = Some last ∧
           DMnow0 !! m = Some (mu * (last - g * x))%F).
Proof.
  split.
  - unfold init. intros NB imgs LIMIT MULTF PF limitb0 s0 H.
    destruct (load_blocks imgs NB 0 [] []) as [[mb bnb]|];
      simpl in H; [|done].
    destruct (F.to_long _); simpl in H; [|done].
    case_decide; [|done]. by injection H as <-.
  - intros c i s s' Hreach Hit.
    pose proof (reachable_wf _ _ Hreach) as Hwf.
    apply iteration_Some in Hit as (mg & mm & ml & d0 & lf & Hmg & Hmm & _
      & Hd0 & Hmix & _ & _ & Hc & _ & _ & _ & _ & _ & _ & _ & _ & _ & _ & Hil).
    exists d0. split_and!; try done.
    + intros Hno. unfold mix_prediction in Hmix.
      case_decide as Hon; [|by injection Hmix as <- _].
      destruct (IDmodevalPF s) eqn:Hpf; [|by injection Hmix as <- _].
      by destruct Hno.
    + intros m Hm.
      destruct (tabulate_lookup _ _ _ m Hd0 Hm) as (v & Hv & Hd0m).
      destruct (tabulate_lookup _ _ _ m Hmg Hm) as (g & Hg & Hmgm).
      destruct (tabulate_lookup _ _ _ m Hmm Hm) as (mu & Hmu & Hmmm).
      rewrite Hmmm, (wf_last _ _ Hwf m Hm), Hmgm in Hv. simpl in Hv.
      destruct (modevalDMnowfilt s !! m) as [last|] eqn:Hlast;
        simpl in Hv; [|done].
      destruct (modeval i !! m) as [x|] eqn:Hx; simpl in Hv; [|done].
      injection Hv as <-. exists g, mu, last, x.
      split_and!; try done. by rewrite (wf_last _ _ Hwf m Hm).
Qed.

(** C3 (amended). The open-loop estimator: with [L0] the integer part and
    [f] the fractional part of the total lag
    [hardwlatency_frame + wfsmextrlatency_frame], and [0 <= L0 <= 19], a
    pass on images of the sizes of the loop runs to its end and stores
    [(1-f) * ring[(cursor-L0) mod 20][m] + f * ring[(cursor-L0-1) mod 20][m]]
    in [aol_modeval_dm] and the measurement minus that value in
    [aol_modeval_ol], for every mode [m]; [cursor] is the slot the pass
    has just written.  (The code adds 20 once to a negative index: for
    another [L0] the index can lie outside the ring.) *)
Theorem C3_open_loop_estimator c0 c i s :
  reachable c0 s → inputs_ok c i s →
  ∃ L0,
    F.to_long (framelatency c0) = Some L0 ∧
    ((0 ≤ L0 ≤ 19)%Z →
     let f := (framelatency c0 - F.of_Z L0)%F in
     let slot k := ((modevalDMindex s - k) mod modevalDM_bsize)%Z in
     ∃ s',
       iteration c i s = Some s' ∧
       ∀ m, m < NBmodes s →
         ∃ h0 h1 x,
           rd (modevalDM_C s')
              (slot L0 * Z.of_nat (NBmodes s) + Z.of_nat m) = Some h0 ∧
           rd (modevalDM_C s')
              (slot (L0 + 1)%Z * Z.of_nat (NBmodes s) + Z.of_nat m)
           = Some h1 ∧
           modeval i !! m = Some x ∧
           modevalDM s' !! m = Some ((F.one - f) * h0 + f * h1)%F ∧
           modeval_ol s' !! m
           = Some (x - ((F.one - f) * h0 + f * h1))%F).
Proof.
  intros Hreach Hok. pose proof (reachable_wf _ _ Hreach) as Hwf.
  exists (framelatency0 s). split; [apply Hwf|]. intros HL0. simpl.
  destruct (iteration_total c0 c i s Hwf Hok) as [s' Hit'];
    [unfold modevalDM_bsize; lia|].
  exists s'. split; [done|]. pose proof Hit' as Hit. intros m Hm.
  apply iteration_Some in Hit as (mg & mm & ml & d0 & lf & _ & _ & _ & _
    & _ & _ & _ & Hc & Hint & Hout & _).
  apply commit_Some in Hc as [Hlen _].
  rewrite (wf_ring _ _ Hwf) in Hlen.
  destruct (tabulate_lookup _ _ _ m Hout Hm) as (o & Ho & Hom).
  destruct (tabulate_lookup _ _ _ m Hint Hm) as (d & Hd & Hdm).
  destruct (rd (modevalDM_C s') (modevalDMindex0 s * _ + _))
    as [h0|] eqn:Hh0; simpl in Hd; [|done].
  destruct (rd (modevalDM_C s') (modevalDMindex1 s * _ + _))
    as [h1|] eqn:Hh1; simpl in Hd; [|done].
  injection Hd as <-. rewrite Hdm in Ho.
  destruct (modeval i !! m) as [x|] eqn:Hx; simpl in Ho; [|done].
  injection Ho as <-. exists h0, h1, x.
  rewrite <- (wf_alpha _ _ Hwf).
  assert (0 ≤ modevalDMindex0 s < modevalDM_bsize)%Z as Hr0.
  { eapply slot_in_range; [exact Hlen | exact Hm | by rewrite Hh0]. }
  assert (0 ≤ modevalDMindex1 s < modevalDM_bsize)%Z as Hr1.
  { eapply slot_in_range; [exact Hlen | exact Hm | by rewrite Hh1]. }
  unfold modevalDMindex0 in Hr0, Hh0. unfold modevalDMindex1 in Hr1, Hh1.
  rewrite (wrap_index_mod _ Hr0) in Hh0.
  rewrite (wrap_index_mod _ Hr1) in Hh1.
  by split_and!.
Qed.

(** C2 (amended). The clip pass: on a pass with mode filtering active, the
    committed value of every mode [m] is [clip v lim], with [v] the
    current DM state and [lim] the limit of the start of the pass; when
    [lim] is not negative and [v] is a number, [|clip v lim| <= lim].
    Each clip of a mode adds one to the counter of its block, and every
    [AveStats_NBpt] passes the counters, divided by the number of passes,
    are published as [blockave_limFrac] and reset. *)
Theorem C2_clip_invariant c i s s' :
  iteration c i s = Some s' → FILTERMODE s = 1%Z →
  ∃ modelimit,
    tabulate (NBmodes s) (modelimit_at s) = Some modelimit ∧
    (∀ m, m < NBmodes s →
       ∃ lim v,
         modelimit_at s m = Some lim ∧
         modevalDMnow s' !! m = Some v ∧
         modevalDMnowfilt s' !! m = Some (clip v lim) ∧
         rd (modevalDM_C s')
            (modevalDMindex s * Z.of_nat (NBmodes s) + Z.of_nat m)
         = Some (clip v lim) ∧
         (F.le F.zero lim → F.finite v → F.le (F.abs (clip v lim)) lim) ∧
         (clip v lim ≠ v → 1 ≤ clip_events v lim)) ∧
    (∀ b n, blockavelimFrac s !! b = Some n →
       let k := clip_count s modelimit (modevalDMnow s') b (NBmodes s) in
       if decide (blockstatcnt s + 1 = AveStats_NBpt c)%Z then
         if decide (b < DMmodesNBblock c) then
           blockave_limFrac s' !! b
           = Some (bump k n / F.of_Z (AveStats_NBpt c))%F ∧
           blockavelimFrac s' !! b = Some F.zero
         else blockavelimFrac s' !! b = Some (bump k n)
       else blockavelimFrac s' !! b = Some (bump k n)).
Proof.
  intros Hit Hfm.
  apply iteration_Some in Hit as (mg & mm & ml & d0 & lf & _ & _ & Hml & _
    & _ & _ & Hclip & Hc & _ & _ & Htel & _).
  exists ml. split; [done|].
  unfold clip_pass in Hclip. rewrite decide_True in Hclip by done.
  apply clip_loop_Some in Hclip as (_ & _ & Hmodes & Hcnt).
  apply commit_Some in Hc as [_ Hring]. split.
  - intros m Hm. destruct (Hmodes m Hm) as (lim & v & Hlim & Hv & Hf).
    exists lim, v. split_and!; try done.
    + by eapply tabulate_lookup_Some.
    + destruct (Hring m Hm) as [_ ->]. done.
    + apply F_clip_bound.
    + apply F_clip_events.
  - intros b n Hn. simpl. unfold telemetry in Htel.
    specialize (Hcnt b). rewrite Hn in Hcnt. simpl in Hcnt.
    case_decide as Hpub.
    + destruct (for_n _ _ _) as [[[pub allave] lf']|] eqn:Hloop;
        simpl in Htel; [|done].
      injection Htel as <- _ _ <- _.
      apply publish_blocks_Some in Hloop as [Hlo Hhi].
      rewrite <- Hpub. case_decide as Hb.
      * destruct (Hlo b Hb) as (n' & Hn' & Hp & Hz).
        rewrite Hcnt in Hn'. injection Hn' as <-. done.
      * destruct (Hhi b) as [-> _]; [lia | done].
    + by injection Htel as <- _ _ _ _.
Qed.

(** C2 as stated fails: with a negative limit the committed value has the
    opposite sign, and a [NaN] state passes both tests. *)
Lemma C2_counterexample :
  (∃ s0 s1 w,
     Ex.start Ex.conf (F.fl (-1)) F.one = Some s0 ∧
     iteration Ex.conf (Ex.inputs F.zero F.zero F.zero) s0 = Some s1 ∧
     FILTERMODE s0 = 1%Z ∧
     modelimit_at s0 0 = Some (F.fl (-1)) ∧
     modevalDMnowfilt s1 !! 0 = Some w ∧
     ¬ F.le (F.abs w) (F.fl (-1))) ∧
  (∃ s0 s1,
     Ex.start Ex.conf F.one F.one = Some s0 ∧
     iteration Ex.conf (Ex.inputs NaN F.zero F.zero) s0 = Some s1 ∧
     FILTERMODE s0 = 1%Z ∧
     modelimit_at s0 0 = Some F.one ∧
     modevalDMnowfilt s1 !! 0 = Some NaN ∧
     ¬ F.le (F.abs NaN) F.one).
Proof.
  split.
  - eexists _, _, _. split_and!.
    + vm_compute. reflexivity.
    + vm_compute. reflexivity.
    + reflexivity.
    + reflexivity.
    + reflexivity.
    + vm_compute. intros H. by apply H.
  - eexists _, _. split_and!.
    + vm_compute. reflexivity.
    + vm_compute. reflexivity.
    + reflexivity.
    + reflexivity.
    + reflexivity.
    + by intros [].
Qed.

(** C4 (amended). Composition of the scale factors: for every mode the
    integrator uses the gain [gain * gainb[block] * GAIN[m]] and the
    multiplier [mult * multfb[block] * MULTF[m]], and the clip pass the
    limit [limitb[block] * LIMIT[m]], in which [AOconf.maxlimit] has no
    part.  With global gain 0.2, block gain 0.5 and modal gain 2.0 the
    gain of the mode is 0.2. *)
Theorem C4_scale_factors c i s s' :
  iteration c i s = Some s' →
  ∃ DMnow0,
    mix_prediction c i s DMnow0
    = Some (modevalDMnow s', IDmodevalPF s') ∧
    ∀ m, m < NBmodes s →
      ∃ b gb gm mb mf lb l last x,
        modeblock s !! m = Some b ∧
        gainb i !! b = Some gb ∧ GAIN_modes i !! m = Some gm ∧
        multfb i !! b = Some mb ∧ img (MULTF_modes i) m = Some mf ∧
        limitb s !! b = Some lb ∧ img (LIMIT_modes s) m = Some l ∧
        modegain_at c i s m = Some (gain c * gb * gm)%F ∧
        modemult_at c i s m = Some (mult c * mb * mf)%F ∧
        modelimit_at s m = Some (lb * l)%F ∧
        modeval i !! m = Some x ∧
        DMnow0 !! m
        = Some (mult c * mb * mf * (last - gain c * gb * gm * x))%F ∧
        (FILTERMODE s = 1%Z →
         ∃ v, modevalDMnow s' !! m = Some v ∧
              modevalDMnowfilt s' !! m = Some (clip v (lb * l)%F)) ∧
        (gain c = F.fl 0.2 → gb = F.fl 0.5 → gm = F.fl 2.0 →
         (gain c * gb * gm)%F = F.fl 0.2).
Proof.
  intros Hit.
  apply iteration_Some in Hit as (mg & mm & ml & d0 & lf & Hmg & Hmm & Hml
    & Hd0 & Hmix & _ & Hclip & _).
  exists d0. split; [done|]. intros m Hm.
  destruct (tabulate_lookup _ _ _ m Hd0 Hm) as (v0 & Hv0 & Hd0m).
  destruct (tabulate_lookup _ _ _ m Hmg Hm) as (g & Hg & Hmgm).
  destruct (tabulate_lookup _ _ _ m Hmm Hm) as (mu & Hmu & Hmmm).
  destruct (tabulate_lookup _ _ _ m Hml Hm) as (lim & Hlim & Hmlm).
  rewrite Hmmm, Hmgm in Hv0. simpl in Hv0.
  destruct (rd (modevalDM_C s) _) as [last|]; simpl in Hv0; [|done].
  destruct (modeval i !! m) as [x|] eqn:Hx; simpl in Hv0; [|done].
  injection Hv0 as <-.
  unfold modegain_at, modemult_at, modelimit_at in *.
  destruct (modeblock s !! m) as [b|] eqn:?; simpl in *; [|done].
  destruct (gainb i !! b) as [gb|] eqn:?; simpl in *; [|done].
  destruct (GAIN_modes i !! m) as [gm|] eqn:?; simpl in *; [|done].
  destruct (multfb i !! b) as [mb|] eqn:?; simpl in *; [|done].
  destruct (img (MULTF_modes i) m) as [mf|] eqn:?; simpl in *; [|done].
  destruct (limitb s !! b) as [lb|] eqn:?; simpl in *; [|done].
  destruct (img (LIMIT_modes s) m) as [l|] eqn:?; simpl in *; [|done].
  injection Hg as <-. injection Hmu as <-. injection Hlim as <-.
  exists b, gb, gm, mb, mf, lb, l, last, x. split_and!; try done.
  - intros Hfm. unfold clip_pass in Hclip.
    rewrite decide_True in Hclip by done.
    apply clip_loop_Some in Hclip as (_ & _ & Hmodes & _).
    destruct (Hmodes m Hm) as (lim & v & Hl & Hv & Hf).
    exists v. split; [done|]. congruence.
  - intros -> -> ->. apply F_gain_example.
Qed.

(** C4 as stated fails for the limit: the global [maxlimit] is not a
    factor of it. *)
Lemma C4_counterexample :
  ∃ s0,
    Ex.start Ex.conf F.one F.one = Some s0 ∧
    maxlimit Ex.conf = F.fl 2 ∧
    limitb s0 !! 0 = Some F.one ∧
    img (LIMIT_modes s0) 0 = Some F.one ∧
    modelimit_at s0 0 = Some F.one ∧
    modelimit_at s0 0 ≠ Some (maxlimit Ex.conf * F.one * F.one)%F.
Proof.
  eexists. split_and!.
  - vm_compute. reflexivity.
  - reflexivity.
  - reflexivity.
  - reflexivity.
  - reflexivity.
  - intros H.
    apply (f_equal (λ o, if o is Some (Fin q) then this q else 0%Q)) in H.
    vm_compute in H. discriminate H.
Qed.

(** C7. The limit auto-tuner: when [AUTOTUNE_LIMITS_ON] is set, a pass
    multiplies the limit of every mode by [1 + delta] if
    [|mcoeff * dmNow[m]| > limit[m]] and by [1 - delta * perc / 100]
    otherwise; then the limit of every block is multiplied by a
    coefficient derived from the average of the limits of its modes,
    [1 + (average - 1) * delta * 0.1], clamped to [1 - delta] below and
    [1 + delta] above. *)
Theorem C7_autotune_limits c i s s' :
  iteration c i s = Some s' → AUTOTUNE_LIMITS_ON c = 1%Z →
  let delta := AUTOTUNE_LIMITS_delta c in
  ∃ L L',
    LIMIT_modes s = Some L ∧ LIMIT_modes s' = Some L' ∧
    (∀ m, m < NBmodes s →
       ∃ l v lim,
         L !! m = Some l ∧ modevalDMnow s' !! m = Some v ∧
         modelimit_at s m = Some lim ∧
         L' !! m
         = Some (if (F.abs (AUTOTUNE_LIMITS_mcoeff c * v) >? lim)%F
                 then l * (F.one + delta)
                 else l * (F.one - delta * AUTOTUNE_LIMITS_perc c
                                   / F.of_Z 100))%F) ∧
    (∀ b, b < DMmodesNBblock c →
       ∃ lb n,
         limitb s !! b = Some lb ∧ blockNBmodes s !! b = Some n ∧
         let ave :=
           (block_sum s L' b (NBmodes s) / F.of_Z (Z.of_nat n))%F in
         let raw := (F.one + (ave - F.one) * delta * F.fl 0.1)%F in
         atlimbcoeff s' !! b = Some ave ∧
         limitb s' !! b = Some (lb * block_coeff c ave)%F ∧
         block_coeff c ave
         = (let x := if (raw <? F.one - delta)%F
                     then (F.one - delta)%F else raw in
            if (x >? F.one + delta)%F then (F.one + delta)%F else x) ∧
         (F.le (F.one - delta)%F raw → F.le raw (F.one + delta)%F →
          block_coeff c ave = raw) ∧
         (F.le F.zero delta → F.finite ave →
          F.le (F.one - delta)%F (block_coeff c ave) ∧
          F.le (block_coeff c ave) (F.one + delta)%F)).
Proof.
  intros Hit Hon. simpl.
  apply iteration_Some in Hit as (mg & mm & ml & d0 & lf & _ & _ & Hml & _
    & _ & Hat & _).
  unfold autotune_limits in Hat. rewrite decide_True in Hat by done.
  destruct (LIMIT_modes s) as [L|] eqn:HL; simpl in Hat; [|done].
  destruct (for_n (NBmodes s) _ _) as [[L' lba]|] eqn:Hmodes;
    simpl in Hat; [|done].
  destruct (for_n (DMmodesNBblock c) _ _) as [[atl limb]|] eqn:Hblocks;
    simpl in Hat; [|done].
  injection Hat as <- <- <-.
  apply autotune_modes_Some in Hmodes as (_ & _ & Hm & Hsum).
  apply autotune_blocks_Some in Hblocks as (_ & _ & Hb).
  exists L, L'. split_and!; try done.
  - intros m Hlt. destruct (Hm m Hlt) as (l & v & lim & Hl & Hv & Hlim & HL').
    exists l, v, lim. split_and!; try done.
    + by eapply tabulate_lookup_Some.
    + rewrite HL'. unfold tuned_limit. by rewrite F_percent.
  - intros b Hlt. destruct (Hb b Hlt) as (acc & n & lb & Hacc & Hn & Hlb
      & Hatl & Hlimb).
    rewrite Hsum in Hacc by done. injection Hacc as <-.
    exists lb, n. split_and!; try done.
    + apply F_block_coeff_inside.
    + apply F_block_coeff_bounds.
Qed.

(** The sample images fit the sample loop. *)
Lemma Ex_inputs_ok c lb0 lb1 x0 x1 x2 s0 :
  DMmodesNBblock c = 2 →
  Ex.start c lb0 lb1 = Some s0 → inputs_ok c (Ex.inputs x0 x1 x2) s0.
Proof.
  intros Hnb. unfold Ex.start, init. cbn [load_blocks].
  destruct (F.to_long _); simpl; [|done].
  rewrite Hnb. simpl. intros [= <-]. split; simpl; try lia.
  - eexists. split; [done|]. simpl. lia.
  - eexists. split; [done|]. simpl. lia.
  - repeat constructor; simpl; lia.
  - intros _. rewrite Hnb. split; [|simpl; lia].
    repeat constructor; simpl; lia.
Qed.

(** C10. The history ring has 20 slots.  In every state of a run the
    cursor is a slot of the ring; when the integer part [L0] of the lag
    satisfies [0 <= L0 <= 19], the two read indices, [cursor - L0] and
    [cursor - L0 - 1], each increased once by 20 when negative, are slots
    of the ring, every element of these slots can be read and a pass on
    images of the sizes of the loop runs to its end.  With [L0 = 20] the
    second index of the first pass is [-1] and the pass faults. *)
Theorem C10_history_reads_in_bounds :
  modevalDM_bsize = 20%Z ∧
  (∀ c0 s,
     reachable c0 s →
     length (modevalDM_C s) = 20 * NBmodes s ∧
     (0 ≤ modevalDMindex s < 20)%Z ∧
     F.to_long (framelatency c0) = Some (framelatency0 s) ∧
     modevalDMindex0 s
     = (let k := (modevalDMindex s - framelatency0 s)%Z in
        if decide (k < 0)%Z then k + 20 else k)%Z ∧
     modevalDMindex1 s
     = (let k := (modevalDMindex s - (framelatency0 s + 1))%Z in
        if decide (k < 0)%Z then k + 20 else k)%Z ∧
     ((0 ≤ framelatency0 s ≤ 19)%Z →
      (0 ≤ modevalDMindex0 s < 20)%Z ∧
      (0 ≤ modevalDMindex1 s < 20)%Z ∧
      (∀ (ring : list float) m,
         length ring = length (modevalDM_C s) → m < NBmodes s →
         is_Some (rd ring (modevalDMindex0 s * Z.of_nat (NBmodes s)
                           + Z.of_nat m)) ∧
         is_Some (rd ring (modevalDMindex1 s * Z.of_nat (NBmodes s)
                           + Z.of_nat m))) ∧
      (∀ c i, inputs_ok c i s → is_Some (iteration c i s)))) ∧
  (∃ s0,
     Ex.start Ex.conf_lag20 F.one F.one = Some s0 ∧
     reachable Ex.conf_lag20 s0 ∧
     framelatency0 s0 = 20%Z ∧
     modevalDMindex0 s0 = 0%Z ∧
     modevalDMindex1 s0 = (-1)%Z ∧
     inputs_ok Ex.conf_lag20 (Ex.inputs F.one F.one F.one) s0 ∧
     iteration Ex.conf_lag20 (Ex.inputs F.one F.one F.one) s0 = None).
Proof.
  split_and!; [done| |].
  - intros c0 s Hreach. pose proof (reachable_wf _ _ Hreach) as Hwf.
    pose proof (wf_index _ _ Hwf) as Hi.
    pose proof (wf_ring _ _ Hwf) as Hr. rewrite bsize_nat in Hr.
    split_and!; try done; try apply Hwf.
    intros HL0.
    destruct (read_indices_range s Hi) as [H0 H1].
    { unfold modevalDM_bsize. lia. }
    unfold modevalDM_bsize in H0, H1.
    split; [done|]. split; [done|]. split.
    + intros ring m Hlen Hm. rewrite Hr in Hlen.
      split; apply (ring_slot_rd s); try done.
    + intros c i Hok. eapply iteration_total; [done|done|].
      unfold modevalDM_bsize. lia.
  - destruct (Ex.start Ex.conf_lag20 F.one F.one) as [s0|] eqn:E0;
      [|vm_compute in E0; discriminate].
    exists s0. split; [done|].
    pose proof (Ex_inputs_ok Ex.conf_lag20 _ _ F.one F.one F.one _ eq_refl E0)
      as Hok.
    assert (reachable Ex.conf_lag20 s0) as Hreach by (by eapply reach_init).
    vm_compute in E0. injection E0 as <-.
    by split_and!.
Qed.

(** ** The claims on the sample loop *)

(** The value [s] of a run [t] of the model on given data, with its
    equation [E] and its normal form [V]; [rw] rewrites the data of [t]
    to normal form in [V]. *)
Tactic Notation "run" constr(t) "as" ident(s) ident(E) ident(V)
    "using" tactic3(rw) :=
  destruct t as [s|] eqn:E;
  [ pose proof E as V; rw; vm_compute in V; injection V as V
  | exfalso; pose proof E as V; rw; vm_compute in V; discriminate V ].

Lemma C1_witness :
  ∃ s0 s1 s2 last,
    Ex.start Ex.conf F.one F.one = Some s0 ∧
    iteration Ex.conf (Ex.inputs (F.fl 1) (F.fl 2) (F.fl (-30))) s0
    = Some s1 ∧
    iteration Ex.conf (Ex.inputs (F.fl 3) (F.fl 4) (F.fl 5)) s1 = Some s2 ∧
    modevalDMnowfilt s1 !! 0 = Some last ∧
    modevalDMnow s2 !! 0
    = Some (F.fl 0.99 * F.one * F.one
            * (last - F.fl 0.2 * F.fl 0.5 * F.fl 2 * F.fl 3))%F.
Proof.
  run (Ex.start Ex.conf F.one F.one) as s0 E0 V0 using idtac.
  run (iteration Ex.conf (Ex.inputs (F.fl 1) (F.fl 2) (F.fl (-30))) s0)
    as s1 E1 V1 using (rewrite <- V0 in V1).
  run (iteration Ex.conf (Ex.inputs (F.fl 3) (F.fl 4) (F.fl 5)) s1)
    as s2 E2 V2 using (rewrite <- V1 in V2).
  assert (reachable Ex.conf s1) as H1.
  { eapply reach_iteration; [|exact E1]. by eapply reach_init. }
  destruct (proj2 (C1_integrator_update Ex.conf) _ _ _ _ H1 E2)
    as (d0 & _ & Hno & _ & _ & Hm).
  destruct (Hm 0) as (g & mu & last & x & Hg & Hmu & Hx & Hlast & _ & Hd0).
  { rewrite <- V1. simpl. lia. }
  exists s0, s1, s2, last.
  rewrite Hno by (by intros [? _]).
  rewrite <- V1 in Hg, Hmu.
  injection Hg as <-. injection Hmu as <-. injection Hx as <-.
  by split_and!.
Defined.

Lemma C2_witness :
  ∃ s0 s1 v,
    Ex.start Ex.conf F.one F.one = Some s0 ∧
    iteration Ex.conf (Ex.inputs (F.fl 1) (F.fl 2) (F.fl (-30))) s0
    = Some s1 ∧
    modevalDMnow s1 !! 2 = Some v ∧
    modevalDMnowfilt s1 !! 2 = Some (clip v F.one) ∧
    F.le (F.abs (clip v F.one)) F.one ∧
    blockavelimFrac s1 !! 1 = Some F.one.
Proof.
  run (Ex.start Ex.conf F.one F.one) as s0 E0 V0 using idtac.
  run (iteration Ex.conf (Ex.inputs (F.fl 1) (F.fl 2) (F.fl (-30))) s0)
    as s1 E1 V1 using (rewrite <- V0 in V1).
  destruct (C2_clip_invariant _ _ _ _ E1) as (ml & Hml & Hmodes & Hcnt).
  { by rewrite <- V0. }
  destruct (Hmodes 2) as (lim & v & Hlim & Hv & Hf & _ & Hle & _).
  { rewrite <- V0. simpl. lia. }
  specialize (Hcnt 1 F.zero). rewrite <- V0 in Hlim, Hcnt, Hml.
  injection Hlim as <-. injection Hml as <-.
  exists s0, s1, v. split_and!; try done.
  - rewrite <- V1 in Hv. injection Hv as <-. by apply Hle.
  - rewrite <- V1 in Hcnt |- *. by apply Hcnt.
Defined.

Lemma C3_witness :
  ∃ s0 s1 s2 h0,
    Ex.start Ex.conf F.one F.one = Some s0 ∧
    iteration Ex.conf (Ex.inputs (F.fl 1) (F.fl 2) (F.fl (-30))) s0
    = Some s1 ∧
    iteration Ex.conf (Ex.inputs (F.fl 3) (F.fl 4) (F.fl 5)) s1 = Some s2 ∧
    F.to_long (framelatency Ex.conf) = Some 1%Z ∧
    rd (modevalDM_C s2) 0 = Some h0 ∧
    modevalDM s2 !! 0
    = Some ((F.one - F.fl 0.75) * h0 + F.fl 0.75 * F.zero)%F ∧
    modeval_ol s2 !! 0
    = Some (F.fl 3 - ((F.one - F.fl 0.75) * h0 + F.fl 0.75 * F.zero))%F.
Proof.
  run (Ex.start Ex.conf F.one F.one) as s0 E0 V0 using idtac.
  run (iteration Ex.conf (Ex.inputs (F.fl 1) (F.fl 2) (F.fl (-30))) s0)
    as s1 E1 V1 using (rewrite <- V0 in V1).
  assert (reachable Ex.conf s1) as H1.
  { eapply reach_iteration; [|exact E1]. by eapply reach_init. }
  assert (inputs_ok Ex.conf (Ex.inputs (F.fl 3) (F.fl 4) (F.fl 5)) s1)
    as Hok.
  { rewrite <- V1. split; simpl; try lia;
      try (eexists; split; [done|]; simpl; lia);
      try (repeat constructor; simpl; lia);
      try (intros _; split; [|simpl; lia]; repeat constructor; simpl; lia);
      try done. }
  destruct (C3_open_loop_estimator Ex.conf Ex.conf
    (Ex.inputs (F.fl 3) (F.fl 4) (F.fl 5)) s1 H1 Hok) as (L0 & HL0 & Hf).
  injection HL0 as <-.
  destruct Hf as (s2 & E2 & Hf); [vm_compute; split; discriminate|].
  pose proof E2 as V2. rewrite <- V1 in V2. vm_compute in V2.
  injection V2 as V2.
  destruct (Hf 0) as (h0 & h1 & x & Hh0 & Hh1 & Hx & HDM & Hol).
  { rewrite <- V1. simpl. lia. }
  rewrite <- V1 in Hh0, Hh1. rewrite <- V2 in Hh1.
  injection Hh1 as <-. injection Hx as <-.
  exists s0, s1, s2, h0. by split_and!.
Defined.

(** With a lag of 20.5 frames the claim reads, on the first pass, the
    slots [(0 - 20) mod 20 = 0] and [(0 - 21) mod 20 = 19] of the ring.
    The code reads the rows 0 and -1: the pass faults and stores no
    estimate. *)
Lemma C3_counterexample :
  ∃ s0,
    Ex.start Ex.conf_lag20 F.one F.one = Some s0 ∧
    reachable Ex.conf_lag20 s0 ∧
    inputs_ok Ex.conf_lag20 (Ex.inputs F.one F.one F.one) s0 ∧
    F.to_long (framelatency Ex.conf_lag20) = Some 20%Z ∧
    ((modevalDMindex s0 - (20 + 1)) mod modevalDM_bsize)%Z = 19%Z ∧
    modevalDMindex1 s0 = (-1)%Z ∧
    ¬ ∃ s', iteration Ex.conf_lag20 (Ex.inputs F.one F.one F.one) s0
            = Some s'.
Proof.
  destruct (Ex.start Ex.conf_lag20 F.one F.one) as [s0|] eqn:E0;
    [|vm_compute in E0; discriminate].
  exists s0. split; [done|].
  pose proof (Ex_inputs_ok Ex.conf_lag20 _ _ F.one F.one F.one _ eq_refl E0)
    as Hok.
  assert (reachable Ex.conf_lag20 s0) as Hreach by (by eapply reach_init).
  vm_compute in E0. injection E0 as <-.
  split_and!; try done.
  intros [s' Hs']. vm_compute in Hs'. discriminate Hs'.
Qed.

Lemma C4_witness :
  ∃ s0 s1,
    Ex.start Ex.conf F.one F.one = Some s0 ∧
    iteration Ex.conf (Ex.inputs (F.fl 1) (F.fl 2) (F.fl (-30))) s0
    = Some s1 ∧
    modegain_at Ex.conf (Ex.inputs (F.fl 1) (F.fl 2) (F.fl (-30))) s0 0
    = Some (F.fl 0.2) ∧
    modevalDMnow s1 !! 0
    = Some (F.fl 0.99 * F.one * F.one
            * (F.zero - F.fl 0.2 * F.fl 0.5 * F.fl 2.0 * F.fl 1))%F.
Proof.
  run (Ex.start Ex.conf F.one F.one) as s0 E0 V0 using idtac.
  run (iteration Ex.conf (Ex.inputs (F.fl 1) (F.fl 2) (F.fl (-30))) s0)
    as s1 E1 V1 using (rewrite <- V0 in V1).
  destruct (C4_scale_factors _ _ _ _ E1) as (d0 & Hmix & Hm).
  destruct (Hm 0)
    as (b & gb & gm & mb & mf & lb & l & last & x & Hb & Hgb & Hgm & _ & _
        & _ & _ & Hg & _ & _ & _ & _ & _ & Hex).
  { rewrite <- V0. simpl. lia. }
  rewrite <- V0 in Hb. injection Hb as <-.
  injection Hgb as <-. injection Hgm as <-.
  exists s0, s1. split_and!; try done. by rewrite <- V1.
Defined.

Lemma C7_witness :
  ∃ s0 s1 L',
    Ex.start Ex.conf F.one F.one = Some s0 ∧
    iteration Ex.conf (Ex.inputs (F.fl 1) (F.fl 2) (F.fl (-30))) s0
    = Some s1 ∧
    LIMIT_modes s1 = Some L' ∧
    L' !! 2 = Some (F.one * (F.one + F.fl 0.001))%F ∧
    L' !! 0
    = Some (F.one * (F.one - F.fl 0.001 * F.fl 1 / F.of_Z 100))%F ∧
    let ave := (block_sum s0 L' 1 3 / F.of_Z 2)%F in
    limitb s1 !! 1 = Some (F.one * block_coeff Ex.conf ave)%F ∧
    F.le (F.one - F.fl 0.001)%F (block_coeff Ex.conf ave) ∧
    F.le (block_coeff Ex.conf ave) (F.one + F.fl 0.001)%F.
Proof.
  run (Ex.start Ex.conf F.one F.one) as s0 E0 V0 using idtac.
  run (iteration Ex.conf (Ex.inputs (F.fl 1) (F.fl 2) (F.fl (-30))) s0)
    as s1 E1 V1 using (rewrite <- V0 in V1).
  destruct (C7_autotune_limits _ _ _ _ E1 eq_refl)
    as (L & L' & HL & HL' & Hm & Hb).
  destruct (Hm 2) as (l2 & v2 & lim2 & Hl2 & Hv2 & Hlim2 & HL2).
  { rewrite <- V0. simpl. lia. }
  destruct (Hm 0) as (l0 & v0 & lim0 & Hl0 & Hv0 & Hlim0 & HL0).
  { rewrite <- V0. simpl. lia. }
  destruct (Hb 1) as (lb & n & Hlb & Hn & Have & Hlimb & _ & _ & Hbounds).
  { simpl. lia. }
  rewrite <- V0 in HL, Hlim2, Hlim0, Hlb, Hn, Have, Hlimb, Hbounds.
  injection HL as <-. injection Hl2 as <-. injection Hl0 as <-.
  injection Hlim2 as <-. injection Hlim0 as <-.
  injection Hlb as <-. injection Hn as <-.
  rewrite <- V1 in Hv2, Hv0, HL'.
  injection Hv2 as <-. injection Hv0 as <-.
  destruct Hbounds as [Hlo Hhi]; [done | by injection HL' as <- |].
  exists s0, s1, L'. rewrite <- V0.
  split_and!; try done; by rewrite <- V1.
Defined.

Lemma C10_witness :
  ∃ s0,
    Ex.start Ex.conf F.one F.one = Some s0 ∧
    framelatency0 s0 = 1%Z ∧
    (0 ≤ modevalDMindex0 s0 < 20)%Z ∧
    (0 ≤ modevalDMindex1 s0 < 20)%Z ∧
    is_Some (iteration Ex.conf
               (Ex.inputs (F.fl 1) (F.fl 2) (F.fl (-30))) s0).
Proof.
  run (Ex.start Ex.conf F.one F.one) as s0 E0 V0 using idtac.
  assert (reachable Ex.conf s0) as H0 by (by eapply reach_init).
  destruct (proj1 (proj2 C10_history_reads_in_bounds) _ _ H0)
    as (_ & _ & HL0 & _ & _ & Hin).
  change (Some 1%Z = Some (framelatency0 s0)) in HL0. injection HL0 as HL0.
  destruct Hin as (Hi0 & Hi1 & _ & Hrun); [lia|].
  exists s0. split; [done|]. split; [done|].
  split; [exact Hi0|]. split; [exact Hi1|].
  apply Hrun. by eapply Ex_inputs_ok.
Defined.

(** ** [AOloopControl_run] *)

Lemma integrate_modes_Some e meas n rms ave cmd rms' ave' cmd' :
  for_n n (RUN.integrate_mode e meas) (rms, ave, cmd)
  = Some (rms', ave', cmd') →
  ∀ k, k < n →
    ∃ cm g lim mf x,
      cmd !! k = Some cm ∧ RUN.GAIN_modes e !! k = Some g ∧
      RUN.LIMIT_modes e !! k = Some lim ∧
      RUN.MULTF_modes e !! k = Some mf ∧ meas !! k = Some x ∧
      cmd' !! k = Some (RUN.integrated e cm g lim mf x).
Proof.
  intros H.
  eapply (for_n_inv (λ j st,
    (∀ k, k < j → ∃ cm g lim mf x,
       cmd !! k = Some cm ∧ RUN.GAIN_modes e !! k = Some g ∧
       RUN.LIMIT_modes e !! k = Some lim ∧
       RUN.MULTF_modes e !! k = Some mf ∧ meas !! k = Some x ∧
       st.2 !! k = Some (RUN.integrated e cm g lim mf x)) ∧
    (∀ k, j ≤ k → st.2 !! k = cmd !! k))) in H.
  - apply H.
  - split; [intros; lia | done].
  - intros j [[r1 a1] c1] [[r2 a2] c2] Hj [Hlo Hhi] Hbody. simpl in *.
    unfold RUN.integrate_mode in Hbody.
    destruct (meas !! j) as [x|] eqn:Hx; simpl in Hbody; [|done].
    destruct (r1 !! j) as [r|]; simpl in Hbody; [|done].
    destruct (a1 !! j) as [a|]; simpl in Hbody; [|done].
    destruct (c1 !! j) as [cm|] eqn:Hcm; simpl in Hbody; [|done].
    destruct (RUN.GAIN_modes e !! j) as [g|] eqn:Hg;
      simpl in Hbody; [|done].
    destruct (RUN.LIMIT_modes e !! j) as [lim|] eqn:Hlim;
      simpl in Hbody; [|done].
    destruct (RUN.MULTF_modes e !! j) as [mf|] eqn:Hmf;
      simpl in Hbody; [|done].
    injection Hbody as <- <- <-.
    pose proof (lookup_lt_Some _ _ _ Hcm) as Hjl. split.
    + intros k Hk. destruct (decide (k = j)) as [->|Hne].
      * exists cm, g, lim, mf, x. rewrite list_lookup_insert_eq by done.
        rewrite <- Hhi by done. done.
      * rewrite list_lookup_insert_ne by done. apply Hlo. lia.
    + intros k Hk. rewrite list_lookup_insert_ne by lia. apply Hhi. lia.
Qed.

Lemma AOcompute_gains_total e s :
  RUN.sizes_ok e (RUN.meas_modes s) s → is_Some (RUN.AOcompute_gains e s).
Proof.
  intros [Hm Hc Hr Ha Hg Hl Hf]. unfold RUN.AOcompute_gains.
  case_decide; [|by eauto].
  destruct (for_n_total (λ _ _, True)
    (λ k acc, x ← RUN.meas_modes s !! k; Some (acc + x * x)%F)
    (RUN.NBDMmodes e) F.zero) as (rmsm & -> & _); [done| |].
  { intros k t Hk _.
    destruct (lookup_lt_is_Some_2 (RUN.meas_modes s) k) as [x ->]; [lia|].
    by eauto. }
  simpl.
  destruct (for_n_total (λ _ st,
    length st.1.1 = length (RUN.RMS_modes s) ∧
    length st.1.2 = length (RUN.AVE_modes s) ∧
    length st.2 = length (RUN.cmd_modes s))
    (RUN.integrate_mode e (RUN.meas_modes s)) (RUN.NBDMmodes e)
    (RUN.RMS_modes s, RUN.AVE_modes s, RUN.cmd_modes s))
    as ([[r a] c] & -> & _); [done| |by eauto].
  intros k [[r1 a1] c1] Hk (H1 & H2 & H3). simpl in *.
  unfold RUN.integrate_mode.
  destruct (lookup_lt_is_Some_2 (RUN.meas_modes s) k) as [x ->]; [lia|].
  destruct (lookup_lt_is_Some_2 r1 k) as [r ->]; [lia|].
  destruct (lookup_lt_is_Some_2 a1 k) as [a ->]; [lia|].
  destruct (lookup_lt_is_Some_2 c1 k) as [cm ->]; [lia|].
  destruct (lookup_lt_is_Some_2 (RUN.GAIN_modes e) k) as [g ->]; [lia|].
  destruct (lookup_lt_is_Some_2 (RUN.LIMIT_modes e) k) as [l ->]; [lia|].
  destruct (lookup_lt_is_Some_2 (RUN.MULTF_modes e) k) as [mf ->]; [lia|].
  simpl. eexists. split; [done|]. simpl. by rewrite !length_insert.
Qed.

Lemma sanitize_Some e act act' :
  RUN.sanitize e act = Some act' →
  length act' = length act ∧
  ∀ ii, ii < RUN.sizeDM e →
    ∃ x, act !! ii = Some x ∧ act' !! ii = Some (RUN.sanitized x).
Proof.
  intros H.
  eapply (for_n_inv (λ j a,
    length a = length act ∧
    (∀ ii, ii < j → ∃ x, act !! ii = Some x ∧
                         a !! ii = Some (RUN.sanitized x)) ∧
    (∀ ii, j ≤ ii → a !! ii = act !! ii))) in H.
  - destruct H as (? & ? & _). done.
  - split_and!; [done | intros; lia | done].
  - intros j a a' Hj (Hlen & Hlo & Hhi) Hbody. simpl in *.
    destruct (a !! j) as [x|] eqn:Hx; simpl in Hbody; [|done].
    injection Hbody as <-.
    pose proof (lookup_lt_Some _ _ _ Hx) as Hjl.
    assert (act !! j = Some x) as Hax by (by rewrite <- Hhi).
    unfold RUN.sanitized in *. split_and!.
    + destruct (F.isnan x); [by rewrite length_insert | done].
    + intros ii Hii. destruct (decide (ii = j)) as [->|Hne].
      * exists x. split; [done|].
        destruct (F.isnan x); [by rewrite list_lookup_insert_eq | done].
      * destruct (Hlo ii) as (y & Hy & Hay); [lia|]. exists y.
        split; [done|].
        destruct (F.isnan x); [by rewrite list_lookup_insert_ne | done].
    + intros ii Hii. rewrite <- Hhi by lia.
      destruct (F.isnan x); [by rewrite list_lookup_insert_ne by lia | done].
Qed.

Lemma direct_update_Some e act dm dm' :
  RUN.direct_update e act dm = Some dm' →
  ∀ ii, ii < RUN.sizeDM e →
    ∃ x d, act !! ii = Some x ∧ dm !! ii = Some d ∧
           dm' !! ii = Some (RUN.direct_value e d x).
Proof.
  intros H.
  eapply (for_n_inv (λ j a,
    (∀ ii, ii < j → ∃ x d, act !! ii = Some x ∧ dm !! ii = Some d ∧
                           a !! ii = Some (RUN.direct_value e d x)) ∧
    (∀ ii, j ≤ ii → a !! ii = dm !! ii))) in H.
  - apply H.
  - split; [intros; lia | done].
  - intros j a a' Hj (Hlo & Hhi) Hbody. simpl in *.
    destruct (act !! j) as [x|] eqn:Hx; simpl in Hbody; [|done].
    destruct (a !! j) as [d|] eqn:Hd; simpl in Hbody; [|done].
    injection Hbody as <-.
    pose proof (lookup_lt_Some _ _ _ Hd) as Hjl. split.
    + intros ii Hii. destruct (decide (ii = j)) as [->|Hne].
      * exists x, d. rewrite list_lookup_insert_eq by done.
        by rewrite <- Hhi.
      * rewrite list_lookup_insert_ne by done. apply Hlo. lia.
    + intros ii Hii. rewrite list_lookup_insert_ne by lia. apply Hhi. lia.
Qed.

Lemma F_sanitized_finite x : F.finite (RUN.sanitized x).
Proof. by destruct x. Qed.

(** When primary write is off, or the gain is not above 1e-6, the 2-step
    branch of the loop body does not call [set_DM_modes]. *)
Lemma actuate_not_called e s :
  RUN.CMMODE e = 0%Z →
  RUN.DMprimaryWrite_ON e ≠ 1%Z
  ∨ (F.abs (RUN.gain e) >? F.fl 1.0e-6)%F = false →
  RUN.actuate e s = Some s.
Proof.
  intros Hmode Hoff. unfold RUN.actuate. rewrite decide_True by done.
  case_decide as Hon; [|done]. destruct Hoff as [Hoff|Hgain]; [done|].
  by rewrite Hgain.
Qed.

(** C9 (amended). In 2-step mode the mode-basis multiply and the write of
    the DM stream are both in [set_DM_modes], which the loop body calls
    only when primary write is on and the gain is above 1e-6 in absolute
    value.  When it is not called a pass leaves [aol_dmC], its counter and
    the update count as they were and multiplies nothing; the modal
    command is still integrated by [AOcompute].  When it is called the
    update count advances by one; with [GPU1 = 0] the multiply is done
    and its result is then written to [aol_dmC]; with [GPU1 != 0] in a
    build without CUDA nothing is multiplied or written. *)
Theorem C9_primary_write_gate e meas s :
  RUN.CMMODE e = 0%Z →
  (RUN.DMprimaryWrite_ON e ≠ 1%Z
   ∨ (F.abs (RUN.gain e) >? F.fl 1.0e-6)%F = false →
   (∀ s', RUN.loop_body e meas s = Some s' →
      RUN.trace s' = RUN.trace s ∧
      RUN.dmC s' = RUN.dmC s ∧
      RUN.dmC_cnt0 s' = RUN.dmC_cnt0 s ∧
      RUN.DMupdatecnt s' = RUN.DMupdatecnt s ∧
      ∀ k, k < RUN.NBDMmodes e →
        ∃ cm g lim mf x,
          RUN.cmd_modes s !! k = Some cm ∧
          RUN.GAIN_modes e !! k = Some g ∧
          RUN.LIMIT_modes e !! k = Some lim ∧
          RUN.MULTF_modes e !! k = Some mf ∧
          meas !! k = Some x ∧
          RUN.cmd_modes s' !! k = Some (RUN.integrated e cm g lim mf x)) ∧
   (RUN.sizes_ok e meas s → is_Some (RUN.loop_body e meas s))) ∧
  (RUN.DMprimaryWrite_ON e = 1%Z →
   (F.abs (RUN.gain e) >? F.fl 1.0e-6)%F = true →
   ∀ s', RUN.loop_body e meas s = Some s' →
     RUN.DMupdatecnt s' = (RUN.DMupdatecnt s + 1)%Z ∧
     (RUN.GPU1 e = 0%Z →
      RUN.trace s'
      = RUN.trace s ++ [RUN.EV_modes_to_DM; RUN.EV_dmC_written] ∧
      RUN.dmC_cnt0 s' = (RUN.dmC_cnt0 s + 1)%Z ∧
      ∃ arrayf,
        RUN.modes_to_DM e (RUN.cmd_modes s') = Some arrayf ∧
        RUN.dmC s' = arrayf ++ drop (RUN.sizeDM e) (RUN.dmC s)) ∧
     (RUN.GPU1 e ≠ 0%Z → RUN.HAVE_CUDA e = false →
      RUN.trace s' = RUN.trace s ∧
      RUN.dmC s' = RUN.dmC s ∧
      RUN.dmC_cnt0 s' = RUN.dmC_cnt0 s)).
Proof.
  intros Hmode. split.
  - intros Hoff. split.
    + intros s' H. unfold RUN.loop_body in H.
      destruct (RUN.AOcompute_gains e _) as [s2|] eqn:H2;
        simpl in H; [|done].
      rewrite (actuate_not_called e s2 Hmode Hoff) in H. simpl in H.
      injection H as <-. simpl.
      unfold RUN.AOcompute_gains in H2. rewrite decide_True in H2 by done.
      simpl in H2. rewrite decide_True in H2 by done.
      destruct (for_n _ _ F.zero) as [rmsm|]; simpl in H2; [|done].
      destruct (for_n _ _ _) as [[[rms ave] cmd]|] eqn:Hloop;
        simpl in H2; [|done].
      injection H2 as <-. simpl. split_and!; try done.
      by apply (integrate_modes_Some _ _ _ _ _ _ _ _ _ Hloop).
    + intros Hok. unfold RUN.loop_body.
      match goal with
      | |- is_Some (RUN.AOcompute_gains e ?s1 ≫= _) =>
          destruct (AOcompute_gains_total e s1) as [s2 ->]
      end.
      { simpl. rewrite decide_True by done. by destruct Hok. }
      simpl. rewrite (actuate_not_called e s2 Hmode Hoff). simpl. by eauto.
  - intros Hon Hgain s' H. unfold RUN.loop_body in H.
    destruct (RUN.AOcompute_gains e _) as [s2|] eqn:H2; simpl in H; [|done].
    unfold RUN.actuate in H.
    rewrite !decide_True, Hgain in H by done.
    destruct (RUN.set_DM_modes e s2) as [s3|] eqn:H3; simpl in H; [|done].
    injection H as <-. simpl.
    unfold RUN.AOcompute_gains in H2. rewrite decide_True in H2 by done.
    destruct (for_n _ _ F.zero) as [rmsm|]; simpl in H2; [|done].
    destruct (for_n _ _ _) as [[[rms ave] cmd]|]; simpl in H2; [|done].
    injection H2 as <-. unfold RUN.set_DM_modes in H3. simpl in H3.
    split_and!.
    + destruct (bool_decide (RUN.GPU1 e = 0%Z) || RUN.HAVE_CUDA e);
        simpl in H3.
      * destruct (RUN.modes_to_DM e _); simpl in H3; [|done].
        destruct (decide (RUN.sizeDM e ≤ length (RUN.dmC s)));
          simpl in H3; [|done].
        by injection H3 as <-.
      * by injection H3 as <-.
    + intros Hgpu. rewrite bool_decide_eq_true_2 in H3 by done.
      simpl in H3.
      destruct (RUN.modes_to_DM e _) as [arrayf|] eqn:Hmul;
        simpl in H3; [|done].
      destruct (decide (RUN.sizeDM e ≤ length (RUN.dmC s)));
        simpl in H3; [|done].
      injection H3 as <-. simpl.
      split_and!; try done. by exists arrayf.
    + intros Hgpu Hcuda. rewrite bool_decide_eq_false_2, Hcuda in H3 by done.
      simpl in H3. by injection H3 as <-.
Qed.

(** C9 as stated fails: with primary write off no multiply takes place. *)
Lemma C9_counterexample :
  ∃ s',
    RUN.CMMODE (Ex.run_env 0 0) = 0%Z ∧
    RUN.DMprimaryWrite_ON (Ex.run_env 0 0) = 0%Z ∧
    RUN.loop_body (Ex.run_env 0 0) [F.fl 1; F.fl 2] Ex.run_start = Some s' ∧
    (RUN.cmd_modes s' ≠ RUN.cmd_modes Ex.run_start) ∧
    (RUN.EV_modes_to_DM ∉ RUN.trace s') ∧
    (∃ s'',
       RUN.loop_body (Ex.run_env 0 1) [F.fl 1; F.fl 2] Ex.run_start
       = Some s'' ∧
       RUN.EV_modes_to_DM ∈ RUN.trace s'').
Proof.
  eexists. split_and!.
  - reflexivity.
  - reflexivity.
  - vm_compute. reflexivity.
  - intros H. apply (f_equal (λ l, if l !! 0 is Some (Fin q) then this q
                                   else 0%Q)) in H.
    vm_compute in H. discriminate H.
  - simpl. apply not_elem_of_nil.
  - eexists. split; [vm_compute; reflexivity|]. simpl. constructor.
Qed.

Lemma C9_witness :
  (∃ s',
     RUN.loop_body (Ex.run_env 0 0) [F.fl 1; F.fl 2] Ex.run_start = Some s' ∧
     RUN.trace s' = [] ∧
     RUN.dmC s' = zeros 3 ∧
     RUN.cmd_modes s' !! 0
     = Some (RUN.integrated (Ex.run_env 0 0) F.zero F.one F.one F.one
               (F.fl 1))) ∧
  (∃ s'',
     RUN.loop_body (Ex.run_env 0 1) [F.fl 1; F.fl 2] Ex.run_start
     = Some s'' ∧
     RUN.DMupdatecnt s'' = 1%Z ∧
     RUN.trace s'' = [RUN.EV_modes_to_DM; RUN.EV_dmC_written]).
Proof.
  split.
  - destruct (C9_primary_write_gate (Ex.run_env 0 0) [F.fl 1; F.fl 2]
      Ex.run_start eq_refl) as [[Hoff Hrun] _]; [by left|].
    destruct Hrun as [s' Hs'].
    { split; simpl; lia. }
    destruct (Hoff s' Hs') as (Htr & Hdm & _ & _ & Hk).
    destruct (Hk 0) as (cm & g & lim & mf & x & Hcm & Hg & Hlim & Hmf & Hx
      & Hcmd); [simpl; lia|].
    injection Hcm as <-. injection Hg as <-. injection Hlim as <-.
    injection Hmf as <-. injection Hx as <-.
    by exists s'.
  - destruct (RUN.loop_body (Ex.run_env 0 1) [F.fl 1; F.fl 2] Ex.run_start)
      as [s''|] eqn:E; [|exfalso; vm_compute in E; discriminate E].
    destruct (C9_primary_write_gate (Ex.run_env 0 1) [F.fl 1; F.fl 2]
      Ex.run_start eq_refl) as [_ Hon].
    destruct (Hon eq_refl eq_refl s'' E) as (Hcnt & Hcpu & _).
    destruct (Hcpu eq_refl) as (Htr & _).
    exists s''. split; [reflexivity|]. split; [exact Hcnt | exact Htr].
Defined.

(** ** NaN measurements *)

Lemma F_mix_nan g p : (- g * p + (F.one - g) * NaN)%F = NaN.
Proof. destruct g, p; done. Qed.

Lemma F_update_nan_meas mu last g : (mu * (last - g * NaN))%F = NaN.
Proof. by rewrite F_mul_nan_r, F_sub_nan_r, F_mul_nan_r. Qed.

Lemma F_update_nan_last mu g x : (mu * (NaN - g * x))%F = NaN.
Proof. by destruct mu. Qed.

(** The modal integrator has no test for NaN: a NaN in the measurement of
    a mode, or in the value last committed for it, is committed again. *)
Lemma nan_propagates c i s s' m :
  iteration c i s = Some s' → m < NBmodes s →
  modeval i !! m = Some NaN ∨
  rd (modevalDM_C s)
     (modevalDMindexl s * Z.of_nat (NBmodes s) + Z.of_nat m) = Some NaN →
  modevalDMnow s' !! m = Some NaN ∧
  modevalDMnowfilt s' !! m = Some NaN ∧
  rd (modevalDM_C s')
     (modevalDMindexl s' * Z.of_nat (NBmodes s') + Z.of_nat m) = Some NaN.
Proof.
  intros Hit Hm Hnan.
  apply iteration_Some in Hit as (mg & mm & ml & d0 & lf & _ & _ & _ & Hd0
    & Hmix & _ & Hclip & Hc & _ & _ & _ & HNB & _ & _ & _ & _ & _ & _ & Hil).
  assert (d0 !! m = Some NaN) as Hd0m.
  { destruct (tabulate_lookup _ _ _ m Hd0 Hm) as (v & Hv & ->).
    destruct (mm !! m) as [mu|]; simpl in Hv; [|done].
    destruct (rd (modevalDM_C s) _) as [last|]; simpl in Hv; [|done].
    destruct (mg !! m) as [g|]; simpl in Hv; [|done].
    destruct (modeval i !! m) as [x|]; simpl in Hv; [|done].
    injection Hv as <-. f_equal.
    destruct Hnan as [[= ->]|[= ->]].
    - apply F_update_nan_meas.
    - apply F_update_nan_last. }
  assert (modevalDMnow s' !! m = Some NaN) as Hnow.
  { unfold mix_prediction in Hmix.
    case_decide; [|by injection Hmix as <- _].
    destruct (IDmodevalPF s); [|by injection Hmix as <- _].
    destruct (modevalPF i) as [pf|]; simpl in Hmix; [|done].
    destruct (tabulate _ _) as [mixed|] eqn:Ht; simpl in Hmix; [|done].
    injection Hmix as <- _.
    destruct (tabulate_lookup _ _ _ m Ht Hm) as (v & Hv & ->).
    destruct (pf !! m) as [p|]; simpl in Hv; [|done].
    rewrite Hd0m in Hv. simpl in Hv. injection Hv as <-.
    by rewrite F_mix_nan. }
  assert (modevalDMnowfilt s' !! m = Some NaN) as Hfilt.
  { unfold clip_pass in Hclip. case_decide.
    - apply clip_loop_Some in Hclip as (_ & _ & Hmodes & _).
      destruct (Hmodes m Hm) as (lim & v & _ & Hv & ->).
      rewrite Hnow in Hv. injection Hv as <-. by rewrite F_clip_nan.
    - by injection Hclip as <- _. }
  split_and!; try done.
  apply commit_Some in Hc as [_ Hring].
  rewrite Hil, HNB. destruct (Hring m Hm) as [_ ->]. done.
Qed.

(** C6: the code at a NaN measurement.  In [ComputeOpenLoopModes] the
    NaN is integrated, committed to the ring and integrated again on the
    next pass, whatever is measured then.  In the 2-step branch of the
    main loop the NaN is integrated into the modal command and written to
    the DM.  Only the 1-step branch replaces it by 0. *)
Theorem C6_nan_reaches_integrator :
  (∃ s0 s1 s2,
     Ex.start Ex.conf F.one F.one = Some s0 ∧
     iteration Ex.conf (Ex.inputs NaN (F.fl 2) (F.fl 3)) s0 = Some s1 ∧
     modevalDMnow s1 !! 0 = Some NaN ∧
     modevalDMnowfilt s1 !! 0 = Some NaN ∧
     iteration Ex.conf (Ex.inputs (F.fl 1) (F.fl 2) (F.fl 3)) s1
     = Some s2 ∧
     modevalDMnow s2 !! 0 = Some NaN ∧
     modevalDMnowfilt s2 !! 0 = Some NaN) ∧
  (∃ s',
     RUN.loop_body (Ex.run_env 0 1) [NaN; F.fl 2] Ex.run_start = Some s' ∧
     RUN.cmd_modes s' !! 0 = Some NaN ∧
     RUN.dmC s' !! 0 = Some NaN) ∧
  (∃ s',
     RUN.loop_body (Ex.run_env 1 1) [NaN; F.fl 2; F.fl 3] Ex.run_start
     = Some s' ∧
     RUN.meas_act s' !! 0 = Some F.zero ∧
     RUN.dmC s' !! 0 = Some F.zero ∧
     Forall F.finite (RUN.dmC s')).
Proof.
  split_and!.
  - run (Ex.start Ex.conf F.one F.one) as s0 E0 V0 using idtac.
    run (iteration Ex.conf (Ex.inputs NaN (F.fl 2) (F.fl 3)) s0)
      as s1 E1 V1 using (rewrite <- V0 in V1).
    run (iteration Ex.conf (Ex.inputs (F.fl 1) (F.fl 2) (F.fl 3)) s1)
      as s2 E2 V2 using (rewrite <- V1 in V2).
    destruct (nan_propagates _ _ _ _ 0 E1) as (Hn1 & Hf1 & Hr1).
    { rewrite <- V0. simpl. lia. }
    { by left. }
    destruct (nan_propagates _ _ _ _ 0 E2) as (Hn2 & Hf2 & _).
    { rewrite <- V1. simpl. lia. }
    { by right. }
    exists s0, s1, s2. by split_and!.
  - eexists. split; [vm_compute; reflexivity|]. by split.
  - eexists. split; [vm_compute; reflexivity|]. split_and!.
    + done.
    + by_float_compute.
    + repeat (constructor; [reflexivity|]). constructor.
Qed.
(** ** [Read_cam_frame] *)

Section frame.
Import RCF.

Lemma memcpy_length {A} (src : list A) off n l :
  memcpy src off n = Some l → length l = n.
Proof.
  unfold memcpy. case_decide as H; [|done]. intros [= <-].
  rewrite length_take, length_drop. lia.
Qed.

Lemma load_frame_length e frame :
  load_frame e = Some frame → length frame = sizeWFS e.
Proof.
  unfold load_frame. destruct (array (wfsim e)) as [a|a|]; [| |done].
  - apply memcpy_length.
  - destruct (memcpy a _ _) as [u|] eqn:Hu; simpl; [|done].
    intros [= <-]. rewrite length_map. by eapply memcpy_length.
Qed.

(** The total is the sum of the pixels, taken in order. *)
Lemma sum_loop (im0 : list float) n :
  n ≤ length im0 →
  for_n n (λ ii tot, x ← im0 !! ii; Some (tot + x)%F) F.zero
  = Some (foldl F.add F.zero (take n im0)).
Proof.
  induction n as [|n IH]; intros Hn; [done|].
  rewrite for_n_S, IH by lia. simpl.
  destruct (lookup_lt_is_Some_2 im0 n) as [x Hx]; [lia|].
  rewrite Hx. simpl. by rewrite (take_S_r _ _ x), foldl_app.
Qed.

Lemma compute_total_sum e im0 :
  wfsmask e = None →
  compute_total e im0 = Some (foldl F.add F.zero im0).
Proof.
  intros Hmask. unfold compute_total. rewrite Hmask.
  rewrite sum_loop by done. by rewrite firstn_all.
Qed.

Lemma list_eq_upto {A} (l k : list A) n :
  length l = n → length k = n →
  (∀ ii, ii < n → l !! ii = k !! ii) → l = k.
Proof.
  intros Hl Hk H. apply list_eq. intros ii.
  destruct (decide (ii < n)); [by apply H|].
  by rewrite !lookup_ge_None_2 by lia.
Qed.

End frame.

(** C5 (amended). Frame intake with normalisation, the total computed in
    the same pass and the scaling done on the CPU: every pixel of
    [imWFS0] is the raw value minus the dark, the total flux is the sum
    of [imWFS0], and every pixel of [imWFS1] is the one of [imWFS0] times
    [1 / (total + WFSnormfloor * sizeWFS)].  For the raw frame
    [100, 200, 300, 400], the dark [10, 10, 10, 10] and a floor of zero,
    the total is 960 and the output is [90, 190, 290, 390] / 960. *)
Theorem C5_frame_intake (e : RCF.env) (RM : Z) (s s' : RCF.state) :
  RCF.Read_cam_frame e RM 1 s = Some s' →
  (RCF.AOLCOMPUTE_TOTAL_ASYNC e = 0
   ∨ RCF.AOLCOMPUTE_TOTAL_INIT s = 0 ∨ RM = 1)%Z →
  ((RCF.COMPUTE_GPU_SCALING e = 0 ∧ RM = 0) ∨ RM = 1)%Z →
  RCF.wfsmask e = None →
  ∃ frame,
    RCF.load_frame e = Some frame ∧
    length (RCF.imWFS0 s') = RCF.sizeWFS e ∧
    length (RCF.imWFS1 s') = RCF.sizeWFS e ∧
    RCF.WFStotalflux s' = foldl F.add F.zero (RCF.imWFS0 s') ∧
    (∀ ii, ii < RCF.sizeWFS e →
       ∃ a d,
         frame !! ii = Some a ∧ RCF.wfsdark e !! ii = Some d ∧
         RCF.imWFS0 s' !! ii = Some (a - d)%F ∧
         RCF.imWFS1 s' !! ii
         = Some ((a - d)
                 * (F.one / (RCF.WFStotalflux s'
                             + RCF.WFSnormfloor e
                               * F.of_Z (Z.of_nat (RCF.sizeWFS e)))))%F) ∧
    (frame = map F.of_Z [100; 200; 300; 400]%Z →
     RCF.wfsdark e = map F.of_Z [10; 10; 10; 10]%Z →
     RCF.WFSnormfloor e = F.zero →
     RCF.imWFS0 s' = map F.of_Z [90; 190; 290; 390]%Z ∧
     RCF.WFStotalflux s' = F.of_Z 960 ∧
     RCF.imWFS1 s'
     = map (λ n, F.of_Z n / F.of_Z 960)%F [90; 190; 290; 390]%Z).
Proof.
  intros Hrun Hsync Hcpu Hmask. unfold RCF.Read_cam_frame in Hrun.
  destruct (decide (1 = 1)%Z) as [_|?] in Hrun; [|done].
  destruct (RCF.load_frame e) as [frame|] eqn:Hframe;
    [|discriminate Hrun].
  cbn [mbind option_bind] in Hrun.
  destruct (RCF.dark_subtract e frame) as [im0|] eqn:Him0;
    [|discriminate Hrun].
  cbn [mbind option_bind] in Hrun.
  do 2 (destruct (decide (_ ∨ _)) as [_|Hn] in Hrun; [|by destruct Hn]).
  rewrite compute_total_sum in Hrun by done.
  do 2 (cbn [mbind option_bind] in Hrun; cbv beta iota in Hrun).
  destruct (tabulate _ _) as [im1|] eqn:Him1 in Hrun; [|discriminate Hrun].
  cbn [mbind option_bind] in Hrun.
  injection Hrun as <-. cbn [RCF.imWFS0 RCF.imWFS1 RCF.WFStotalflux].
  pose proof (load_frame_length _ _ Hframe) as Hlen.
  pose proof (tabulate_length _ _ _ Him0) as Hlen0.
  pose proof (tabulate_length _ _ _ Him1) as Hlen1.
  assert (∀ ii, ii < RCF.sizeWFS e →
    ∃ a d,
      frame !! ii = Some a ∧ RCF.wfsdark e !! ii = Some d ∧
      im0 !! ii = Some (a - d)%F ∧
      im1 !! ii
      = Some ((a - d)
              * (F.one / (foldl F.add F.zero im0
                          + RCF.WFSnormfloor e
                            * F.of_Z (Z.of_nat (RCF.sizeWFS e)))))%F)
    as Hpix.
  { intros ii Hii.
    destruct (tabulate_lookup _ _ _ ii Him0 Hii) as (x & Hx & Hx0).
    destruct (tabulate_lookup _ _ _ ii Him1 Hii) as (y & Hy & Hy1).
    destruct (frame !! ii) as [a|]; simpl in Hx; [|done].
    destruct (RCF.wfsdark e !! ii) as [d|]; simpl in Hx; [|done].
    injection Hx as <-. rewrite Hx0 in Hy. simpl in Hy. injection Hy as <-.
    by exists a, d. }
  exists frame. split_and!; try done.
  intros -> Hdark Hfloor. simpl in Hlen.
  assert (im0 = map F.of_Z [90; 190; 290; 390]%Z) as ->.
  { apply (list_eq_upto _ _ 4); [congruence | done |].
    intros ii Hii. destruct (Hpix ii) as (a & d & Ha & Hd & -> & _); [lia|].
    rewrite Hdark in Hd.
    do 4 (destruct ii as [|ii];
      [injection Ha as <-; injection Hd as <-; by_float_compute|]).
    lia. }
  split; [done|]. split; [by_float_compute|].
  apply (list_eq_upto _ _ 4); [congruence | done |].
  intros ii Hii. destruct (Hpix ii) as (a & d & Ha & Hd & _ & ->); [lia|].
  rewrite Hdark in Hd. rewrite Hfloor, <- Hlen.
  do 4 (destruct ii as [|ii];
    [injection Ha as <-; injection Hd as <-; by_float_compute|]).
  lia.
Qed.

(** The claimed output [90, 190, 290, 490] / 1060 is not what the code
    gives on the frame of the scenario: the last pixel is 390 / 960. *)
Lemma C5_counterexample :
  ∃ s',
    RCF.Read_cam_frame
      (Ex.cam [100; 200; 300; 400]%Z [10; 10; 10; 10]%Z F.zero) 0 1
      (RCF.start 4)
    = Some s' ∧
    RCF.imWFS1 s'
    ≠ map (λ n, F.of_Z n / F.of_Z 1060)%F [90; 190; 290; 490]%Z ∧
    RCF.WFStotalflux s' ≠ F.of_Z 1060 ∧
    RCF.imWFS1 s' !! 3 ≠ Some (F.of_Z 490 / F.of_Z 1060)%F.
Proof.
  eexists. split; [vm_compute; reflexivity|]. simpl.
  split_and!; intros H.
  - apply (f_equal (fmap F.repr)) in H. vm_compute in H. discriminate H.
  - apply (f_equal F.repr) in H. vm_compute in H. discriminate H.
  - apply (f_equal (fmap F.repr)) in H. vm_compute in H. discriminate H.
Qed.

Lemma C5_witness :
  ∃ s',
    RCF.Read_cam_frame
      (Ex.cam [100; 200; 300; 400]%Z [10; 10; 10; 10]%Z F.zero) 0 1
      (RCF.start 4)
    = Some s' ∧
    RCF.WFStotalflux s' = F.of_Z 960 ∧
    RCF.imWFS1 s'
    = map (λ n, F.of_Z n / F.of_Z 960)%F [90; 190; 290; 390]%Z.
Proof.
  destruct (RCF.Read_cam_frame
    (Ex.cam [100; 200; 300; 400]%Z [10; 10; 10; 10]%Z F.zero) 0 1 (RCF.start 4))
    as [s'|] eqn:E; [|exfalso; vm_compute in E; discriminate E].
  destruct (C5_frame_intake _ _ _ _ E) as (frame & Hf & _ & _ & _ & _ & Hex);
    [by left | by left | done |].
  injection Hf as <-.
  destruct Hex as (_ & Hflux & Hout); [done..|].
  by exists s'.
Defined.
(** ** [AOloopControl_AutoTuneGains] *)

Lemma F_ltb_irrefl x : (x <? x)%F = false.
Proof.
  destruct x as [|a]; [done|]. apply F_ltb_ge. apply Qcle_refl.
Qed.

Lemma F_ltb_trans x y z :
  (x <? y)%F = true → (y <? z)%F = true → (x <? z)%F = true.
Proof.
  destruct x as [|a], y as [|b], z as [|d]; try done.
  rewrite !F_ltb_lt. apply Qclt_trans.
Qed.

Lemma F_not_ltb_le x y :
  F.finite x → F.finite y → (x <? y)%F = false → F.le y x.
Proof.
  destruct x as [|a], y as [|b]; try done. intros _ _. by apply F_ltb_ge.
Qed.

Lemma F_add_comm x y : (x + y)%F = (y + x)%F.
Proof.
  destruct x as [|a], y as [|b]; try done. simpl. f_equal. apply Qcplus_comm.
Qed.

Section gains.
Import ATG.

(** The first loop leaves [NBgain = 95]. *)
Lemma count_gains_run : count_gains 1000 mingain 0 = Some 95.
Proof. vm_compute. reflexivity. Qed.

Lemma sweep_below_one k : k < 95 → (sweep k <? F.one)%F = true.
Proof.
  intros Hk.
  assert (forallb (λ k, (sweep k <? F.one)%F) (seq 0 95) = true) as H
    by (vm_compute; reflexivity).
  rewrite forallb_forall in H. apply H, in_seq. lia.
Qed.

Lemma sweep_end : (sweep 95 <? F.one)%F = false.
Proof. vm_compute. reflexivity. Qed.

Lemma gain_rows_length n gain latency gain0 :
  length (gain_rows n gain latency gain0) = n.
Proof.
  revert gain. induction n as [|n IH]; intros gain; simpl; [done|].
  by rewrite IH.
Qed.

Lemma gain_rows_lookup n gain latency gain0 k :
  k < n →
  let g := Nat.iter k (λ gain, (gain * gainfactstep)%F) gain in
  gain_rows n gain latency gain0 !! k
  = Some (g,
          ((latency + F.one / g) * (latency + F.one / (g + gain0)))%F,
          (g / (F.one - g))%F).
Proof.
  revert gain k. induction n as [|n IH]; intros gain k Hk; [lia|].
  destruct k as [|k]; [done|].
  cbn [gain_rows lookup list_lookup]. rewrite IH by lia.
  by rewrite Nat.iter_succ_r.
Qed.

Lemma errarray_lookup asq sig rows k r :
  rows !! k = Some r →
  errarray asq sig rows !! k = Some (asq * r.1.2 + sig * r.2)%F.
Proof. intros H. unfold errarray. by rewrite list_lookup_fmap, H. Qed.

(** The search leaves in [kkmin] an entry that no entry is below. *)
Lemma find_kkmin_Some err kkmin :
  find_kkmin err = Some kkmin →
  ∃ errmin,
    err !! kkmin = Some errmin ∧
    ∀ k e, err !! k = Some e → (e <? errmin)%F = false.
Proof.
  unfold find_kkmin. intros H.
  destruct (err !! 0) as [e0|] eqn:H0; [|discriminate H].
  cbn [mbind option_bind] in H.
  destruct (for_n _ _ _) as [st|] eqn:Hloop; [|discriminate H].
  injection H as <-.
  apply (for_n_inv (λ k st,
    err !! st.2 = Some st.1 ∧
    ∀ j e, j < k → err !! j = Some e → (e <? st.1)%F = false)) in Hloop.
  - destruct Hloop as [Hmin Hall]. exists st.1. split; [done|].
    intros k e He. apply (Hall k); [|done]. by eapply lookup_lt_Some.
  - split; [done|]. intros; lia.
  - intros m t t' _ [Hmin Hall] Hstep. unfold min_step in Hstep.
    destruct (err !! m) as [e|] eqn:He; [|discriminate Hstep].
    cbn [mbind option_bind] in Hstep.
    destruct (e <? t.1)%F eqn:Hlt; injection Hstep as <-.
    + split; [done|]. intros j ej Hj Hej. cbn [fst].
      destruct (decide (j = m)) as [->|].
      * replace ej with e by congruence. apply F_ltb_irrefl.
      * destruct (ej <? e)%F eqn:Hlt'; [|done].
        rewrite <- (Hall j ej); [|lia|done].
        symmetry. by eapply F_ltb_trans.
    + split; [done|]. intros j ej Hj Hej.
      destruct (decide (j = m)) as [->|].
      * by replace ej with e by congruence.
      * apply (Hall j); [lia|done].
Qed.

Lemma find_kkmin_total err : 0 < length err → is_Some (find_kkmin err).
Proof.
  intros Hlen. unfold find_kkmin.
  destruct (lookup_lt_is_Some_2 err 0 Hlen) as [e0 ->].
  cbn [mbind option_bind].
  destruct (for_n_total (λ _ _, True) (min_step err) (length err) (e0, 0))
    as (st & -> & _); [done| |by eexists].
  intros m t Hm _. unfold min_step.
  destruct (lookup_lt_is_Some_2 err m Hm) as [e ->].
  cbn [mbind option_bind]. destruct (e <? t.1)%F; eauto.
Qed.

Lemma optimal_gain_Some n gain latency gain0 asq sig v :
  optimal_gain (gain_rows n gain latency gain0) asq sig = Some v →
  let g k := Nat.iter k (λ gain, (gain * gainfactstep)%F) gain in
  let J x :=
    (sig * (x / (F.one - x))
     + asq * ((latency + F.one / x) * (latency + F.one / (x + gain0))))%F in
  ∃ kkmin,
    kkmin < n ∧ v = g kkmin ∧
    ∀ k, k < n → (J (g k) <? J (g kkmin))%F = false.
Proof.
  unfold optimal_gain. intros H.
  destruct (find_kkmin _) as [kkmin|] eqn:Hmin; [|discriminate H].
  cbn [mbind option_bind] in H.
  apply find_kkmin_Some in Hmin as (errmin & Herrmin & Hall).
  assert (kkmin < n) as Hk.
  { apply lookup_lt_Some in Herrmin.
    unfold errarray in Herrmin.
    by rewrite length_map, gain_rows_length in Herrmin. }
  rewrite gain_rows_lookup in H by done.
  cbn [mbind option_bind] in H. injection H as <-.
  exists kkmin. split; [done|]. split; [done|].
  rewrite (errarray_lookup _ _ _ _ _ (gain_rows_lookup _ _ _ _ _ Hk))
    in Herrmin.
  injection Herrmin as <-. cbn [fst snd] in Hall.
  intros k Hk'. rewrite (F_add_comm (sig * _)%F), (F_add_comm (sig * _)%F).
  apply (Hall k).
  by rewrite (errarray_lookup _ _ _ _ _ (gain_rows_lookup _ _ _ _ _ Hk')).
Qed.

Lemma optimal_gain_total n gain latency gain0 asq sig :
  0 < n → is_Some (optimal_gain (gain_rows n gain latency gain0) asq sig).
Proof.
  intros Hn. unfold optimal_gain.
  destruct (find_kkmin_total (errarray asq sig
    (gain_rows n gain latency gain0))) as [kkmin Hmin].
  { unfold errarray. by rewrite length_map, gain_rows_length. }
  rewrite Hmin. cbn [mbind option_bind].
  apply find_kkmin_Some in Hmin as (errmin & Herrmin & _).
  apply lookup_lt_Some in Herrmin. unfold errarray in Herrmin.
  rewrite length_map in Herrmin.
  destruct (lookup_lt_is_Some_2 _ _ Herrmin) as [r ->]. by eexists.
Qed.

(** The test trace of the passes: within the images when the loop has
    more than [TEST_m] modes, outside when it has not. *)
Lemma test_traces_total NBmodes frames :
  TEST_m < NBmodes →
  (∀ fr, fr ∈ frames → length fr = NBmodes) →
  is_Some (mapM (test_trace NBmodes) frames).
Proof.
  intros Hm Hfr. apply mapM_is_Some_2, list.Forall_forall. intros fr Hin.
  unfold compose, test_trace. rewrite decide_True by done.
  destruct (lookup_lt_is_Some_2 fr TEST_m) as [x ->];
    [rewrite (Hfr fr Hin); lia|].
  by eexists.
Qed.

Lemma test_traces_fault NBmodes frames :
  NBmodes ≤ TEST_m → frames ≠ [] →
  mapM (test_trace NBmodes) frames = None.
Proof.
  intros Hm Hne. destruct frames as [|fr frames]; [done|].
  destruct (mapM _ _) as [u|] eqn:Hu; [|done].
  apply mapM_Some_1 in Hu. apply Forall2_cons_inv_l in Hu
    as (y & u' & Hy & _ & _).
  unfold test_trace in Hy. by rewrite decide_False in Hy by lia.
Qed.

End gains.

(** C8. The gain sweep.  The candidates are [mingain * gainfactstep^k]
    for [k < 95], all the values of the progression that are below 1.
    For every mode [m] the function evaluates
    [noise * g/(1-g) + lagterm * (lag + 1/g) * (lag + 1/(g + gain0))] at
    every candidate [g], with [noise = array_sig[m]],
    [lagterm = array_asq[m]] and
    [gain0 = 1 / (loopfrequ * AUTOTUNEGAIN_evolTimescale)], and writes to
    the output image a candidate that no candidate is below.  It does so
    on a loop of more than 30 modes whose open-loop image and work arrays
    have one entry per mode.  On a loop of 30 modes or fewer the test
    trace of the first pass reads element 30 of the modal images, which
    they do not have, and no gain is written. *)
Theorem C8_gain_sweep (c : ATG.AOconf_t) (NBmodes : nat)
    (frames : list (list float)) (garbage : list (float * float)) :
  length frames = 5000 →
  (∀ fr, fr ∈ frames → length fr = NBmodes) →
  length garbage = NBmodes →
  let lag := (ATG.hardwlatency_frame c + ATG.wfsmextrlatency_frame c)%F in
  let gain0 :=
    (F.one / (ATG.loopfrequ c * ATG.AUTOTUNEGAIN_evolTimescale))%F in
  let J noise lagterm g :=
    (noise * (g / (F.one - g))
     + lagterm * ((lag + F.one / g) * (lag + F.one / (g + gain0))))%F in
  ATG.sweep 0 = ATG.mingain ∧
  (∀ k, ATG.sweep (S k) = (ATG.sweep k * ATG.gainfactstep)%F) ∧
  (∀ k, k < 95 → (ATG.sweep k <? F.one)%F = true) ∧
  (ATG.sweep 95 <? F.one)%F = false ∧
  (NBmodes ≤ 30 →
   ATG.AOloopControl_AutoTuneGains c NBmodes frames garbage = None) ∧
  (30 < NBmodes →
   ∃ out,
     ATG.AOloopControl_AutoTuneGains c NBmodes frames garbage = Some out ∧
     length out = NBmodes ∧
     ∀ m, m < NBmodes →
       ∃ xs g kkmin,
         mapM (λ fr : list float, fr !! m) frames = Some xs ∧
         garbage !! m = Some g ∧
         let t := ATG.measure 0 xs (ATG.mstat0 g.1 g.2) in
         let noise := ATG.sig_of (5000 - ATG.cntstart) t in
         let lagterm := ATG.asq_of (5000 - ATG.cntstart) t in
         kkmin < 95 ∧
         out !! m = Some (ATG.sweep kkmin) ∧
         (∀ k, k < 95 →
            (J noise lagterm (ATG.sweep k)
             <? J noise lagterm (ATG.sweep kkmin))%F = false) ∧
         ((∀ k, k < 95 → F.finite (J noise lagterm (ATG.sweep k))) →
          ∀ k, k < 95 →
            F.le (J noise lagterm (ATG.sweep kkmin))
                 (J noise lagterm (ATG.sweep k)))).
Proof.
  intros Hframes Hfr Hgarbage lag gain0 J.
  split; [done|]. split; [done|].
  split; [apply sweep_below_one|]. split; [apply sweep_end|].
  unfold ATG.AOloopControl_AutoTuneGains.
  rewrite count_gains_run. cbn [mbind option_bind].
  rewrite decide_True by done. fold lag gain0. split.
  { intros Hsmall. rewrite test_traces_fault; [done | done |].
    intros ->. discriminate Hframes. }
  intros Hlarge.
  destruct (test_traces_total NBmodes frames Hlarge Hfr) as [u ->].
  cbn [mbind option_bind].
  set (f := λ m : nat, _).
  assert (∀ m, m < NBmodes →
    ∃ xs g, mapM (λ fr : list float, fr !! m) frames = Some xs ∧
            garbage !! m = Some g) as Hin.
  { intros m Hm.
    destruct (mapM_is_Some_2 (λ fr : list float, fr !! m) frames)
      as [xs Hxs].
    { apply list.Forall_forall. intros fr Hin.
      apply lookup_lt_is_Some. rewrite (Hfr fr Hin). lia. }
    destruct (lookup_lt_is_Some_2 garbage m) as [g Hg]; [lia|].
    by exists xs, g. }
  destruct (tabulate_is_Some NBmodes f) as [out Hout].
  { intros m Hm. destruct (Hin m Hm) as (xs & g & Hxs & Hg).
    subst f. cbn beta. rewrite Hxs, Hg. cbn [mbind option_bind].
    apply optimal_gain_total. lia. }
  exists out. split; [done|]. split; [by eapply tabulate_length|].
  intros m Hm. destruct (Hin m Hm) as (xs & g & Hxs & Hg).
  destruct (tabulate_lookup _ _ _ m Hout Hm) as (v & Hv & Hvm).
  subst f. cbn beta in Hv. rewrite Hxs, Hg in Hv.
  cbn [mbind option_bind] in Hv.
  apply optimal_gain_Some in Hv as (kkmin & Hk & -> & Hall).
  exists xs, g, kkmin. split; [done|]. split; [done|]. cbn zeta.
  split; [done|]. split; [done|]. split; [exact Hall|].
  intros Hfin k Hk'. apply F_not_ltb_le; [by apply Hfin..|by apply Hall].
Qed.

(** The sample measurement has 5000 frames of 31 modes. *)
Lemma tune_frames_sizes :
  length Ex.tune_frames = 5000 ∧
  ∀ fr, fr ∈ Ex.tune_frames → length fr = 31.
Proof.
  split; [reflexivity|]. intros fr Hin. unfold Ex.tune_frames in Hin.
  apply list_elem_of_fmap in Hin as (k & -> & _). reflexivity.
Qed.

Lemma C8_witness :
  (∃ out kkmin,
     ATG.AOloopControl_AutoTuneGains Ex.tune_conf 31 Ex.tune_frames
       Ex.tune_garbage
     = Some out ∧
     length out = 31 ∧ kkmin < 95 ∧ out !! 0 = Some (ATG.sweep kkmin)) ∧
  ATG.AOloopControl_AutoTuneGains Ex.tune_conf 1
    (map (take 1) Ex.tune_frames) [(F.zero, F.zero)] = None.
Proof.
  split.
  - destruct (C8_gain_sweep Ex.tune_conf 31 Ex.tune_frames Ex.tune_garbage)
      as (_ & _ & _ & _ & _ & Hret).
    + apply tune_frames_sizes.
    + apply tune_frames_sizes.
    + reflexivity.
    + destruct Hret as (out & Hout & Hlen & Hm); [lia|].
      destruct (Hm 0) as (xs & g & kkmin & _ & _ & Hk & H0 & _); [lia|].
      exists out, kkmin. by split_and!.
  - destruct (C8_gain_sweep Ex.tune_conf 1 (map (take 1) Ex.tune_frames)
      [(F.zero, F.zero)]) as (_ & _ & _ & _ & Hnone & _).
    + rewrite length_map. apply tune_frames_sizes.
    + intros fr Hin. apply list_elem_of_fmap in Hin as (fr' & -> & Hin').
      rewrite length_take, (proj2 tune_frames_sizes fr' Hin'). reflexivity.
    + reflexivity.
    + apply Hnone. lia.
Defined.

(** ** The loop control interface *)

Lemma for_range_inv {St} (P : Z → St → Prop) lo hi
    (body : Z → St → option St) s s' :
  for_range lo hi body s = Some s' →
  (lo ≤ hi)%Z →
  P lo s →
  (∀ k t t', (lo ≤ k < hi)%Z → P k t → body k t = Some t' →
     P (k + 1)%Z t') →
  P hi s'.
Proof.
  unfold for_range. intros Hrun Hle H0 Hstep.
  replace hi with (lo + Z.of_nat (Z.to_nat (hi - lo)))%Z by lia.
  eapply (for_n_inv (λ j t, P (lo + Z.of_nat j)%Z t)); [exact Hrun | | ].
  - by replace (lo + Z.of_nat 0)%Z with lo by lia.
  - intros m t t' Hm HP Hb.
    replace (lo + Z.of_nat (S m))%Z with (lo + Z.of_nat m + 1)%Z by lia.
    eapply Hstep; [lia | done | done].
Qed.

Lemma for_range_total {St} (P : Z → St → Prop) lo hi
    (body : Z → St → option St) s :
  (lo ≤ hi)%Z →
  P lo s →
  (∀ k t, (lo ≤ k < hi)%Z → P k t →
     ∃ t', body k t = Some t' ∧ P (k + 1)%Z t') →
  ∃ s', for_range lo hi body s = Some s' ∧ P hi s'.
Proof.
  unfold for_range. intros Hle H0 Hstep.
  destruct (for_n_total (λ j t, P (lo + Z.of_nat j)%Z t)
    (λ j, body (lo + Z.of_nat j)%Z) (Z.to_nat (hi - lo)) s)
    as (s' & Hs' & HP).
  - by replace (lo + Z.of_nat 0)%Z with lo by lia.
  - intros m t Hm HP.
    destruct (Hstep (lo + Z.of_nat m)%Z t) as (t' & Ht' & HP');
      [lia | done |].
    exists t'. split; [done|].
    by replace (lo + Z.of_nat (S m))%Z with (lo + Z.of_nat m + 1)%Z by lia.
  - exists s'. split; [done|].
    by replace hi with (lo + Z.of_nat (Z.to_nat (hi - lo)))%Z by lia.
Qed.

Lemma for_range_empty {St} lo hi (body : Z → St → option St) s :
  (hi ≤ lo)%Z → for_range lo hi body s = Some s.
Proof.
  intros H. unfold for_range. by replace (Z.to_nat (hi - lo)) with 0 by lia.
Qed.

Lemma rd_wr_eq {A} (a a' : list A) k v :
  wr a k v = Some a' → rd a' k = Some v.
Proof.
  intros [Hk ->]%wr_Some. unfold rd. rewrite decide_True by lia.
  apply list_lookup_insert_eq. lia.
Qed.

Lemma rd_wr_ne {A} (a a' : list A) k j v :
  wr a k v = Some a' → j ≠ k → rd a' j = rd a j.
Proof.
  intros [Hk ->]%wr_Some Hne. unfold rd. case_decide; [|done].
  apply list_lookup_insert_ne. lia.
Qed.

Lemma wr_length {A} (a a' : list A) k v :
  wr a k v = Some a' → length a' = length a.
Proof. intros [_ ->]%wr_Some. by rewrite length_insert. Qed.

(** A loop that stores [v] at the indices of a range. *)
Lemma fill_range (a : list float) lo hi v :
  (0 ≤ lo)%Z → (hi ≤ Z.of_nat (length a))%Z →
  ∃ a', for_range lo hi (λ k a, wr a k v) a = Some a' ∧
        length a' = length a ∧
        (∀ k, (lo ≤ k < hi)%Z → rd a' k = Some v) ∧
        (∀ k, ¬ (lo ≤ k < hi)%Z → rd a' k = rd a k).
Proof.
  intros Hlo Hhi. destruct (decide (lo ≤ hi)%Z) as [Hle|Hgt].
  - destruct (for_range_total (λ j t,
      length t = length a ∧
      (∀ k, (lo ≤ k < j)%Z → rd t k = Some v) ∧
      (∀ k, ¬ (lo ≤ k < j)%Z → rd t k = rd a k))
      lo hi (λ k a, wr a k v) a) as (a' & Ha' & HP); [done| | |by eauto].
    + split; [done|]. split; [intros; lia | done].
    + intros k t Hk (Hlen & Hin & Hout).
      destruct (wr_is_Some t k v) as [t' Ht']; [lia|].
      exists t'. split; [done|]. split; [|split].
      * rewrite <- Hlen. by eapply wr_length.
      * intros j Hj. destruct (decide (j = k)) as [->|Hne].
        -- by eapply rd_wr_eq.
        -- rewrite (rd_wr_ne _ _ _ _ _ Ht' Hne). apply Hin. lia.
      * intros j Hj. rewrite (rd_wr_ne _ _ k j v Ht') by lia.
        apply Hout. lia.
  - exists a. rewrite for_range_empty by lia.
    split; [done|]. split; [done|]. split; [intros; lia | done].
Qed.

(** X1. [AOloopControl_setgainrange], [_setlimitrange] and
    [_setmultfrange] called with [0 <= m0] store the value in the modes
    [m0 .. m1] when [m1 < NBDMmodes], and leave every other mode as it
    is.  When [m1 >= NBDMmodes] they stop one mode early: the modes
    [m0 .. NBDMmodes - 2] are set and the last mode, [NBDMmodes - 1], is
    not.  A negative [m0] below the end of the range writes before the
    image. *)
Theorem set_range_effect NBDMmodes m0 m1 val (a : list float) :
  (NBDMmodes ≤ Z.of_nat (length a))%Z →
  ((0 ≤ m0)%Z →
   ∃ a',
     CTL.set_range NBDMmodes m0 m1 val a = Some a' ∧
     length a' = length a ∧
     ((m1 < NBDMmodes)%Z →
      (∀ k, (m0 ≤ k ≤ m1)%Z → rd a' k = Some val) ∧
      (∀ k, ¬ (m0 ≤ k ≤ m1)%Z → rd a' k = rd a k)) ∧
     ((NBDMmodes ≤ m1)%Z →
      (∀ k, (m0 ≤ k ≤ NBDMmodes - 2)%Z → rd a' k = Some val) ∧
      (∀ k, ¬ (m0 ≤ k ≤ NBDMmodes - 2)%Z → rd a' k = rd a k) ∧
      rd a' (NBDMmodes - 1) = rd a (NBDMmodes - 1))) ∧
  ((m0 < 0)%Z → (m0 ≤ m1)%Z → (m0 < NBDMmodes - 1)%Z →
   CTL.set_range NBDMmodes m0 m1 val a = None).
Proof.
  intros Hlen. split.
  - intros Hm0. unfold CTL.set_range. cbv zeta.
    destruct (decide (m1 + 1 > NBDMmodes)%Z) as [Hover|Hin].
    + destruct (fill_range a m0 (NBDMmodes - 1) val)
        as (a' & -> & Hl & Hset & Hkeep); [lia..|].
      exists a'. split; [done|]. split; [done|]. split; [intros; lia|].
      intros _. split; [|split].
      * intros k Hk. apply Hset. lia.
      * intros k Hk. apply Hkeep. lia.
      * apply Hkeep. lia.
    + destruct (fill_range a m0 (m1 + 1) val)
        as (a' & -> & Hl & Hset & Hkeep); [lia..|].
      exists a'. split; [done|]. split; [done|]. split; [|intros; lia].
      intros _. split.
      * intros k Hk. apply Hset. lia.
      * intros k Hk. apply Hkeep. lia.
  - intros Hneg Hle Hlt. unfold CTL.set_range, for_range. cbv zeta.
    set (kmax := if decide (m1 + 1 > NBDMmodes)%Z then _ else _).
    assert (m0 < kmax)%Z as Hk by (subst kmax; case_decide; lia).
    destruct (Z.to_nat (kmax - m0)) as [|n] eqn:Hn; [lia|].
    unfold for_n. rewrite <- cons_seq. cbn [for_loop].
    replace (m0 + Z.of_nat 0)%Z with m0 by lia.
    assert (wr a m0 val = None) as ->; [|done].
    unfold wr. case_decide; [lia|done].
Qed.

Lemma set_range_effect_witness :
  ∃ a',
    CTL.set_range 3 1 5 (F.fl 0.5) (zeros 3) = Some a' ∧
    a' !! 1 = Some (F.fl 0.5) ∧ a' !! 2 = Some F.zero.
Proof.
  destruct (set_range_effect 3 1 5 (F.fl 0.5) (zeros 3)) as [H _];
    [simpl; lia|].
  destruct H as (a' & Ha' & _ & _ & Hover); [lia|].
  destruct Hover as (Hset & _ & Hlast); [lia|].
  exists a'. split; [done|]. split.
  - rewrite <- (rd_nat a' 1). apply Hset. lia.
  - rewrite <- (rd_nat a' 2). apply Hlast.
Defined.

(** *** [AOloopControl_loopreset] *)

Lemma set_block_first (NB : Z) v (a : list float) :
  (1 ≤ NB)%Z → 0 < length a →
  ∃ a', CTL.set_block NB 0 v a = Some a' ∧ length a' = length a ∧
        a' !! 0 = Some v ∧ ∀ b, 0 < b → a' !! b = a !! b.
Proof.
  intros HNB Hlen. unfold CTL.set_block. rewrite decide_True by lia.
  destruct (wr_is_Some a 0 v) as [a' Ha']; [lia|].
  exists a'. split; [done|]. split; [by eapply wr_length|]. split.
  - rewrite <- (rd_nat a' 0). by eapply rd_wr_eq.
  - intros b Hb. rewrite <- !rd_nat. eapply rd_wr_ne; [done|lia].
Qed.

Lemma reset_blocks_stuck (NB : Z) passes s :
  (1 ≤ NB)%Z →
  0 < length (CTL.gainb s) → 0 < length (CTL.limitb s) →
  0 < length (CTL.multfb s) →
  ∃ s',
    CTL.reset_blocks NB passes 0 s = Running s' ∧
    CTL.on s' = CTL.on s ∧ CTL.cmd_modes s' = CTL.cmd_modes s ∧
    (0 < passes →
     CTL.gainb s' !! 0 = Some (F.fl 0.0) ∧
     CTL.limitb s' !! 0 = Some (F.fl 0.01) ∧
     CTL.multfb s' !! 0 = Some (F.fl 0.95)) ∧
    (∀ b, 0 < b →
       CTL.gainb s' !! b = CTL.gainb s !! b ∧
       CTL.limitb s' !! b = CTL.limitb s !! b ∧
       CTL.multfb s' !! b = CTL.multfb s !! b).
Proof.
  intros HNB. revert s. induction passes as [|n IH]; intros s Hg Hl Hm.
  - exists s. split; [done|]. split; [done|]. split; [done|].
    split; [lia | done].
  - cbn [CTL.reset_blocks]. rewrite decide_True by lia.
    unfold CTL.reset_block.
    destruct (set_block_first NB (F.fl 0.0) _ HNB Hg)
      as (g & -> & Hgl & Hg0 & Hgb).
    destruct (set_block_first NB (F.fl 0.01) _ HNB Hl)
      as (l & -> & Hll & Hl0 & Hlb).
    destruct (set_block_first NB (F.fl 0.95) _ HNB Hm)
      as (m & -> & Hml & Hm0 & Hmb).
    cbn [mbind option_bind].
    destruct (IH {| CTL.on := CTL.on s; CTL.cmd_modes := CTL.cmd_modes s;
                    CTL.gainb := g; CTL.limitb := l; CTL.multfb := m |})
      as (s' & Hrun & Hon & Hcmd & Hfirst & Hrest); [simpl; lia..|].
    exists s'. split; [done|]. split; [done|]. split; [done|]. split.
    + intros _. destruct n as [|n'].
      * cbn in Hrun. injection Hrun as <-. done.
      * apply Hfirst. lia.
    + intros b Hb. destruct (Hrest b Hb) as (-> & -> & ->). simpl.
      by rewrite Hgb, Hlb, Hmb.
Qed.

(** X2. [AOloopControl_loopreset] turns the loop off and
    zeroes the modal command; its loop over blocks never advances its
    counter.  With at least one block the call does not return, however
    many passes of that loop are run: it keeps rewriting block 0 (gain
    0, limit 0.01, multiplier 0.95) and never reaches the other blocks.
    With no block it returns. *)
Theorem loopreset_never_returns NBDMmodes DMmodesNBblock (s : CTL.shm) :
  (0 ≤ NBDMmodes ≤ Z.of_nat (length (CTL.cmd_modes s)))%Z →
  ((DMmodesNBblock ≤ 0)%Z →
   ∀ passes, 0 < passes →
     ∃ s', CTL.AOloopControl_loopreset NBDMmodes DMmodesNBblock passes s
           = Returned s' ∧
           CTL.on s' = 0%Z ∧
           (∀ k, (0 ≤ k < NBDMmodes)%Z →
              rd (CTL.cmd_modes s') k = Some (F.fl 0.0)) ∧
           CTL.gainb s' = CTL.gainb s ∧ CTL.limitb s' = CTL.limitb s ∧
           CTL.multfb s' = CTL.multfb s) ∧
  ((1 ≤ DMmodesNBblock)%Z →
   0 < length (CTL.gainb s) → 0 < length (CTL.limitb s) →
   0 < length (CTL.multfb s) →
   ∀ passes,
     ∃ s', CTL.AOloopControl_loopreset NBDMmodes DMmodesNBblock passes s
           = Running s' ∧
           CTL.on s' = 0%Z ∧
           (∀ k, (0 ≤ k < NBDMmodes)%Z →
              rd (CTL.cmd_modes s') k = Some (F.fl 0.0)) ∧
           (0 < passes →
            CTL.gainb s' !! 0 = Some (F.fl 0.0) ∧
            CTL.limitb s' !! 0 = Some (F.fl 0.01) ∧
            CTL.multfb s' !! 0 = Some (F.fl 0.95)) ∧
           (∀ b, 0 < b →
              CTL.gainb s' !! b = CTL.gainb s !! b ∧
              CTL.limitb s' !! b = CTL.limitb s !! b ∧
              CTL.multfb s' !! b = CTL.multfb s !! b)).
Proof.
  intros Hcmd.
  destruct (fill_range (CTL.cmd_modes s) 0 NBDMmodes (F.fl 0.0))
    as (cmd & Hfill & _ & Hzero & _); [lia..|].
  split.
  - intros HNB passes Hp. unfold CTL.AOloopControl_loopreset.
    rewrite Hfill. destruct passes as [|n]; [lia|].
    cbn [CTL.reset_blocks]. rewrite decide_False by lia.
    eexists. split; [done|]. by simpl.
  - intros HNB Hg Hl Hm passes. unfold CTL.AOloopControl_loopreset.
    rewrite Hfill.
    destruct (reset_blocks_stuck DMmodesNBblock passes
      {| CTL.on := 0; CTL.cmd_modes := cmd; CTL.gainb := CTL.gainb s;
         CTL.limitb := CTL.limitb s; CTL.multfb := CTL.multfb s |})
      as (s' & Hrun & Hon & Hc & Hfirst & Hrest); [done..|].
    exists s'. split; [done|]. split; [done|]. split; [|done].
    rewrite Hc. exact Hzero.
Qed.

Lemma loopreset_never_returns_witness :
  ∃ s',
    CTL.AOloopControl_loopreset 2 2 1000
      {| CTL.on := 1; CTL.cmd_modes := [F.fl 1; F.fl 2];
         CTL.gainb := [F.fl 0.5; F.fl 0.5];
         CTL.limitb := [F.fl 1; F.fl 1]; CTL.multfb := [F.fl 1; F.fl 1] |}
    = Running s' ∧
    CTL.on s' = 0%Z ∧
    CTL.gainb s' !! 0 = Some (F.fl 0.0) ∧
    CTL.gainb s' !! 1 = Some (F.fl 0.5).
Proof.
  destruct (loopreset_never_returns 2 2
    {| CTL.on := 1; CTL.cmd_modes := [F.fl 1; F.fl 2];
       CTL.gainb := [F.fl 0.5; F.fl 0.5];
       CTL.limitb := [F.fl 1; F.fl 1]; CTL.multfb := [F.fl 1; F.fl 1] |})
    as [_ H]; [simpl; lia|].
  destruct (H ltac:(lia) ltac:(simpl; lia) ltac:(simpl; lia)
              ltac:(simpl; lia) 1000)
    as (s' & Hrun & Hon & _ & Hfirst & Hrest).
  exists s'. split; [done|]. split; [done|]. split.
  - apply Hfirst. lia.
  - apply (Hrest 1). lia.
Defined.

(** *** Stepping the main loop *)

Lemma loop_body_counter e meas s s' :
  RUN.loop_body e meas s = Some s' →
  RUN.cnt s' = (RUN.cnt s + 1)%Z ∧
  RUN.on s'
  = (if decide (RUN.cnt s + 1 = RUN.cntmax e)%Z then 0%Z else RUN.on s) ∧
  (RUN.CMMODE e = 0%Z →
   RUN.RMSmodesCumulcnt s' = (RUN.RMSmodesCumulcnt s + 1)%Z).
Proof.
  unfold RUN.loop_body. intros H.
  destruct (RUN.AOcompute_gains e _) as [s2|] eqn:H2;
    cbn [mbind option_bind] in H; [|discriminate H].
  destruct (RUN.actuate e s2) as [s3|] eqn:H3;
    cbn [mbind option_bind] in H; [|discriminate H].
  injection H as <-. cbn [RUN.cnt RUN.on RUN.RMSmodesCumulcnt].
  assert (RUN.cnt s2 = RUN.cnt s ∧ RUN.on s2 = RUN.on s ∧
          (RUN.CMMODE e = 0%Z →
           RUN.RMSmodesCumulcnt s2 = (RUN.RMSmodesCumulcnt s + 1)%Z))
    as (Hc2 & Ho2 & Hr2).
  { unfold RUN.AOcompute_gains in H2. case_decide.
    - destruct (for_n _ _ F.zero) as [rmsm|];
        cbn [mbind option_bind] in H2; [|discriminate H2].
      destruct (for_n _ _ _) as [[[rms ave] cmd]|];
        cbn [mbind option_bind] in H2; [|discriminate H2].
      by injection H2 as <-.
    - by injection H2 as <-. }
  assert (RUN.cnt s3 = RUN.cnt s2 ∧ RUN.on s3 = RUN.on s2 ∧
          RUN.RMSmodesCumulcnt s3 = RUN.RMSmodesCumulcnt s2)
    as (Hc3 & Ho3 & Hr3).
  { unfold RUN.actuate in H3. case_decide.
    - case_decide; [|by injection H3 as <-].
      destruct (_ >? _)%F; [|by injection H3 as <-].
      unfold RUN.set_DM_modes in H3.
      destruct (if _ : bool then _ else _) as [[[dm c0] tr]|];
        cbn [mbind option_bind] in H3; [|discriminate H3].
      by injection H3 as <-.
    - case_decide; [|by injection H3 as <-].
      destruct (RUN.sanitize e _) as [act|];
        cbn [mbind option_bind] in H3; [|discriminate H3].
      destruct (RUN.direct_update e _ _) as [dm|];
        cbn [mbind option_bind] in H3; [|discriminate H3].
      by injection H3 as <-. }
  rewrite Hc3, Ho3, Hr3, Hc2, Ho2. split; [done|]. split; [done|].
  exact Hr2.
Qed.

Lemma while_on_off e frames s :
  RUN.on s ≠ 1%Z → CTL.while_on e frames s = Some s.
Proof. intros H. destruct frames; [done|]. simpl. by rewrite decide_False. Qed.

(** The passes of a loop that is on, by the distance of its counter to
    [cntmax]. *)
Lemma while_on_count e frames s s' :
  RUN.on s = 1%Z →
  CTL.while_on e frames s = Some s' →
  let d := (RUN.cntmax e - RUN.cnt s)%Z in
  ((0 < d ≤ Z.of_nat (length frames))%Z →
   RUN.on s' = 0%Z ∧ RUN.cnt s' = RUN.cntmax e ∧
   CTL.while_on e (take (Z.to_nat d) frames) s = Some s' ∧
   (RUN.CMMODE e = 0%Z →
    RUN.RMSmodesCumulcnt s' = (RUN.RMSmodesCumulcnt s + d)%Z)) ∧
  (¬ (0 < d ≤ Z.of_nat (length frames))%Z →
   RUN.on s' = 1%Z ∧
   RUN.cnt s' = (RUN.cnt s + Z.of_nat (length frames))%Z).
Proof.
  revert s. induction frames as [|meas frames IH]; intros s Hon Hrun d.
  - injection Hrun as <-. split; [simpl; lia|]. intros _. simpl.
    split; [done|lia].
  - cbn [CTL.while_on] in Hrun. rewrite decide_True in Hrun by done.
    destruct (RUN.loop_body e meas s) as [s1|] eqn:H1;
      cbn [mbind option_bind] in Hrun; [|discriminate Hrun].
    destruct (loop_body_counter _ _ _ _ H1) as (Hc1 & Ho1 & Hr1).
    destruct (decide (d = 1)%Z) as [Hd1|Hd1].
    + rewrite decide_True in Ho1 by (subst d; lia).
      rewrite while_on_off in Hrun by lia. injection Hrun as <-.
      split; [|cbn [length]; lia]. intros _.
      split; [done|]. split; [subst d; lia|]. split.
      * rewrite Hd1. change (Z.to_nat 1) with 1. rewrite firstn_cons, take_0.
        cbn [CTL.while_on]. rewrite decide_True by done. by rewrite H1.
      * intros HCM. rewrite Hr1 by done. lia.
    + rewrite decide_False in Ho1 by (subst d; lia).
      destruct (IH s1) as [Hstop Hgo]; [congruence | done |].
      split.
      * intros Hd. destruct Hstop as (? & ? & Htake & Hr);
          [cbn [length] in Hd; subst d; lia|].
        split; [done|]. split; [done|]. split.
        -- replace (Z.to_nat d)
             with (S (Z.to_nat (RUN.cntmax e - RUN.cnt s1)))
             by (subst d; lia).
           rewrite firstn_cons. cbn [CTL.while_on].
           rewrite decide_True by done. rewrite H1. exact Htake.
        -- intros HCM. rewrite Hr, Hr1 by done. subst d. lia.
      * intros Hd. destruct Hgo as [? ?];
          [cbn [length] in Hd; subst d; lia|].
        split; [done|]. cbn [length]. lia.
Qed.

(** X3. [AOloopControl_loopstep] with [NBstep >= 1] makes the
    main loop run exactly [NBstep] passes, on the next [NBstep] frames,
    and stop: the counter has advanced by [NBstep], the loop is off and,
    in 2-step mode, [RMSmodesCumulcnt] counts the [NBstep] passes.  If
    fewer frames arrive the loop is still on.  The loop is the one of
    [LOOPNUMBER], and the 64-bit counter stays within its range. *)
Theorem loopstep_passes e s (NBstep : Z) frames :
  (1 ≤ NBstep)%Z →
  (0 ≤ RUN.cnt s)%Z → (RUN.cnt s + NBstep < 2 ^ 63)%Z →
  let '(e1, s1) := CTL.AOloopControl_loopstep NBstep e s in
  ∀ s', CTL.while_on e1 frames s1 = Some s' →
  ((NBstep ≤ Z.of_nat (length frames))%Z →
   RUN.on s' = 0%Z ∧ RUN.cnt s' = (RUN.cnt s + NBstep)%Z ∧
   CTL.while_on e1 (take (Z.to_nat NBstep) frames) s1 = Some s' ∧
   (RUN.CMMODE e = 0%Z → RUN.RMSmodesCumulcnt s' = NBstep)) ∧
  ((Z.of_nat (length frames) < NBstep)%Z →
   RUN.on s' = 1%Z ∧
   RUN.cnt s' = (RUN.cnt s + Z.of_nat (length frames))%Z).
Proof.
  intros HNB _ _. cbn [CTL.AOloopControl_loopstep]. intros s' Hrun.
  apply while_on_count in Hrun; [|done].
  cbn [CTL.with_cntmax RUN.cntmax RUN.cnt RUN.CMMODE RUN.RMSmodesCumulcnt]
    in Hrun.
  replace (RUN.cnt s + NBstep - RUN.cnt s)%Z with NBstep in Hrun by lia.
  destruct Hrun as [Hstop Hgo]. split.
  - intros Hlen. destruct Hstop as (? & ? & ? & Hr); [lia|].
    split; [done|]. split; [done|]. split; [done|].
    intros HCM. rewrite Hr by done. lia.
  - intros Hlen. apply Hgo. lia.
Qed.

Lemma loopstep_passes_witness :
  ∃ s',
    CTL.while_on (CTL.AOloopControl_loopstep 2 (Ex.run_env 0 1) Ex.run_start).1
      [[F.fl 1; F.fl 2]; [F.fl 0; F.fl 1]; [F.fl 1; F.fl 1]]
      (CTL.AOloopControl_loopstep 2 (Ex.run_env 0 1) Ex.run_start).2
    = Some s' ∧
    RUN.on s' = 0%Z ∧ RUN.cnt s' = 2%Z ∧ RUN.RMSmodesCumulcnt s' = 2%Z.
Proof.
  pose proof (loopstep_passes (Ex.run_env 0 1) Ex.run_start 2
    [[F.fl 1; F.fl 2]; [F.fl 0; F.fl 1]; [F.fl 1; F.fl 1]]
    ltac:(lia) ltac:(by vm_compute) ltac:(by vm_compute)) as H.
  cbn [CTL.AOloopControl_loopstep fst snd] in *.
  match type of H with
  | ∀ s', ?t = Some s' → _ =>
      destruct t as [s'|] eqn:E;
        [|exfalso; vm_compute in E; discriminate E]
  end.
  destruct (H s' eq_refl) as [Hstop _].
  destruct Hstop as (Hon & Hcnt & _ & Hr); [cbn [length]; lia|].
  exists s'. split; [reflexivity|]. split; [exact Hon|].
  split; [exact Hcnt|]. apply Hr. reflexivity.
Defined.

(** X4. [AOloopControl_loopon] sets [cntmax] one below the
    counter, so the test [cnt == cntmax] at the end of a pass never
    holds: the loop stays on for every frame that arrives.  The same
    holds after [AOloopControl_loopstep] with [NBstep <= 0], whose
    caller then waits for a stop that does not come.  The 64-bit
    counter stays within its range over these frames. *)
Theorem loopon_runs_on e s frames :
  (0 ≤ RUN.cnt s)%Z →
  (RUN.cnt s + Z.of_nat (length frames) < 2 ^ 63)%Z →
  (let '(e1, s1) := CTL.AOloopControl_loopon e s in
   ∀ s', CTL.while_on e1 frames s1 = Some s' →
     RUN.on s' = 1%Z ∧
     RUN.cnt s' = (RUN.cnt s + Z.of_nat (length frames))%Z) ∧
  (∀ NBstep, (- 2 ^ 63 ≤ NBstep ≤ 0)%Z →
     let '(e1, s1) := CTL.AOloopControl_loopstep NBstep e s in
     ∀ s', CTL.while_on e1 frames s1 = Some s' →
       RUN.on s' = 1%Z ∧
       RUN.cnt s' = (RUN.cnt s + Z.of_nat (length frames))%Z).
Proof.
  intros _ _. split.
  - cbn [CTL.AOloopControl_loopon]. intros s' Hrun.
    apply while_on_count in Hrun as [_ Hgo]; [|done].
    apply Hgo. cbn [CTL.with_cntmax RUN.cntmax RUN.cnt]. lia.
  - intros NBstep HNB. cbn [CTL.AOloopControl_loopstep]. intros s' Hrun.
    apply while_on_count in Hrun as [_ Hgo]; [|done].
    apply Hgo. cbn [CTL.with_cntmax RUN.cntmax RUN.cnt]. lia.
Qed.

Lemma loopon_runs_on_witness :
  ∃ s',
    CTL.while_on (CTL.AOloopControl_loopon (Ex.run_env 0 1) Ex.run_start).1
      [[F.fl 1; F.fl 2]; [F.fl 0; F.fl 1]; [F.fl 1; F.fl 1]]
      (CTL.AOloopControl_loopon (Ex.run_env 0 1) Ex.run_start).2
    = Some s' ∧
    RUN.on s' = 1%Z ∧ RUN.cnt s' = 3%Z.
Proof.
  destruct (loopon_runs_on (Ex.run_env 0 1) Ex.run_start
    [[F.fl 1; F.fl 2]; [F.fl 0; F.fl 1]; [F.fl 1; F.fl 1]]
    ltac:(by vm_compute) ltac:(by vm_compute)) as [H _].
  cbn [CTL.AOloopControl_loopon fst snd] in *.
  match type of H with
  | ∀ s', ?t = Some s' → _ =>
      destruct t as [s'|] eqn:E;
        [|exfalso; vm_compute in E; discriminate E]
  end.
  destruct (H s' eq_refl) as [Hon Hcnt].
  exists s'. split; [reflexivity|]. split; [exact Hon|exact Hcnt].
Defined.

(** ** The mode-basis multiply *)

Lemma tabulate_ext {A} n (f : nat → option A) (l : list A) :
  length l = n →
  (∀ m, m < n → ∃ v, f m = Some v ∧ l !! m = Some v) →
  tabulate n f = Some l.
Proof.
  intros Hlen H. apply mapM_Some_2. apply Forall2_same_length_lookup.
  split; [by rewrite length_seq|].
  intros i m v Hm Hv. apply lookup_seq in Hm as [-> Hi].
  destruct (H i Hi) as (w & Hf & Hw). simpl. congruence.
Qed.

(** The sum of the first [k] terms of actuator [i]. *)
Lemma add_mode_Some e cmd k arr arr' :
  DMW.add_mode e cmd k arr = Some arr' →
  length arr = RUN.sizeDM e →
  length arr' = RUN.sizeDM e ∧
  ∀ i, i < RUN.sizeDM e →
    ∃ a cm d, arr !! i = Some a ∧ cmd !! k = Some cm ∧
              RUN.DMmodes e !! (k * RUN.sizeDM e + i) = Some d ∧
              arr' !! i = Some (a + cm * d)%F.
Proof.
  intros H Hlen.
  apply (for_n_inv (λ j t,
    length t = RUN.sizeDM e ∧
    (∀ i, i < j → ∃ a cm d, arr !! i = Some a ∧ cmd !! k = Some cm ∧
        RUN.DMmodes e !! (k * RUN.sizeDM e + i) = Some d ∧
        t !! i = Some (a + cm * d)%F) ∧
    (∀ i, j ≤ i → t !! i = arr !! i))) in H.
  - destruct H as (? & ? & _). done.
  - split; [done|]. split; [intros; lia | done].
  - intros i t t' Hi (Hl & Hdone & Hrest) Hb.
    destruct (t !! i) as [a|] eqn:Ha; [|discriminate Hb].
    cbn [mbind option_bind] in Hb.
    destruct (cmd !! k) as [cm|] eqn:Hcm; [|discriminate Hb].
    cbn [mbind option_bind] in Hb.
    destruct (RUN.DMmodes e !! _) as [d|] eqn:Hd; [|discriminate Hb].
    cbn [mbind option_bind] in Hb. injection Hb as <-.
    split; [by rewrite length_insert|]. split.
    + intros j Hj. destruct (decide (j = i)) as [->|Hne].
      * exists a, cm, d. rewrite <- Hrest by lia.
        split; [done|]. split; [done|]. split; [done|].
        apply list_lookup_insert_eq. lia.
      * rewrite list_lookup_insert_ne by done. apply Hdone. lia.
    + intros j Hj. rewrite list_lookup_insert_ne by lia. apply Hrest. lia.
Qed.

Lemma add_mode_total e cmd k arr :
  length arr = RUN.sizeDM e →
  k < length cmd →
  (k + 1) * RUN.sizeDM e ≤ length (RUN.DMmodes e) →
  is_Some (DMW.add_mode e cmd k arr).
Proof.
  intros Hlen Hk Hd.
  destruct (for_n_total (λ _ t, length t = RUN.sizeDM e)
    (λ i arrayf,
      a ← arrayf !! i; cm ← cmd !! k;
      d ← RUN.DMmodes e !! (k * RUN.sizeDM e + i);
      Some (<[i := (a + cm * d)%F]> arrayf))
    (RUN.sizeDM e) arr) as (t & Ht & _); [done| |by eexists].
  intros i t Hi Hl.
  destruct (lookup_lt_is_Some_2 t i) as [a ->]; [lia|].
  destruct (lookup_lt_is_Some_2 cmd k Hk) as [cm ->].
  destruct (lookup_lt_is_Some_2 (RUN.DMmodes e) (k * RUN.sizeDM e + i))
    as [d ->]; [nia|].
  cbn [mbind option_bind]. eexists. split; [done|].
  by rewrite length_insert.
Qed.

(** X5. [set_DM_modesRM] loops over the modes, then over the
    actuators; [set_DM_modes] loops over the actuators, then over the
    modes.  On the same modal command the two compute the same
    actuator vector, term by term in the same order. *)
Theorem set_DM_modesRM_same_vector e (cmd : list float) :
  RUN.NBDMmodes e ≤ length cmd →
  RUN.NBDMmodes e * RUN.sizeDM e ≤ length (RUN.DMmodes e) →
  ∃ arrayf,
    DMW.modesRM_to_DM e cmd = Some arrayf ∧
    RUN.modes_to_DM e cmd = Some arrayf ∧
    length arrayf = RUN.sizeDM e.
Proof.
  intros Hcmd HD.
  destruct (for_n_total (λ k t,
    length t = RUN.sizeDM e ∧
    ∀ i, i < RUN.sizeDM e →
      ∃ x, t !! i = Some x ∧
           for_n k (λ k acc,
             cm ← cmd !! k;
             d ← RUN.DMmodes e !! (k * RUN.sizeDM e + i);
             Some (acc + cm * d)%F) F.zero = Some x)
    (DMW.add_mode e cmd) (RUN.NBDMmodes e) (zeros (RUN.sizeDM e)))
    as (arr & Harr & Hlen & Hsum).
  - split; [apply length_replicate|]. intros i Hi. exists F.zero.
    split; [|done]. by apply lookup_replicate_2.
  - intros k t Hk [Hl Hs].
    destruct (add_mode_total e cmd k t) as [t' Ht']; [done | lia | nia |].
    exists t'. split; [done|].
    destruct (add_mode_Some _ _ _ _ _ Ht' Hl) as [Hl' Ht].
    split; [done|]. intros i Hi.
    destruct (Ht i Hi) as (a & cm & d & Ha & Hcm & Hd & Hi').
    destruct (Hs i Hi) as (x & Hx & Hfx).
    exists (a + cm * d)%F. split; [done|].
    rewrite for_n_S, Hfx. cbn [mbind option_bind]. rewrite Hcm, Hd.
    cbn [mbind option_bind]. congruence.
  - exists arr. split; [done|]. split; [|done].
    unfold RUN.modes_to_DM. apply tabulate_ext; [done|].
    intros i Hi. destruct (Hsum i Hi) as (x & Hx & Hfx). by exists x.
Qed.

Lemma set_DM_modesRM_same_vector_witness :
  ∃ arrayf,
    DMW.modesRM_to_DM (Ex.run_env 0 1) [F.fl 1; F.fl 2] = Some arrayf ∧
    RUN.modes_to_DM (Ex.run_env 0 1) [F.fl 1; F.fl 2] = Some arrayf.
Proof.
  destruct (set_DM_modesRM_same_vector (Ex.run_env 0 1) [F.fl 1; F.fl 2])
    as (arrayf & H1 & H2 & _); [simpl; lia | simpl; lia |].
  by exists arrayf.
Defined.







(** ** Limits of the main loop *)

Lemma F_direct_value_clip e d x :
  RUN.direct_value e d x
  = OLM.clip ((d - RUN.gain e * x) * RUN.mult e)%F (RUN.maxlimit e).
Proof. reflexivity. Qed.

Lemma F_finite_sub x y : F.finite x → F.finite y → F.finite (x - y)%F.
Proof. by destruct x, y. Qed.

Lemma F_finite_mul x y : F.finite x → F.finite y → F.finite (x * y)%F.
Proof. by destruct x, y. Qed.

(** X7. In exact arithmetic, for measurements that are
    finite numbers or NaN: in 1-step mode with primary write on, a pass
    leaves every actuator of [aol_dmC] within [-maxlimit, maxlimit]
    when [maxlimit] is not negative and the gain, the multiplier and
    the previous command are finite numbers.  The value is the previous
    one minus [gain] times the measurement ([0] for a NaN), times
    [mult], then clamped.  Infinite values and overflow are not
    covered: an infinite measurement passes the [isnan] test, with a
    zero gain its product is NaN, and both tests of the clamp are false
    on a NaN. *)
Theorem direct_command_within_limit e meas s s' :
  RUN.CMMODE e ≠ 0%Z → RUN.DMprimaryWrite_ON e = 1%Z →
  F.le F.zero (RUN.maxlimit e) →
  F.finite (RUN.gain e) → F.finite (RUN.mult e) →
  (∀ ii d, ii < RUN.sizeDM e → RUN.dmC s !! ii = Some d → F.finite d) →
  RUN.loop_body e meas s = Some s' →
  ∀ ii, ii < RUN.sizeDM e →
    ∃ x d v,
      meas !! ii = Some x ∧ RUN.dmC s !! ii = Some d ∧
      RUN.dmC s' !! ii = Some v ∧
      v = RUN.direct_value e d (RUN.sanitized x) ∧
      F.le (F.abs v) (RUN.maxlimit e).
Proof.
  intros HCM HPW Hmax Hg Hm Hfin Hrun ii Hii.
  unfold RUN.loop_body, RUN.AOcompute_gains in Hrun.
  rewrite !decide_False in Hrun by done.
  cbn [mbind option_bind] in Hrun.
  destruct (RUN.actuate e _) as [s3|] eqn:H3;
    cbn [mbind option_bind] in Hrun; [|discriminate Hrun].
  injection Hrun as <-. cbn [RUN.dmC].
  unfold RUN.actuate in H3. rewrite decide_False in H3 by done.
  rewrite decide_True in H3 by done. cbn [RUN.meas_act RUN.dmC] in H3.
  destruct (RUN.sanitize e meas) as [act|] eqn:Hact;
    cbn [mbind option_bind] in H3; [|discriminate H3].
  destruct (RUN.direct_update e act (RUN.dmC s)) as [dm|] eqn:Hdm;
    cbn [mbind option_bind] in H3; [|discriminate H3].
  injection H3 as <-. cbn [RUN.dmC].
  destruct (sanitize_Some _ _ _ Hact) as [_ Hs].
  destruct (Hs ii Hii) as (x & Hx & Hax).
  destruct (direct_update_Some _ _ _ _ Hdm ii Hii) as (x' & d & Hx' & Hd & Hv).
  rewrite Hax in Hx'. injection Hx' as <-.
  exists x, d, (RUN.direct_value e d (RUN.sanitized x)).
  split; [done|]. split; [done|]. split; [done|]. split; [done|].
  rewrite F_direct_value_clip. apply F_clip_bound; [done|].
  apply F_finite_mul; [|done]. apply F_finite_sub; [by eapply Hfin|].
  apply F_finite_mul; [done | apply F_sanitized_finite].
Qed.

Lemma direct_command_within_limit_witness :
  ∃ s' v,
    RUN.loop_body (Ex.run_env 1 1) [NaN; F.fl 2; F.fl (-3)] Ex.run_start
    = Some s' ∧
    RUN.dmC s' !! 2 = Some v ∧ F.le (F.abs v) (F.fl 0.3).
Proof.
  destruct (RUN.loop_body (Ex.run_env 1 1) [NaN; F.fl 2; F.fl (-3)]
    Ex.run_start) as [s'|] eqn:E;
    [|exfalso; vm_compute in E; discriminate E].
  destruct (direct_command_within_limit (Ex.run_env 1 1)
    [NaN; F.fl 2; F.fl (-3)] Ex.run_start s') with (ii := 2)
    as (x & d & v & _ & _ & Hv & _ & Hle).
  - discriminate.
  - reflexivity.
  - vm_compute. discriminate.
  - reflexivity.
  - reflexivity.
  - intros ii d Hii Hd. simpl in Hd. unfold zeros in Hd.
    apply lookup_replicate in Hd as [-> _]. reflexivity.
  - exact E.
  - simpl. lia.
  - by exists s', v.
Defined.

Lemma F_clamped_product lo hi raw m :
  lo = (- hi)%F → F.le F.zero hi → F.finite raw → F.finite m →
  let x := if (raw <? lo)%F then lo else raw in
  let y := if (x >? hi)%F then hi else x in
  F.le (F.abs (y * m)) (hi * F.abs m)%F.
Proof.
  intros -> Hhi Hraw Hm x y.
  destruct (F_clamp_bounds (- hi)%F hi raw) as [Hlo Hup]; [|done|].
  { destruct hi as [|h]; [done|]. cbn [F.le F.opp F.zero F.of_Z] in *.
    qc_lra. }
  fold x y in Hlo, Hup.
  destruct y as [|y'], hi as [|h], m as [|m']; try done.
  cbn [F.le F.opp F.abs F.mul F.lift2] in *.
  rewrite Qcabs_Qcmult. apply Qcmult_le_compat_r; [|apply Qcabs_nonneg].
  apply Qcabs_Qcle_condition. done.
Qed.

Lemma F_opp_mul x y : (- x * y)%F = (- (x * y))%F.
Proof.
  destruct x as [|a], y as [|b]; try done. simpl. f_equal. qc_to_q. ring.
Qed.

(** X8. In 2-step mode [AOcompute] clamps the modal command
    to [maxlimit * LIMIT[k]] before it multiplies it by
    [mult * MULTF[k]]: the command it leaves is at most
    [maxlimit * LIMIT[k] * |mult * MULTF[k]|] in absolute value, when
    [maxlimit * LIMIT[k]] is not negative and the values are numbers. *)
Theorem modal_command_within_limit e s s' :
  RUN.CMMODE e = 0%Z →
  RUN.AOcompute_gains e s = Some s' →
  ∀ k, k < RUN.NBDMmodes e →
    ∃ cm g lim mf x v,
      RUN.cmd_modes s !! k = Some cm ∧
      RUN.GAIN_modes e !! k = Some g ∧
      RUN.LIMIT_modes e !! k = Some lim ∧
      RUN.MULTF_modes e !! k = Some mf ∧
      RUN.meas_modes s !! k = Some x ∧
      RUN.cmd_modes s' !! k = Some v ∧
      (F.le F.zero (RUN.maxlimit e * lim)%F →
       F.finite (cm - RUN.gain e * g * x)%F →
       F.finite (RUN.mult e * mf)%F →
       F.le (F.abs v)
            (RUN.maxlimit e * lim * F.abs (RUN.mult e * mf))%F).
Proof.
  intros HCM H k Hk. unfold RUN.AOcompute_gains in H.
  rewrite decide_True in H by done.
  destruct (for_n _ _ F.zero) as [rmsm|];
    cbn [mbind option_bind] in H; [|discriminate H].
  destruct (for_n _ _ _) as [[[rms ave] cmd]|] eqn:Hloop;
    cbn [mbind option_bind] in H; [|discriminate H].
  injection H as <-. cbn [RUN.cmd_modes].
  destruct (integrate_modes_Some _ _ _ _ _ _ _ _ _ Hloop k Hk)
    as (cm & g & lim & mf & x & Hcm & Hg & Hlim & Hmf & Hx & Hv).
  exists cm, g, lim, mf, x, (RUN.integrated e cm g lim mf x).
  split; [done|]. split; [done|]. split; [done|]. split; [done|].
  split; [done|]. split; [done|].
  intros Hpos Hraw Hm. unfold RUN.integrated.
  apply F_clamped_product; [apply F_opp_mul | done..].
Qed.

Lemma modal_command_within_limit_witness :
  ∃ s' v,
    RUN.AOcompute_gains (Ex.run_env 0 1)
      (RUN.mkState [F.fl 5; F.fl 2] (zeros 3) (zeros 2) (zeros 2) (zeros 2)
         F.zero F.zero 0 (zeros 3) 0 0 0 1 [])
    = Some s' ∧
    RUN.cmd_modes s' !! 0 = Some v ∧
    F.le (F.abs v) (F.fl 0.3 * F.one * F.abs (F.fl 0.99 * F.one))%F.
Proof.
  destruct (RUN.AOcompute_gains (Ex.run_env 0 1)
      (RUN.mkState [F.fl 5; F.fl 2] (zeros 3) (zeros 2) (zeros 2) (zeros 2)
         F.zero F.zero 0 (zeros 3) 0 0 0 1 [])) as [s'|] eqn:E;
    [|exfalso; vm_compute in E; discriminate E].
  destruct (modal_command_within_limit (Ex.run_env 0 1) _ _ eq_refl E 0)
    as (cm & g & lim & mf & x & v & Hcm & Hg & Hlim & Hmf & Hx & Hv & Hle);
    [simpl; lia|].
  injection Hcm as <-. injection Hg as <-. injection Hlim as <-.
  injection Hmf as <-. injection Hx as <-.
  exists s', v. split; [done|]. split; [done|].
  apply Hle; [vm_compute; discriminate | reflexivity | reflexivity].
Defined.

(** ** Frame intake *)

Lemma F_repr_option_list_inj (x y : option (list float)) :
  fmap (M := option) (fmap (M := list) F.repr) x
  = fmap (M := option) (fmap (M := list) F.repr) y → x = y.
Proof.
  destruct x, y; simpl; try done. intros [= H]. f_equal.
  by apply F_repr_list_inj.
Qed.

Lemma quot_range_step (N n t : Z) :
  (0 < N)%Z → (0 ≤ n)%Z → (0 ≤ t < N)%Z →
  (0 ≤ (t * n) ÷ N ≤ ((t + 1) * n) ÷ N)%Z ∧ (((t + 1) * n) ÷ N ≤ n)%Z.
Proof.
  intros HN Hn Ht.
  rewrite !Z.quot_div_nonneg by nia.
  split; [split|].
  - apply Z.div_pos; nia.
  - apply Z.div_le_mono; nia.
  - apply Z.div_le_upper_bound; nia.
Qed.

Lemma quot_range_end (N n : Z) : (0 < N)%Z → ((N * n) ÷ N = n)%Z.
Proof. intros HN. rewrite Z.mul_comm. apply Z.quot_mul. lia. Qed.

(** One thread stores its range of pixels and no other. *)
Lemma thread_pass e N frame r t (im0 : list float) :
  RCF.dark_subtract e frame = Some r →
  (0 < N)%Z → (0 ≤ t < N)%Z →
  length im0 = RCF.sizeWFS e →
  ∃ im0',
    THR.compute_function_dark_subtract e N frame t im0 = Some im0' ∧
    length im0' = length im0 ∧
    (∀ ii, (THR.iistart N t (Z.of_nat (length im0)) ≤ ii
            < THR.iiend N t (Z.of_nat (length im0)))%Z →
       rd im0' ii = rd r ii) ∧
    (∀ ii, ¬ (THR.iistart N t (Z.of_nat (length im0)) ≤ ii
              < THR.iiend N t (Z.of_nat (length im0)))%Z →
       rd im0' ii = rd im0 ii).
Proof.
  intros Hr HN Ht Hlen.
  pose proof (tabulate_length _ _ _ Hr) as Hrl.
  unfold THR.compute_function_dark_subtract, THR.iistart, THR.iiend.
  cbv zeta.
  destruct (quot_range_step N (Z.of_nat (length im0)) t)
    as [[Hlo Hle] Hhi]; [lia..|].
  set (lo := ((t * Z.of_nat (length im0)) ÷ N)%Z) in *.
  set (hi := (((t + 1) * Z.of_nat (length im0)) ÷ N)%Z) in *.
  destruct (for_range_total (λ j u,
    length u = length im0 ∧
    (∀ ii, (lo ≤ ii < j)%Z → rd u ii = rd r ii) ∧
    (∀ ii, ¬ (lo ≤ ii < j)%Z → rd u ii = rd im0 ii))
    lo hi (λ ii im0,
       a ← rd frame ii; d ← rd (RCF.wfsdark e) ii; wr im0 ii (a - d)%F)
    im0) as (im0' & Hrun & HP); [done| | |by eauto].
  - split; [done|]. split; [intros; lia | done].
  - intros k u Hk (Hl & Hin & Hout).
    destruct (tabulate_lookup _ _ _ (Z.to_nat k) Hr) as (v & Hv & Hrv);
      [lia|].
    destruct (frame !! Z.to_nat k) as [a|] eqn:Ha;
      cbn [mbind option_bind] in Hv; [|discriminate Hv].
    destruct (RCF.wfsdark e !! Z.to_nat k) as [d|] eqn:Hd;
      cbn [mbind option_bind] in Hv; [|discriminate Hv].
    injection Hv as <-.
    assert (rd frame k = Some a) as ->
      by (unfold rd; by rewrite decide_True by lia).
    assert (rd (RCF.wfsdark e) k = Some d) as ->
      by (unfold rd; by rewrite decide_True by lia).
    cbn [mbind option_bind].
    destruct (wr_is_Some u k (a - d)%F) as [u' Hu']; [lia|].
    exists u'. split; [done|]. split; [|split].
    + rewrite <- Hl. by eapply wr_length.
    + intros j Hj. destruct (decide (j = k)) as [->|Hne].
      * rewrite (rd_wr_eq _ _ _ _ Hu'). unfold rd.
        by rewrite decide_True by lia.
      * rewrite (rd_wr_ne _ _ _ _ _ Hu' Hne). apply Hin. lia.
    + intros j Hj. rewrite (rd_wr_ne _ _ k j _ Hu') by lia.
      apply Hout. lia.
Qed.

(** X9. The dark subtraction by threads: thread [t] of [N]
    handles the pixels from [t * nelem / N] up to [(t+1) * nelem / N],
    and the main thread runs the threads one after the other.  The
    ranges tile the image: after the last thread [aol_imWFS0] is what
    the single-thread loop stores, for any number [N >= 1] of threads
    and any previous content. *)
Theorem dark_subtract_threads_same_image e (N : Z) frame r
    (im0 : list float) :
  (1 ≤ N)%Z →
  length im0 = RCF.sizeWFS e →
  RCF.dark_subtract e frame = Some r →
  THR.dark_subtract_threads e N frame im0 = Some r.
Proof.
  intros HN Hlen Hr.
  pose proof (tabulate_length _ _ _ Hr) as Hrl.
  unfold THR.dark_subtract_threads.
  destruct (for_range_total (λ t u,
    length u = length im0 ∧
    ∀ ii, (0 ≤ ii < THR.iistart N t (Z.of_nat (length im0)))%Z →
      rd u ii = rd r ii)
    0 N (THR.compute_function_dark_subtract e N frame) im0)
    as (u & -> & Hl & Hu); [lia| | |].
  - split; [done|]. unfold THR.iistart. rewrite Z.mul_0_l.
    rewrite Z.quot_0_l by lia. intros; lia.
  - intros t u Ht [Hl Hdone].
    destruct (thread_pass e N frame r t u Hr) as (u' & Hu' & Hl' & Hin & Hout);
      [lia | lia | congruence |].
    exists u'. split; [done|]. split; [congruence|].
    intros ii Hii. rewrite Hl in *.
    change (THR.iistart N (t + 1) (Z.of_nat (length im0)))
      with (THR.iiend N t (Z.of_nat (length im0))) in Hii.
    destruct (decide (THR.iistart N t (Z.of_nat (length im0)) ≤ ii)%Z).
    + apply Hin. lia.
    + rewrite Hout by lia. apply Hdone. lia.
  - f_equal. apply (list_eq_upto _ _ (RCF.sizeWFS e)); [congruence|done|].
    intros ii Hii. rewrite <- !rd_nat. apply Hu.
    unfold THR.iistart. rewrite quot_range_end by lia. lia.
Qed.

Lemma dark_subtract_threads_same_image_witness :
  THR.dark_subtract_threads
    (Ex.cam [100; 200; 300; 400]%Z [10; 10; 10; 10]%Z F.zero) 3
    (map F.of_Z [100; 200; 300; 400]%Z) (zeros 4)
  = Some (map F.of_Z [90; 190; 290; 390]%Z).
Proof.
  apply dark_subtract_threads_same_image; [lia | reflexivity |].
  apply F_repr_option_list_inj. vm_compute. reflexivity.
Defined.

(** X10. On a ring buffer ([naxis = 3]) of [size2] slices
    [Read_cam_frame] takes the slice [cnt1] when [0 <= cnt1 < size2].
    When [cnt1] is [-1] it takes the slice number [size2], which lies
    after the last slice of the buffer, and so for any other [cnt1]
    outside the buffer. *)
Theorem ring_buffer_slice (e : RCF.env) (a : list float) :
  RCF.array (RCF.wfsim e) = RCF.DATATYPE_FLOAT a →
  RCF.naxis (RCF.wfsim e) = 3%Z →
  0 < RCF.sizeWFS e →
  (0 ≤ RCF.size2 (RCF.wfsim e))%Z →
  length a = Z.to_nat (RCF.size2 (RCF.wfsim e)) * RCF.sizeWFS e →
  let cnt1 := RCF.cnt1 (RCF.wfsim e) in
  ((0 ≤ cnt1 < RCF.size2 (RCF.wfsim e))%Z →
   RCF.slice e = cnt1 ∧
   RCF.load_frame e
   = Some (take (RCF.sizeWFS e)
             (drop (Z.to_nat cnt1 * RCF.sizeWFS e) a))) ∧
  (cnt1 = (-1)%Z →
   RCF.slice e = RCF.size2 (RCF.wfsim e) ∧ RCF.load_frame e = None) ∧
  (¬ (0 ≤ cnt1 < RCF.size2 (RCF.wfsim e))%Z → RCF.load_frame e = None).
Proof.
  intros Ha Hax Hn Hs2 Hlen cnt1.
  assert (∀ sl, RCF.slice e = sl →
    RCF.load_frame e
    = RCF.memcpy a (sl * Z.of_nat (RCF.sizeWFS e)) (RCF.sizeWFS e))
    as Hload.
  { intros sl <-. unfold RCF.load_frame. by rewrite Ha. }
  assert (∀ sl, (0 ≤ sl < RCF.size2 (RCF.wfsim e))%Z →
    RCF.memcpy a (sl * Z.of_nat (RCF.sizeWFS e)) (RCF.sizeWFS e)
    = Some (take (RCF.sizeWFS e) (drop (Z.to_nat sl * RCF.sizeWFS e) a)))
    as Hin.
  { intros sl Hsl. unfold RCF.memcpy. rewrite decide_True by nia.
    do 3 f_equal. nia. }
  assert (∀ sl, ¬ (0 ≤ sl < RCF.size2 (RCF.wfsim e))%Z →
    RCF.memcpy a (sl * Z.of_nat (RCF.sizeWFS e)) (RCF.sizeWFS e) = None)
    as Hout.
  { intros sl Hsl. unfold RCF.memcpy. rewrite decide_False; [done|]. nia. }
  split; [|split].
  - intros Hc.
    assert (RCF.slice e = cnt1) as Hsl.
    { unfold RCF.slice. rewrite decide_True by done.
      rewrite decide_False; [done|]. subst cnt1. lia. }
    split; [done|]. rewrite (Hload _ Hsl). by apply Hin.
  - intros Hc.
    assert (RCF.slice e = RCF.size2 (RCF.wfsim e)) as Hsl.
    { unfold RCF.slice. rewrite decide_True by done.
      by rewrite decide_True by done. }
    split; [done|]. rewrite (Hload _ Hsl). apply Hout. lia.
  - intros Hc. destruct (decide (cnt1 = (-1)%Z)) as [Hm|Hm].
    + rewrite (Hload (RCF.size2 (RCF.wfsim e))).
      * apply Hout. lia.
      * unfold RCF.slice. rewrite decide_True by done.
        by rewrite decide_True by done.
    + rewrite (Hload cnt1).
      * by apply Hout.
      * unfold RCF.slice. rewrite decide_True by done.
        by rewrite decide_False by done.
Qed.

Lemma ring_buffer_slice_witness :
  RCF.load_frame
    {| RCF.sizeWFS := 2; RCF.WFSnormfloor := F.zero;
       RCF.AOLCOMPUTE_TOTAL_ASYNC := 0; RCF.COMPUTE_GPU_SCALING := 0;
       RCF.wfsim :=
         {| RCF.array := RCF.DATATYPE_FLOAT (map F.of_Z [1; 2; 3; 4]%Z);
            RCF.naxis := 3; RCF.cnt1 := -1; RCF.size2 := 2 |};
       RCF.wfsdark := zeros 2; RCF.wfsmask := None |}
  = None.
Proof.
  refine (proj2 (proj1 (proj2 (ring_buffer_slice _
    (map F.of_Z [1; 2; 3; 4]%Z) _ _ _ _ _)) _)).
  - reflexivity.
  - reflexivity.
  - simpl. lia.
  - simpl. lia.
  - reflexivity.
  - reflexivity.
Defined.

(** *** The total of the normalised image *)

Lemma F_foldl_add_nan l : foldl F.add NaN l = NaN.
Proof. induction l as [|x l IH]; [done|]. simpl. exact IH. Qed.

Lemma F_mul_add_distr a x c : ((a + x) * c)%F = (a * c + x * c)%F.
Proof.
  destruct a as [|a], x as [|x], c as [|c]; try done. simpl. f_equal.
  qc_to_q. ring.
Qed.

Lemma F_sum_scaled_acc a c l :
  foldl F.add (a * c)%F ((λ x, x * c)%F <$> l) = (foldl F.add a l * c)%F.
Proof.
  revert a. induction l as [|x l IH]; intros a; [done|].
  cbn [fmap list_fmap foldl]. rewrite <- F_mul_add_distr. apply IH.
Qed.

Lemma F_sum_scaled c l :
  l ≠ [] →
  foldl F.add F.zero ((λ x, x * c)%F <$> l)
  = (foldl F.add F.zero l * c)%F.
Proof.
  intros Hl. destruct c as [|c].
  - destruct l as [|x l]; [done|]. cbn [fmap list_fmap foldl].
    rewrite F_mul_nan_r. change (F.zero + NaN)%F with NaN.
    rewrite F_foldl_add_nan. by rewrite F_mul_nan_r.
  - rewrite <- F_sum_scaled_acc.
    assert ((F.zero * Fin c)%F = F.zero) as ->; [|done].
    unfold F.zero, F.of_Z. cbn [F.mul F.lift2]. f_equal. qc_to_q. ring.
Qed.

Lemma F_mul_inv_div x d : (x * (F.one / d))%F = (x / d)%F.
Proof.
  destruct x as [|a], d as [|b]; try done;
    cbn [F.mul F.lift2 F.div F.one F.of_Z]; case_decide; try done.
  cbn [F.mul F.lift2]. f_equal. unfold Qcdiv.
  change (Q2Qc (inject_Z 1)) with 1%Qc. by rewrite Qcmult_1_l.
Qed.

Lemma F_div_self_floor0 q n :
  q ≠ 0%Qc → (Fin q / (Fin q + F.zero * F.of_Z n))%F = F.one.
Proof.
  intros Hq. unfold F.zero, F.one, F.of_Z.
  cbn [F.add F.mul F.lift2 F.div].
  match goal with
  | |- context [decide (?d = _)] =>
      assert (d = q) as -> by (qc_to_q; ring)
  end.
  rewrite decide_False by done. f_equal.
  unfold Qcdiv. rewrite Qcmult_inv_r by done. by apply Qc_is_canon.
Qed.

(** What a pass with normalisation leaves, the total computed in the
    same pass and the scaling done on the CPU. *)
Lemma Read_cam_frame_normalized e RM s s' :
  RCF.Read_cam_frame e RM 1 s = Some s' →
  (RCF.AOLCOMPUTE_TOTAL_ASYNC e = 0
   ∨ RCF.AOLCOMPUTE_TOTAL_INIT s = 0 ∨ RM = 1)%Z →
  ((RCF.COMPUTE_GPU_SCALING e = 0 ∧ RM = 0) ∨ RM = 1)%Z →
  RCF.wfsmask e = None →
  let flux := foldl F.add F.zero (RCF.imWFS0 s') in
  let denom :=
    (flux + RCF.WFSnormfloor e * F.of_Z (Z.of_nat (RCF.sizeWFS e)))%F in
  length (RCF.imWFS0 s') = RCF.sizeWFS e ∧
  RCF.WFStotalflux s' = flux ∧
  RCF.normfloorcoeff s' = (flux / denom)%F ∧
  RCF.imWFS1 s' = (λ x, x * (F.one / denom))%F <$> RCF.imWFS0 s'.
Proof.
  intros Hrun Hsync Hcpu Hmask. unfold RCF.Read_cam_frame in Hrun.
  destruct (decide (1 = 1)%Z) as [_|?] in Hrun; [|done].
  destruct (RCF.load_frame e) as [frame|] eqn:Hframe;
    [|discriminate Hrun].
  cbn [mbind option_bind] in Hrun.
  destruct (RCF.dark_subtract e frame) as [im0|] eqn:Him0;
    [|discriminate Hrun].
  cbn [mbind option_bind] in Hrun.
  do 2 (destruct (decide (_ ∨ _)) as [_|Hn] in Hrun; [|by destruct Hn]).
  rewrite compute_total_sum in Hrun by done.
  do 2 (cbn [mbind option_bind] in Hrun; cbv beta iota in Hrun).
  destruct (tabulate _ _) as [im1|] eqn:Him1 in Hrun; [|discriminate Hrun].
  cbn [mbind option_bind] in Hrun.
  injection Hrun as <-.
  cbn [RCF.imWFS0 RCF.imWFS1 RCF.WFStotalflux RCF.normfloorcoeff].
  pose proof (tabulate_length _ _ _ Him0) as Hlen0.
  pose proof (tabulate_length _ _ _ Him1) as Hlen1.
  split; [done|]. split; [done|]. split; [done|].
  apply (list_eq_upto _ _ (RCF.sizeWFS e));
    [done | by rewrite length_fmap |].
  intros ii Hii.
  destruct (tabulate_lookup _ _ _ ii Him1 Hii) as (y & Hy & ->).
  rewrite list_lookup_fmap.
  destruct (im0 !! ii) as [x|]; [|discriminate Hy].
  cbn [mbind option_bind] in Hy. injection Hy as <-. done.
Qed.

(** X11. The normalised image [imWFS1] sums to
    [normfloorcoeff = total / (total + WFSnormfloor * sizeWFS)], the
    coefficient that [AOcompute] applies to the reference; with a floor
    of zero and a total that is a number other than zero it sums to
    1. *)
Theorem normalized_image_total e RM s s' :
  RCF.Read_cam_frame e RM 1 s = Some s' →
  (RCF.AOLCOMPUTE_TOTAL_ASYNC e = 0
   ∨ RCF.AOLCOMPUTE_TOTAL_INIT s = 0 ∨ RM = 1)%Z →
  ((RCF.COMPUTE_GPU_SCALING e = 0 ∧ RM = 0) ∨ RM = 1)%Z →
  RCF.wfsmask e = None →
  0 < RCF.sizeWFS e →
  foldl F.add F.zero (RCF.imWFS1 s') = RCF.normfloorcoeff s' ∧
  RCF.normfloorcoeff s'
  = (RCF.WFStotalflux s'
     / (RCF.WFStotalflux s'
        + RCF.WFSnormfloor e * F.of_Z (Z.of_nat (RCF.sizeWFS e))))%F ∧
  (RCF.WFSnormfloor e = F.zero →
   ∀ q, RCF.WFStotalflux s' = Fin q → q ≠ 0%Qc →
     foldl F.add F.zero (RCF.imWFS1 s') = F.one).
Proof.
  intros Hrun Hsync Hcpu Hmask Hn.
  destruct (Read_cam_frame_normalized _ _ _ _ Hrun Hsync Hcpu Hmask)
    as (Hlen & Hflux & Hnfc & Him1).
  assert (foldl F.add F.zero (RCF.imWFS1 s') = RCF.normfloorcoeff s') as Hsum.
  { rewrite Him1, Hnfc. rewrite F_sum_scaled.
    - apply F_mul_inv_div.
    - intros Hnil. rewrite Hnil in Hlen. simpl in Hlen. lia. }
  split; [done|]. split; [by rewrite Hnfc, Hflux|].
  intros Hfloor q Hq Hq0. rewrite Hsum, Hnfc, <- Hflux, Hq, Hfloor.
  by apply F_div_self_floor0.
Qed.

Lemma normalized_image_total_witness :
  ∃ s',
    RCF.Read_cam_frame
      (Ex.cam [100; 200; 300; 400]%Z [10; 10; 10; 10]%Z F.zero) 0 1
      (RCF.start 4)
    = Some s' ∧
    foldl F.add F.zero (RCF.imWFS1 s') = F.one.
Proof.
  destruct (RCF.Read_cam_frame
    (Ex.cam [100; 200; 300; 400]%Z [10; 10; 10; 10]%Z F.zero) 0 1
    (RCF.start 4)) as [s'|] eqn:E;
    [|exfalso; vm_compute in E; discriminate E].
  destruct (normalized_image_total _ _ _ _ E) as (_ & _ & Hone);
    [by left | by left | done | simpl; lia |].
  exists s'. split; [done|].
  assert (RCF.WFStotalflux s' = F.of_Z 960) as Hflux.
  { pose proof E as V. vm_compute in V. injection V as <-.
    by_float_compute. }
  apply (Hone eq_refl _ Hflux). vm_compute. discriminate.
Defined.

(** ** More on [AOloopControl_AutoTuneGains] *)

Section more_gains.
Import ATG.

(** After two samples nothing is left of the initial content of
    [array_mvalOL3] and [array_mvalOL4]. *)
Lemma measure_two_samples x0 x1 xs g3 g4 g3' g4' :
  measure 0 (x0 :: x1 :: xs) (mstat0 g3 g4)
  = measure 0 (x0 :: x1 :: xs) (mstat0 g3' g4').
Proof. reflexivity. Qed.

Lemma measure_garbage xs g3 g4 g3' g4' :
  2 ≤ length xs →
  measure 0 xs (mstat0 g3 g4) = measure 0 xs (mstat0 g3' g4').
Proof.
  destruct xs as [|x0 [|x1 xs]]; simpl; [lia | lia |]. intros _.
  apply measure_two_samples.
Qed.

Lemma tabulate_fun_ext {A} n (f g : nat → option A) :
  (∀ m, f m = g m) → tabulate n f = tabulate n g.
Proof. intros H. unfold tabulate. by apply mapM_ext. Qed.

End more_gains.

(** X12. [array_mvalOL3] and [array_mvalOL4] come from [malloc]
    and are read before they are written.  What they hold reaches only
    the differences of the first two passes, which are before
    [cntstart]: the output image does not depend on it. *)
Theorem autotune_ignores_uninitialised (c : ATG.AOconf_t) (NBmodes : nat)
    (frames : list (list float)) (garbage garbage' : list (float * float)) :
  length garbage = length garbage' →
  ATG.AOloopControl_AutoTuneGains c NBmodes frames garbage
  = ATG.AOloopControl_AutoTuneGains c NBmodes frames garbage'.
Proof.
  intros Hlen. unfold ATG.AOloopControl_AutoTuneGains.
  destruct (ATG.count_gains 1000 ATG.mingain 0) as [NBgain|]; [|done].
  cbn [mbind option_bind]. case_decide as Hfr; [|done].
  destruct (mapM (ATG.test_trace NBmodes) frames); [|done].
  cbn [mbind option_bind].
  apply tabulate_fun_ext. intros m.
  destruct (mapM (λ fr : list float, fr !! m) frames) as [xs|] eqn:Hxs;
    [|done].
  cbn [mbind option_bind].
  assert (2 ≤ length xs) as Hx.
  { apply length_mapM in Hxs. lia. }
  destruct (garbage !! m) as [g|] eqn:Hg.
  - destruct (lookup_lt_is_Some_2 garbage' m) as [g' Hg'].
    { apply lookup_lt_Some in Hg. lia. }
    rewrite Hg'. cbn [mbind option_bind].
    by rewrite (measure_garbage xs g.1 g.2 g'.1 g'.2).
  - apply lookup_ge_None in Hg.
    by rewrite (lookup_ge_None_2 garbage' m) by lia.
Qed.

Lemma autotune_ignores_uninitialised_witness :
  ATG.AOloopControl_AutoTuneGains Ex.tune_conf 31 Ex.tune_frames
    (replicate 31 (NaN, F.fl 7))
  = ATG.AOloopControl_AutoTuneGains Ex.tune_conf 31 Ex.tune_frames
      Ex.tune_garbage.
Proof. apply autotune_ignores_uninitialised. reflexivity. Defined.

Section first_minimiser.
Import ATG.

Lemma F_ltb_le_trans x y z :
  F.finite y → F.finite z →
  (x <? y)%F = true → (z <? y)%F = false → (x <? z)%F = true.
Proof.
  destruct x as [|a], y as [|b], z as [|d]; try done. intros _ _.
  rewrite !F_ltb_lt, F_ltb_ge. apply Qclt_le_trans.
Qed.

(** The search keeps the first of the smallest entries. *)
Lemma find_kkmin_first err kkmin :
  find_kkmin err = Some kkmin →
  (∀ k e, err !! k = Some e → F.finite e) →
  ∃ errmin,
    err !! kkmin = Some errmin ∧
    ∀ k e, k < kkmin → err !! k = Some e → (errmin <? e)%F = true.
Proof.
  unfold find_kkmin. intros H Hfin.
  destruct (err !! 0) as [e0|] eqn:H0; [|discriminate H].
  cbn [mbind option_bind] in H.
  destruct (for_n _ _ _) as [st|] eqn:Hloop; [|discriminate H].
  injection H as <-.
  apply (for_n_inv (λ j st,
    err !! st.2 = Some st.1 ∧
    (∀ i e, i < j → err !! i = Some e → (e <? st.1)%F = false) ∧
    (∀ i e, i < st.2 → err !! i = Some e → (st.1 <? e)%F = true)))
    in Hloop.
  - destruct Hloop as (Hmin & _ & Hfirst). by exists st.1.
  - split; [done|]. split; intros; simpl in *; lia.
  - intros m t t' _ (Hmin & Hall & Hfirst) Hstep. unfold min_step in Hstep.
    destruct (err !! m) as [e|] eqn:He; [|discriminate Hstep].
    cbn [mbind option_bind] in Hstep.
    destruct (e <? t.1)%F eqn:Hlt; injection Hstep as <-.
    + cbn [fst snd]. split; [done|]. split.
      * intros i ei Hi Hei. destruct (decide (i = m)) as [->|].
        -- replace ei with e by congruence. apply F_ltb_irrefl.
        -- destruct (ei <? e)%F eqn:Hlt'; [|done].
           rewrite <- (Hall i ei); [|lia|done].
           symmetry. by eapply F_ltb_trans.
      * intros i ei Hi Hei.
        apply (F_ltb_le_trans e t.1 ei);
          [by eapply Hfin | by eapply Hfin | done |].
        apply (Hall i); [|done].
        apply lookup_lt_Some in Hmin. simpl in Hi. lia.
    + split; [done|]. split; [|done].
      intros i ei Hi Hei. destruct (decide (i = m)) as [->|].
      * by replace ei with e by congruence.
      * apply (Hall i); [lia|done].
Qed.

(** A search that starts on NaN stays at the first entry. *)
Lemma find_kkmin_nan err :
  err !! 0 = Some NaN → find_kkmin err = Some 0.
Proof.
  intros H0. unfold find_kkmin. rewrite H0. cbn [mbind option_bind].
  destruct (for_n_total (λ _ st, st = (NaN, 0)) (min_step err)
    (length err) (NaN, 0)) as (st & -> & ->); [done| |done].
  intros m t Hm ->. unfold min_step.
  destruct (lookup_lt_is_Some_2 err m Hm) as [e ->].
  cbn [mbind option_bind]. exists (NaN, 0).
  by destruct e.
Qed.

Lemma optimal_gain_first n gain latency gain0 asq sig v :
  optimal_gain (gain_rows n gain latency gain0) asq sig = Some v →
  let g k := Nat.iter k (λ gain, (gain * gainfactstep)%F) gain in
  let J x :=
    (sig * (x / (F.one - x))
     + asq * ((latency + F.one / x) * (latency + F.one / (x + gain0))))%F in
  ∃ kkmin,
    kkmin < n ∧ v = g kkmin ∧
    ((∀ k, k < n → F.finite (J (g k))) →
     ∀ k, k < kkmin → (J (g kkmin) <? J (g k))%F = true).
Proof.
  intros H g J. unfold optimal_gain in H.
  destruct (find_kkmin _) as [kkmin|] eqn:Hmin; [|discriminate H].
  cbn [mbind option_bind] in H.
  assert (kkmin < n) as Hk.
  { apply find_kkmin_Some in Hmin as (errmin & Herrmin & _).
    apply lookup_lt_Some in Herrmin. unfold errarray in Herrmin.
    by rewrite length_map, gain_rows_length in Herrmin. }
  rewrite gain_rows_lookup in H by done.
  cbn [mbind option_bind] in H. injection H as <-.
  exists kkmin. split; [done|]. split; [done|].
  intros Hfin k Hkk.
  assert (∀ k, k < n →
    errarray asq sig (gain_rows n gain latency gain0) !! k
    = Some (J (g k))) as Herr.
  { intros j Hj.
    rewrite (errarray_lookup _ _ _ _ _ (gain_rows_lookup _ _ _ _ _ Hj)).
    cbn [fst snd]. f_equal. apply F_add_comm. }
  apply find_kkmin_first in Hmin as (errmin & Herrmin & Hfirst).
  - rewrite Herr in Herrmin by done. injection Herrmin as <-.
    apply (Hfirst k); [done|]. apply Herr. lia.
  - intros j e He.
    assert (j < n) as Hj.
    { apply lookup_lt_Some in He. unfold errarray in He.
      by rewrite length_map, gain_rows_length in He. }
    rewrite Herr in He by done. injection He as <-. by apply Hfin.
Qed.

(** What the function does for one mode. *)
Lemma AutoTuneGains_mode c NBmodes frames garbage out m :
  AOloopControl_AutoTuneGains c NBmodes frames garbage = Some out →
  m < NBmodes →
  ∃ xs g v,
    mapM (λ fr : list float, fr !! m) frames = Some xs ∧
    length xs = 5000 ∧
    garbage !! m = Some g ∧
    out !! m = Some v ∧
    let t := measure 0 xs (mstat0 g.1 g.2) in
    optimal_gain
      (gain_rows 95 mingain
         (hardwlatency_frame c + wfsmextrlatency_frame c)%F
         (F.one / (loopfrequ c * AUTOTUNEGAIN_evolTimescale))%F)
      (asq_of (5000 - cntstart) t) (sig_of (5000 - cntstart) t)
    = Some v.
Proof.
  unfold AOloopControl_AutoTuneGains. rewrite count_gains_run.
  cbn [mbind option_bind]. case_decide as Hfr; [|done].
  destruct (mapM (test_trace NBmodes) frames); [|done].
  cbn [mbind option_bind].
  intros Hout Hm.
  destruct (tabulate_lookup _ _ _ m Hout Hm) as (v & Hv & Hvm).
  destruct (mapM (λ fr : list float, fr !! m) frames) as [xs|] eqn:Hxs;
    [|discriminate Hv].
  cbn [mbind option_bind] in Hv.
  destruct (garbage !! m) as [g|] eqn:Hg; [|discriminate Hv].
  cbn [mbind option_bind] in Hv.
  exists xs, g, v. split; [done|]. split; [|done].
  apply length_mapM in Hxs. lia.
Qed.

Lemma AutoTuneGains_total c NBmodes frames garbage :
  TEST_m < NBmodes →
  length frames = 5000 →
  (∀ fr, fr ∈ frames → length fr = NBmodes) →
  length garbage = NBmodes →
  is_Some (AOloopControl_AutoTuneGains c NBmodes frames garbage).
Proof.
  intros Htest Hframes Hfr Hgarbage. unfold AOloopControl_AutoTuneGains.
  rewrite count_gains_run. cbn [mbind option_bind].
  rewrite decide_True by done.
  destruct (test_traces_total NBmodes frames Htest Hfr) as [u ->].
  cbn [mbind option_bind].
  apply tabulate_is_Some. intros m Hm.
  destruct (mapM_is_Some_2 (λ fr : list float, fr !! m) frames)
    as [xs ->].
  { apply list.Forall_forall. intros fr Hin.
    apply lookup_lt_is_Some. rewrite (Hfr fr Hin). lia. }
  destruct (lookup_lt_is_Some_2 garbage m) as [g ->]; [lia|].
  cbn [mbind option_bind]. apply optimal_gain_total. lia.
Qed.

End first_minimiser.

(** X13. The search for the smallest error compares with
    [<] from the first candidate on, so among candidates of equal error
    the smallest gain wins: when the error is a number at every
    candidate, every candidate below the recommended gain has a
    strictly larger error. *)
Theorem smallest_minimiser_chosen (c : ATG.AOconf_t) (NBmodes : nat)
    (frames : list (list float)) (garbage : list (float * float)) out :
  ATG.AOloopControl_AutoTuneGains c NBmodes frames garbage = Some out →
  let lag := (ATG.hardwlatency_frame c + ATG.wfsmextrlatency_frame c)%F in
  let gain0 :=
    (F.one / (ATG.loopfrequ c * ATG.AUTOTUNEGAIN_evolTimescale))%F in
  let J noise lagterm g :=
    (noise * (g / (F.one - g))
     + lagterm * ((lag + F.one / g) * (lag + F.one / (g + gain0))))%F in
  ∀ m, m < NBmodes →
    ∃ xs g kkmin,
      mapM (λ fr : list float, fr !! m) frames = Some xs ∧
      garbage !! m = Some g ∧
      let t := ATG.measure 0 xs (ATG.mstat0 g.1 g.2) in
      let noise := ATG.sig_of (5000 - ATG.cntstart) t in
      let lagterm := ATG.asq_of (5000 - ATG.cntstart) t in
      kkmin < 95 ∧
      out !! m = Some (ATG.sweep kkmin) ∧
      ((∀ k, k < 95 → F.finite (J noise lagterm (ATG.sweep k))) →
       ∀ k, k < kkmin →
         (J noise lagterm (ATG.sweep kkmin)
          <? J noise lagterm (ATG.sweep k))%F = true).
Proof.
  intros Hout lag gain0 J m Hm.
  destruct (AutoTuneGains_mode _ _ _ _ _ _ Hout Hm)
    as (xs & g & v & Hxs & _ & Hg & Hv & Hopt).
  apply optimal_gain_first in Hopt as (kkmin & Hk & -> & Hfirst).
  exists xs, g, kkmin. split; [done|]. split; [done|]. cbn zeta.
  split; [done|]. split; [done|]. exact Hfirst.
Qed.

Lemma smallest_minimiser_chosen_witness :
  ∃ out kkmin,
    ATG.AOloopControl_AutoTuneGains Ex.tune_conf 31 Ex.tune_frames
      Ex.tune_garbage
    = Some out ∧
    kkmin < 95 ∧ out !! 0 = Some (ATG.sweep kkmin).
Proof.
  destruct (AutoTuneGains_total Ex.tune_conf 31 Ex.tune_frames
    Ex.tune_garbage) as [out E];
    [unfold ATG.TEST_m; lia | apply tune_frames_sizes
    | apply tune_frames_sizes | reflexivity |].
  destruct (smallest_minimiser_chosen _ _ _ _ _ E 0)
    as (xs & g & kkmin & _ & _ & Hk & H0 & _); [lia|].
  exists out, kkmin. split; [exact E|]. split; [exact Hk|exact H0].
Defined.

Section nan_sample.
Import ATG.

Lemma sample_sig1_nan cnt x t : sig1 t = NaN → sig1 (sample cnt x t) = NaN.
Proof.
  intros H. unfold sample. cbn [sig1]. rewrite H.
  by destruct (bool_decide _).
Qed.

Lemma measure_sig1_nan cnt xs t : sig1 t = NaN → sig1 (measure cnt xs t) = NaN.
Proof.
  revert cnt t. induction xs as [|x xs IH]; intros cnt t H; [done|].
  cbn [measure]. apply IH. by apply sample_sig1_nan.
Qed.

Lemma measure_nan_sample cnt xs t k :
  xs !! k = Some NaN → (cnt + Z.of_nat k > cntstart)%Z →
  sig1 (measure cnt xs t) = NaN.
Proof.
  revert cnt t k. induction xs as [|x xs IH]; intros cnt t k Hk Hc;
    [done|].
  cbn [measure]. destruct k as [|k].
  - injection Hk as ->. apply measure_sig1_nan.
    unfold sample. cbn [sig1].
    rewrite bool_decide_eq_true_2 by lia.
    by destruct (sig1 t).
  - apply (IH _ _ k); [done|lia].
Qed.

Lemma asq_of_nan n t : sig1 t = NaN → asq_of n t = NaN.
Proof.
  intros H. unfold asq_of. rewrite H. cbn [F.div].
  rewrite F_sub_nan_r. done.
Qed.

Lemma sig_of_nan n t : sig1 t = NaN → sig_of n t = NaN.
Proof.
  intros H. unfold sig_of. rewrite H. cbn [F.div].
  by rewrite F_mul_nan_r.
Qed.

End nan_sample.

(** X14. A NaN in the open-loop value of a mode at any pass
    after [cntstart] makes every error of the sweep NaN; no comparison
    then holds and the recommended gain of the mode is the first
    candidate, [mingain = 0.01]. *)
Theorem nan_sample_gives_mingain (c : ATG.AOconf_t) (NBmodes : nat)
    (frames : list (list float)) (garbage : list (float * float)) out
    (m k : nat) (fr : list float) :
  ATG.AOloopControl_AutoTuneGains c NBmodes frames garbage = Some out →
  m < NBmodes →
  (Z.of_nat k > ATG.cntstart)%Z →
  frames !! k = Some fr → fr !! m = Some NaN →
  out !! m = Some ATG.mingain.
Proof.
  intros Hout Hm Hk Hfr Hnan.
  destruct (AutoTuneGains_mode _ _ _ _ _ _ Hout Hm)
    as (xs & g & v & Hxs & _ & Hg & Hv & Hopt).
  rewrite Hv. f_equal.
  assert (xs !! k = Some NaN) as Hxk.
  { apply mapM_Some_1 in Hxs.
    destruct (Forall2_lookup_l _ _ _ k fr Hxs Hfr) as (x & Hx & Hfx).
    congruence. }
  cbv zeta in Hopt.
  rewrite (asq_of_nan _ _ (measure_nan_sample 0 xs _ k Hxk ltac:(lia)))
    in Hopt.
  rewrite (sig_of_nan _ _ (measure_nan_sample 0 xs _ k Hxk ltac:(lia)))
    in Hopt.
  unfold ATG.optimal_gain in Hopt.
  rewrite find_kkmin_nan in Hopt by reflexivity.
  cbn [mbind option_bind] in Hopt. cbn [ATG.gain_rows lookup list_lookup]
    in Hopt.
  cbn [mbind option_bind fst] in Hopt. congruence.
Qed.

Lemma nan_sample_gives_mingain_witness :
  ∃ out,
    ATG.AOloopControl_AutoTuneGains Ex.tune_conf 31
      (<[20 := NaN :: replicate 30 F.zero]> Ex.tune_frames) Ex.tune_garbage
    = Some out ∧
    out !! 0 = Some ATG.mingain.
Proof.
  destruct (AutoTuneGains_total Ex.tune_conf 31
    (<[20 := NaN :: replicate 30 F.zero]> Ex.tune_frames) Ex.tune_garbage)
    as [out E].
  - unfold ATG.TEST_m. lia.
  - rewrite length_insert. apply tune_frames_sizes.
  - intros fr Hin. apply list_elem_of_lookup in Hin as [i Hi].
    destruct (decide (i = 20)) as [->|Hne].
    + rewrite list_lookup_insert_eq in Hi
        by (rewrite (proj1 tune_frames_sizes); lia).
      by injection Hi as <-.
    + rewrite list_lookup_insert_ne in Hi by done.
      apply tune_frames_sizes. by eapply list_elem_of_lookup_2.
  - reflexivity.
  - exists out. split; [exact E|].
    apply (nan_sample_gives_mingain _ _ _ _ _ 0 20
             (NaN :: replicate 30 F.zero) E);
      [lia | unfold ATG.cntstart; lia | | reflexivity].
    apply list_lookup_insert_eq. rewrite (proj1 tune_frames_sizes). lia.
Defined.

(** ** The history ring over several passes *)

Section ring.
Import OLM.

(** A pass writes the row of the cursor and no other element. *)
Lemma commit_other s filt ring j :
  commit s filt = Some ring →
  ¬ (modevalDMindex s * Z.of_nat (NBmodes s) ≤ j
     < modevalDMindex s * Z.of_nat (NBmodes s) + Z.of_nat (NBmodes s))%Z →
  rd ring j = rd (modevalDM_C s) j.
Proof.
  unfold commit. intros H Hj.
  set (base := (modevalDMindex s * Z.of_nat (NBmodes s))%Z) in *.
  eapply (for_n_inv (λ k r, rd r j = rd (modevalDM_C s) j)) in H.
  - done.
  - done.
  - intros k r r' Hk IH Hbody.
    destruct (filt !! k) as [v|]; [|discriminate Hbody].
    cbn [mbind option_bind] in Hbody.
    rewrite (rd_wr_ne _ _ _ j _ Hbody) by lia. exact IH.
Qed.

Lemma passes_index cis s s' :
  OLR.passes cis s = Some s' →
  (0 ≤ modevalDMindex s < modevalDM_bsize)%Z →
  modevalDMindex s'
  = ((modevalDMindex s + Z.of_nat (length cis)) mod modevalDM_bsize)%Z ∧
  NBmodes s' = NBmodes s.
Proof.
  revert s. induction cis as [|ci cis IH]; intros s H Hidx.
  - injection H as <-. cbn [length]. rewrite Z.add_0_r.
    by rewrite Z.mod_small.
  - cbn [OLR.passes] in H.
    destruct (iteration ci.1 ci.2 s) as [s1|] eqn:H1; [|discriminate H].
    cbn [mbind option_bind] in H.
    pose proof (iteration_Some _ _ _ _ H1)
      as (mg & mm & ml & d0 & lf & _ & _ & _ & _ & _ & _ & _ & _ & _ & _ & _
          & HNB & _ & _ & _ & _ & _ & Hix & _).
    destruct (IH s1 H) as [Hi HN].
    { rewrite Hix. by apply next_index_range. }
    split; [|congruence]. rewrite Hi, Hix.
    unfold next_index, modevalDM_bsize in *. cbn [length].
    case_decide as Hw.
    + replace (modevalDMindex s) with 19%Z by lia.
      replace (19 + Z.of_nat (S (length cis)))%Z
        with (0 + Z.of_nat (length cis) + 1 * 20)%Z by lia.
      by rewrite Z_mod_plus_full.
    + f_equal. lia.
Qed.

(** A row stays as it is while the cursor does not come to it. *)
Lemma passes_row_kept cis s s' r :
  OLR.passes cis s = Some s' →
  (0 ≤ modevalDMindex s < modevalDM_bsize)%Z →
  (0 ≤ r < modevalDM_bsize)%Z →
  (∀ k, k < length cis →
     ((modevalDMindex s + Z.of_nat k) mod modevalDM_bsize)%Z ≠ r) →
  ∀ m, m < NBmodes s →
    rd (modevalDM_C s') (r * Z.of_nat (NBmodes s) + Z.of_nat m)
    = rd (modevalDM_C s) (r * Z.of_nat (NBmodes s) + Z.of_nat m).
Proof.
  revert s. induction cis as [|ci cis IH]; intros s H Hidx Hr Hne m Hm.
  - by injection H as <-.
  - cbn [OLR.passes] in H.
    destruct (iteration ci.1 ci.2 s) as [s1|] eqn:H1; [|discriminate H].
    cbn [mbind option_bind] in H.
    pose proof (iteration_Some _ _ _ _ H1)
      as (mg & mm & ml & d0 & lf & _ & _ & _ & _ & _ & _ & _ & Hc & _ & _ & _
          & HNB & _ & _ & _ & _ & _ & Hix & _).
    assert (modevalDMindex s ≠ r) as Hnow.
    { specialize (Hne 0 ltac:(cbn [length]; lia)).
      rewrite Z.add_0_r, Z.mod_small in Hne by done. done. }
    rewrite <- HNB. rewrite (IH s1 H); [| | done | | lia].
    + rewrite HNB. apply (commit_other _ _ _ _ Hc). nia.
    + rewrite Hix. by apply next_index_range.
    + intros k Hk. specialize (Hne (S k) ltac:(cbn [length]; lia)).
      rewrite Hix. unfold next_index, modevalDM_bsize in *.
      case_decide as Hw.
      * intros Heq. apply Hne. rewrite <- Heq.
        replace (modevalDMindex s + Z.of_nat (S k))%Z
          with (0 + Z.of_nat k + 1 * 20)%Z by lia.
        by rewrite Z_mod_plus_full.
      * intros Heq. apply Hne. rewrite <- Heq. f_equal. lia.
Qed.

End ring.

(** X15. The history ring keeps a committed vector for the next
    19 passes: what a pass writes at the cursor is read back unchanged
    from the same row after up to 19 further passes, and the cursor has
    then advanced by the number of passes modulo 20.  The twentieth
    pass writes the same row again. *)
Theorem history_kept_for_19_passes c i s s1 cis s2 :
  (0 ≤ OLM.modevalDMindex s < OLM.modevalDM_bsize)%Z →
  OLM.iteration c i s = Some s1 →
  OLR.passes cis s1 = Some s2 →
  OLM.modevalDMindex s2
  = ((OLM.modevalDMindex s + 1 + Z.of_nat (length cis)) mod 20)%Z ∧
  (length cis ≤ 19 →
   ∀ m, m < OLM.NBmodes s →
     rd (OLM.modevalDM_C s2)
        (OLM.modevalDMindex s * Z.of_nat (OLM.NBmodes s) + Z.of_nat m)
     = OLM.modevalDMnowfilt s1 !! m) ∧
  (length cis = 19 →
   ∀ c' i' s3, OLM.iteration c' i' s2 = Some s3 →
     ∀ m, m < OLM.NBmodes s →
       rd (OLM.modevalDM_C s3)
          (OLM.modevalDMindex s * Z.of_nat (OLM.NBmodes s) + Z.of_nat m)
       = OLM.modevalDMnowfilt s3 !! m).
Proof.
  intros Hidx H1 H2.
  pose proof (iteration_Some _ _ _ _ H1)
    as (mg & mm & ml & d0 & lf & _ & _ & _ & _ & _ & _ & _ & Hc & _ & _ & _
        & HNB & _ & _ & _ & _ & _ & Hix & _).
  assert (0 ≤ OLM.modevalDMindex s1 < OLM.modevalDM_bsize)%Z as Hidx1.
  { rewrite Hix. by apply next_index_range. }
  assert (OLM.modevalDMindex s1
          = ((OLM.modevalDMindex s + 1) mod 20)%Z) as Hix1.
  { rewrite Hix. unfold OLM.next_index, OLM.modevalDM_bsize in *.
    case_decide as Hw.
    - replace (OLM.modevalDMindex s + 1)%Z with (0 + 1 * 20)%Z by lia.
      by rewrite Z_mod_plus_full.
    - rewrite Z.mod_small; lia. }
  destruct (passes_index _ _ _ H2 Hidx1) as [Hi2 HNB2].
  assert (OLM.modevalDMindex s2
          = ((OLM.modevalDMindex s + 1 + Z.of_nat (length cis)) mod 20)%Z)
    as Hcur.
  { rewrite Hi2, Hix1. unfold OLM.modevalDM_bsize.
    by rewrite Zplus_mod_idemp_l. }
  split; [done|]. split.
  - intros Hlen m Hm.
    destruct (commit_Some _ _ _ Hc) as [_ Hrow].
    destruct (Hrow m Hm) as [_ <-].
    rewrite <- HNB.
    apply (passes_row_kept _ _ _ _ H2); [done | done | | lia].
    intros k Hk. rewrite Hix1. unfold OLM.modevalDM_bsize in *.
    rewrite Zplus_mod_idemp_l. intros Heq.
    assert ((OLM.modevalDMindex s + 1 + Z.of_nat k
             - OLM.modevalDMindex s) mod 20 = 0)%Z as Hz.
    { rewrite Zminus_mod, Heq, (Z.mod_small (OLM.modevalDMindex s)) by lia.
      by rewrite Z.sub_diag. }
    replace (OLM.modevalDMindex s + 1 + Z.of_nat k - OLM.modevalDMindex s)%Z
      with (1 + Z.of_nat k)%Z in Hz by lia.
    rewrite Z.mod_small in Hz by lia. lia.
  - intros Hlen c' i' s3 H3 m Hm.
    pose proof (iteration_Some _ _ _ _ H3)
      as (mg3 & mm3 & ml3 & d3 & lf3 & _ & _ & _ & _ & _ & _ & _ & Hc3 & _).
    destruct (commit_Some _ _ _ Hc3) as [_ Hrow].
    assert (OLM.modevalDMindex s2 = OLM.modevalDMindex s) as Hback.
    { rewrite Hcur, Hlen.
      replace (OLM.modevalDMindex s + 1 + Z.of_nat 19)%Z
        with (OLM.modevalDMindex s + 1 * 20)%Z by lia.
      rewrite Z_mod_plus_full. unfold OLM.modevalDM_bsize in Hidx.
      by rewrite Z.mod_small. }
    destruct (Hrow m) as [_ Hr]; [congruence|].
    rewrite <- Hr. by rewrite Hback, HNB2, HNB.
Qed.

Lemma history_kept_for_19_passes_witness :
  ∃ s0 s1 s2,
    Ex.start Ex.conf F.one F.one = Some s0 ∧
    OLM.iteration Ex.conf (Ex.inputs (F.fl 1) (F.fl 2) (F.fl 3)) s0
    = Some s1 ∧
    OLR.passes
      [(Ex.conf, Ex.inputs (F.fl 2) (F.fl 0) (F.fl 1));
       (Ex.conf, Ex.inputs (F.fl 0) (F.fl 1) (F.fl 1))] s1
    = Some s2 ∧
    OLM.modevalDMindex s2 = 3%Z ∧
    rd (OLM.modevalDM_C s2) 1 = OLM.modevalDMnowfilt s1 !! 1.
Proof.
  run (Ex.start Ex.conf F.one F.one) as s0 E0 V0 using idtac.
  run (OLM.iteration Ex.conf (Ex.inputs (F.fl 1) (F.fl 2) (F.fl 3)) s0)
    as s1 E1 V1 using (rewrite <- V0 in V1).
  run (OLR.passes
      [(Ex.conf, Ex.inputs (F.fl 2) (F.fl 0) (F.fl 1));
       (Ex.conf, Ex.inputs (F.fl 0) (F.fl 1) (F.fl 1))] s1)
    as s2 E2 V2 using (rewrite <- V1 in V2).
  assert (0 ≤ OLM.modevalDMindex s0 < OLM.modevalDM_bsize)%Z as Hidx.
  { rewrite <- V0. simpl. unfold OLM.modevalDM_bsize. lia. }
  destruct (history_kept_for_19_passes _ _ _ _ _ _ Hidx E1 E2)
    as (Hcur & Hkeep & _).
  exists s0, s1, s2. split; [done|]. split; [done|]. split; [done|].
  split.
  - rewrite Hcur. by rewrite <- V0.
  - specialize (Hkeep ltac:(simpl; lia) 1).
    rewrite <- V0 in Hkeep at 1 2 3. simpl in Hkeep. apply Hkeep. lia.
Defined.

(** ** The limits under auto-tuning *)

Section positive.
Import OLM.

Lemma F_pos_lt (a : Qc) : (F.zero <? Fin a)%F = true ↔ (0 < a)%Qc.
Proof.
  unfold F.zero, F.of_Z. rewrite F_ltb_lt.
  by change (Q2Qc (inject_Z 0)) with 0%Qc.
Qed.

Lemma F_pos_finite x : (F.zero <? x)%F = true → F.finite x.
Proof. by destruct x. Qed.

Lemma F_pos_mul x y :
  (F.zero <? x)%F = true → (F.zero <? y)%F = true →
  (F.zero <? x * y)%F = true.
Proof.
  destruct x as [|a], y as [|b]; try done.
  cbn [F.mul F.lift2]. rewrite !F_pos_lt. intros Ha Hb.
  rewrite <- (Qcmult_0_l b). by apply Qcmult_lt_compat_r.
Qed.

Lemma F_pos_le lo x :
  (F.zero <? lo)%F = true → F.le lo x → (F.zero <? x)%F = true.
Proof.
  destruct lo as [|a], x as [|b]; try done.
  rewrite !F_pos_lt. cbn [F.le]. apply Qclt_le_trans.
Qed.

Lemma F_one_plus_pos d : F.le F.zero d → (F.zero <? F.one + d)%F = true.
Proof.
  destruct d as [|d]; [done|]. cbn [F.le F.zero F.one F.of_Z F.add F.lift2].
  intros Hd. apply F_pos_lt.
  change (0 < Q2Qc (inject_Z 1) + d)%Qc. qc_lra.
Qed.

Lemma F_one_minus_pos d :
  (d <? F.one)%F = true → (F.zero <? F.one - d)%F = true.
Proof.
  destruct d as [|d]; [done|]. unfold F.one, F.of_Z. rewrite F_ltb_lt.
  intros Hd. cbn [F.sub F.lift2]. apply F_pos_lt. qc_lra.
Qed.

Lemma F_tuned_limit_pos c l v lim :
  F.le F.zero (AUTOTUNE_LIMITS_delta c) →
  (F.zero <? F.one - AUTOTUNE_LIMITS_delta c * F.fl 0.01
                     * AUTOTUNE_LIMITS_perc c)%F = true →
  (F.zero <? l)%F = true →
  (F.zero <? tuned_limit c l v lim)%F = true.
Proof.
  intros Hd Hdec Hl. unfold tuned_limit.
  destruct (_ >? _)%F; apply F_pos_mul; try done.
  by apply F_one_plus_pos.
Qed.

Lemma F_add_finite x y : F.finite x → F.finite y → F.finite (x + y)%F.
Proof. by destruct x, y. Qed.

Lemma F_div_nat_finite x n : F.finite x → 0 < n → F.finite (x / F.of_Z (Z.of_nat n))%F.
Proof.
  destruct x as [|a]; [done|]. intros _ Hn. cbn [F.div F.of_Z].
  rewrite decide_False; [done|].
  intros H. change 0%Qc with (Q2Qc 0) in H. apply Q2Qc_eq_iff in H.
  unfold Qeq in H. simpl in H. lia.
Qed.

Lemma block_sum_finite s L b k :
  (∀ m l, m < k → L !! m = Some l → F.finite l) →
  F.finite (block_sum s L b k).
Proof.
  induction k as [|k IH]; intros HL; [done|].
  rewrite block_sum_S.
  destruct (modeblock s !! k) as [b'|]; [|apply IH; intros; eapply HL; [|done]; lia].
  destruct (L !! k) as [l|] eqn:Hl; [|apply IH; intros; eapply HL; [|done]; lia].
  case_decide; [|apply IH; intros; eapply HL; [|done]; lia].
  apply F_add_finite.
  - apply IH. intros; eapply HL; [|done]; lia.
  - eapply (HL k); [lia|done].
Qed.

End positive.

(** X16. In exact arithmetic the limit auto-tuner
    keeps the limits positive.  With [0 <= delta < 1], a positive
    decrease factor [1 - delta * 0.01 * perc] and no empty block, a pass
    that starts with positive modal and block limits ends with positive
    modal and block limits; with auto-tuning off a pass does not touch
    the limits.  Rounding is not covered: on values of the C type
    [float] the product of a positive limit and a positive factor can
    round to zero. *)
Theorem limits_stay_positive c i s s' :
  OLM.iteration c i s = Some s' →
  (OLM.AUTOTUNE_LIMITS_ON c ≠ 1%Z →
   OLM.LIMIT_modes s' = OLM.LIMIT_modes s ∧
   OLM.limitb s' = OLM.limitb s) ∧
  (OLM.AUTOTUNE_LIMITS_ON c = 1%Z →
   F.le F.zero (OLM.AUTOTUNE_LIMITS_delta c) →
   (OLM.AUTOTUNE_LIMITS_delta c <? F.one)%F = true →
   (F.zero <? F.one - OLM.AUTOTUNE_LIMITS_delta c * F.fl 0.01
                      * OLM.AUTOTUNE_LIMITS_perc c)%F = true →
   (∀ b n, b < OLM.DMmodesNBblock c →
      OLM.blockNBmodes s !! b = Some n → 0 < n) →
   ∀ L, OLM.LIMIT_modes s = Some L →
     (∀ m l, m < OLM.NBmodes s → L !! m = Some l →
        (F.zero <? l)%F = true) →
     (∀ b lb, b < OLM.DMmodesNBblock c → OLM.limitb s !! b = Some lb →
        (F.zero <? lb)%F = true) →
     ∃ L',
       OLM.LIMIT_modes s' = Some L' ∧
       (∀ m l, m < OLM.NBmodes s → L' !! m = Some l →
          (F.zero <? l)%F = true) ∧
       (∀ b lb, b < OLM.DMmodesNBblock c → OLM.limitb s' !! b = Some lb →
          (F.zero <? lb)%F = true)).
Proof.
  intros Hit.
  apply iteration_Some in Hit as (mg & mm & ml & d0 & lf & _ & _ & Hml & _
    & _ & Hat & _).
  unfold OLM.autotune_limits in Hat. split.
  - intros Hoff. rewrite decide_False in Hat by done.
    by injection Hat as <- <- _.
  - intros Hon Hd Hd1 Hdec Hbn L HL HLpos Hbpos.
    rewrite decide_True in Hat by done. rewrite HL in Hat.
    cbn [mbind option_bind] in Hat.
    destruct (for_n (OLM.NBmodes s) _ _) as [[L' lba]|] eqn:Hmodes;
      cbn [mbind option_bind] in Hat; [|discriminate Hat].
    destruct (for_n (OLM.DMmodesNBblock c) _ _) as [[atl limb]|] eqn:Hblocks;
      cbn [mbind option_bind] in Hat; [|discriminate Hat].
    injection Hat as <- <- _.
    destruct (autotune_modes_Some _ _ _ _ _ _ _ _ Hmodes)
      as (HlenL & Hlenlba & HL' & Hsum).
    destruct (autotune_blocks_Some _ _ _ _ _ _ _ _ Hblocks)
      as (_ & _ & Hb').
    assert (∀ m l, m < OLM.NBmodes s → L' !! m = Some l →
      (F.zero <? l)%F = true) as HL'pos.
    { intros m l Hm Hl.
      destruct (HL' m Hm) as (l0 & v & lim & Hl0 & _ & _ & Hl').
      rewrite Hl' in Hl. injection Hl as <-.
      apply F_tuned_limit_pos; [done | done |]. by eapply HLpos. }
    exists L'. split; [done|]. split; [done|].
    intros b lb Hb Hlb.
    destruct (Hb' b Hb) as (acc & n & lb0 & Hacc & Hn & Hlb0 & _ & Hlb').
    rewrite Hlb' in Hlb. injection Hlb as <-.
    apply F_pos_mul; [by eapply Hbpos|].
    apply (F_pos_le (F.one - OLM.AUTOTUNE_LIMITS_delta c)%F);
      [by apply F_one_minus_pos|].
    apply F_block_coeff_bounds; [done|].
    apply F_div_nat_finite; [|by eapply Hbn].
    rewrite Hsum in Hacc by done. injection Hacc as <-.
    apply block_sum_finite. intros m l Hm Hl.
    eapply F_pos_finite, HL'pos; done.
Qed.

Lemma limits_stay_positive_witness :
  ∃ s0 s1 L',
    Ex.start Ex.conf F.one F.one = Some s0 ∧
    OLM.iteration Ex.conf (Ex.inputs (F.fl 1) (F.fl 2) (F.fl (-30))) s0
    = Some s1 ∧
    OLM.LIMIT_modes s1 = Some L' ∧
    ∀ m l, m < 3 → L' !! m = Some l → (F.zero <? l)%F = true.
Proof.
  run (Ex.start Ex.conf F.one F.one) as s0 E0 V0 using idtac.
  run (OLM.iteration Ex.conf (Ex.inputs (F.fl 1) (F.fl 2) (F.fl (-30))) s0)
    as s1 E1 V1 using (rewrite <- V0 in V1).
  destruct (limits_stay_positive _ _ _ _ E1) as [_ Hon].
  destruct (Hon eq_refl) with (L := Ex.ones 3) as (L' & HL' & Hpos & _).
  - vm_compute. discriminate.
  - reflexivity.
  - reflexivity.
  - rewrite <- V0. cbn [OLM.blockNBmodes]. intros b n Hb Hn.
    destruct b as [|[|b]]; simpl in Hn; [by injection Hn as <-; lia..|].
    discriminate Hn.
  - by rewrite <- V0.
  - intros m l Hm Hl. apply lookup_replicate in Hl as [-> _]. reflexivity.
  - rewrite <- V0. cbn [OLM.limitb]. intros b lb Hb Hlb.
    destruct b as [|[|b]]; simpl in Hlb; [by injection Hlb as <-..|].
    discriminate Hlb.
  - exists s0, s1, L'. split; [done|]. split; [done|]. split; [done|].
    intros m l Hm. apply Hpos. rewrite <- V0. simpl. lia.
Defined.

(** ** Hadamard modes *)

Section hadamard.
Import HAD.

Lemma cell_index_ne (Hsize j i j' i' : Z) :
  (0 ≤ i < Hsize)%Z → (0 ≤ i' < Hsize)%Z →
  (j, i) ≠ (j', i') → (j * Hsize + i ≠ j' * Hsize + i')%Z.
Proof.
  intros Hi Hi' Hne Heq. apply Hne.
  assert (j = j') as -> by nia. f_equal. lia.
Qed.

Lemma entry_quadrants p j i :
  let n2 := (2 ^ Z.of_nat p)%Z in
  (0 ≤ i < n2)%Z → (0 ≤ j < n2)%Z →
  entry (S p) j i = entry p j i ∧
  entry (S p) j (i + n2) = entry p j i ∧
  entry (S p) (j + n2) i = entry p j i ∧
  entry (S p) (j + n2) (i + n2) = (- entry p j i)%Z.
Proof.
  intros n2 Hi Hj. cbn [entry]. fold n2.
  assert ((i + n2) mod n2 = i)%Z as Hi'.
  { rewrite <- (Z.mul_1_l n2) at 1. rewrite Z_mod_plus_full.
    by apply Z.mod_small. }
  assert ((j + n2) mod n2 = j)%Z as Hj'.
  { rewrite <- (Z.mul_1_l n2) at 1. rewrite Z_mod_plus_full.
    by apply Z.mod_small. }
  rewrite Hi', Hj', !(Z.mod_small i), !(Z.mod_small j) by done.
  repeat split.
  - rewrite decide_False by lia. lia.
  - rewrite decide_False by lia. lia.
  - rewrite decide_False by lia. lia.
  - rewrite decide_True by lia. lia.
Qed.

Lemma sylvester_cell_inv Hsize p a b H :
  let n2 := (2 ^ Z.of_nat p)%Z in
  (2 * n2 ≤ Hsize)%Z → (0 ≤ a < n2)%Z → (0 ≤ b < n2)%Z →
  step_inv Hsize p a b H →
  ∃ H', sylvester_cell Hsize n2 a b H = Some H' ∧
        step_inv Hsize p a (b + 1) H'.
Proof.
  intros n2 Hsz Ha Hb [Hlen Hinv].
  assert (0 < n2)%Z as Hn2 by (subst n2; lia).
  destruct (entry_quadrants p b a Ha Hb) as (E00 & E01 & E10 & E11).
  fold n2 in E00, E01, E10, E11.
  assert (∀ j i, (0 ≤ i < 2 * n2)%Z → (0 ≤ j < 2 * n2)%Z →
    (0 ≤ j * Hsize + i < Z.of_nat (Z.to_nat (Hsize * Hsize)))%Z) as Hrange.
  { intros j i Hi Hj. nia. }
  unfold sylvester_cell.
  assert (rd H (b * Hsize + a) = Some (entry (S p) b a)) as Hv.
  { apply Hinv; [lia | lia |]. left. lia. }
  rewrite Hv. cbn [mbind option_bind].
  destruct (wr_is_Some H (b * Hsize + (a + n2)) (entry (S p) b a))
    as [H1 HH1]; [rewrite Hlen; apply Hrange; lia|].
  rewrite HH1. cbn [mbind option_bind].
  assert (rd H1 (b * Hsize + a) = Some (entry (S p) b a)) as Hv1.
  { rewrite (rd_wr_ne _ _ _ _ _ HH1); [done|]. lia. }
  rewrite Hv1. cbn [mbind option_bind].
  destruct (wr_is_Some H1 ((b + n2) * Hsize + (a + n2))
    (- entry (S p) b a)%Z) as [H2 HH2].
  { rewrite (wr_length _ _ _ _ HH1), Hlen. apply Hrange; lia. }
  rewrite HH2. cbn [mbind option_bind].
  assert (rd H2 (b * Hsize + a) = Some (entry (S p) b a)) as Hv2.
  { rewrite (rd_wr_ne _ _ _ _ _ HH2); [done|].
    apply cell_index_ne; [lia | lia |]. intros [= ? ?]. lia. }
  rewrite Hv2. cbn [mbind option_bind].
  destruct (wr_is_Some H2 ((b + n2) * Hsize + a) (entry (S p) b a))
    as [H3 HH3].
  { rewrite (wr_length _ _ _ _ HH2), (wr_length _ _ _ _ HH1), Hlen.
    apply Hrange; lia. }
  exists H3. split; [done|]. split.
  { by rewrite (wr_length _ _ _ _ HH3), (wr_length _ _ _ _ HH2),
      (wr_length _ _ _ _ HH1). }
  intros j i Hi Hj Hset. fold n2 in Hi, Hj, Hset.
  destruct (decide ((j, i) = ((b + n2)%Z, a))) as [[= -> ->]|N3].
  { rewrite (rd_wr_eq _ _ _ _ HH3). f_equal. lia. }
  rewrite (rd_wr_ne _ _ _ _ _ HH3)
    by (apply cell_index_ne; [lia | lia | done]).
  destruct (decide ((j, i) = ((b + n2)%Z, (a + n2)%Z))) as [[= -> ->]|N2].
  { rewrite (rd_wr_eq _ _ _ _ HH2). f_equal. lia. }
  rewrite (rd_wr_ne _ _ _ _ _ HH2)
    by (apply cell_index_ne; [lia | lia | done]).
  destruct (decide ((j, i) = (b, (a + n2)%Z))) as [[= -> ->]|N1].
  { rewrite (rd_wr_eq _ _ _ _ HH1). f_equal. lia. }
  rewrite (rd_wr_ne _ _ _ _ _ HH1)
    by (apply cell_index_ne; [lia | lia | done]).
  apply Hinv; [done | done |]. fold n2.
  unfold settled in *.
  destruct (decide (i < n2)%Z), (decide (j < n2)%Z);
    try (left; lia);
    (destruct Hset as [?|[?|[? ?]]]; [lia | right; left; lia |]);
    right; right; (split; [lia|]);
    (assert (¬ (if decide (j < n2)%Z then j else j - n2)%Z = b);
     [|repeat case_decide; lia]).
  - rewrite decide_False by lia. intros Hjb. apply N3. f_equal; lia.
  - rewrite decide_True by lia. intros Hjb. apply N1. f_equal; lia.
  - rewrite decide_False by lia. intros Hjb. apply N2. f_equal; lia.
Qed.

Lemma settled_next_column n2 a j i :
  (0 ≤ i < 2 * n2)%Z → (0 ≤ j < 2 * n2)%Z →
  settled n2 (a + 1) 0 j i → settled n2 a n2 j i.
Proof.
  unfold settled. intros Hi Hj Hs. repeat case_decide; lia.
Qed.

Lemma sylvester_step_inv Hsize p H :
  let n2 := (2 ^ Z.of_nat p)%Z in
  (2 * n2 ≤ Hsize)%Z →
  length H = Z.to_nat (Hsize * Hsize) →
  (∀ j i, (0 ≤ i < n2)%Z → (0 ≤ j < n2)%Z →
     rd H (j * Hsize + i) = Some (entry p j i)) →
  ∃ H', sylvester_step Hsize n2 H = Some H' ∧
        length H' = Z.to_nat (Hsize * Hsize) ∧
        ∀ j i, (0 ≤ i < 2 * n2)%Z → (0 ≤ j < 2 * n2)%Z →
          rd H' (j * Hsize + i) = Some (entry (S p) j i).
Proof.
  intros n2 Hsz Hlen Hin.
  assert (0 < n2)%Z as Hn2 by (subst n2; lia).
  destruct (for_range_total (λ a H, step_inv Hsize p a 0 H) 0 n2
    (λ ii Hmat,
       for_range 0 n2 (λ jj Hmat, sylvester_cell Hsize n2 ii jj Hmat) Hmat)
    H) as (H' & HH' & Hlen' & Hall); [lia | | |].
  - split; [done|]. intros j i Hi Hj Hset. fold n2 in Hi, Hj, Hset.
    assert (i < n2 ∧ j < n2)%Z as [? ?].
    { unfold settled in Hset. repeat case_decide; lia. }
    rewrite Hin by lia.
    by destruct (entry_quadrants p j i) as [-> _]; [fold n2; lia..|].
  - intros a t Ha Hinv.
    destruct (for_range_total (λ b H, step_inv Hsize p a b H) 0 n2
      (λ jj Hmat, sylvester_cell Hsize n2 a jj Hmat) t)
      as (t' & Ht' & Hlen' & Hall); [lia | done | |].
    + intros b u Hb Hu. apply sylvester_cell_inv; done.
    + exists t'. split; [done|]. split; [done|].
      intros j i Hi Hj Hset. apply Hall; [done | done |].
      fold n2. apply settled_next_column; done.
  - exists H'. split; [done|]. split; [done|].
    intros j i Hi Hj. apply Hall; [done | done |]. fold n2.
    unfold settled. right; left. case_decide; lia.
Qed.

(** The matrix that the loops leave in [Hmat], whatever [malloc]
    returned. *)
Lemma sylvester_matrix (P : nat) garbage :
  let Hsize := (2 ^ Z.of_nat P)%Z in
  length garbage = Z.to_nat (Hsize * Hsize) →
  ∃ Hmat,
    sylvester Hsize (Z.of_nat P + 1) garbage = Some (Hsize, Hmat) ∧
    length Hmat = Z.to_nat (Hsize * Hsize) ∧
    ∀ j i, (0 ≤ i < Hsize)%Z → (0 ≤ j < Hsize)%Z →
      rd Hmat (j * Hsize + i) = Some (entry P j i).
Proof.
  intros Hsize Hlen. unfold sylvester.
  assert (0 < Hsize)%Z as Hpos by (subst Hsize; lia).
  destruct (wr_is_Some garbage 0 1%Z) as [H0 HH0]; [nia|].
  rewrite HH0. cbn [mbind option_bind].
  destruct (for_range_total (λ n st,
    st.1 = (2 ^ (n - 1))%Z ∧
    length st.2 = Z.to_nat (Hsize * Hsize) ∧
    ∀ j i, (0 ≤ i < st.1)%Z → (0 ≤ j < st.1)%Z →
      rd st.2 (j * Hsize + i) = Some (entry (Z.to_nat (n - 1)) j i))
    1 (Z.of_nat P + 1)
    (λ n st,
       Hmat' ← sylvester_step Hsize st.1 st.2;
       Some ((st.1 * 2)%Z, Hmat')) (1%Z, H0))
    as ([n2 Hmat] & Hrun & Hn2 & HlenH & Hall); [lia | | |].
  - cbn [fst snd]. split; [done|]. split.
    { by rewrite (wr_length _ _ _ _ HH0). }
    intros j i Hi Hj. replace i with 0%Z by lia.
    replace j with 0%Z by lia. cbn [Z.mul Z.add Z.sub Z.to_nat entry].
    by eapply rd_wr_eq.
  - intros n [n2 H] Hn (Hn2 & HlenH & Hall). cbn [fst snd] in *.
    destruct (sylvester_step_inv Hsize (Z.to_nat (n - 1)) H)
      as (H' & HH' & HlenH' & Hall').
    + rewrite Z2Nat.id by lia. subst Hsize.
      replace (Z.of_nat P) with ((n - 1) + 1 + (Z.of_nat P - n))%Z by lia.
      rewrite !Z.pow_add_r by lia.
      assert (0 < 2 ^ (n - 1))%Z by lia.
      assert (1 ≤ 2 ^ (Z.of_nat P - n))%Z by lia.
      change (2 ^ 1)%Z with 2%Z. nia.
    + done.
    + rewrite Z2Nat.id by lia. rewrite <- Hn2. exact Hall.
    + rewrite Z2Nat.id in HH' by lia. rewrite <- Hn2 in HH'.
      rewrite HH'. cbn [mbind option_bind]. eexists. split; [done|].
      cbn [fst snd].
      replace (n + 1 - 1)%Z with ((n - 1) + 1)%Z by lia.
      split; [|split; [done|]].
      * rewrite Z.pow_add_r by lia. rewrite Hn2. done.
      * intros j i Hi Hj.
        replace (Z.to_nat (n - 1 + 1)) with (S (Z.to_nat (n - 1))) by lia.
        apply Hall'; rewrite Z2Nat.id by lia; lia.
  - cbn [fst snd] in *.
    replace (Z.of_nat P + 1 - 1)%Z with (Z.of_nat P) in * by lia.
    rewrite Nat2Z.id in Hall. fold Hsize in Hn2. subst n2.
    exists Hmat. split; [done|]. split; [done|]. exact Hall.
Qed.

(** *** Orthogonality *)

Lemma zsum_app a b f :
  zsum (a + b) f = (zsum a f + zsum b (λ i, f (a + i)%nat))%Z.
Proof.
  induction b as [|b IH]; [rewrite Nat.add_0_r; simpl; lia|].
  rewrite Nat.add_succ_r. cbn [zsum]. rewrite IH. lia.
Qed.

Lemma zsum_ext n f g :
  (∀ i, i < n → f i = g i) → zsum n f = zsum n g.
Proof.
  induction n as [|n IH]; intros H; [done|]. cbn [zsum].
  rewrite IH by (intros; apply H; lia). rewrite (H n) by lia. done.
Qed.

Lemma zsum_scale n c f : zsum n (λ i, c * f i)%Z = (c * zsum n f)%Z.
Proof. induction n as [|n IH]; cbn [zsum]; [lia|]. rewrite IH. lia. Qed.

Lemma entry_sym p j i : entry p j i = entry p i j.
Proof.
  revert j i. induction p as [|p IH]; intros j i; [done|].
  cbn [entry]. rewrite (IH (j mod _)%Z). f_equal.
  repeat case_decide; lia.
Qed.

Lemma mod_half (n2 j : Z) :
  (0 < n2)%Z → (0 ≤ j < 2 * n2)%Z →
  (j mod n2 = if decide (n2 ≤ j)%Z then j - n2 else j)%Z.
Proof.
  intros Hn2 Hj. case_decide.
  - replace j with ((j - n2) + 1 * n2)%Z at 1 by lia.
    rewrite Z_mod_plus_full. apply Z.mod_small. lia.
  - apply Z.mod_small. lia.
Qed.

Lemma entry_orthogonal p j k :
  (0 ≤ j < 2 ^ Z.of_nat p)%Z → (0 ≤ k < 2 ^ Z.of_nat p)%Z →
  zsum (Z.to_nat (2 ^ Z.of_nat p))
    (λ i, entry p j (Z.of_nat i) * entry p k (Z.of_nat i))%Z
  = if decide (j = k) then (2 ^ Z.of_nat p)%Z else 0%Z.
Proof.
  revert j k. induction p as [|p IH]; intros j k Hj Hk.
  - change (2 ^ Z.of_nat 0)%Z with 1%Z in *. change (Z.to_nat 1) with 1.
    cbn [zsum entry]. case_decide; lia.
  - set (n2 := (2 ^ Z.of_nat p)%Z) in *.
    assert (0 < n2)%Z as Hn2 by (subst n2; lia).
    assert (2 ^ Z.of_nat (S p) = 2 * n2)%Z as Hpow.
    { subst n2. rewrite Nat2Z.inj_succ, Z.pow_succ_r by lia. done. }
    rewrite Hpow in *.
    replace (Z.to_nat (2 * n2)) with (Z.to_nat n2 + Z.to_nat n2) by lia.
    rewrite zsum_app.
    set (sj := if decide (n2 ≤ j)%Z then (-1)%Z else 1%Z).
    set (sk := if decide (n2 ≤ k)%Z then (-1)%Z else 1%Z).
    set (j' := (j mod n2)%Z). set (k' := (k mod n2)%Z).
    assert (0 ≤ j' < n2)%Z as Hj' by (subst j'; apply Z.mod_pos_bound; lia).
    assert (0 ≤ k' < n2)%Z as Hk' by (subst k'; apply Z.mod_pos_bound; lia).
    rewrite (zsum_ext _
      (λ i, entry (S p) j (Z.of_nat i) * entry (S p) k (Z.of_nat i))%Z
      (λ i, entry p j' (Z.of_nat i) * entry p k' (Z.of_nat i))%Z).
    2:{ intros i Hi. cbn [entry]. fold n2.
        rewrite !(Z.mod_small (Z.of_nat i)) by lia.
        rewrite !decide_False by lia. fold j' k'. lia. }
    rewrite (zsum_ext (Z.to_nat n2)
      (λ i, entry (S p) j (Z.of_nat (Z.to_nat n2 + i))
            * entry (S p) k (Z.of_nat (Z.to_nat n2 + i)))%Z
      (λ i, (sj * sk)
            * (entry p j' (Z.of_nat i) * entry p k' (Z.of_nat i)))%Z).
    2:{ intros i Hi. cbn [entry]. fold n2.
        assert (Z.of_nat (Z.to_nat n2 + i) mod n2 = Z.of_nat i)%Z as ->.
        { replace (Z.of_nat (Z.to_nat n2 + i))
            with (Z.of_nat i + 1 * n2)%Z by lia.
          rewrite Z_mod_plus_full. apply Z.mod_small. lia. }
        fold j' k'. subst sj sk. repeat case_decide; lia. }
    rewrite zsum_scale, IH by done.
    subst sj sk j' k'. rewrite !(mod_half n2) by lia.
    repeat case_decide; lia.
Qed.

End hadamard.

(** X17. The loops of [AOloopControl_mkHadamardModes] that fill
    [Hmat], for a size [Hsize = 2^P], never read an entry they have not
    written: whatever the block returned by [malloc] holds, they leave
    the same matrix, every entry of which is 1 or -1, which is
    symmetric and whose rows are orthogonal, the product of a row with
    itself being [Hsize]. *)
Theorem hadamard_matrix_orthogonal (P : nat) (garbage : list Z) :
  let Hsize := (2 ^ Z.of_nat P)%Z in
  let at_ (H : list Z) (j i : Z) := default 0%Z (rd H (j * Hsize + i)) in
  length garbage = Z.to_nat (Hsize * Hsize) →
  ∃ Hmat,
    HAD.sylvester Hsize (Z.of_nat P + 1) garbage = Some (Hsize, Hmat) ∧
    length Hmat = Z.to_nat (Hsize * Hsize) ∧
    (∀ garbage', length garbage' = Z.to_nat (Hsize * Hsize) →
       HAD.sylvester Hsize (Z.of_nat P + 1) garbage'
       = Some (Hsize, Hmat)) ∧
    (∀ j i, (0 ≤ i < Hsize)%Z → (0 ≤ j < Hsize)%Z →
       rd Hmat (j * Hsize + i) = Some (HAD.entry P j i) ∧
       (at_ Hmat j i = 1 ∨ at_ Hmat j i = -1)%Z ∧
       at_ Hmat j i = at_ Hmat i j) ∧
    (∀ j k, (0 ≤ j < Hsize)%Z → (0 ≤ k < Hsize)%Z →
       HAD.zsum (Z.to_nat Hsize)
         (λ i, at_ Hmat j (Z.of_nat i) * at_ Hmat k (Z.of_nat i))%Z
       = if decide (j = k) then Hsize else 0%Z).
Proof.
  intros Hsize at_ Hlen.
  destruct (sylvester_matrix P garbage Hlen) as (Hmat & Hrun & HlenH & Hall).
  fold Hsize in Hrun, HlenH, Hall.
  assert (0 < Hsize)%Z as Hpos by (subst Hsize; lia).
  assert (∀ j i, (0 ≤ i < Hsize)%Z → (0 ≤ j < Hsize)%Z →
    at_ Hmat j i = HAD.entry P j i) as Hat.
  { intros j i Hi Hj. unfold at_. by rewrite Hall. }
  exists Hmat. split; [done|]. split; [done|]. split; [|split].
  - intros garbage' Hlen'.
    destruct (sylvester_matrix P garbage' Hlen')
      as (Hmat' & Hrun' & HlenH' & Hall').
    fold Hsize in Hrun', HlenH', Hall'. rewrite Hrun'. do 2 f_equal.
    apply (list_eq_upto _ _ (Z.to_nat (Hsize * Hsize))); [done | done |].
    intros q Hq. rewrite <- !rd_nat.
    replace (Z.of_nat q)
      with ((Z.of_nat q / Hsize) * Hsize + Z.of_nat q mod Hsize)%Z
      by (rewrite Z.mul_comm; symmetry; apply Z.div_mod; lia).
    assert (0 ≤ Z.of_nat q mod Hsize < Hsize)%Z
      by (apply Z.mod_pos_bound; lia).
    assert (0 ≤ Z.of_nat q / Hsize < Hsize)%Z.
    { split; [apply Z.div_pos; lia|]. apply Z.div_lt_upper_bound; nia. }
    by rewrite Hall, Hall'.
  - intros j i Hi Hj. split; [by apply Hall|].
    rewrite !Hat by done. split.
    + clear. revert j i. induction P as [|P IH]; intros j i; [by left|].
      cbn [HAD.entry].
      destruct (IH (j mod 2 ^ Z.of_nat P)%Z (i mod 2 ^ Z.of_nat P)%Z)
        as [-> | ->]; case_decide; lia.
    + apply entry_sym.
  - intros j k Hj Hk. etransitivity; [|by apply (entry_orthogonal P j k)].
    apply zsum_ext. intros i Hi. rewrite !Hat by lia. done.
Qed.

Lemma hadamard_matrix_orthogonal_witness :
  ∃ Hmat,
    HAD.sylvester 4 3 (replicate 16 7%Z) = Some (4%Z, Hmat) ∧
    HAD.sylvester 4 3 (replicate 16 0%Z) = Some (4%Z, Hmat) ∧
    rd Hmat (3 * 4 + 3) = Some 1%Z.
Proof.
  destruct (hadamard_matrix_orthogonal 2 (replicate 16 7%Z))
    as (Hmat & Hrun & _ & Hany & Hent & _); [reflexivity|].
  exists Hmat. split; [exact Hrun|]. split.
  - apply Hany. reflexivity.
  - destruct (Hent 3 3)%Z as [He _]; [lia | lia |]. exact He.
Defined.

(** *** The number of active pixels *)

Section pixels.
Import HAD.

Lemma for_n_fault {St} (body : nat → St → option St) n m s :
  m < n → (∀ t, body m t = None) → for_n n body s = None.
Proof.
  intros Hm Hf. induction n as [|n IH]; [lia|].
  rewrite for_n_S. destruct (decide (m = n)) as [->|Hne].
  - destruct (for_n n body s); [apply Hf | done].
  - by rewrite IH by lia.
Qed.

Lemma for_range_fault {St} (body : Z → St → option St) lo hi k s :
  (lo ≤ k < hi)%Z → (∀ t, body k t = None) →
  for_range lo hi body s = None.
Proof.
  intros Hk Hf. unfold for_range.
  apply (for_n_fault _ _ (Z.to_nat (k - lo))); [lia|].
  intros t. replace (lo + Z.of_nat (Z.to_nat (k - lo)))%Z with k by lia.
  apply Hf.
Qed.

Lemma nactive_nonneg mask n : (0 ≤ nactive mask n)%Z.
Proof. induction n as [|n IH]; cbn [nactive]; [lia|]. case_match; lia. Qed.

Lemma count_active_nactive mask xysize cnt :
  count_active mask xysize = Some cnt → cnt = nactive mask xysize.
Proof.
  unfold count_active. intros H.
  apply (for_n_inv (λ k c, c = nactive mask k)) in H; [done | done |].
  intros k c c' _ -> Hb.
  destruct (mask !! k) as [x|] eqn:Hx; [|discriminate Hb].
  cbn [mbind option_bind] in Hb. cbn [nactive]. unfold active. rewrite Hx.
  destruct (x >? F.fl 0.5)%F; injection Hb as <-; lia.
Qed.

Lemma grow_power fuel Hsize n2max cnt Hsize' n2max' :
  grow fuel Hsize n2max cnt = Some (Hsize', n2max') →
  (0 ≤ n2max)%Z →
  (n2max ≤ n2max')%Z ∧ (Hsize' = Hsize * 2 ^ (n2max' - n2max))%Z ∧
  (cnt ≤ Hsize')%Z.
Proof.
  revert Hsize n2max. induction fuel as [|fuel IH]; intros Hsize n2max H Hn;
    [done|].
  cbn [grow] in H. case_decide as Hlt.
  - destruct (IH _ _ H) as (Hle & Heq & Hc); [lia|].
    split; [lia|]. split; [|done]. rewrite Heq.
    replace (n2max' - n2max)%Z with (1 + (n2max' - (n2max + 1)))%Z by lia.
    rewrite Z.pow_add_r by lia. change (2 ^ 1)%Z with 2%Z. lia.
  - injection H as <- <-. rewrite Z.sub_diag. split; [lia|].
    split; lia.
Qed.

(** After the loop on the pixels the entries of [indexarray] from
    [index] on are still -1. *)
Lemma index_pixels_unset mask xysize Hsize index indexarray Hpixindex :
  index_pixels mask xysize Hsize = Some (index, indexarray, Hpixindex) →
  (0 ≤ Hsize)%Z →
  index = Z.min (nactive mask xysize) Hsize ∧
  ∀ r, (index ≤ r < Hsize)%Z → rd indexarray r = Some (-1)%Z.
Proof.
  unfold index_pixels. intros H HH.
  apply (for_n_inv (λ k st,
    st.1.1 = Z.min (nactive mask k) Hsize ∧
    ∀ r, (st.1.1 ≤ r < Hsize)%Z → rd st.1.2 r = Some (-1)%Z)) in H.
  - exact H.
  - cbn [fst snd nactive]. split; [lia|]. intros r Hr. unfold rd.
    rewrite decide_True by lia. apply lookup_replicate_2. lia.
  - intros k [[idx ia] hp] t' _ [Hidx Hrest] Hb. cbn [fst snd] in *.
    pose proof (nactive_nonneg mask k) as Hnn.
    destruct (mask !! k) as [x|] eqn:Hx; [|discriminate Hb].
    cbn [mbind option_bind] in Hb.
    assert (active mask k = (x >? F.fl 0.5)%F) as Hact
      by (unfold active; by rewrite Hx).
    cbn [nactive]. rewrite Hact.
    destruct (x >? F.fl 0.5)%F; cbn [andb] in Hb.
    + case_bool_decide as Hlt.
      * destruct (wr ia idx (Z.of_nat k)) as [ia'|] eqn:Hia;
          [|discriminate Hb].
        cbn [mbind option_bind] in Hb.
        destruct (wr hp _ _) as [hp'|]; [|discriminate Hb].
        cbn [mbind option_bind] in Hb. injection Hb as <-.
        cbn [fst snd]. split; [lia|]. intros r Hr.
        rewrite (rd_wr_ne _ _ _ _ _ Hia) by lia. apply Hrest. lia.
      * injection Hb as <-. cbn [fst snd]. split; [lia|]. exact Hrest.
    + injection Hb as <-. cbn [fst snd]. split; [lia|]. exact Hrest.
Qed.

Lemma write_modes_fault xysize Hsize indexarray Hmat out c :
  (0 ≤ c < Hsize)%Z → rd indexarray c = Some (-1)%Z →
  write_modes xysize Hsize indexarray Hmat out = None.
Proof.
  intros Hc Hminus. unfold write_modes.
  apply (for_range_fault _ _ _ 0%Z); [lia|]. intros t.
  apply (for_range_fault _ _ _ c); [lia|]. intros u.
  rewrite Hminus. cbn [mbind option_bind].
  destruct (rd Hmat _); [|done]. cbn [mbind option_bind].
  unfold wr. by rewrite decide_False by lia.
Qed.

End pixels.

(** X18. [AOloopControl_mkHadamardModes] takes for [Hsize]
    the first power of two that is not below the number of active
    pixels of the mask, and writes each mode at the pixels listed in
    [indexarray], [Hsize] of them.  The entries of [indexarray] beyond
    the number of active pixels are still -1, and the first mode is
    then written at element -1 of the output cube: the function
    returns within the cube only when the number of active pixels is
    itself a power of two. *)
Theorem hadamard_modes_power_of_two (mask : list float) (xysize : nat)
    (garbage : list Z) :
  (∀ r,
     HAD.AOloopControl_mkHadamardModes mask xysize garbage = Some r →
     ∃ P : nat,
       HAD.Hsize r = (2 ^ Z.of_nat P)%Z ∧
       HAD.count_active mask xysize = Some (HAD.Hsize r) ∧
       HAD.nactive mask xysize = HAD.Hsize r) ∧
  ((∀ P : nat, HAD.nactive mask xysize ≠ (2 ^ Z.of_nat P)%Z) →
   HAD.AOloopControl_mkHadamardModes mask xysize garbage = None).
Proof.
  assert (∀ r,
    HAD.AOloopControl_mkHadamardModes mask xysize garbage = Some r →
    ∃ P : nat,
      HAD.Hsize r = (2 ^ Z.of_nat P)%Z ∧
      HAD.count_active mask xysize = Some (HAD.Hsize r) ∧
      HAD.nactive mask xysize = HAD.Hsize r) as Hmain.
  { intros r H. unfold HAD.AOloopControl_mkHadamardModes in H.
    destruct (HAD.count_active mask xysize) as [cnt|] eqn:Hcnt;
      [|discriminate H].
    cbn [mbind option_bind] in H.
    destruct (HAD.grow 64 1 0 cnt) as [[Hsize n2max]|] eqn:Hgrow;
      [|discriminate H].
    cbn [mbind option_bind] in H.
    destruct (HAD.index_pixels mask xysize Hsize)
      as [[[index ia] hp]|] eqn:Hidx; [|discriminate H].
    cbn [mbind option_bind] in H. case_decide; [|discriminate H].
    destruct (HAD.sylvester _ _ _) as [[n2 Hmat]|]; [|discriminate H].
    cbn [mbind option_bind] in H.
    destruct (HAD.write_modes _ _ _ _ _) as [out|] eqn:Hout;
      [|discriminate H].
    cbn [mbind option_bind] in H. injection H as <-. cbn [HAD.Hsize].
    destruct (grow_power _ _ _ _ _ _ Hgrow) as (Hn & HH & Hle); [lia|].
    rewrite Z.mul_1_l, Z.sub_0_r in HH.
    pose proof (count_active_nactive _ _ _ Hcnt) as Hc.
    destruct (index_pixels_unset _ _ _ _ _ _ Hidx) as [Hi Hunset]; [lia|].
    pose proof (nactive_nonneg mask xysize) as Hnn.
    assert (cnt = Hsize) as Heq.
    { destruct (decide (cnt = Hsize)) as [|Hne]; [done|]. exfalso.
      rewrite (write_modes_fault _ _ _ _ _ cnt) in Hout;
        [done | lia |]. apply Hunset. lia. }
    exists (Z.to_nat n2max). rewrite Z2Nat.id by lia.
    split; [done|]. split; [by rewrite <- Heq | by rewrite <- Hc]. }
  split; [exact Hmain|]. intros Hnot.
  destruct (HAD.AOloopControl_mkHadamardModes mask xysize garbage)
    as [r|] eqn:Hr; [|done].
  destruct (Hmain r eq_refl) as (P & HP & _ & Hn).
  exfalso. apply (Hnot P). congruence.
Qed.

Lemma hadamard_modes_power_of_two_witness :
  HAD.AOloopControl_mkHadamardModes
    [F.fl 1; F.fl 0; F.fl 1; F.fl 1] 4 (replicate 16 0%Z)
  = None.
Proof.
  apply hadamard_modes_power_of_two. intros P.
  change (HAD.nactive [F.fl 1; F.fl 0; F.fl 1; F.fl 1] 4) with 3%Z.
  destruct P as [|[|P]]; [discriminate | discriminate |].
  rewrite !Nat2Z.inj_succ, !Z.pow_succ_r by lia.
  assert (0 < 2 ^ Z.of_nat P)%Z by lia. lia.
Defined.

(** ** [AOloopControl_DMedgeDetect] *)

Section edge.
Import EDG.

Lemma scan_fault mask xsize ii jj ds d val1 :
  d ∈ ds →
  rd mask ((jj + d.1) * xsize + ii + d.2)%Z = None →
  scan mask xsize ii jj ds val1 = None.
Proof.
  intros Hin Hrd. revert val1.
  induction ds as [|[dj di] ds IH]; intros val1; [by apply elem_of_nil in Hin|].
  cbn [scan]. apply elem_of_cons in Hin as [->|Hin].
  - cbn [fst snd] in Hrd. by rewrite Hrd.
  - destruct (rd mask ((jj + dj) * xsize + ii + di)%Z); [|done].
    cbn [mbind option_bind]. by apply IH.
Qed.

Lemma F_count_step (n : nat) :
  (F.of_Z (Z.of_nat n) + F.fl 1.0)%F = F.of_Z (Z.of_nat (S n)).
Proof.
  unfold F.of_Z, F.fl. cbn [F.add F.lift2]. f_equal.
  qc_to_q. unfold Qeq, Qplus. cbn [Qnum Qden]. lia.
Qed.

Lemma F_count_threshold (n : nat) :
  (F.of_Z (Z.of_nat n) >? F.fl 4.9)%F = bool_decide (5 ≤ n).
Proof.
  unfold F.gtb, F.ltb, F.of_Z, F.fl.
  apply bool_decide_ext. qc_to_q. unfold Qlt. cbn [Qnum Qden]. lia.
Qed.

Lemma scan_count mask xsize ii jj ds (n : nat) :
  Forall (λ d, (0 ≤ (jj + d.1) * xsize + ii + d.2
                < Z.of_nat (length mask))%Z) ds →
  scan mask xsize ii jj ds (F.of_Z (Z.of_nat n))
  = Some (F.of_Z (Z.of_nat (n + outside_count mask xsize ii jj ds))).
Proof.
  intros Hall. revert n.
  induction Hall as [|[dj di] ds Hd _ IH]; intros n.
  - cbn [scan outside_count]. by rewrite Nat.add_0_r.
  - cbn [scan outside_count fst snd] in *.
    destruct (rd_is_Some mask _ Hd) as [x Hx]. rewrite Hx.
    cbn [mbind option_bind].
    destruct (x <? F.fl 0.5)%F eqn:Hlt.
    + rewrite F_count_step, IH. do 3 f_equal. lia.
    + rewrite IH. do 3 f_equal.
Qed.


Lemma F_fl_zero : F.fl 0.0 = F.zero.
Proof. by_float_compute. Qed.

Lemma rd_beyond {A} (a : list A) i :
  (Z.of_nat (length a) ≤ i)%Z → rd a i = None.
Proof.
  intros Hi. unfold rd. case_decide; [|done].
  apply lookup_ge_None. lia.
Qed.

Lemma rd_before {A} (a : list A) i : (i < 0)%Z → rd a i = None.
Proof. intros Hi. unfold rd. by rewrite decide_False by lia. Qed.

(** On the rows 1 and [ysize - 2] a pixel inside the mask makes the
    function read a row that the image does not have. *)
Lemma edge_value_fault mask xsize ysize ii jj :
  length mask = Z.to_nat (xsize * ysize) → (3 ≤ ysize)%Z →
  (1 ≤ ii ≤ xsize - 2)%Z → (jj = 1 ∨ jj = ysize - 2)%Z →
  inside mask xsize ii jj = true →
  edge_value mask xsize ii jj = None.
Proof.
  intros Hlen Hys Hii Hjj Hin. unfold edge_value. unfold inside in Hin.
  destruct (rd mask (jj * xsize + ii)%Z) as [c|]; [|done].
  cbn [mbind option_bind]. rewrite Hin.
  assert (scan mask xsize ii jj neighbours (F.fl 0.0) = None) as ->; [|done].
  destruct Hjj as [-> | ->].
  - apply (scan_fault _ _ _ _ _ (-2, 0)%Z).
    + unfold neighbours.
      repeat (apply elem_of_cons; first [by left | right]).
    + cbn [fst snd]. apply rd_before. lia.
  - apply (scan_fault _ _ _ _ _ (2, 0)%Z).
    + unfold neighbours.
      repeat (apply elem_of_cons; first [by left | right]).
    + cbn [fst snd]. apply rd_beyond. rewrite Hlen, Z2Nat.id by nia. nia.
Qed.

Lemma edge_value_outside mask xsize ysize ii jj :
  length mask = Z.to_nat (xsize * ysize) →
  (0 ≤ ii < xsize)%Z → (0 ≤ jj < ysize)%Z →
  inside mask xsize ii jj = false →
  edge_value mask xsize ii jj = Some (F.fl 0.0).
Proof.
  intros Hlen Hii Hjj Hin. unfold edge_value. unfold inside in Hin.
  destruct (rd_is_Some mask (jj * xsize + ii)%Z) as [c Hc];
    [rewrite Hlen, Z2Nat.id by nia; nia|].
  rewrite Hc in *. cbn [mbind option_bind]. rewrite Hin.
  cbn [mbind option_bind]. done.
Qed.

Lemma edge_value_inside mask xsize ysize ii jj :
  length mask = Z.to_nat (xsize * ysize) →
  (1 ≤ ii ≤ xsize - 2)%Z → (2 ≤ jj ≤ ysize - 3)%Z →
  inside mask xsize ii jj = true →
  edge_value mask xsize ii jj
  = Some (if bool_decide (5 ≤ outside_count mask xsize ii jj neighbours)
          then F.fl 1.0 else F.fl 0.0).
Proof.
  intros Hlen Hii Hjj Hin. unfold edge_value. unfold inside in Hin.
  destruct (rd mask (jj * xsize + ii)%Z) as [c|]; [|done].
  cbn [mbind option_bind]. rewrite Hin.
  rewrite F_fl_zero. change F.zero with (F.of_Z (Z.of_nat 0)).
  rewrite scan_count.
  - cbn [mbind option_bind]. by rewrite F_count_threshold.
  - unfold neighbours. rewrite Hlen, Z2Nat.id by nia.
    repeat constructor; cbn [fst snd]; nia.
Qed.


Lemma partial_ext mask xsize ysize (d1 d2 : Z → Z → bool) out :
  (∀ ii jj, (0 ≤ ii < xsize)%Z → (0 ≤ jj < ysize)%Z →
     interior xsize ysize ii jj = true → d1 ii jj = d2 ii jj) →
  partial mask xsize ysize d1 out → partial mask xsize ysize d2 out.
Proof.
  intros Hd [Hlen Hout]. split; [done|]. intros ii jj Hii Hjj.
  rewrite Hout by done. unfold edge.
  destruct (interior xsize ysize ii jj) eqn:Hint.
  - by rewrite (Hd ii jj).
  - by rewrite !andb_false_r.
Qed.

Lemma edge_value_safe mask xsize ysize ii jj :
  length mask = Z.to_nat (xsize * ysize) →
  (∀ ii jj, (1 ≤ ii ≤ xsize - 2)%Z → (jj = 1 ∨ jj = ysize - 2)%Z →
     inside mask xsize ii jj = false) →
  (1 ≤ ii ≤ xsize - 2)%Z → (1 ≤ jj ≤ ysize - 2)%Z →
  edge_value mask xsize ii jj
  = Some (if edge mask xsize ysize ii jj then F.fl 1.0 else F.fl 0.0).
Proof.
  intros Hlen Hsafe Hii Hjj. unfold edge, interior.
  rewrite bool_decide_eq_true_2 by lia. cbn [andb].
  destruct (inside mask xsize ii jj) eqn:Hin; cbn [andb].
  - apply (edge_value_inside _ _ ysize); [done | done | | done].
    destruct (decide (jj = 1 ∨ jj = ysize - 2)%Z) as [Hb|Hb]; [|lia].
    rewrite (Hsafe ii jj) in Hin; [done | lia | done].
  - apply (edge_value_outside _ _ ysize); [done | lia | lia | done].
Qed.

End edge.

(** X20. [AOloopControl_DMedgeDetect] tests, around each pixel
    inside the mask, pixels up to two rows away, and it handles the
    rows 1 to [ysize - 2].  A pixel inside the mask on row 1 or on row
    [ysize - 2] (columns 1 to [xsize - 2]) makes it read a row before
    or after the image.  When these two rows hold no such pixel every
    read is within the image, and the output is 1 at the pixels off the
    border that are inside the mask with at least 5 of the 20 tested
    pixels below 0.5, and 0 at every other pixel. *)
Theorem edge_detect_bounds (xsize ysize : Z) (mask : list float) :
  (3 ≤ xsize)%Z → (3 ≤ ysize)%Z →
  length mask = Z.to_nat (xsize * ysize) →
  (∀ ii jj, (1 ≤ ii ≤ xsize - 2)%Z → (jj = 1 ∨ jj = ysize - 2)%Z →
     EDG.inside mask xsize ii jj = true →
     EDG.AOloopControl_DMedgeDetect xsize ysize mask = None) ∧
  ((∀ ii jj, (1 ≤ ii ≤ xsize - 2)%Z → (jj = 1 ∨ jj = ysize - 2)%Z →
      EDG.inside mask xsize ii jj = false) →
   ∃ out,
     EDG.AOloopControl_DMedgeDetect xsize ysize mask = Some out ∧
     length out = length mask ∧
     ∀ ii jj, (0 ≤ ii < xsize)%Z → (0 ≤ jj < ysize)%Z →
       rd out (jj * xsize + ii)
       = Some (if EDG.edge mask xsize ysize ii jj
               then F.fl 1.0 else F.fl 0.0)).
Proof.
  intros Hx Hy Hlen. split.
  - intros ii jj Hii Hjj Hin. unfold EDG.AOloopControl_DMedgeDetect.
    apply (for_range_fault _ _ _ ii); [lia|]. intros t.
    apply (for_range_fault _ _ _ jj); [lia|]. intros u.
    by rewrite (edge_value_fault _ _ ysize).
  - intros Hsafe. unfold EDG.AOloopControl_DMedgeDetect.
    destruct (for_range_total
      (λ k out, EDG.partial mask xsize ysize
                  (λ ii _, bool_decide (ii < k)%Z) out)
      1 (xsize - 1)
      (λ ii out,
         for_range 1 (ysize - 1) (λ jj out,
           val1 ← EDG.edge_value mask xsize ii jj;
           wr out (jj * xsize + ii)%Z val1) out)
      (zeros (Z.to_nat (xsize * ysize)))) as (out & Hrun & Hlen' & Hout).
    + lia.
    + split; [unfold zeros; by rewrite length_replicate|].
      intros ii jj Hii Hjj. unfold rd. rewrite decide_True by nia.
      unfold zeros. rewrite lookup_replicate_2 by nia.
      rewrite <- F_fl_zero. unfold EDG.edge, EDG.interior.
      case_bool_decide; [|done]. by rewrite bool_decide_eq_false_2 by lia.
    + intros k t Hk HP.
      destruct (for_range_total
        (λ j out, EDG.partial mask xsize ysize
           (λ ii jj, bool_decide (ii < k ∨ ii = k ∧ jj < j)%Z) out)
        1 (ysize - 1)
        (λ jj out,
           val1 ← EDG.edge_value mask xsize k jj;
           wr out (jj * xsize + k)%Z val1) t) as (t' & Ht' & HQ).
      * lia.
      * revert HP. apply partial_ext. intros ii jj Hii Hjj Hint.
        unfold EDG.interior in Hint. apply bool_decide_eq_true in Hint.
        apply bool_decide_ext. lia.
      * intros j u Hj [Hul Hu].
        rewrite (edge_value_safe _ _ ysize) by (done || lia).
        cbn [mbind option_bind].
        destruct (wr_is_Some u (j * xsize + k)%Z
          (if EDG.edge mask xsize ysize k j then F.fl 1.0 else F.fl 0.0))
          as [u' Hu'].
        { rewrite Hul, Hlen, Z2Nat.id by nia. nia. }
        exists u'. split; [done|]. split.
        { by rewrite (wr_length _ _ _ _ Hu'). }
        intros ii jj Hii Hjj.
        destruct (decide ((jj, ii) = (j, k))) as [[= -> ->]|Hne].
        -- rewrite (rd_wr_eq _ _ _ _ Hu').
           rewrite bool_decide_eq_true_2 by lia. done.
        -- rewrite (rd_wr_ne _ _ _ _ _ Hu')
             by (apply cell_index_ne; [lia | lia | done]).
           rewrite Hu by done.
           assert (jj ≠ j ∨ ii ≠ k) by
             (destruct (decide (jj = j)); [right; congruence | by left]).
           replace (bool_decide (ii < k ∨ ii = k ∧ jj < j + 1)%Z)
             with (bool_decide (ii < k ∨ ii = k ∧ jj < j)%Z); [done|].
           apply bool_decide_ext. lia.
      * exists t'. split; [done|]. revert HQ. apply partial_ext.
        intros ii jj Hii Hjj Hint.
        unfold EDG.interior in Hint. apply bool_decide_eq_true in Hint.
        apply bool_decide_ext. lia.
    + exists out. split; [done|]. split.
      { rewrite Hlen'. done. }
      intros ii jj Hii Hjj. rewrite Hout by done.
      unfold EDG.edge.
      destruct (EDG.interior xsize ysize ii jj) eqn:Hint;
        [|cbn [andb]; by rewrite ?andb_false_r].
      unfold EDG.interior in Hint. apply bool_decide_eq_true in Hint.
      by rewrite bool_decide_eq_true_2 by lia.
Qed.

Lemma edge_detect_bounds_witness :
  EDG.AOloopControl_DMedgeDetect 3 3
    [F.fl 0; F.fl 0; F.fl 0; F.fl 0; F.fl 1; F.fl 0; F.fl 0; F.fl 0; F.fl 0]
  = None ∧
  ∃ out,
    EDG.AOloopControl_DMedgeDetect 5 5
      (<[12 := F.fl 1]> (replicate 25 (F.fl 0))) = Some out ∧
    rd out 12 = Some (F.fl 1.0) ∧ rd out 13 = Some (F.fl 0.0).
Proof.
  split.
  - apply (proj1 (edge_detect_bounds 3 3
      [F.fl 0; F.fl 0; F.fl 0; F.fl 0; F.fl 1; F.fl 0; F.fl 0; F.fl 0;
       F.fl 0] ltac:(lia) ltac:(lia) eq_refl) 1%Z 1%Z);
      [lia | by left | reflexivity].
  - destruct (proj2 (edge_detect_bounds 5 5
      (<[12 := F.fl 1]> (replicate 25 (F.fl 0)))
      ltac:(lia) ltac:(lia) ltac:(by vm_compute))) as (out & Hrun & _ & Hout).
    + intros ii jj Hii Hjj.
      assert (ii = 1 ∨ ii = 2 ∨ ii = 3)%Z as [-> | [-> | ->]] by lia;
        destruct Hjj as [-> | ->]; reflexivity.
    + exists out. split; [exact Hrun|]. split.
      * exact (Hout 2%Z 2%Z ltac:(lia) ltac:(lia)).
      * exact (Hout 3%Z 2%Z ltac:(lia) ltac:(lia)).
Defined.

(** ** [AOloopControl_CrossProduct] *)

(** Two nested loops whose body stores [V k j] in the cell [cell k j]
    and leaves the other cells as they are. *)
Lemma grid_fill (cell : Z → Z → Z) (klo khi jlo jhi : Z)
    (body : Z → Z → list float → option (list float))
    (V : Z → Z → float) (init : list float) :
  (klo ≤ khi)%Z → (jlo ≤ jhi)%Z →
  (∀ k j k' j', (klo ≤ k < khi)%Z → (jlo ≤ j < jhi)%Z →
     (klo ≤ k' < khi)%Z → (jlo ≤ j' < jhi)%Z →
     cell k j = cell k' j' → k = k' ∧ j = j') →
  (∀ k j t, (klo ≤ k < khi)%Z → (jlo ≤ j < jhi)%Z →
     length t = length init →
     rd t (cell k j) = rd init (cell k j) →
     ∃ t', body k j t = Some t' ∧ length t' = length t ∧
           rd t' (cell k j) = Some (V k j) ∧
           ∀ i, i ≠ cell k j → rd t' i = rd t i) →
  ∃ out,
    for_range klo khi (λ k out,
      for_range jlo jhi (λ j out, body k j out) out) init = Some out ∧
    length out = length init ∧
    (∀ k j, (klo ≤ k < khi)%Z → (jlo ≤ j < jhi)%Z →
       rd out (cell k j) = Some (V k j)) ∧
    (∀ i, (∀ k j, (klo ≤ k < khi)%Z → (jlo ≤ j < jhi)%Z → i ≠ cell k j) →
       rd out i = rd init i).
Proof.
  intros Hk Hj Hinj Hbody.
  set (I := λ (done : Z → Z → bool) (t : list float),
    length t = length init ∧
    (∀ k j, (klo ≤ k < khi)%Z → (jlo ≤ j < jhi)%Z →
       rd t (cell k j)
       = if done k j then Some (V k j) else rd init (cell k j)) ∧
    (∀ i, (∀ k j, (klo ≤ k < khi)%Z → (jlo ≤ j < jhi)%Z → i ≠ cell k j) →
       rd t i = rd init i)).
  assert (∀ (d1 d2 : Z → Z → bool) t,
    (∀ k j, (klo ≤ k < khi)%Z → (jlo ≤ j < jhi)%Z → d1 k j = d2 k j) →
    I d1 t → I d2 t) as Hext.
  { intros d1 d2 t Hd (Hl & Ht & Ho). split; [done|]. split; [|done].
    intros k j Hk' Hj'. rewrite Ht by done. by rewrite (Hd k j). }
  destruct (for_range_total
    (λ kN t, I (λ k _, bool_decide (k < kN)%Z) t) klo khi
    (λ k out, for_range jlo jhi (λ j out, body k j out) out) init)
    as (out & Hrun & Hlen & Hout & Hother).
  - lia.
  - split; [done|]. split; [|done]. intros k j Hk' Hj'.
    by rewrite bool_decide_eq_false_2 by lia.
  - intros k t Hk' HP.
    destruct (for_range_total
      (λ jN t, I (λ k' j', bool_decide (k' < k ∨ k' = k ∧ j' < jN)%Z) t)
      jlo jhi (λ j out, body k j out) t) as (t' & Ht' & HQ).
    + lia.
    + revert HP. apply Hext. intros. apply bool_decide_ext. lia.
    + intros j u Hj' (Hul & Hu & Huo).
      destruct (Hbody k j u) as (u' & Hu' & Hl' & Hcell & Hrest);
        [done | done | done | |].
      { rewrite Hu by lia. by rewrite bool_decide_eq_false_2 by lia. }
      exists u'. split; [done|]. split; [congruence|]. split.
      * intros k' j' Hk'' Hj''.
        destruct (decide (cell k' j' = cell k j)) as [Heq|Hne].
        -- destruct (Hinj k' j' k j) as [-> ->]; [done..|].
           rewrite Hcell. by rewrite bool_decide_eq_true_2 by lia.
        -- rewrite Hrest by done. rewrite Hu by done.
           assert (j' ≠ j ∨ k' ≠ k) by
             (destruct (decide (j' = j)); [right; congruence | by left]).
           replace (bool_decide (k' < k ∨ k' = k ∧ j' < j + 1)%Z)
             with (bool_decide (k' < k ∨ k' = k ∧ j' < j)%Z); [done|].
           apply bool_decide_ext. lia.
      * intros i Hi. rewrite Hrest by (by apply Hi). by apply Huo.
    + exists t'. split; [done|]. revert HQ. apply Hext.
      intros. apply bool_decide_ext. lia.
  - exists out. split; [done|]. split; [done|]. split; [|done].
    intros k j Hk' Hj'. rewrite Hout by done.
    by rewrite bool_decide_eq_true_2 by lia.
Qed.

Lemma F_mul_comm x y : (x * y)%F = (y * x)%F.
Proof.
  destruct x as [|a], y as [|b]; try done. simpl. f_equal. apply Qcmult_comm.
Qed.

Lemma F_mul_swap w x y : (w * x * y)%F = (w * y * x)%F.
Proof.
  destruct w as [|c], x as [|a], y as [|b]; try done. simpl. f_equal. ring.
Qed.

Section cross.
Import XP.

Lemma sum_to_ext n f g :
  (∀ i, i < n → f i = g i) → sum_to n f = sum_to n g.
Proof.
  induction n as [|n IH]; intros H; [done|]. cbn [sum_to].
  rewrite IH by (intros; apply H; lia). by rewrite H by lia.
Qed.

Lemma term_swap mask xysize cube1 cube2 z1 z2 ii :
  term mask xysize cube2 cube1 z2 z1 ii = term mask xysize cube1 cube2 z1 z2 ii.
Proof.
  unfold term. destruct mask; [apply F_mul_swap | apply F_mul_comm].
Qed.

Lemma cross_cell_sum mask xysize zsize1 cube1 cube2 z1 z2 out :
  (0 ≤ xysize)%Z →
  (0 ≤ z1)%Z → ((z1 + 1) * xysize ≤ Z.of_nat (length cube1))%Z →
  (0 ≤ z2)%Z → ((z2 + 1) * xysize ≤ Z.of_nat (length cube2))%Z →
  (∀ m, mask = Some m → (xysize ≤ Z.of_nat (length m))%Z) →
  rd out (z2 * zsize1 + z1)%Z = Some (F.fl 0.0) →
  ∃ out',
    cross_cell mask xysize xysize zsize1 cube1 cube2 z1 z2 out = Some out' ∧
    length out' = length out ∧
    rd out' (z2 * zsize1 + z1)%Z
    = Some (sum_to (Z.to_nat xysize) (term mask xysize cube1 cube2 z1 z2)) ∧
    ∀ i, i ≠ (z2 * zsize1 + z1)%Z → rd out' i = rd out i.
Proof.
  intros Hxy Hz1 Hc1 Hz2 Hc2 Hm H0. unfold cross_cell.
  destruct (for_range_total (λ n t,
    length t = length out ∧
    rd t (z2 * zsize1 + z1)%Z
    = Some (sum_to (Z.to_nat n) (term mask xysize cube1 cube2 z1 z2)) ∧
    ∀ i, i ≠ (z2 * zsize1 + z1)%Z → rd t i = rd out i)
    0 xysize
    (λ ii out,
       acc ← rd out (z2 * zsize1 + z1)%Z;
       match mask with
       | None =>
           a ← rd cube1 (z1 * xysize + ii)%Z;
           b ← rd cube2 (z2 * xysize + ii)%Z;
           wr out (z2 * zsize1 + z1)%Z (acc + a * b)%F
       | Some m =>
           w ← rd m ii;
           a ← rd cube1 (z1 * xysize + ii)%Z;
           b ← rd cube2 (z2 * xysize + ii)%Z;
           wr out (z2 * zsize1 + z1)%Z (acc + w * w * a * b)%F
       end) out) as (out' & Hrun & HP); [done | done | | by eauto].
  intros n t Hn (Hl & Hacc & Hrest). rewrite Hacc. cbn [mbind option_bind].
  destruct (rd_is_Some cube1 (z1 * xysize + n)%Z) as [a Ha]; [nia|].
  destruct (rd_is_Some cube2 (z2 * xysize + n)%Z) as [b Hb]; [nia|].
  assert (is_Some (wr t (z2 * zsize1 + z1)%Z
    (sum_to (Z.to_nat n) (term mask xysize cube1 cube2 z1 z2)
     + term mask xysize cube1 cube2 z1 z2 (Z.to_nat n))%F)) as [t' Ht'].
  { apply wr_is_Some. apply rd_Some in Hacc as [? _]. lia. }
  assert (pix cube1 xysize z1 (Z.to_nat n) = a) as Hpa.
  { unfold pix. rewrite Z2Nat.id by lia. by rewrite Ha. }
  assert (pix cube2 xysize z2 (Z.to_nat n) = b) as Hpb.
  { unfold pix. rewrite Z2Nat.id by lia. by rewrite Hb. }
  exists t'. split.
  - rewrite <- Ht'. destruct mask as [m|].
    + destruct (rd_is_Some m n) as [w Hw]; [specialize (Hm m eq_refl); lia|].
      rewrite Hw, Ha, Hb. cbn [mbind option_bind]. unfold term.
      rewrite Hpa, Hpb. unfold rd in Hw. rewrite decide_True in Hw by lia.
      by rewrite Hw.
    + rewrite Ha, Hb. cbn [mbind option_bind]. unfold term.
      by rewrite Hpa, Hpb.
  - split; [by rewrite (wr_length _ _ _ _ Ht')|]. split.
    + rewrite (rd_wr_eq _ _ _ _ Ht').
      replace (Z.to_nat (n + 1)) with (S (Z.to_nat n)) by lia. done.
    + intros i Hi. rewrite (rd_wr_ne _ _ _ _ _ Ht' Hi). by apply Hrest.
Qed.

End cross.

(** X21. [AOloopControl_CrossProduct] on two cubes of the
    same slice size stores at [(z2, z1)] the sum over the pixels of the
    products of slice [z1] of the first cube and slice [z2] of the
    second, weighted by the square of [xpmask] when this image exists.
    With the cubes exchanged the output is the transposed image, so the
    product of a cube with itself is symmetric.  Cubes of different
    slice sizes end the process. *)
Theorem cross_product_transpose (mask : option (list float))
    (xysize zsize1 zsize2 : Z) (cube1 cube2 created created' : list float) :
  (0 ≤ xysize)%Z → (0 ≤ zsize1)%Z → (0 ≤ zsize2)%Z →
  length cube1 = Z.to_nat (zsize1 * xysize) →
  length cube2 = Z.to_nat (zsize2 * xysize) →
  (∀ m, mask = Some m → length m = Z.to_nat xysize) →
  length created = Z.to_nat (zsize1 * zsize2) →
  length created' = Z.to_nat (zsize1 * zsize2) →
  (∀ xysize2, xysize ≠ xysize2 →
     XP.AOloopControl_CrossProduct mask xysize xysize2 zsize1 zsize2
       cube1 cube2 created = Some XP.Exit) ∧
  ∃ out out',
    XP.AOloopControl_CrossProduct mask xysize xysize zsize1 zsize2
      cube1 cube2 created = Some (XP.Done out) ∧
    XP.AOloopControl_CrossProduct mask xysize xysize zsize2 zsize1
      cube2 cube1 created' = Some (XP.Done out') ∧
    length out = length created ∧
    ∀ z1 z2, (0 ≤ z1 < zsize1)%Z → (0 ≤ z2 < zsize2)%Z →
      rd out (z2 * zsize1 + z1)
      = Some (XP.sum_to (Z.to_nat xysize)
                (XP.term mask xysize cube1 cube2 z1 z2)) ∧
      rd out' (z1 * zsize2 + z2) = rd out (z2 * zsize1 + z1).
Proof.
  intros Hxy Hzs1 Hzs2 Hc1 Hc2 Hm Hcr Hcr'. split.
  { intros xysize2 Hne. unfold XP.AOloopControl_CrossProduct.
    by rewrite decide_True. }
  assert (∀ za zb cubea cubeb cr,
    (0 ≤ za)%Z → (0 ≤ zb)%Z →
    length cubea = Z.to_nat (za * xysize) →
    length cubeb = Z.to_nat (zb * xysize) →
    length cr = Z.to_nat (za * zb) →
    ∃ out,
      XP.AOloopControl_CrossProduct mask xysize xysize za zb cubea cubeb cr
      = Some (XP.Done out) ∧
      length out = length cr ∧
      ∀ z1 z2, (0 ≤ z1 < za)%Z → (0 ≤ z2 < zb)%Z →
        rd out (z2 * za + z1)
        = Some (XP.sum_to (Z.to_nat xysize)
                  (XP.term mask xysize cubea cubeb z1 z2))) as Hone.
  { intros za zb cubea cubeb cr Hza Hzb Hca Hcb Hcrl.
    unfold XP.AOloopControl_CrossProduct. rewrite decide_False by tauto.
    destruct (fill_range cr 0 (za * zb) (F.fl 0.0))
      as (o0 & Ho0 & Hl0 & Hin0 & _); [lia | lia |].
    rewrite Ho0. cbn [mbind option_bind].
    destruct (grid_fill (λ z1 z2, z2 * za + z1)%Z 0 za 0 zb
      (λ z1 z2 out, XP.cross_cell mask xysize xysize za cubea cubeb z1 z2 out)
      (λ z1 z2, XP.sum_to (Z.to_nat xysize)
                  (XP.term mask xysize cubea cubeb z1 z2)) o0)
      as (out & Hrun & Hlen & Hout & _); [lia | lia | | |].
    - intros k j k' j' Hk Hj Hk' Hj' Heq.
      destruct (decide ((j, k) = (j', k'))) as [[= -> ->]|Hne]; [done|].
      by apply (cell_index_ne za j k j' k') in Hne.
    - intros k j t Hk Hj Hlt Hcell.
      apply cross_cell_sum; [lia | lia | nia | lia | nia | |].
      + intros m ->%Hm. lia.
      + rewrite Hcell. apply Hin0. nia.
    - rewrite Hrun. cbn [mbind option_bind]. exists out.
      split; [done|]. split; [congruence|].
      intros z1 z2 Hz1 Hz2. by rewrite Hout. }
  destruct (Hone zsize1 zsize2 cube1 cube2 created) as (out & Hrun & Hl & Hout);
    [done..|].
  destruct (Hone zsize2 zsize1 cube2 cube1 created')
    as (out' & Hrun' & Hl' & Hout'); [done | done | done | done | |].
  { rewrite Hcr'. f_equal. lia. }
  exists out, out'. split; [done|]. split; [done|]. split; [done|].
  intros z1 z2 Hz1 Hz2. split; [by apply Hout|].
  rewrite Hout, Hout' by done. f_equal.
  apply sum_to_ext. intros i _. apply term_swap.
Qed.

Lemma cross_product_transpose_witness :
  ∃ out,
    XP.AOloopControl_CrossProduct None 2 2 2 2
      [F.fl 1; F.fl 2; F.fl 3; F.fl 4] [F.fl 1; F.fl 2; F.fl 3; F.fl 4]
      [NaN; NaN; NaN; NaN] = Some (XP.Done out) ∧
    rd out 1 = rd out 2.
Proof.
  destruct (cross_product_transpose None 2 2 2
    [F.fl 1; F.fl 2; F.fl 3; F.fl 4] [F.fl 1; F.fl 2; F.fl 3; F.fl 4]
    [NaN; NaN; NaN; NaN] [NaN; NaN; NaN; NaN])
    as (_ & out & out' & Hrun & Hrun' & _ & Hout);
    [lia | lia | lia | reflexivity | reflexivity | done | reflexivity
    | reflexivity |].
  exists out. split; [exact Hrun|].
  rewrite Hrun in Hrun'. injection Hrun' as <-.
  exact (proj2 (Hout 0%Z 1%Z ltac:(lia) ltac:(lia))).
Defined.

(** ** [AOloopControl_Hadamard_decodeRM] *)

Section decode.
Import HAD DEC.

(** *** The pixels of the mask and their indices *)

Lemma nactive_S mask k :
  nactive mask (S k) = (nactive mask k + (if active mask k then 1 else 0))%Z.
Proof. done. Qed.

Lemma nactive_mono mask k k' : k ≤ k' → (nactive mask k ≤ nactive mask k')%Z.
Proof.
  induction 1 as [|k' _ IH]; [lia|]. rewrite nactive_S. case_match; lia.
Qed.

Lemma nactive_lt mask p p' :
  p < p' → active mask p = true → (nactive mask p < nactive mask p')%Z.
Proof.
  intros Hlt Hact. pose proof (nactive_mono mask (S p) p' ltac:(lia)) as H.
  rewrite nactive_S, Hact in H. lia.
Qed.

Lemma nactive_inj mask p p' :
  active mask p = true → active mask p' = true →
  nactive mask p = nactive mask p' → p = p'.
Proof.
  intros Hp Hp' Heq. destruct (Nat.lt_trichotomy p p') as [Hlt|[->|Hlt]].
  - pose proof (nactive_lt mask p p' Hlt Hp). lia.
  - done.
  - pose proof (nactive_lt mask p' p Hlt Hp'). lia.
Qed.

Lemma nactive_surj mask n idx :
  (0 ≤ idx < nactive mask n)%Z →
  ∃ p, p < n ∧ active mask p = true ∧ nactive mask p = idx.
Proof.
  induction n as [|n IH]; intros Hidx; [cbn [nactive] in Hidx; lia|].
  rewrite nactive_S in Hidx.
  destruct (decide (idx < nactive mask n)%Z) as [Hlt|Hge].
  - destruct IH as (p & Hp & Ha & Hn); [lia|]. exists p. split; [lia|done].
  - destruct (active mask n) eqn:Hact; [|lia].
    exists n. split; [lia|]. split; [done|lia].
Qed.

Lemma grow_fuel fuel Hsize n2max cnt Hsize' n2max' :
  grow fuel Hsize n2max cnt = Some (Hsize', n2max') →
  (n2max' - n2max < Z.of_nat fuel)%Z.
Proof.
  revert Hsize n2max. induction fuel as [|fuel IH]; intros Hsize n2max H;
    [done|].
  cbn [grow] in H. case_decide.
  - apply IH in H. lia.
  - injection H as <- <-. lia.
Qed.

(** The loop on the pixels when the indices do not run out: pixel [p],
    if active, gets the number of active pixels before it. *)
Lemma index_pixels_spec mask xysize Hsize index indexarray Hpixindex :
  index_pixels mask xysize Hsize = Some (index, indexarray, Hpixindex) →
  (nactive mask xysize ≤ Hsize)%Z →
  length Hpixindex = xysize ∧
  (∀ p, p < xysize →
     Hpixindex !! p
     = Some (if active mask p
             then (F.fl 1.0 * F.of_Z (nactive mask p))%F
             else F.fl (-10.0))) ∧
  (∀ p, p < xysize → active mask p = true →
     rd indexarray (nactive mask p) = Some (Z.of_nat p)).
Proof.
  unfold index_pixels. intros H HH.
  apply (for_n_inv (λ k st,
    st.1.1 = nactive mask k ∧
    length st.2 = xysize ∧
    (∀ p, p < xysize →
       st.2 !! p
       = Some (if active mask p && bool_decide (p < k)
               then (F.fl 1.0 * F.of_Z (nactive mask p))%F
               else F.fl (-10.0))) ∧
    (∀ p, p < k → active mask p = true →
       rd st.1.2 (nactive mask p) = Some (Z.of_nat p)))) in H.
  - destruct H as (_ & Hl & Hhp & Hia). cbn [fst snd] in *.
    split; [done|]. split; [|done]. intros p Hp. rewrite Hhp by done.
    by rewrite bool_decide_eq_true_2, andb_true_r by done.
  - cbn [fst snd nactive]. split; [done|].
    split; [by rewrite length_replicate|]. split; [|intros; lia].
    intros p Hp. rewrite lookup_replicate_2 by done.
    by rewrite bool_decide_eq_false_2, andb_false_r by lia.
  - intros k [[idx ia] hp] t' Hk (Hidx & Hl & Hhp & Hia) Hb.
    cbn [fst snd] in *.
    destruct (mask !! k) as [x|] eqn:Hx; [|discriminate Hb].
    cbn [mbind option_bind] in Hb.
    assert (active mask k = (x >? F.fl 0.5)%F) as Hact
      by (unfold active; by rewrite Hx).
    pose proof (nactive_mono mask (S k) xysize ltac:(lia)) as Hmono.
    rewrite nactive_S, Hact in Hmono.
    assert (∀ p, p < k → active mask p = true →
              (nactive mask p ≠ idx)%Z) as Hfresh.
    { intros p Hp Ha. pose proof (nactive_lt mask p k Hp Ha). lia. }
    destruct (x >? F.fl 0.5)%F eqn:Hgt; cbn [andb] in Hb.
    + rewrite bool_decide_eq_true_2 in Hb by lia.
      destruct (wr ia idx (Z.of_nat k)) as [ia'|] eqn:Hia';
        [|discriminate Hb].
      cbn [mbind option_bind] in Hb.
      destruct (wr hp (Z.of_nat k) _) as [hp'|] eqn:Hhp';
        [|discriminate Hb].
      cbn [mbind option_bind] in Hb. injection Hb as <-. cbn [fst snd].
      rewrite nactive_S, Hact. split; [lia|]. split.
      { by rewrite (wr_length _ _ _ _ Hhp'). }
      split.
      * intros p Hp. destruct (decide (p = k)) as [->|Hne].
        -- rewrite <- rd_nat, (rd_wr_eq _ _ _ _ Hhp'), Hact.
           rewrite bool_decide_eq_true_2 by lia. cbn [andb].
           by rewrite Hidx.
        -- rewrite <- rd_nat, (rd_wr_ne _ _ _ _ _ Hhp') by lia.
           rewrite rd_nat, Hhp by done.
           replace (bool_decide (p < S k)) with (bool_decide (p < k)); [done|].
           apply bool_decide_ext. lia.
      * intros p Hp Ha. destruct (decide (p = k)) as [->|Hne].
        -- rewrite <- Hidx. by rewrite (rd_wr_eq _ _ _ _ Hia').
        -- rewrite (rd_wr_ne _ _ _ _ _ Hia') by (apply Hfresh; [lia|done]).
           apply Hia; [lia|done].
    + injection Hb as <-. cbn [fst snd]. rewrite nactive_S, Hact.
      split; [lia|]. split; [done|]. split.
      * intros p Hp. rewrite Hhp by done.
        destruct (decide (p = k)) as [->|Hne].
        -- by rewrite Hact.
        -- replace (bool_decide (p < S k)) with (bool_decide (p < k)); [done|].
           apply bool_decide_ext. lia.
      * intros p Hp Ha. destruct (decide (p = k)) as [->|Hne]; [congruence|].
        apply Hia; [lia|done].
Qed.

(** The modes cube: frame [k] holds, at each active pixel, the entry of
    row [k] of the matrix at the index of the pixel. *)
Lemma write_modes_spec mask (xysize : nat) Hsize ia Hmat (H : Z → Z → Z)
    out0 out :
  write_modes (Z.of_nat xysize) Hsize ia Hmat out0 = Some out →
  (0 ≤ Hsize)%Z → nactive mask xysize = Hsize →
  (∀ p, p < xysize → active mask p = true →
     rd ia (nactive mask p) = Some (Z.of_nat p)) →
  (∀ j i, (0 ≤ i < Hsize)%Z → (0 ≤ j < Hsize)%Z →
     rd Hmat (j * Hsize + i)%Z = Some (H j i)) →
  (∀ k p, (0 ≤ k < Hsize)%Z → p < xysize →
     rd out0 (k * Z.of_nat xysize + Z.of_nat p)%Z = Some F.zero) →
  length out = length out0 ∧
  ∀ k p, (0 ≤ k < Hsize)%Z → p < xysize →
    rd out (k * Z.of_nat xysize + Z.of_nat p)%Z
    = Some (if active mask p then F.of_Z (H k (nactive mask p))
            else F.zero).
Proof.
  intros Hrun HH Hn Hia HHmat H0. unfold write_modes in Hrun.
  set (I := λ (done : Z → nat → bool) (t : list float),
    length t = length out0 ∧
    ∀ k p, (0 ≤ k < Hsize)%Z → p < xysize →
      rd t (k * Z.of_nat xysize + Z.of_nat p)%Z
      = Some (if active mask p && done k p
              then F.of_Z (H k (nactive mask p)) else F.zero)).
  assert (∀ (d1 d2 : Z → nat → bool) t,
    (∀ k p, (0 ≤ k < Hsize)%Z → p < xysize → active mask p = true →
       d1 k p = d2 k p) →
    I d1 t → I d2 t) as Hext.
  { intros d1 d2 t Hd [Hl Ht]. split; [done|]. intros k p Hk Hp.
    rewrite Ht by done. destruct (active mask p) eqn:Ha; [|done].
    by rewrite (Hd k p). }
  apply (for_range_inv (λ kN t, I (λ k _, bool_decide (k < kN)%Z) t))
    in Hrun.
  - destruct Hrun as [Hl Ht]. split; [done|]. intros k p Hk Hp.
    rewrite Ht by done.
    by rewrite bool_decide_eq_true_2, andb_true_r by lia.
  - lia.
  - split; [done|]. intros k p Hk Hp. rewrite H0 by done.
    by rewrite bool_decide_eq_false_2, andb_false_r by lia.
  - intros k t t' Hk HP Hinner.
    apply (for_range_inv (λ iN t,
      I (λ k' p, bool_decide (k' < k ∨ k' = k ∧ nactive mask p < iN)%Z) t))
      in Hinner.
    + revert Hinner. apply Hext. intros k' p Hk' Hp Ha.
      apply bool_decide_ext.
      pose proof (nactive_lt mask p xysize Hp Ha). lia.
    + lia.
    + revert HP. apply Hext. intros k' p Hk' Hp Ha.
      apply bool_decide_ext. pose proof (nactive_nonneg mask p). lia.
    + intros i u u' Hi [Hul Hu] Hb.
      destruct (nactive_surj mask xysize i) as (q & Hq & Hqa & Hqn); [lia|].
      rewrite <- Hqn in Hb at 1. rewrite (Hia q Hq Hqa) in Hb.
      cbn [mbind option_bind] in Hb.
      rewrite HHmat in Hb by lia. cbn [mbind option_bind] in Hb.
      split; [by rewrite (wr_length _ _ _ _ Hb)|].
      intros k' p Hk' Hp.
      destruct (decide ((k', Z.of_nat p) = (k, Z.of_nat q)))
        as [[= -> Hpq]|Hne].
      * apply Nat2Z.inj in Hpq as ->. rewrite (rd_wr_eq _ _ _ _ Hb), Hqa.
        cbn [andb]. rewrite bool_decide_eq_true_2 by lia. by rewrite Hqn.
      * rewrite (rd_wr_ne _ _ _ _ _ Hb)
          by (apply cell_index_ne; [lia | lia | done]).
        rewrite Hu by done. destruct (active mask p) eqn:Ha; [|done].
        cbn [andb].
        replace (bool_decide (k' < k ∨ k' = k ∧ nactive mask p < i + 1)%Z)
          with (bool_decide (k' < k ∨ k' = k ∧ nactive mask p < i)%Z);
          [done|].
        apply bool_decide_ext.
        assert (k' = k → nactive mask p ≠ i) as Hd.
        { intros -> Hpi. apply Hne. f_equal. f_equal.
          apply (nactive_inj mask); [done | done | lia]. }
        lia.
Qed.

(** *** The decoding loops *)

Lemma decode_frame_spec sizewfs NBframes kk kk0 inC had out
    (a : Z → Z → float) (h : Z → float) :
  (0 ≤ sizewfs)%Z → (0 ≤ NBframes)%Z → (0 ≤ kk)%Z →
  ((kk + 1) * sizewfs ≤ Z.of_nat (length out))%Z →
  (∀ kk1 ii, (0 ≤ kk1 < NBframes)%Z → (0 ≤ ii < sizewfs)%Z →
     rd inC (kk1 * sizewfs + ii)%Z = Some (a kk1 ii)) →
  (∀ kk1, (0 ≤ kk1 < NBframes)%Z →
     rd had (kk0 * NBframes + kk1)%Z = Some (h kk1)) →
  ∃ out',
    decode_frame sizewfs NBframes kk kk0 inC had out = Some out' ∧
    length out' = length out ∧
    (∀ ii, (0 ≤ ii < sizewfs)%Z →
       rd out' (kk * sizewfs + ii)%Z
       = Some (accum (Z.to_nat NBframes)
                 (λ kk1, a (Z.of_nat kk1) ii * h (Z.of_nat kk1))%F
                 (default NaN (rd out (kk * sizewfs + ii)%Z)))) ∧
    (∀ i, ¬ (kk * sizewfs ≤ i < (kk + 1) * sizewfs)%Z → rd out' i = rd out i).
Proof.
  intros Hsw HN Hkk Hlen Hin Hhad. unfold decode_frame.
  set (f := λ ii (kk1 : nat), (a (Z.of_nat kk1) ii * h (Z.of_nat kk1))%F).
  set (I := λ (cnt : Z → Z) (t : list float),
    length t = length out ∧
    (∀ ii, (0 ≤ ii < sizewfs)%Z →
       rd t (kk * sizewfs + ii)%Z
       = Some (accum (Z.to_nat (cnt ii)) (f ii)
                 (default NaN (rd out (kk * sizewfs + ii)%Z)))) ∧
    (∀ i, ¬ (kk * sizewfs ≤ i < (kk + 1) * sizewfs)%Z → rd t i = rd out i)).
  assert (∀ (c1 c2 : Z → Z) t,
    (∀ ii, (0 ≤ ii < sizewfs)%Z → c1 ii = c2 ii) → I c1 t → I c2 t) as Hext.
  { intros c1 c2 t Hc (Hl & Ht & Ho). split; [done|]. split; [|done].
    intros ii Hii. rewrite Ht by done. by rewrite (Hc ii). }
  destruct (for_range_total (λ n t, I (λ _, n) t) 0 NBframes
    (λ kk1 out,
       for_range 0 sizewfs (λ ii out,
         acc ← rd out (kk * sizewfs + ii)%Z;
         a ← rd inC (kk1 * sizewfs + ii)%Z;
         h ← rd had (kk0 * NBframes + kk1)%Z;
         wr out (kk * sizewfs + ii)%Z (acc + a * h)%F) out) out)
    as (out' & Hrun & HP); [done | | | by exists out'].
  - split; [done|]. split; [|done]. intros ii Hii. cbn [accum Z.to_nat].
    destruct (rd_is_Some out (kk * sizewfs + ii)%Z) as [x Hx]; [nia|].
    by rewrite Hx.
  - intros n t Hn HPn.
    destruct (for_range_total
      (λ m t, I (λ ii, if decide (ii < m)%Z then n + 1 else n)%Z t)
      0 sizewfs
      (λ ii out,
         acc ← rd out (kk * sizewfs + ii)%Z;
         a ← rd inC (n * sizewfs + ii)%Z;
         h ← rd had (kk0 * NBframes + n)%Z;
         wr out (kk * sizewfs + ii)%Z (acc + a * h)%F) t)
      as (t' & Ht' & HQ); [done | | |].
    + revert HPn. apply Hext. intros ii Hii. by rewrite decide_False by lia.
    + intros m u Hm (Hul & Hu & Huo).
      rewrite Hu by done. cbn [mbind option_bind].
      rewrite Hin, Hhad by lia. cbn [mbind option_bind].
      rewrite decide_False by lia.
      match goal with
      | |- ∃ t', wr u ?i ?v = Some t' ∧ _ =>
          destruct (wr_is_Some u i v) as [u' Hu']; [rewrite Hul; nia|]
      end.
      exists u'. split; [done|]. split; [by rewrite (wr_length _ _ _ _ Hu')|].
      split.
      * intros ii Hii. destruct (decide (ii = m)) as [->|Hne].
        -- rewrite (rd_wr_eq _ _ _ _ Hu'). rewrite decide_True by lia.
           replace (Z.to_nat (n + 1)) with (S (Z.to_nat n)) by lia.
           cbn [accum]. unfold f. by rewrite Z2Nat.id by lia.
        -- rewrite (rd_wr_ne _ _ _ _ _ Hu') by lia. rewrite Hu by done.
           do 3 f_equal. repeat case_decide; lia.
      * intros i Hi. rewrite (rd_wr_ne _ _ _ _ _ Hu') by nia. by apply Huo.
    + exists t'. split; [done|]. revert HQ. apply Hext.
      intros ii Hii. by rewrite decide_True by lia.
Qed.

(** The cube that [AOloopControl_Hadamard_decodeRM] returns, when the
    index image selects the row [k0 kk] of the matrix for frame [kk]. *)
Lemma decodeRM_spec sizewfs N inC had zsizeout index
    (a : Z → Z → float) (hm : Z → Z → float) (k0 : Z → Z) :
  (0 ≤ sizewfs)%Z → (0 ≤ N)%Z → (0 ≤ zsizeout)%Z →
  (∀ kk1 ii, (0 ≤ kk1 < N)%Z → (0 ≤ ii < sizewfs)%Z →
     rd inC (kk1 * sizewfs + ii)%Z = Some (a kk1 ii)) →
  (∀ kk, (0 ≤ kk < zsizeout)%Z →
     ∃ x, rd index kk = Some x ∧
          F.to_long (x + F.fl 0.1)%F = Some (k0 kk) ∧ (k0 kk < N)%Z) →
  (∀ j i, (0 ≤ j < N)%Z → (0 ≤ i < N)%Z →
     rd had (j * N + i)%Z = Some (hm j i)) →
  ∃ dec,
    AOloopControl_Hadamard_decodeRM sizewfs N inC N N had zsizeout index
    = Some (Done dec) ∧
    length dec = Z.to_nat (zsizeout * sizewfs) ∧
    ∀ kk ii, (0 ≤ kk < zsizeout)%Z → (0 ≤ ii < sizewfs)%Z →
      rd dec (kk * sizewfs + ii)%Z
      = Some ((if decide (k0 kk > -1)%Z
               then accum (Z.to_nat N)
                      (λ kk1, a (Z.of_nat kk1) ii
                              * hm (k0 kk) (Z.of_nat kk1))%F F.zero
               else F.zero) / F.of_Z N)%F.
Proof.
  intros Hsw HN Hzs Hin Hidx Hhad.
  unfold AOloopControl_Hadamard_decodeRM. rewrite decide_False by lia.
  set (W := λ kk ii,
    if decide (k0 kk > -1)%Z
    then accum (Z.to_nat N)
           (λ kk1, a (Z.of_nat kk1) ii * hm (k0 kk) (Z.of_nat kk1))%F F.zero
    else F.zero).
  destruct (for_range_total (λ n t,
    length t = Z.to_nat (zsizeout * sizewfs) ∧
    ∀ kk ii, (0 ≤ kk < zsizeout)%Z → (0 ≤ ii < sizewfs)%Z →
      rd t (kk * sizewfs + ii)%Z
      = Some (if decide (kk < n)%Z then W kk ii else F.zero))
    0 zsizeout
    (λ kk out,
       x ← rd index kk;
       kk0 ← F.to_long (x + F.fl 0.1)%F;
       if decide (kk0 > -1)%Z
       then decode_frame sizewfs N kk kk0 inC had out
       else Some out)
    (zeros (Z.to_nat (zsizeout * sizewfs)))) as (t1 & Ht1 & Hl1 & Hv1).
  - done.
  - split; [unfold zeros; by rewrite length_replicate|].
    intros kk ii Hkk Hii. rewrite decide_False by lia.
    unfold rd, zeros. rewrite decide_True by nia.
    apply lookup_replicate_2. nia.
  - intros n t Hn [Hl Hv].
    destruct (Hidx n Hn) as (x & Hx & Hlong & Hlt).
    rewrite Hx. cbn [mbind option_bind]. rewrite Hlong.
    cbn [mbind option_bind]. case_decide as Hpos.
    + destruct (decode_frame_spec sizewfs N n (k0 n) inC had t a
        (hm (k0 n))) as (t' & Ht' & Hl' & Hrow & Hrest);
        [lia | lia | lia | rewrite Hl; nia | done
        | intros; apply Hhad; lia |].
      exists t'. split; [done|]. split; [congruence|].
      intros kk ii Hkk Hii. destruct (decide (kk = n)) as [->|Hne].
      * rewrite Hrow by done. rewrite Hv by lia.
        rewrite decide_False by lia. rewrite decide_True by lia.
        unfold W. by rewrite decide_True by done.
      * rewrite Hrest by nia. rewrite Hv by done.
        repeat case_decide; (done || lia).
    + exists t. split; [done|]. split; [done|].
      intros kk ii Hkk Hii. rewrite Hv by done.
      destruct (decide (kk = n)) as [->|Hne].
      * rewrite decide_False by lia. rewrite decide_True by lia.
        unfold W. by rewrite decide_False by done.
      * repeat case_decide; (done || lia).
  - rewrite Ht1. cbn [mbind option_bind].
    destruct (grid_fill (λ kk ii, kk * sizewfs + ii)%Z 0 zsizeout 0 sizewfs
      (λ kk ii out,
         v ← rd out (kk * sizewfs + ii)%Z;
         wr out (kk * sizewfs + ii)%Z (v / F.of_Z N)%F)
      (λ kk ii, W kk ii / F.of_Z N)%F t1)
      as (dec & Hrun & Hlen & Hout & _); [lia | lia | | |].
    + intros k j k' j' Hk Hj Hk' Hj' Heq.
      destruct (decide ((k, j) = (k', j'))) as [[= -> ->]|Hne]; [done|].
      by apply (cell_index_ne sizewfs k j k' j') in Hne.
    + intros k j t Hk Hj Hlt Hcell.
      rewrite Hcell, Hv1 by done. rewrite decide_True by lia.
      cbn [mbind option_bind].
      match goal with
      | |- ∃ t', wr t ?i ?v = Some t' ∧ _ =>
          destruct (wr_is_Some t i v) as [t' Ht']; [rewrite Hlt, Hl1; nia|]
      end.
      exists t'. split; [done|]. split; [by rewrite (wr_length _ _ _ _ Ht')|].
      split; [by rewrite (rd_wr_eq _ _ _ _ Ht')|].
      intros i Hi. by rewrite (rd_wr_ne _ _ _ _ _ Ht').
    + rewrite Hrun. cbn [mbind option_bind]. exists dec.
      split; [done|]. split; [congruence|].
      intros kk ii Hkk Hii. by rewrite Hout.
Qed.

(** *** Values that are integers *)

Lemma F_of_Z_add a b : (F.of_Z a + F.of_Z b)%F = F.of_Z (a + b).
Proof.
  unfold F.of_Z. cbn [F.add F.lift2]. f_equal. qc_to_q.
  unfold Qeq, Qplus. cbn [Qnum Qden]. lia.
Qed.

Lemma F_of_Z_mul a b : (F.of_Z a * F.of_Z b)%F = F.of_Z (a * b).
Proof.
  unfold F.of_Z. cbn [F.mul F.lift2]. f_equal. qc_to_q.
  unfold Qeq, Qmult. cbn [Qnum Qden]. lia.
Qed.

Lemma F_one_mul_of_Z n : (F.fl 1.0 * F.of_Z n)%F = F.of_Z n.
Proof.
  unfold F.of_Z, F.fl. cbn [F.mul F.lift2]. f_equal. qc_to_q.
  unfold Qeq, Qmult. cbn [Qnum Qden]. lia.
Qed.

Lemma accum_of_Z n (x y : nat → Z) :
  accum n (λ i, F.of_Z (x i) * F.of_Z (y i))%F F.zero
  = F.of_Z (zsum n (λ i, x i * y i)%Z).
Proof.
  induction n as [|n IH]; [done|]. cbn [accum zsum].
  by rewrite IH, F_of_Z_mul, F_of_Z_add.
Qed.

Lemma F_of_Z_div_self n : n ≠ 0%Z → (F.of_Z n / F.of_Z n)%F = F.one.
Proof.
  intros Hn. unfold F.of_Z, F.one, F.div. case_decide as Hz.
  - exfalso. apply Qc_eq_Qeq in Hz. cbn [this Q2Qc] in Hz.
    rewrite !Qred_correct in Hz. unfold Qeq in Hz. cbn in Hz. lia.
  - apply (f_equal Fin). unfold Qcdiv. change (Q2Qc (inject_Z 1)) with 1%Qc.
    by apply Qcmult_inv_r.
Qed.

Lemma F_zero_div n : n ≠ 0%Z → (F.zero / F.of_Z n)%F = F.zero.
Proof.
  intros Hn. unfold F.zero, F.of_Z, F.div. case_decide as Hz.
  - exfalso. apply Qc_eq_Qeq in Hz. cbn [this Q2Qc] in Hz.
    rewrite !Qred_correct in Hz. unfold Qeq in Hz. cbn in Hz. lia.
  - apply (f_equal Fin). unfold Qcdiv. change (Q2Qc (inject_Z 0)) with 0%Qc.
    ring.
Qed.

(** Truncation is a function of the value of a fraction. *)
Lemma Qtrunc_eq (q q' : Q) :
  q == q' →
  (Qnum q ÷ Z.pos (Qden q) = Qnum q' ÷ Z.pos (Qden q'))%Z.
Proof.
  unfold Qeq. intros H.
  rewrite <- (Z.quot_mul_cancel_r (Qnum q) (Z.pos (Qden q))
                (Z.pos (Qden q'))) by lia.
  rewrite <- (Z.quot_mul_cancel_r (Qnum q') (Z.pos (Qden q'))
                (Z.pos (Qden q))) by lia.
  rewrite H. f_equal. lia.
Qed.

(** [(long) (1.0 * index + 0.1)] is [index]. *)
Lemma to_long_index n :
  (0 ≤ n < 2 ^ 63)%Z →
  F.to_long (F.fl 1.0 * F.of_Z n + F.fl 0.1)%F = Some n.
Proof.
  intros Hn. rewrite F_one_mul_of_Z. unfold F.of_Z, F.fl.
  cbn [F.add F.lift2 F.to_long].
  assert (this (Q2Qc (inject_Z n) + Q2Qc 0.1)%Qc == (10 * n + 1) # 10) as Heq.
  { unfold Qcplus. cbn [this Q2Qc]. rewrite !Qred_correct.
    unfold Qeq, Qplus. cbn [Qnum Qden inject_Z]. lia. }
  rewrite (Qtrunc_eq _ _ Heq). cbn [Qnum Qden].
  replace ((10 * n + 1) ÷ 10)%Z with n.
  - by rewrite decide_True by lia.
  - rewrite Z.quot_div_nonneg by lia. Z.div_mod_to_equations. lia.
Qed.

Lemma to_long_off : F.to_long (F.fl (-10.0) + F.fl 0.1)%F = Some (-9)%Z.
Proof. reflexivity. Qed.

(** *** The modes cube and its decoding *)

(** What a call of [AOloopControl_mkHadamardModes] that returns has
    computed. *)
Lemma mkHadamardModes_inv mask xysize garbage r :
  AOloopControl_mkHadamardModes mask xysize garbage = Some r →
  ∃ (P : nat) index ia Hmat,
    Hsize r = (2 ^ Z.of_nat P)%Z ∧ P ≤ 63 ∧
    nactive mask xysize = Hsize r ∧
    index_pixels mask xysize (Hsize r) = Some (index, ia, Hpixindex r) ∧
    (∀ j i, (0 ≤ i < Hsize r)%Z → (0 ≤ j < Hsize r)%Z →
       rd Hmat (j * Hsize r + i)%Z = Some (entry P j i)) ∧
    Htest r = map F.of_Z Hmat ∧
    write_modes (Z.of_nat xysize) (Hsize r) ia Hmat
      (zeros (xysize * Z.to_nat (Hsize r))) = Some (out r).
Proof.
  intros H. unfold AOloopControl_mkHadamardModes in H.
  destruct (count_active mask xysize) as [cnt|] eqn:Hcnt; [|discriminate H].
  cbn [mbind option_bind] in H.
  destruct (grow 64 1 0 cnt) as [[Hs n2max]|] eqn:Hgrow; [|discriminate H].
  cbn [mbind option_bind] in H.
  destruct (index_pixels mask xysize Hs)
    as [[[index ia] hp]|] eqn:Hidx; [|discriminate H].
  cbn [mbind option_bind] in H. case_decide as Hg; [|discriminate H].
  destruct (sylvester _ _ _) as [[n2 Hmat]|] eqn:Hsyl; [|discriminate H].
  cbn [mbind option_bind] in H.
  destruct (write_modes _ _ _ _ _) as [o|] eqn:Hout; [|discriminate H].
  cbn [mbind option_bind] in H. injection H as <-.
  cbn [Hsize Hpixindex Htest out].
  destruct (grow_power _ _ _ _ _ _ Hgrow) as (Hn & HH & Hle); [lia|].
  rewrite Z.mul_1_l, Z.sub_0_r in HH.
  pose proof (grow_fuel _ _ _ _ _ _ Hgrow) as Hfuel.
  pose proof (count_active_nactive _ _ _ Hcnt) as Hc.
  destruct (index_pixels_unset _ _ _ _ _ _ Hidx) as [Hi Hunset]; [lia|].
  pose proof (nactive_nonneg mask xysize) as Hnn.
  assert (cnt = Hs) as Heq.
  { destruct (decide (cnt = Hs)) as [|Hne]; [done|]. exfalso.
    rewrite (write_modes_fault _ _ _ _ _ cnt) in Hout;
      [done | lia |]. apply Hunset. lia. }
  set (P := Z.to_nat n2max).
  assert (Hs = 2 ^ Z.of_nat P)%Z as HP by (subst P; by rewrite Z2Nat.id by lia).
  assert (n2max + 1 = Z.of_nat P + 1)%Z as HPn by (subst P; lia).
  rewrite HPn in Hsyl.
  destruct (sylvester_matrix P garbage) as (Hmat' & Hsyl' & _ & Hent).
  { by rewrite <- HP. }
  cbv zeta in Hsyl', Hent. rewrite <- HP in Hsyl', Hent.
  rewrite Hsyl in Hsyl'. injection Hsyl' as _ <-.
  exists P, index, ia, Hmat. split; [done|]. split; [subst P; lia|].
  split; [congruence|]. split; [done|]. split; [done|]. done.
Qed.

End decode.

(** X19. [AOloopControl_Hadamard_decodeRM] applied to the cube of
    modes, the matrix [Htest] and the image [Hpixindex] that
    [AOloopControl_mkHadamardModes] made gives back the pokes of the
    single actuators: the frame of an active pixel [kk] is 1 at [kk]
    and 0 at the other pixels, and the frame of a pixel outside the
    mask is 0. *)
Theorem hadamard_decode_pokes (mask : list float) (xysize : nat)
    (garbage : list Z) (r : HAD.modes) :
  HAD.AOloopControl_mkHadamardModes mask xysize garbage = Some r →
  ∃ dec,
    DEC.AOloopControl_Hadamard_decodeRM (Z.of_nat xysize) (HAD.Hsize r)
      (HAD.out r) (HAD.Hsize r) (HAD.Hsize r) (HAD.Htest r)
      (Z.of_nat xysize) (HAD.Hpixindex r) = Some (DEC.Done dec) ∧
    length dec = xysize * xysize ∧
    ∀ kk ii, kk < xysize → ii < xysize →
      rd dec (Z.of_nat kk * Z.of_nat xysize + Z.of_nat ii)
      = Some (if HAD.active mask kk && bool_decide (ii = kk)
              then F.one else F.zero).
Proof.
  intros Hr.
  destruct (mkHadamardModes_inv _ _ _ _ Hr)
    as (P & index & ia & Hmat & HP & HP63 & Hn & Hidx & Hent & Htest & Hout).
  set (N := HAD.Hsize r) in *.
  assert (0 < N)%Z as HN by (rewrite HP; lia).
  assert (N ≤ 2 ^ 63)%Z as HN63.
  { rewrite HP. apply Z.pow_le_mono_r; lia. }
  destruct (index_pixels_spec _ _ _ _ _ _ Hidx) as (Hhl & Hhp & Hia); [lia|].
  destruct (write_modes_spec mask xysize N ia Hmat (HAD.entry P) _ _ Hout)
    as [Hol Hov]; [lia | done | done | done | |].
  { intros k p Hk Hp. unfold rd, zeros. rewrite decide_True by nia.
    apply lookup_replicate_2. nia. }
  set (x := λ (ii : nat) (kk1 : Z),
    if HAD.active mask ii then HAD.entry P kk1 (HAD.nactive mask ii)
    else 0%Z).
  destruct (decodeRM_spec (Z.of_nat xysize) N (HAD.out r) (HAD.Htest r)
    (Z.of_nat xysize) (HAD.Hpixindex r)
    (λ kk1 ii, F.of_Z (x (Z.to_nat ii) kk1))
    (λ j i, F.of_Z (HAD.entry P j i))
    (λ kk, if HAD.active mask (Z.to_nat kk)
           then HAD.nactive mask (Z.to_nat kk) else (-9)%Z))
    as (dec & Hdec & Hdl & Hdv); [lia | lia | lia | | | |].
  - intros kk1 ii Hkk1 Hii.
    pose proof (Hov kk1 (Z.to_nat ii) ltac:(lia) ltac:(lia)) as Hv.
    rewrite Z2Nat.id in Hv by lia. rewrite Hv. unfold x.
    by destruct (HAD.active mask _).
  - intros kk Hkk.
    pose proof (Hhp (Z.to_nat kk) ltac:(lia)) as Hv.
    rewrite <- rd_nat, Z2Nat.id in Hv by lia. rewrite Hv.
    destruct (HAD.active mask (Z.to_nat kk)) eqn:Ha.
    + eexists. split; [done|]. 
      pose proof (nactive_lt mask (Z.to_nat kk) xysize ltac:(lia) Ha).
      pose proof (nactive_nonneg mask (Z.to_nat kk)).
      split; [apply to_long_index; lia | lia].
    + eexists. split; [done|]. split; [apply to_long_off | lia].
  - intros j i Hj Hi. rewrite Htest. unfold rd. rewrite decide_True by nia.
    rewrite list_lookup_fmap.
    specialize (Hent j i Hi Hj). unfold rd in Hent.
    rewrite decide_True in Hent by nia. by rewrite Hent.
  - exists dec. split; [done|]. split; [rewrite Hdl; lia|].
    intros kk ii Hkk Hii. rewrite Hdv by lia. f_equal.
    rewrite !Nat2Z.id.
    destruct (HAD.active mask kk) eqn:Ha; cbn [andb].
    + pose proof (nactive_lt mask kk xysize Hkk Ha).
      pose proof (nactive_nonneg mask kk).
      rewrite decide_True by lia.
      rewrite (accum_of_Z _ (x ii ∘ Z.of_nat)
                 (HAD.entry P (HAD.nactive mask kk) ∘ Z.of_nat)).
      unfold x, compose. destruct (HAD.active mask ii) eqn:Hai.
      * pose proof (nactive_lt mask ii xysize Hii Hai).
        pose proof (nactive_nonneg mask ii).
        rewrite (zsum_ext _ _
          (λ i, HAD.entry P (HAD.nactive mask ii) (Z.of_nat i)
                * HAD.entry P (HAD.nactive mask kk) (Z.of_nat i))%Z)
          by (intros i _; by rewrite (entry_sym P (Z.of_nat i))).
        rewrite HP, entry_orthogonal by lia. rewrite <- HP.
        case_decide as Heq.
        -- apply nactive_inj in Heq as ->; [|done..].
           rewrite bool_decide_eq_true_2 by done.
           apply F_of_Z_div_self. lia.
        -- rewrite bool_decide_eq_false_2 by congruence.
           apply F_zero_div. lia.
      * rewrite (zsum_scale _ 0 _). rewrite Z.mul_0_l.
        rewrite bool_decide_eq_false_2 by congruence.
        apply F_zero_div. lia.
    + rewrite decide_False by lia. apply F_zero_div. lia.
Qed.

Lemma hadamard_decode_pokes_witness :
  ∃ r dec,
    HAD.AOloopControl_mkHadamardModes [F.fl 1; F.fl 0; F.fl 1] 3
      (replicate 4 0%Z) = Some r ∧
    DEC.AOloopControl_Hadamard_decodeRM 3 (HAD.Hsize r) (HAD.out r)
      (HAD.Hsize r) (HAD.Hsize r) (HAD.Htest r) 3 (HAD.Hpixindex r)
    = Some (DEC.Done dec) ∧
    rd dec 0 = Some F.one ∧ rd dec 2 = Some F.zero ∧
    rd dec 4 = Some F.zero ∧ rd dec 8 = Some F.one.
Proof.
  destruct (HAD.AOloopControl_mkHadamardModes [F.fl 1; F.fl 0; F.fl 1] 3
    (replicate 4 0%Z)) as [r|] eqn:E;
    [|exfalso; vm_compute in E; discriminate E].
  destruct (hadamard_decode_pokes _ _ _ r E) as (dec & Hdec & _ & Hv).
  exists r, dec. split; [reflexivity|]. split; [exact Hdec|].
  split; [exact (Hv 0 0 ltac:(lia) ltac:(lia))|].
  split; [exact (Hv 0 2 ltac:(lia) ltac:(lia))|].
  split; [exact (Hv 1 1 ltac:(lia) ltac:(lia))|].
  exact (Hv 2 2 ltac:(lia) ltac:(lia)).
Defined.

(** ** [AOloopControl_set_modeblock_gain] *)

Section modeblock.
Import CMG.

Lemma copy_into_lookup dst src n l :
  copy_into dst src n = Some l →
  length l = length dst ∧
  (∀ ii, (Z.of_nat ii < n)%Z → l !! ii = src !! ii) ∧
  (∀ ii, (n ≤ Z.of_nat ii)%Z → l !! ii = dst !! ii).
Proof.
  unfold copy_into. case_decide as H; [|done]. intros [= <-].
  split; [|split].
  - rewrite length_app, length_take, length_drop. lia.
  - intros ii Hii. rewrite lookup_app_l by (rewrite length_take; lia).
    apply lookup_take_lt. lia.
  - intros ii Hii. rewrite lookup_app_r by (rewrite length_take; lia).
    rewrite length_take, lookup_drop. f_equal. lia.
Qed.

Lemma copy_into_total dst src n :
  (0 ≤ n ≤ Z.of_nat (length src))%Z → (n ≤ Z.of_nat (length dst))%Z →
  is_Some (copy_into dst src n).
Proof. intros. unfold copy_into. rewrite decide_True by lia. eauto. Qed.

Lemma add_block_spec g M n acc :
  (0 ≤ n ≤ Z.of_nat (length M))%Z → (n ≤ Z.of_nat (length acc))%Z →
  ∃ acc',
    add_block g M n acc = Some acc' ∧ length acc' = length acc ∧
    (∀ ii a, (Z.of_nat ii < n)%Z → acc !! ii = Some a →
       acc' !! ii = Some (a + g * default NaN (M !! ii))%F) ∧
    (∀ ii, (n ≤ Z.of_nat ii)%Z → acc' !! ii = acc !! ii).
Proof.
  intros HM Hacc. unfold add_block.
  destruct (for_range_total (λ k t,
    length t = length acc ∧
    (∀ ii a, (Z.of_nat ii < k)%Z → acc !! ii = Some a →
       t !! ii = Some (a + g * default NaN (M !! ii))%F) ∧
    (∀ ii, (k ≤ Z.of_nat ii)%Z → t !! ii = acc !! ii))
    0 n (λ ii acc, a ← rd acc ii; m ← rd M ii; wr acc ii (a + g * m)%F) acc)
    as (acc' & Hrun & HP); [lia | | | by exists acc'].
  - split; [done|]. split; [intros; lia | done].
  - intros k t Hk (Hl & Hlo & Hhi).
    destruct (rd_is_Some t k) as [a Ha]; [lia|].
    destruct (rd_is_Some M k) as [m Hm]; [lia|].
    rewrite Ha, Hm. cbn [mbind option_bind].
    destruct (wr_is_Some t k (a + g * m)%F) as [t' Ht']; [lia|].
    exists t'. split; [done|]. split; [by rewrite (wr_length _ _ _ _ Ht')|].
    apply wr_Some in Ht' as [_ ->].
    unfold rd in Ha, Hm. rewrite decide_True in Ha, Hm by lia.
    split.
    + intros ii a' Hii Ha'. destruct (decide (ii = Z.to_nat k)) as [->|Hne].
      * rewrite list_lookup_insert_eq by lia.
        rewrite Hhi in Ha by lia. rewrite Ha in Ha'. injection Ha' as <-.
        by rewrite Hm.
      * rewrite list_lookup_insert_ne by done. apply Hlo; [lia|done].
    + intros ii Hii. rewrite list_lookup_insert_ne by lia. apply Hhi. lia.
Qed.

Lemma combine_spec c gainb :
  (0 ≤ DMmodesNBblock c ≤ Z.of_nat (length gainb))%Z →
  (0 ≤ sizeMc c)%Z → (0 ≤ sizeMcact c)%Z →
  (∀ k, (0 ≤ k < DMmodesNBblock c)%Z →
     ∃ M Ma, blocksMc c !! Z.to_nat k = Some M ∧
             blocksMcact c !! Z.to_nat k = Some Ma ∧
             (sizeMc c ≤ Z.of_nat (length M))%Z ∧
             (sizeMcact c ≤ Z.of_nat (length Ma))%Z) →
  ∃ Mc0 Mcact0,
    combine c gainb = Some (Mc0, Mcact0) ∧
    length Mc0 = Z.to_nat (sizeMc c) ∧
    length Mcact0 = Z.to_nat (sizeMcact c) ∧
    (∀ ii, (Z.of_nat ii < sizeMc c)%Z →
       Mc0 !! ii
       = Some (combined gainb (blocksMc c) ii
                 (Z.to_nat (DMmodesNBblock c)))) ∧
    (∀ ii, (Z.of_nat ii < sizeMcact c)%Z →
       Mcact0 !! ii
       = Some (combined gainb (blocksMcact c) ii
                 (Z.to_nat (DMmodesNBblock c)))).
Proof.
  intros HNB Hs Hsa Hblocks. unfold combine.
  destruct (for_range_total (λ k (acc : list float * list float),
    length acc.1 = Z.to_nat (sizeMc c) ∧
    length acc.2 = Z.to_nat (sizeMcact c) ∧
    (∀ ii, (Z.of_nat ii < sizeMc c)%Z →
       acc.1 !! ii = Some (combined gainb (blocksMc c) ii (Z.to_nat k))) ∧
    (∀ ii, (Z.of_nat ii < sizeMcact c)%Z →
       acc.2 !! ii = Some (combined gainb (blocksMcact c) ii (Z.to_nat k))))
    0 (DMmodesNBblock c)
    (λ kk acc,
       g ← rd gainb kk;
       if (g >? eps)%F then
         M ← rd (blocksMc c) kk;
         Mc0 ← add_block g M (sizeMc c) acc.1;
         Ma ← rd (blocksMcact c) kk;
         Mcact0 ← add_block g Ma (sizeMcact c) acc.2;
         Some (Mc0, Mcact0)
       else Some acc)
    (zeros (Z.to_nat (sizeMc c)), zeros (Z.to_nat (sizeMcact c))))
    as ([Mc0 Mcact0] & Hrun & HP); [lia | | | by exists Mc0, Mcact0].
  - cbn [fst snd]. unfold zeros. rewrite !length_replicate.
    split; [done|]. split; [done|].
    split; intros ii Hii; apply lookup_replicate_2; lia.
  - intros k [a1 a2] Hk (Hl1 & Hl2 & Hv1 & Hv2). cbn [fst snd] in *.
    destruct (rd_is_Some gainb k) as [g Hg]; [lia|].
    destruct (Hblocks k Hk) as (M & Ma & HM & HMa & HlM & HlMa).
    rewrite Hg. cbn [mbind option_bind].
    unfold rd in Hg. rewrite decide_True in Hg by lia.
    replace (Z.to_nat (k + 1)) with (S (Z.to_nat k)) by lia.
    destruct (g >? eps)%F eqn:Hgt.
    + unfold rd. rewrite !decide_True by lia. rewrite HM.
      cbn [mbind option_bind].
      destruct (add_block_spec g M (sizeMc c) a1)
        as (a1' & Ha1 & Hl1' & Hin1 & _); [lia | lia |].
      rewrite Ha1. cbn [mbind option_bind]. rewrite HMa.
      cbn [mbind option_bind].
      destruct (add_block_spec g Ma (sizeMcact c) a2)
        as (a2' & Ha2 & Hl2' & Hin2 & _); [lia | lia |].
      rewrite Ha2. cbn [mbind option_bind].
      exists (a1', a2'). split; [done|]. cbn [fst snd].
      split; [congruence|]. split; [congruence|].
      split; intros ii Hii; cbn [combined].
      * rewrite Hg, HM, Hgt. by apply Hin1; [|apply Hv1].
      * rewrite Hg, HMa, Hgt. by apply Hin2; [|apply Hv2].
    + exists (a1, a2). split; [done|]. cbn [fst snd].
      split; [done|]. split; [done|].
      split; intros ii Hii; cbn [combined].
      * rewrite Hg, HM, Hgt. by apply Hv1.
      * rewrite Hg, HMa, Hgt. by apply Hv2.
Qed.

(** With no gain above [eps] the sum is zero. *)
Lemma combined_no_gain gainb blocks ii n :
  (∀ k g, k < n → gainb !! k = Some g → (g >? eps)%F = false) →
  combined gainb blocks ii n = F.zero.
Proof.
  induction n as [|n IH]; intros Hg; [done|]. cbn [combined].
  rewrite IH by (intros k g ? ?; apply (Hg k g); [lia|done]).
  destruct (gainb !! n) as [g|] eqn:Hgn; [|done].
  destruct (blocks !! n); [|done]. by rewrite (Hg n g) by (lia || done).
Qed.

End modeblock.

(** X22. [AOloopControl_set_modeblock_gain] with fewer than
    two blocks ignores its gain: it leaves [gainb] as it is and copies
    the matrix of block 0 into the combined matrix.  With two blocks or
    more it stores the gain of a block that exists, and with [add = 1]
    rebuilds the combined matrix as the sum of the matrices of the
    blocks times their gains, leaving out every block whose gain is
    not above 1e-6, a negative gain included; with no gain above 1e-6
    the combined matrix is zero.  With another [add] the combined
    matrix is not touched. *)
Theorem modeblock_gain_matrix (c : CMG.conf) (blocknb : Z) (gain : float)
    (add : Z) (s : CMG.state) :
  (0 ≤ CMG.DMmodesNBblock c ≤ Z.of_nat (length (CMG.gainb s)))%Z →
  (0 ≤ CMG.sizeMc c ≤ Z.of_nat (length (CMG.contrMc s)))%Z →
  (0 ≤ CMG.sizeMcact c ≤ Z.of_nat (length (CMG.contrMcact s)))%Z →
  (∀ k, (0 ≤ k < Z.max 1 (CMG.DMmodesNBblock c))%Z →
     ∃ M Ma, CMG.blocksMc c !! Z.to_nat k = Some M ∧
             CMG.blocksMcact c !! Z.to_nat k = Some Ma ∧
             (CMG.sizeMc c ≤ Z.of_nat (length M))%Z ∧
             (CMG.sizeMcact c ≤ Z.of_nat (length Ma))%Z) →
  ∃ s',
    CMG.AOloopControl_set_modeblock_gain c blocknb gain add s = Some s' ∧
    ((CMG.DMmodesNBblock c < 2)%Z →
     CMG.gainb s' = CMG.gainb s ∧
     ∃ M, CMG.blocksMc c !! 0 = Some M ∧
       ∀ ii, (Z.of_nat ii < CMG.sizeMc c)%Z →
         CMG.contrMc s' !! ii = M !! ii) ∧
    ((2 ≤ CMG.DMmodesNBblock c)%Z →
     CMG.gainb s'
     = (if decide (0 ≤ blocknb < CMG.DMmodesNBblock c)%Z
        then <[Z.to_nat blocknb := gain]> (CMG.gainb s)
        else CMG.gainb s) ∧
     (add ≠ 1%Z →
      CMG.contrMc s' = CMG.contrMc s ∧
      CMG.contrMcact s' = CMG.contrMcact s) ∧
     (add = 1%Z →
      (∀ ii, (Z.of_nat ii < CMG.sizeMc c)%Z →
         CMG.contrMc s' !! ii
         = Some (CMG.combined (CMG.gainb s') (CMG.blocksMc c) ii
                   (Z.to_nat (CMG.DMmodesNBblock c)))) ∧
      ((∀ k g, (Z.of_nat k < CMG.DMmodesNBblock c)%Z →
          CMG.gainb s' !! k = Some g → (g >? CMG.eps)%F = false) →
       ∀ ii, (Z.of_nat ii < CMG.sizeMc c)%Z →
         CMG.contrMc s' !! ii = Some F.zero))).
Proof.
  intros HNB Hs Hsa Hblocks.
  unfold CMG.AOloopControl_set_modeblock_gain.
  destruct (decide (CMG.DMmodesNBblock c < 2)%Z) as [Hone|Hmany].
  - destruct (Hblocks 0%Z) as (M & Ma & HM & HMa & HlM & HlMa); [lia|].
    change (Z.to_nat 0) with 0 in HM, HMa.
    unfold rd. rewrite !decide_True by lia. change (Z.to_nat 0) with 0.
    rewrite HM. cbn [mbind option_bind].
    destruct (copy_into_total (CMG.contrMc s) M (CMG.sizeMc c))
      as [Mc HMc]; [lia | lia |].
    rewrite HMc. cbn [mbind option_bind]. rewrite HMa.
    cbn [mbind option_bind].
    destruct (copy_into_total (CMG.contrMcact s) Ma (CMG.sizeMcact c))
      as [Mca HMca]; [lia | lia |].
    rewrite HMca. cbn [mbind option_bind].
    eexists. split; [done|]. cbn [CMG.gainb CMG.contrMc]. split; [|lia].
    intros _. split; [done|]. exists M. split; [done|].
    intros ii Hii. by apply (copy_into_lookup _ _ _ _ HMc).
  - set (gainb' := if decide (0 ≤ blocknb < CMG.DMmodesNBblock c)%Z
                   then <[Z.to_nat blocknb := gain]> (CMG.gainb s)
                   else CMG.gainb s).
    assert ((if decide (blocknb < CMG.DMmodesNBblock c ∧ blocknb > -1)%Z
             then wr (CMG.gainb s) blocknb gain
             else Some (CMG.gainb s)) = Some gainb') as ->.
    { subst gainb'. unfold wr. repeat case_decide; (done || lia). }
    cbn [mbind option_bind].
    assert (length gainb' = length (CMG.gainb s)) as Hgl.
    { subst gainb'. case_decide; [by rewrite length_insert | done]. }
    destruct (decide (add = 1)%Z) as [Hadd|Hadd].
    + destruct (combine_spec c gainb')
        as (Mc0 & Mcact0 & Hcomb & Hl0 & Hla0 & Hv & _);
        [lia | lia | lia | intros k Hk; apply Hblocks; lia |].
      rewrite Hcomb. cbn [mbind option_bind].
      destruct (copy_into_total (CMG.contrMc s) Mc0 (CMG.sizeMc c))
        as [Mc HMc]; [lia | lia |].
      rewrite HMc. cbn [mbind option_bind].
      destruct (copy_into_total (CMG.contrMcact s) Mcact0 (CMG.sizeMcact c))
        as [Mca HMca]; [lia | lia |].
      rewrite HMca. cbn [mbind option_bind].
      eexists. split; [done|]. cbn [CMG.gainb CMG.contrMc CMG.contrMcact].
      split; [lia|]. intros _. split; [done|]. split; [done|].
      intros _.
      assert (∀ ii, (Z.of_nat ii < CMG.sizeMc c)%Z →
        Mc !! ii = Some (CMG.combined gainb' (CMG.blocksMc c) ii
                           (Z.to_nat (CMG.DMmodesNBblock c)))) as Hres.
      { intros ii Hii.
        rewrite (proj1 (proj2 (copy_into_lookup _ _ _ _ HMc))) by done.
        by apply Hv. }
      split; [done|]. intros Hnone ii Hii. rewrite Hres by done.
      f_equal. apply combined_no_gain. intros k g Hk.
      apply Hnone. lia.
    + eexists. split; [done|]. cbn [CMG.gainb CMG.contrMc CMG.contrMcact].
      split; [lia|]. intros _. split; [done|]. split; [done|]. done.
Qed.

Lemma modeblock_gain_matrix_witness :
  let c := {| CMG.DMmodesNBblock := 2; CMG.sizeMc := 2; CMG.sizeMcact := 1;
              CMG.blocksMc := [[F.fl 2; F.fl 4]; [F.fl 10; F.fl 20]];
              CMG.blocksMcact := [[F.fl 2]; [F.fl 10]] |} in
  let s := {| CMG.gainb := [F.fl 0.5; F.fl 0.5];
              CMG.contrMc := [F.fl 6; F.fl 12];
              CMG.contrMcact := [F.fl 6] |} in
  ∃ s',
    CMG.AOloopControl_set_modeblock_gain c 1 (F.fl (-1)) 1 s = Some s' ∧
    CMG.gainb s' = [F.fl 0.5; F.fl (-1)] ∧
    CMG.contrMc s' !! 1
    = Some (CMG.combined [F.fl 0.5; F.fl (-1)] (CMG.blocksMc c) 1 2).
Proof.
  intros c s.
  destruct (modeblock_gain_matrix c 1 (F.fl (-1)) 1 s)
    as (s' & Hrun & _ & Hmany).
  - cbn. lia.
  - cbn. lia.
  - cbn. lia.
  - intros k Hk. cbn in Hk.
    assert (k = 0 ∨ k = 1)%Z as [-> | ->] by lia.
    + exists [F.fl 2; F.fl 4], [F.fl 2]. cbn. repeat split; lia.
    + exists [F.fl 10; F.fl 20], [F.fl 10]. cbn. repeat split; lia.
  - destruct Hmany as (Hg & _ & Hadd); [cbn; lia|].
    destruct (Hadd eq_refl) as [Hv _].
    exists s'. split; [exact Hrun|]. split; [exact Hg|].
    pose proof (Hv 1 ltac:(cbn; lia)) as H1. rewrite Hg in H1. exact H1.
Defined.

(** ** [compute_CombinedControlMatrix] *)

Section combined.
Import CCM.

Lemma memcpy_prefix {A} (src : list A) n l :
  RCF.memcpy src 0 n = Some l →
  length l = n ∧ ∀ i, i < n → l !! i = src !! i.
Proof.
  unfold RCF.memcpy. case_decide as H; [|done]. intros [= <-].
  change (Z.to_nat 0) with 0. rewrite drop_0.
  split; [rewrite length_take; lia|].
  intros i Hi. by apply lookup_take_lt.
Qed.

Lemma memcpy_total {A} (src : list A) n :
  n ≤ length src → is_Some (RCF.memcpy src 0 n).
Proof. intros. unfold RCF.memcpy. rewrite decide_True by lia. eauto. Qed.

(** The sum that a loop with an accumulator computes. *)
Lemma for_n_accum n (f : nat → option float) (g : nat → float) acc :
  (∀ k, k < n → f k = Some (g k)) →
  for_n n (λ k a, x ← f k; Some (a + x)%F) acc
  = Some (DEC.accum n g acc).
Proof.
  induction n as [|n IH]; intros Hf; [done|].
  rewrite for_n_S, IH by (intros; apply Hf; lia).
  cbn [mbind option_bind DEC.accum]. by rewrite Hf by lia.
Qed.

Lemma multiply_spec (NB sizeDM sizeWFS : nat) cmp D Mc0 :
  NB * sizeWFS ≤ length cmp → NB * sizeDM ≤ length D →
  length Mc0 = sizeWFS * sizeDM →
  ∃ Mc,
    multiply (Z.of_nat NB) (Z.of_nat sizeDM) (Z.of_nat sizeWFS) cmp D Mc0
    = Some Mc ∧
    length Mc = length Mc0 ∧
    ∀ act w, act < sizeDM → w < sizeWFS →
      Mc !! (act * sizeWFS + w)
      = Some (DEC.accum NB
                (λ k, default NaN (cmp !! (k * sizeWFS + w)%nat)
                      * default NaN (D !! (k * sizeDM + act)%nat))%F
                (default NaN (Mc0 !! (act * sizeWFS + w)))).
Proof.
  intros Hc HD Hl. unfold multiply.
  set (term := λ act w (k : nat),
    (default NaN (cmp !! (k * sizeWFS + w)%nat)
     * default NaN (D !! (k * sizeDM + act)%nat))%F).
  destruct (for_range_total (λ n t,
    length t = length Mc0 ∧
    ∀ act w, act < sizeDM → w < sizeWFS →
      t !! (act * sizeWFS + w)
      = Some (DEC.accum (Z.to_nat n) (term act w)
                (default NaN (Mc0 !! (act * sizeWFS + w)))))
    0 (Z.of_nat NB)
    (λ mode Mc,
       for_range 0 (Z.of_nat sizeDM) (λ act Mc,
         for_range 0 (Z.of_nat sizeWFS) (λ wfselem Mc,
           acc ← rd Mc (act * Z.of_nat sizeWFS + wfselem)%Z;
           c ← rd cmp (mode * Z.of_nat sizeWFS + wfselem)%Z;
           d ← rd D (mode * Z.of_nat sizeDM + act)%Z;
           wr Mc (act * Z.of_nat sizeWFS + wfselem)%Z (acc + c * d)%F) Mc)
         Mc) Mc0) as (Mc & Hrun & HlM & Hv).
  - lia.
  - split; [done|]. intros act w Ha Hw. cbn [DEC.accum Z.to_nat].
    destruct (lookup_lt_is_Some_2 Mc0 (act * sizeWFS + w)) as [x Hx]; [nia|].
    by rewrite Hx.
  - intros n t Hn [Hlt Ht].
    destruct (grid_fill (λ act w, act * Z.of_nat sizeWFS + w)%Z
      0 (Z.of_nat sizeDM) 0 (Z.of_nat sizeWFS)
      (λ act wfselem Mc,
         acc ← rd Mc (act * Z.of_nat sizeWFS + wfselem)%Z;
         c ← rd cmp (n * Z.of_nat sizeWFS + wfselem)%Z;
         d ← rd D (n * Z.of_nat sizeDM + act)%Z;
         wr Mc (act * Z.of_nat sizeWFS + wfselem)%Z (acc + c * d)%F)
      (λ act w,
         DEC.accum (Z.to_nat (n + 1)) (term (Z.to_nat act) (Z.to_nat w))
           (default NaN (Mc0 !! (Z.to_nat act * sizeWFS + Z.to_nat w)))) t)
      as (t' & Ht' & Hl' & Hout & _); [lia | lia | | |].
    + intros k j k' j' Hk Hj Hk' Hj' Heq.
      destruct (decide ((k, j) = (k', j'))) as [[= -> ->]|Hne]; [done|].
      by apply (cell_index_ne (Z.of_nat sizeWFS) k j k' j') in Hne.
    + intros act w u Hact Hw Hul Hcell.
      assert (rd u (act * Z.of_nat sizeWFS + w)%Z
              = Some (DEC.accum (Z.to_nat n)
                        (term (Z.to_nat act) (Z.to_nat w))
                        (default NaN (Mc0 !! (Z.to_nat act * sizeWFS
                                               + Z.to_nat w))))) as Hacc.
      { rewrite Hcell. unfold rd. rewrite decide_True by nia.
        replace (Z.to_nat (act * Z.of_nat sizeWFS + w))
          with (Z.to_nat act * sizeWFS + Z.to_nat w) by nia.
        apply Ht; lia. }
      rewrite Hacc. cbn [mbind option_bind].
      destruct (rd_is_Some cmp (n * Z.of_nat sizeWFS + w)%Z) as [c Hcv];
        [nia|].
      destruct (rd_is_Some D (n * Z.of_nat sizeDM + act)%Z) as [d Hdv];
        [nia|].
      rewrite Hcv, Hdv. cbn [mbind option_bind].
      match goal with
      | |- ∃ t', wr u ?i ?v = Some t' ∧ _ =>
          destruct (wr_is_Some u i v) as [u' Hu']; [rewrite Hul, Hlt, Hl; nia|]
      end.
      exists u'. split; [done|]. split; [by rewrite (wr_length _ _ _ _ Hu')|].
      split.
      * rewrite (rd_wr_eq _ _ _ _ Hu').
        replace (Z.to_nat (n + 1)) with (S (Z.to_nat n)) by lia.
        cbn [DEC.accum]. unfold term.
        unfold rd in Hcv, Hdv.
        rewrite decide_True in Hcv by nia. rewrite decide_True in Hdv by nia.
        replace (Z.to_nat n * sizeWFS + Z.to_nat w)
          with (Z.to_nat (n * Z.of_nat sizeWFS + w)) by nia.
        replace (Z.to_nat n * sizeDM + Z.to_nat act)
          with (Z.to_nat (n * Z.of_nat sizeDM + act)) by nia.
        by rewrite Hcv, Hdv.
      * intros i Hi. by rewrite (rd_wr_ne _ _ _ _ _ Hu').
    + exists t'. split; [done|]. split; [congruence|].
      intros act w Ha Hw.
      pose proof (Hout (Z.of_nat act) (Z.of_nat w) ltac:(lia) ltac:(lia))
        as Hcell.
      rewrite !Nat2Z.id in Hcell. rewrite <- Hcell.
      unfold rd. rewrite decide_True by nia. f_equal. nia.
  - exists Mc. split; [done|]. split; [done|].
    intros act w Ha Hw. rewrite Hv by done. by rewrite Nat2Z.id.
Qed.

Lemma modes_to_DM_accum e cmd (c : nat → float) :
  (∀ k, k < RUN.NBDMmodes e → cmd !! k = Some (c k)) →
  RUN.NBDMmodes e * RUN.sizeDM e ≤ length (RUN.DMmodes e) →
  ∃ arrayf,
    RUN.modes_to_DM e cmd = Some arrayf ∧
    ∀ i, i < RUN.sizeDM e →
      arrayf !! i
      = Some (DEC.accum (RUN.NBDMmodes e)
                (λ k, c k * default NaN
                              (RUN.DMmodes e !! (k * RUN.sizeDM e + i)%nat))%F
                F.zero).
Proof.
  intros Hcmd HD. unfold RUN.modes_to_DM.
  assert (∀ i, i < RUN.sizeDM e → ∀ n, n ≤ RUN.NBDMmodes e →
    for_n n (λ k acc,
      cm ← cmd !! k;
      d ← RUN.DMmodes e !! (k * RUN.sizeDM e + i);
      Some (acc + cm * d)%F) F.zero
    = Some (DEC.accum n
              (λ k, c k * default NaN
                            (RUN.DMmodes e !! (k * RUN.sizeDM e + i)%nat))%F
              F.zero)) as Hsum.
  { intros i Hi n. induction n as [|n IH]; intros Hn; [done|].
    rewrite for_n_S, IH by lia. cbn [mbind option_bind DEC.accum].
    rewrite Hcmd by lia. cbn [mbind option_bind].
    destruct (lookup_lt_is_Some_2 (RUN.DMmodes e) (n * RUN.sizeDM e + i))
      as [d Hd]; [nia|].
    by rewrite Hd. }
  destruct (tabulate_is_Some (RUN.sizeDM e) (λ i,
    for_n (RUN.NBDMmodes e) (λ k acc,
      cm ← cmd !! k;
      d ← RUN.DMmodes e !! (k * RUN.sizeDM e + i);
      Some (acc + cm * d)%F) F.zero)) as [arrayf Harr].
  { intros i Hi. rewrite Hsum by (done || lia). eauto. }
  exists arrayf. split; [done|]. intros i Hi.
  destruct (tabulate_lookup _ _ _ i Harr Hi) as (v & Hv & ->).
  by rewrite Hsum in Hv by (done || lia).
Qed.

Lemma accum_ext n f g acc :
  (∀ k, k < n → f k = g k) → DEC.accum n f acc = DEC.accum n g acc.
Proof.
  induction n as [|n IH]; intros H; [done|]. cbn [DEC.accum].
  rewrite IH by (intros; apply H; lia). by rewrite H by lia.
Qed.

Lemma column_lookup NB sizeWFS cmat w k :
  k < NB →
  column NB sizeWFS cmat w !! k
  = Some (default NaN (cmat !! (k * sizeWFS + w))).
Proof.
  intros Hk. unfold column. rewrite list_lookup_fmap.
  by rewrite lookup_seq_lt by done.
Qed.

End combined.

(** X23. The combined control matrix that
    [compute_CombinedControlMatrix] builds for the 1-step mode agrees
    with the 2-step mode: its column for a WFS pixel is the actuator
    vector that [set_DM_modes] computes from the modal coefficients
    that the modal control matrix holds for this pixel, added in the
    same order.  The function reads [NBDMmodes * sizeWFS] elements of
    the modal matrix and [NBDMmodes * sizeDM] elements of the modes. *)
Theorem combined_matrix_columns (e : RUN.env) (sizeWFS : nat)
    (cmat : list float) :
  RUN.NBDMmodes e * sizeWFS ≤ length cmat →
  RUN.NBDMmodes e * RUN.sizeDM e ≤ length (RUN.DMmodes e) →
  ∃ Mc,
    CCM.compute_CombinedControlMatrix sizeWFS (RUN.sizeDM e)
      (RUN.NBDMmodes e) cmat (RUN.DMmodes e) = Some Mc ∧
    length Mc = sizeWFS * RUN.sizeDM e ∧
    ∀ w, w < sizeWFS →
      ∃ arrayf,
        RUN.modes_to_DM e (CCM.column (RUN.NBDMmodes e) sizeWFS cmat w)
        = Some arrayf ∧
        ∀ act, act < RUN.sizeDM e →
          Mc !! (act * sizeWFS + w) = arrayf !! act.
Proof.
  intros Hc HD. unfold CCM.compute_CombinedControlMatrix.
  destruct (memcpy_total (zeros (sizeWFS * RUN.sizeDM e))
    (sizeWFS * RUN.sizeDM e)) as [Mc0 HMc0].
  { unfold zeros. by rewrite length_replicate. }
  destruct (memcpy_total cmat (sizeWFS * RUN.NBDMmodes e)) as [cmp Hcmp];
    [lia|].
  destruct (memcpy_total (RUN.DMmodes e) (RUN.NBDMmodes e * RUN.sizeDM e))
    as [D HDm]; [lia|].
  rewrite HMc0, Hcmp, HDm. cbn [mbind option_bind].
  destruct (memcpy_prefix _ _ _ HMc0) as [Hl0 Hv0].
  destruct (memcpy_prefix _ _ _ Hcmp) as [Hlc Hvc].
  destruct (memcpy_prefix _ _ _ HDm) as [HlD HvD].
  destruct (multiply_spec (RUN.NBDMmodes e) (RUN.sizeDM e) sizeWFS cmp D Mc0)
    as (Mc & HMc & HlMc & HvMc); [lia | lia | done |].
  rewrite HMc. cbn [mbind option_bind].
  destruct (memcpy_total Mc (sizeWFS * RUN.sizeDM e)) as [out Hout]; [lia|].
  rewrite Hout. destruct (memcpy_prefix _ _ _ Hout) as [Hlo Hvo].
  exists out. split; [done|]. split; [done|].
  intros w Hw.
  destruct (modes_to_DM_accum e
    (CCM.column (RUN.NBDMmodes e) sizeWFS cmat w)
    (λ k, default NaN (cmat !! (k * sizeWFS + w)))) as (arrayf & Harr & Hva).
  { intros k Hk. by apply column_lookup. }
  { done. }
  exists arrayf. split; [done|]. intros act Hact.
  rewrite Hvo by nia. rewrite HvMc by done. rewrite Hva by done.
  f_equal. rewrite Hv0 by nia. unfold zeros.
  rewrite lookup_replicate_2 by nia. cbn [default].
  apply accum_ext. intros k Hk. by rewrite Hvc, HvD by nia.
Qed.

Lemma combined_matrix_columns_witness :
  ∃ Mc arrayf,
    CCM.compute_CombinedControlMatrix 2 3 2
      [F.fl 1; F.fl 2; F.fl 3; F.fl 4] (RUN.DMmodes (Ex.run_env 0 1))
    = Some Mc ∧
    RUN.modes_to_DM (Ex.run_env 0 1) [F.fl 2; F.fl 4] = Some arrayf ∧
    Mc !! 1 = arrayf !! 0 ∧ Mc !! 5 = arrayf !! 2.
Proof.
  destruct (combined_matrix_columns (Ex.run_env 0 1) 2
    [F.fl 1; F.fl 2; F.fl 3; F.fl 4]) as (Mc & HMc & _ & Hcol).
  - cbn. lia.
  - cbn. lia.
  - destruct (Hcol 1) as (arrayf & Harr & Hv); [lia|].
    exists Mc, arrayf. split; [exact HMc|]. split; [exact Harr|].
    split; [exact (Hv 0 ltac:(cbn; lia)) | exact (Hv 2 ltac:(cbn; lia))].
Defined.
